(** * Diamond-square heightmap generator ([experiments/fractal.py])

    A shallow embedding of the class [CoastlineGenerator] and the
    properties of its diamond-square core.

    - Python [int]s are [Z].
    - Python and numpy floats are the elements of a type [F] with the
      operations of the class [Num], and the engine is written once, for
      any such type.  The instance is [binary64]: IEEE 754 double
      precision on Rocq's primitive floats, what CPython and numpy
      compute.  Properties of the structure of a run (which cells are read
      and written, in which order, how many passes, how many draws) are
      proved for every instance; properties of the values are proved for
      [binary64], every operation rounded to nearest, ties to even.
    - The numpy array [self.heightmap] is a list of rows; indexing follows
      numpy (a negative index counts from the end, anything else out of
      range raises [IndexError]).
    - The module-global generator behind [random.random()] is a tape of
      draws and a position on it.
    - Methods are computations in a state-and-exception monad over the
      [World]: the engine object, the global generator, and a ghost
      [trace] that records the assignments to cells of the heightmap and
      the passes of the main loop.  The trace is written and never read
      ([obl_generate_coastline]). *)

From Stdlib Require Import ZArith QArith Qround Qabs Lqa Floats Uint63 List Lia Bool.
From stdpp Require Import base list.
Import ListNotations.
Local Open Scope Z_scope.

(** ** Python exceptions *)

Inductive exn : Type :=
| IndexError          (* array index out of range *)
| ZeroDivisionError   (* int / int with a zero divisor *)
| ValueError          (* int(nan); numpy: negative dimensions, array too big, min of empty *)
| OverflowError       (* int(inf), integer out of bounds for uint8 *)
| MemoryError         (* numpy could not allocate the array *)
| OutOfFuel.          (* not a Python exception: the loop budget of the model *)

(** ** Float arithmetic *)

Class Num (F : Type) : Type := {
  of_int : Z -> F;              (* float(k) for a Python int k *)
  fadd : F -> F -> F;
  fsub : F -> F -> F;
  fmul : F -> F -> F;
  fdiv : F -> F -> F;           (* numpy division: x/0 is nan or inf *)
  flt : F -> F -> bool;         (* x < y *)
  fle : F -> F -> bool;         (* x <= y *)
  isnan : F -> bool;
  to_int : F -> exn + Z         (* int(x): truncation toward zero *)
}.

Declare Scope num_scope.
Delimit Scope num_scope with num.
Infix "+" := fadd : num_scope.
Infix "-" := fsub : num_scope.
Infix "*" := fmul : num_scope.
Infix "/" := fdiv : num_scope.
Infix "<?" := flt : num_scope.
Infix "<=?" := fle : num_scope.

(** A decimal literal [n/d] of the source, e.g. [0.6] is [lit 6 10]. *)
Definition lit {F} `{Num F} (n d : Z) : F := (of_int n / of_int d)%num.

(** *** IEEE 754 binary64 *)

Definition float_of_int (z : Z) : float :=
  if z <? 0 then PrimFloat.opp (PrimFloat.of_uint63 (Uint63.of_Z (- z)))
  else PrimFloat.of_uint63 (Uint63.of_Z z).

Definition float_to_int (x : float) : exn + Z :=
  match Prim2SF x with
  | S754_zero _ => inr 0
  | S754_infinity _ => inl OverflowError
  | S754_nan => inl ValueError
  | S754_finite s m e =>
      let v := if 0 <=? e then Z.pos m * 2 ^ e else Z.pos m / 2 ^ (- e) in
      inr (if s then - v else v)
  end.

#[export] Instance binary64 : Num float := {
  of_int := float_of_int;
  fadd := PrimFloat.add;
  fsub := PrimFloat.sub;
  fmul := PrimFloat.mul;
  fdiv := PrimFloat.div;
  flt := PrimFloat.ltb;
  fle := PrimFloat.leb;
  isnan := PrimFloat.is_nan;
  to_int := float_to_int
}.

(** ** Python [range] *)

Definition range (start stop step : Z) : list Z :=
  if 0 <? step then
    map (fun k => start + Z.of_nat k * step)
        (seq 0 (Z.to_nat ((stop - start + step - 1) / step)))
  else if step <? 0 then
    map (fun k => start + Z.of_nat k * step)
        (seq 0 (Z.to_nat ((start - stop - step - 1) / (- step))))
  else [].   (* range() with step 0 is a ValueError; the engine never asks *)

(** numpy index normalisation along an axis of length [len]. *)
Definition norm_index (len i : Z) : option nat :=
  if (0 <=? i) && (i <? len) then Some (Z.to_nat i)
  else if (- len <=? i) && (i <? 0) then Some (Z.to_nat (i + len))
  else None.

(** ** Two-dimensional numpy arrays *)

Abbreviation grid A := (list (list A)).

Definition nrows {A} (a : grid A) : Z := Z.of_nat (length a).

(** Row and column addressed by [a[i, j]], when in range. *)
Definition locate {A} (a : grid A) (i j : Z) : option (nat * nat) :=
  match norm_index (nrows a) i with
  | None => None
  | Some r =>
      match a !! r with
      | None => None
      | Some row =>
          match norm_index (Z.of_nat (length row)) j with
          | None => None
          | Some c => Some (r, c)
          end
      end
  end.

Definition cell {A} (a : grid A) (r c : nat) : option A :=
  match a !! r with Some row => row !! c | None => None end.

Definition grid_get {A} (a : grid A) (i j : Z) : option A :=
  match locate a i j with
  | Some (r, c) => cell a r c
  | None => None
  end.

Definition grid_set {A} (a : grid A) (r c : nat) (v : A) : grid A :=
  match a !! r with
  | Some row => <[r := <[c := v]> row]> a
  | None => a
  end.

Section Engine.

Context {F : Type} `{Num F}.

Local Open Scope num_scope.

(** [self.heightmap] is such an array of floats. *)
Local Abbreviation ndarray := (grid F).

(** [np.zeros((n, m))] *)
Definition np_zeros (n m : Z) : ndarray :=
  replicate (Z.to_nat n) (replicate (Z.to_nat m) (of_int 0)).

(** [np.minimum] and [np.maximum] on scalars, as numpy's loops have them:
    a nan wins, and of two equal values (zeros of opposite sign) the later
    one is kept. *)
Definition np_minimum (a b : F) : F := if (a <? b) || isnan a then a else b.
Definition np_maximum (a b : F) : F := if (b <? a) || isnan a then a else b.

Definition reduce (op : F -> F -> F) (a : ndarray) : option F :=
  match concat a with
  | [] => None
  | v :: vs => Some (fold_left op vs v)
  end.

(** ** The world *)

Record CoastlineGenerator : Type := {
  self_size : Z;
  self_heightmap : ndarray;
  self_roughness : F;
  self_sea_level : F
}.

(** State of the [random] module: the draws it will return, and how many
    have been consumed. *)
Record rng : Type := { tape : nat -> F; pos : nat }.

Inductive event : Type :=
| EvWrite (y x : nat)      (* a cell of the heightmap was assigned *)
| EvPass (step_size : Z).  (* the body of the main loop was entered *)

Record World : Type := {
  self : CoastlineGenerator;
  random : rng;
  trace : list event   (* ghost: oldest event first *)
}.

Inductive Outcome (A : Type) : Type :=
| Ok (a : A) (w : World)
| Raise (e : exn) (w : World).
Arguments Ok {A} a w.
Arguments Raise {A} e w.

Definition M (A : Type) : Type := World -> Outcome A.

Definition ret {A} (a : A) : M A := fun w => Ok a w.
Definition raise {A} (e : exn) : M A := fun w => Raise e w.
Definition bind {A B} (m : M A) (k : A -> M B) : M B :=
  fun w => match m w with
           | Ok a w' => k a w'
           | Raise e w' => Raise e w'
           end.

Notation "x <- m ;; k" := (bind m (fun x => k))
  (at level 100, m at next level, right associativity).

(** [for x in xs: body x] *)
Fixpoint for_ {A} (xs : list A) (body : A -> M unit) : M unit :=
  match xs with
  | [] => ret tt
  | x :: xs' => _ <- body x ;; for_ xs' body
  end.

Definition get_self : M CoastlineGenerator := fun w => Ok (self w) w.

(** The three ways the world changes. *)
Definition advance (w : World) : World :=
  {| self := self w;
     random := {| tape := tape (random w); pos := S (pos (random w)) |};
     trace := trace w |}.

Definition with_heightmap (a : ndarray) (w : World) : World :=
  {| self := {| self_size := self_size (self w);
                self_heightmap := a;
                self_roughness := self_roughness (self w);
                self_sea_level := self_sea_level (self w) |};
     random := random w;
     trace := trace w |}.

Definition record (e : event) (w : World) : World :=
  {| self := self w; random := random w; trace := trace w ++ [e] |}.

Definition log (e : event) : M unit := fun w => Ok tt (record e w).

(** [random.random()] *)
Definition random_random : M F :=
  fun w => Ok (tape (random w) (pos (random w))) (advance w).

(** [self.heightmap[i, j]] *)
Definition getitem (i j : Z) : M F :=
  s <- get_self ;;
  match grid_get (self_heightmap s) i j with
  | Some v => ret v
  | None => raise IndexError
  end.

(** [self.heightmap[i, j] = v] *)
Definition setitem (i j : Z) (v : F) : M unit :=
  fun w =>
    match locate (self_heightmap (self w)) i j with
    | None => Raise IndexError w
    | Some (r, c) =>
        Ok tt (record (EvWrite r c)
                 (with_heightmap (grid_set (self_heightmap (self w)) r c v) w))
    end.

(** [self.heightmap = a] *)
Definition set_heightmap (a : ndarray) : M unit :=
  fun w => Ok tt (with_heightmap a w).

(** ** [CoastlineGenerator.__init__] (lines 6-11)

    The source comments that the size must be [2^n + 1]; nothing checks
    it.  The only failures are those of [np.zeros((size, size))], an array
    of [8 * size * size] bytes: numpy refuses a negative dimension and an
    array of more than [2^63 - 1] bytes with a [ValueError], and raises
    [MemoryError] when the host does not provide the memory.  [mem] is the
    number of bytes that the host grants. *)

(** The attributes as the constructor leaves them. *)
Definition blank (size : Z) : CoastlineGenerator :=
  {| self_size := size;
     self_heightmap := np_zeros size size;
     self_roughness := lit 6 10;
     self_sea_level := lit 4 10 |}.

Definition np_zeros_error (mem size : Z) : option exn :=
  if (size <? 0)%Z then Some ValueError                        (* negative dimensions *)
  else if (2 ^ 63 - 1 <? 8 * size * size)%Z then Some ValueError  (* array is too big *)
  else if (mem <? 8 * size * size)%Z then Some MemoryError
  else None.

Definition __init__ (mem size : Z) : exn + CoastlineGenerator :=
  match np_zeros_error mem size with
  | Some e => inl e
  | None => inr (blank size)
  end.

(** ** [CoastlineGenerator._get_random_offset] (lines 13-15) *)

Definition random_offset (u current_range roughness : F) : F :=
  (u - lit 5 10) * current_range * roughness.

Definition _get_random_offset (current_range : F) : M F :=
  u <- random_random ;;
  s <- get_self ;;
  ret (random_offset u current_range (self_roughness s)).

(** ** [CoastlineGenerator.diamond_square] (lines 17-68) *)

(** Lines 19-22: the four corners, each a fresh draw. *)
Definition init_corners : M unit :=
  u <- random_random ;; _ <- setitem 0 0 u ;;
  u <- random_random ;; _ <- setitem 0 (-1) u ;;
  u <- random_random ;; _ <- setitem (-1) 0 u ;;
  u <- random_random ;; setitem (-1) (-1) u.

(** Lines 34-42: the body of the diamond step at [(y, x)]. *)
Definition diamond_point (step_size half_step : Z) (range_size : F) (y x : Z) : M unit :=
  a <- getitem y x ;;
  b <- getitem (y + step_size)%Z x ;;
  c <- getitem y (x + step_size)%Z ;;
  d <- getitem (y + step_size)%Z (x + step_size)%Z ;;
  let avg := (a + b + c + d) / of_int 4 in
  off <- _get_random_offset range_size ;;
  setitem (y + half_step)%Z (x + half_step)%Z (avg + off).

(** Lines 31-42. *)
Definition diamond_step (step_size half_step : Z) (range_size : F) : M unit :=
  s <- get_self ;;
  for_ (range 0 (self_size s - 1) step_size) (fun y =>
    for_ (range 0 (self_size s - 1) step_size) (fun x =>
      diamond_point step_size half_step range_size y x)).

(** Lines 47-62: the four bounds-checked directions of the square step.
    [acc] is the pair of the running sum [avg] and of [count]; a direction
    that is in bounds adds its cell to the sum and one to the count. *)
Definition add_neighbor (in_bounds : bool) (i j : Z) (acc : F * Z) : M (F * Z) :=
  if in_bounds then
    v <- getitem i j ;; ret (fst acc + v, (snd acc + 1)%Z)
  else ret acc.

Definition square_neighbors (half_step y x : Z) : M (F * Z) :=
  s <- get_self ;;
  let size := self_size s in
  acc <- add_neighbor (y >=? half_step)%Z (y - half_step)%Z x (of_int 0, 0%Z) ;;   (* top *)
  acc <- add_neighbor (y + half_step <? size)%Z (y + half_step)%Z x acc ;;        (* bottom *)
  acc <- add_neighbor (x >=? half_step)%Z y (x - half_step)%Z acc ;;              (* left *)
  acc <- add_neighbor (x + half_step <? size)%Z y (x + half_step)%Z acc ;;        (* right *)
  ret acc.

(** Line 64, [avg /= count]: with no neighbour [avg] is still the int [0],
    and [0 / 0] on Python ints raises. *)
Definition average (avg : F) (count : Z) : M F :=
  if (count =? 0)%Z then raise ZeroDivisionError
  else ret (avg / of_int count).

(** Lines 47-65: the body of the square step at [(y, x)]. *)
Definition square_point (half_step : Z) (range_size : F) (y x : Z) : M unit :=
  acc <- square_neighbors half_step y x ;;
  avg <- average (fst acc) (snd acc) ;;
  off <- _get_random_offset range_size ;;
  setitem y x (avg + off).

(** Lines 45-65. *)
Definition square_step (step_size half_step : Z) (range_size : F) : M unit :=
  s <- get_self ;;
  for_ (range 0 (self_size s) half_step) (fun y =>
    for_ (range ((y + half_step) mod step_size) (self_size s) step_size) (fun x =>
      square_point half_step range_size y x)).

(** Lines 27-68, [while step_size > 1: ...].  [fuel] bounds the number of
    passes; [diamond_square] gives more than the loop can use (theorem
    [main_loop_terminates]). *)
Fixpoint main_loop (fuel : nat) (step_size : Z) (range_size : F) : M unit :=
  if (step_size >? 1)%Z then
    match fuel with
    | O => raise OutOfFuel
    | S fuel' =>
        _ <- log (EvPass step_size) ;;
        let half_step := (step_size / 2)%Z in
        _ <- diamond_step step_size half_step range_size ;;
        _ <- square_step step_size half_step range_size ;;
        main_loop fuel' (step_size / 2)%Z (range_size * lit 5 10)
    end
  else ret tt.

Definition diamond_square : M unit :=
  _ <- init_corners ;;
  s <- get_self ;;
  let step_size := (self_size s - 1)%Z in
  let range_size := of_int 1 in
  main_loop (Z.to_nat (self_size s)) step_size range_size.

(** ** [CoastlineGenerator.generate_coastline] (lines 70-97) *)

(** [np.min(a)], [np.max(a)]: reductions over all cells in row-major
    order; numpy refuses an empty array. *)
Definition np_min (a : ndarray) : M F :=
  match reduce np_minimum a with
  | Some v => ret v
  | None => raise ValueError
  end.

Definition np_max (a : ndarray) : M F :=
  match reduce np_maximum a with
  | Some v => ret v
  | None => raise ValueError
  end.

(** [(a - min_val) / (max_val - min_val)], broadcast over the array.
    numpy does not raise on a zero divisor: the cell becomes nan or inf. *)
Definition rescale (a : ndarray) (min_val max_val : F) : ndarray :=
  map (map (fun v => (v - min_val) / (max_val - min_val))) a.

(** Lines 74-76. *)
Definition normalize : M unit :=
  s <- get_self ;;
  min_val <- np_min (self_heightmap s) ;;
  s <- get_self ;;
  max_val <- np_max (self_heightmap s) ;;
  s <- get_self ;;
  set_heightmap (rescale (self_heightmap s) min_val max_val).

(** A pixel of the [uint8] image array. *)
Definition rgb : Type := (Z * Z * Z)%type.

(** [int(x)] *)
Definition py_int (x : F) : M Z :=
  match to_int x with
  | inr z => ret z
  | inl e => raise e
  end.

(** Storing a Python int into a [uint8] array: out of bounds is an error
    in NumPy 2 (earlier versions wrap around).  No run gets there: the
    channels computed from a height in [[0, 1]] are within bounds
    ([color_val]), and a nan height fails before, in [int]. *)
Definition uint8 (z : Z) : M Z :=
  if ((0 <=? z) && (z <=? 255))%Z then ret z else raise OverflowError.

Definition make_pixel (r g b : Z) : M rgb :=
  r <- uint8 r ;; g <- uint8 g ;; b <- uint8 b ;; ret (r, g, b).

(** Lines 84-95: the colour of one cell. *)
Definition color (height : F) : M rgb :=
  s <- get_self ;;
  if height <? self_sea_level s then
    let depth_factor := height / self_sea_level s in
    blue <- py_int (of_int 150 + of_int 105 * depth_factor) ;;
    green <- py_int (of_int 150 + of_int 75 * depth_factor) ;;
    make_pixel 0 green blue
  else
    let land_factor := (height - self_sea_level s) / (of_int 1 - self_sea_level s) in
    green <- py_int (of_int 180 - of_int 60 * land_factor) ;;
    red <- py_int (of_int 50 * land_factor) ;;
    make_pixel (100 + red)%Z green 50.

(** [for x in xs: ...] around a local variable [acc] of the method. *)
Fixpoint fold_for {A S} (xs : list A) (body : A -> S -> M S) (acc : S) : M S :=
  match xs with
  | [] => ret acc
  | x :: xs' => acc' <- body x acc ;; fold_for xs' body acc'
  end.

(** [image_array[y, x] = px] *)
Definition image_set (image_array : grid rgb) (y x : Z) (px : rgb) : M (grid rgb) :=
  match locate image_array y x with
  | Some (r, c) => ret (grid_set image_array r c px)
  | None => raise IndexError
  end.

(** Lines 79-95: the image array, filled cell by cell; the heightmap is
    only read. *)
Definition color_mapping : M (grid rgb) :=
  s <- get_self ;;
  let image_array :=
    replicate (Z.to_nat (self_size s)) (replicate (Z.to_nat (self_size s)) (0, 0, 0)%Z) in
  fold_for (range 0 (self_size s) 1) (fun y image_array =>
    fold_for (range 0 (self_size s) 1) (fun x image_array =>
      height <- getitem y x ;;
      px <- color height ;;
      image_set image_array y x px) image_array) image_array.

(** Returns the image ([Image.fromarray] wraps the pixel array). *)
Definition generate_coastline : M (grid rgb) :=
  _ <- diamond_square ;;
  _ <- normalize ;;
  color_mapping.

End Engine.

Arguments CoastlineGenerator : clear implicits.
Arguments rng : clear implicits.
Arguments World : clear implicits.
Arguments Outcome : clear implicits.
Arguments M : clear implicits.
Arguments Ok {F A} a w.
Arguments Raise {F A} e w.

(** The world in which a freshly constructed engine starts, and the world
    in which a call ends (normally or not). *)
Definition start {F} (g : CoastlineGenerator F) (r : rng F) : World F :=
  {| self := g; random := r; trace := [] |}.

Definition final {F A} (o : Outcome F A) : World F :=
  match o with Ok _ w => w | Raise _ w => w end.

(** * Vocabulary of the properties *)

(** The sizes the specification accepts: [size - 1] a power of two and
    [size >= 3]. *)
Definition valid_size (size : Z) : bool :=
  (3 <=? size) && (2 ^ Z.log2 (size - 1) =? size - 1).

(** Two states of the global generator used in examples: one that keeps
    returning [0.5], one whose draws vary. *)
Definition flat_rng {F} `{Num F} : rng F :=
  {| tape := fun _ => lit 5 10; pos := 0 |}.

Definition sample_rng {F} `{Num F} : rng F :=
  {| tape := fun i => lit (Z.of_nat ((i * 7 + 3) mod 16)) 16; pos := 0 |}.

(** What a call returned, when it returned normally. *)
Definition returned {F A} (o : Outcome F A) : option A :=
  match o with Ok a _ => Some a | Raise _ _ => None end.

(** [0 <= v <= 1] *)
Definition in_unit_interval {F} `{Num F} (v : F) : bool :=
  (of_int 0 <=? v)%num && (v <=? of_int 1)%num.

(** ** Arrays *)

(** An [N x N] array. *)
Definition shaped {A} (N : nat) (a : grid A) : Prop :=
  length a = N /\ Forall (fun row => length row = N) a.

(** ** Traces *)

(** Step sizes of the passes on a trace, in order. *)
Definition passes (tr : list event) : list Z :=
  flat_map (fun e => match e with EvPass s => [s] | EvWrite _ _ => [] end) tr.

(** Number of assignments to cell [(r, c)] on a trace. *)
Definition writes_to (r c : nat) (tr : list event) : nat :=
  length (List.filter (fun e => match e with
                           | EvWrite r' c' => (r' =? r)%nat && (c' =? c)%nat
                           | EvPass _ => false
                           end) tr).

Definition corner (N r c : nat) : Prop :=
  (r = 0 \/ r = N - 1)%nat /\ (c = 0 \/ c = N - 1)%nat.

(** The four corner assignments of [init_corners], in order. *)
Definition corner_writes (N : nat) : list event :=
  [EvWrite 0 0; EvWrite 0 (N - 1); EvWrite (N - 1) 0; EvWrite (N - 1) (N - 1)].

(** What a pass may append to the trace: its own mark, and writes to
    cells that are not corners. *)
Definition pass_event (N : nat) (e : event) : Prop :=
  match e with
  | EvWrite r c => ~ corner N r c
  | EvPass s => 1 < s
  end.

(** [halving s l]: [l] lists step sizes [s, s/2, s/4, ...], all above 1;
    [halving_to_one] moreover runs until the step size is 1 or less. *)
Inductive halving : Z -> list Z -> Prop :=
| halving_cut s : halving s []
| halving_next s l : 1 < s -> halving (s / 2) l -> halving s (s :: l).

Inductive halving_to_one : Z -> list Z -> Prop :=
| halving_done s : s <= 1 -> halving_to_one s []
| halving_more s l : 1 < s -> halving_to_one (s / 2) l -> halving_to_one s (s :: l).

(** A computation is [quiet] when it starts no pass and cannot exhaust the
    loop budget (only the main loop does either). *)
Definition quiet {F A} (m : M F A) : Prop :=
  forall w, passes (trace (final (m w))) = passes (trace w) /\
            forall w', m w <> Raise OutOfFuel w'.

(** ** The square step *)

(** A point the square step visits in a pass with step size [s] and half
    step [h]: the two ranges of its loops. *)
Definition square_visit (size s h y x : Z) : Prop :=
  In y (range 0 size h) /\ In x (range ((y + h) mod s) size s).

(** How many of the four directions at distance [h] are in bounds. *)
Definition neighbor_count (size h y x : Z) : Z :=
  (if y >=? h then 1 else 0) + (if y + h <? size then 1 else 0) +
  (if x >=? h then 1 else 0) + (if x + h <? size then 1 else 0).

Definition on_boundary (size y x : Z) : bool :=
  (y =? 0) || (y =? size - 1) || (x =? 0) || (x =? size - 1).



(** ** Worlds and runs

    [inv good N w]: the engine of [w] holds an [N x N] heightmap and the
    attributes its constructor gave it; [good] is a property of floats
    that holds of every cell and of every draw to come.
    [ext allowed w w']: from [w] to [w'] the tape of draws is the same and
    the trace grew by [allowed] events only.
    [spec good N allowed m Q]: started in such a world, [m] returns
    normally in such a world, and its result satisfies [Q]. *)

Record inv {F} `{Num F} (good : F -> Prop) (N : nat) (w : World F) : Prop := {
  inv_size : self_size (self w) = Z.of_nat N;
  inv_shape : shaped N (self_heightmap (self w));
  inv_good : Forall (Forall good) (self_heightmap (self w));
  inv_roughness : self_roughness (self w) = lit 6 10;
  inv_sea_level : self_sea_level (self w) = lit 4 10;
  inv_tape : forall i, good (tape (random w) i)
}.

Definition ext {F} (allowed : event -> Prop) (w w' : World F) : Prop :=
  tape (random w') = tape (random w) /\
  exists evs, trace w' = trace w ++ evs /\ Forall allowed evs.

Definition spec {F} `{Num F} {A} (good : F -> Prop) (N : nat)
    (allowed : event -> Prop) (m : M F A) (Q : A -> Prop) : Prop :=
  forall w, inv good N w ->
    exists a w', m w = Ok a w' /\ inv good N w' /\ ext allowed w w' /\ Q a.

(** The trivial property of floats: the structure of a run does not depend
    on the values. *)
Definition any {F} (_ : F) : Prop := True.

(** The worlds met during a run on a grid of side [N]. *)
Definition engine_ok {F} `{Num F} (N : nat) (w : World F) : Prop := inv any N w.

(** [reads w m Q]: in [w], [m] returns normally a result satisfying [Q]
    and leaves the world as it was. *)
Definition reads {F A} (w : World F) (m : M F A) (Q : A -> Prop) : Prop :=
  exists a, m w = Ok a w /\ Q a.

(** Two worlds with the same engine and the same generator (the ghost
    trace apart), and two outcomes that agree up to that. *)
Definition same_state {F} (w1 w2 : World F) : Prop :=
  self w1 = self w2 /\ random w1 = random w2.

Definition same_outcome {F A} (o1 o2 : Outcome F A) : Prop :=
  match o1, o2 with
  | Ok a w1, Ok b w2 => a = b /\ same_state w1 w2
  | Raise e w1, Raise e' w2 => e = e' /\ same_state w1 w2
  | _, _ => False
  end.

Definition oblivious {F A} (m : M F A) : Prop :=
  forall w1 w2, same_state w1 w2 -> same_outcome (m w1) (m w2).

(** ** Runs, event by event

    The vocabulary of the properties that follow the claims: the exact
    events of a run, the exceptions it may raise, what a computation
    leaves untouched, bounds on the elevations, and two runs side by
    side. *)

(** The assignments of one diamond step and of one square step, in the
    order of the loops (lines 31-32 and 40; lines 45-46 and 65). *)
Definition diamond_writes (size s h : Z) : list event :=
  flat_map (fun y =>
    flat_map (fun x => [EvWrite (Z.to_nat (y + h)) (Z.to_nat (x + h))])
      (range 0 (size - 1) s))
    (range 0 (size - 1) s).

Definition square_writes (size s h : Z) : list event :=
  flat_map (fun y =>
    flat_map (fun x => [EvWrite (Z.to_nat y) (Z.to_nat x)])
      (range ((y + h) mod s) size s))
    (range 0 size h).

(** The step sizes of the loop of line 27, and the events of its passes. *)
Fixpoint step_sizes (fuel : nat) (s : Z) : list Z :=
  match fuel with
  | O => []
  | S fuel' => if 1 <? s then s :: step_sizes fuel' (s / 2) else []
  end.

Fixpoint loop_events (fuel : nat) (size s : Z) : list event :=
  match fuel with
  | O => []
  | S fuel' =>
      if 1 <? s then
        EvPass s :: diamond_writes size s (s / 2) ++ square_writes size s (s / 2) ++
        loop_events fuel' size (s / 2)
      else []
  end.

(** Number of assignments on a trace. *)
Definition assignments (tr : list event) : nat :=
  length (List.filter (fun e => match e with EvWrite _ _ => true | EvPass _ => false end) tr).

(** An event of an [N x N] grid: an assignment within it, or a pass. *)
Definition in_grid (N : nat) (e : event) : Prop :=
  match e with
  | EvWrite r c => (r < N)%nat /\ (c < N)%nat
  | EvPass _ => True
  end.

(** [runs N m evs d Q]: on an engine with an [N x N] heightmap, [m] returns
    normally; it appends exactly [evs] to the trace, consumes exactly [d]
    draws, leaves every cell that [evs] does not assign as it was, and its
    result satisfies [Q]. *)
Definition runs {F} `{Num F} {A} (N : nat) (m : M F A) (evs : list event)
    (d : nat) (Q : A -> Prop) : Prop :=
  forall w, engine_ok N w ->
    exists a w', m w = Ok a w' /\ engine_ok N w' /\
      tape (random w') = tape (random w) /\
      pos (random w') = (pos (random w) + d)%nat /\
      trace w' = trace w ++ evs /\
      Forall (in_grid N) evs /\
      (forall r c, writes_to r c evs = 0%nat ->
         cell (self_heightmap (self w')) r c = cell (self_heightmap (self w)) r c) /\
      Q a.

(** One draw for each assignment. *)
Definition paced {F} `{Num F} (N : nat) (m : M F unit) (evs : list event) : Prop :=
  runs N m evs (assignments evs) (fun _ => True).

(** [fails N e m]: on such an engine [m] raises [e]. *)
Definition fails {F} `{Num F} {A} (N : nat) (e : exn) (m : M F A) : Prop :=
  forall w, engine_ok N w -> exists w', m w = Raise e w'.

(** The assignments of a trace, counted cell by cell. *)
Definition assigned_cells (N : nat) (tr : list event) : nat :=
  sum_list_with (fun r => sum_list_with (fun c => writes_to r c tr) (seq 0 N)) (seq 0 N).

(** [still m]: whatever its outcome, [m] leaves the global generator and
    the trace as they were. *)
Definition still {F A} (m : M F A) : Prop :=
  forall w, random (final (m w)) = random w /\ trace (final (m w)) = trace w.

(** [raises_only allowed m]: an exception that [m] raises satisfies
    [allowed]. *)
Definition raises_only {F A} (allowed : exn -> Prop) (m : M F A) : Prop :=
  forall w e w', m w = Raise e w' -> allowed e.

(** The exceptions of an out-of-range index and of a conversion to an
    integer. *)
Definition numeric_error (e : exn) : Prop :=
  e = IndexError \/ e = ValueError \/ e = OverflowError.

(** [readonly m]: whatever its outcome, [m] leaves the world as it was. *)
Definition readonly {F A} (m : M F A) : Prop := forall w, final (m w) = w.

(** The pixels rendered so far: those of the cells that satisfy [seen]. *)
Definition rendered {F} `{Num F} (N : nat) (w : World F) (seen : Z -> Z -> Prop)
    (img : grid rgb) : Prop :=
  shaped N img /\
  forall y x, 0 <= y < Z.of_nat N -> 0 <= x < Z.of_nat N -> seen y x ->
    exists v px,
      cell (self_heightmap (self w)) (Z.to_nat y) (Z.to_nat x) = Some v /\
      color v w = Ok px w /\
      cell img (Z.to_nat y) (Z.to_nat x) = Some px.

(** Classes of cells in a pass with step [s] and half step [h]: a diamond
    step assigns cells off the lattice of step [s]; a square step assigns
    the cells of the half-step lattice whose two coordinates differ by an
    odd number of half steps. *)
Definition off_lattice (s : Z) (y x : Z) : Prop := ~ ((s | y) /\ (s | x)).

Definition mixed (s h : Z) (y x : Z) : Prop := (s | x - y - h).

(** [agree N E w1 w2]: two engines with [N x N] heightmaps and the same
    state of the generator, whose heightmaps hold the same value in every
    cell that the events [E] assign. *)
Definition agree {F} `{Num F} (N : nat) (E : list event) (w1 w2 : World F) : Prop :=
  engine_ok N w1 /\ engine_ok N w2 /\ random w1 = random w2 /\
  forall r c, In (EvWrite r c) E ->
    cell (self_heightmap (self w1)) r c = cell (self_heightmap (self w2)) r c.

(** [together N need m evs]: from two such engines that agree on the
    cells of [need] at least, [m] returns normally on both and they agree
    on the cells of [evs] as well. *)
Definition together {F} `{Num F} (N : nat) (need : event -> Prop) (m : M F unit)
    (evs : list event) : Prop :=
  forall E w1 w2, (forall e, need e -> In e E) -> agree N E w1 w2 ->
    exists w1' w2', m w1 = Ok tt w1' /\ m w2 = Ok tt w2' /\ agree N (E ++ evs) w1' w2'.

(** The cells of the lattice of step [s], as events. *)
Definition on_lattice (N : nat) (s : Z) (e : event) : Prop :=
  exists y x, 0 <= y < Z.of_nat N /\ 0 <= x < Z.of_nat N /\ (s | y) /\ (s | x) /\
              e = EvWrite (Z.to_nat y) (Z.to_nat x).

(** The cells a square step reads: on the half-step lattice, and not
    among those it assigns. *)
Definition unmixed (N : nat) (s h : Z) (e : event) : Prop :=
  exists y x, 0 <= y < Z.of_nat N /\ 0 <= x < Z.of_nat N /\ (h | y) /\ (h | x) /\
              ~ mixed s h y x /\ e = EvWrite (Z.to_nat y) (Z.to_nat x).

(** ** Binary64 values

    The vocabulary of the properties of values.  A finite float is a
    multiple of [2^-1074]; [R] rounds a rational to the nearest such
    multiple that has at most 53 significant bits, ties to even, and
    [val x q] says that the float [x] is finite and worth [q]. *)

(** ** Rounding to binary64

    A finite binary64 number is an integer multiple of [2^-1074].  The
    rounding of a rational is computed on multiples of that unit:
    [rz x] is the multiple of the unit nearest to [x] units that has at
    most 53 significant bits, ties going to the even one. *)

(** Nearest integer, ties to even. *)
Definition rint (y : Q) : Z :=
  let f := Qfloor y in
  match (y - inject_Z f ?= 1 # 2)%Q with
  | Lt => f
  | Eq => if Z.even f then f else f + 1
  | Gt => f + 1
  end.

(** The exponent of the last place of [x >= 0], in units. *)
Definition rexp (x : Q) : Z := Z.max (Z.log2 (Qfloor x) - 52) 0.

Definition rpos (x : Q) : Z :=
  rint (x / inject_Z (2 ^ rexp x)) * 2 ^ rexp x.

Definition rz (x : Q) : Z :=
  if Qle_bool 0 x then rpos x else - rpos (- x).

(** The multiples of the unit that binary64 represents (overflow apart). *)
Definition repz (k : Z) : Prop := rz (inject_Z k) = k.

(** ** The specification of binary64 in the Standard Library *)

Abbreviation fexp64 := (fexp 53 1024).

(** Where a fraction in [[0, 1)] lies with respect to one half. *)
Definition loc_frac (phi : Q) (l : location) : Prop :=
  match l with
  | loc_Exact => (phi == 0)%Q
  | loc_Inexact Lt => (0 < phi < 1 # 2)%Q
  | loc_Inexact Eq => (phi == 1 # 2)%Q
  | loc_Inexact Gt => ((1 # 2) < phi < 1)%Q
  end.

(** A shift record that holds the integer part of [y] and the position of
    its fractional part. *)
Definition located (y : Q) (mrs : shr_record) : Prop :=
  shr_m mrs = Qfloor y /\ loc_frac (y - inject_Z (Qfloor y)) (loc_of_shr_record mrs).

(** [2^e] for an exponent of any sign. *)
Definition q2 (e : Z) : Q :=
  if 0 <=? e then inject_Z (2 ^ e) else (/ inject_Z (2 ^ (- e)))%Q.

Definition scale : Z := 2 ^ 1074.

(** The value of a finite number of the specification, in units of
    [2^-1074]. *)
Definition SFunits (x : spec_float) : option Z :=
  match x with
  | S754_zero _ => Some 0
  | S754_finite s m e => Some (cond_Zopp s (Z.pos m * 2 ^ (e + 1074)))
  | _ => None
  end.

(** ** Valid numbers *)

Definition valid (x : spec_float) : Prop := SpecFloat.valid_binary 53 1024 x = true.

(** ** Values of primitive floats *)

Definition funits (x : float) : option Z := SFunits (Prim2SF x).

(** The value of a finite float. *)
Definition fval (x : float) : option Q :=
  match funits x with
  | Some k => Some (inject_Z k / inject_Z scale)%Q
  | None => None
  end.

(** [x] is finite and its value is [q]. *)
Definition val (x : float) (q : Q) : Prop :=
  exists c, fval x = Some c /\ (c == q)%Q.

(** Rounding to nearest even, on rationals. *)
Definition R (q : Q) : Q := (inject_Z (rz (q * inject_Z scale)) / inject_Z scale)%Q.

(** The rationals that are finite binary64 numbers. *)
Definition rep (q : Q) : Prop :=
  exists k, repz k /\ Z.abs k < 2 ^ 2098 /\ (q == inject_Z k / inject_Z scale)%Q.

(** ** Values of the floats of a run (binary64) *)

(** A finite float whose value lies in [[lo, hi]]. *)
Definition between (lo hi : Q) (x : float) : Prop :=
  exists q, val x q /\ (lo <= q <= hi)%Q.

(** A draw of [random.random()]: a float in [[0, 1)]. *)
Definition unit_draw (u : float) : Prop :=
  (of_int 0 <=? u)%num = true /\ (u <? of_int 1)%num = true.

(** The multiples of [2^-49]. *)
Definition dyq (m : Z) : Q := (inject_Z m / inject_Z (2 ^ 49))%Q.

(** [summable q]: the sums of up to four values bounded by [q] have a
    representable bound. *)
Definition summable (q : Q) : Prop :=
  forall k, 0 <= k <= 4 -> rep (inject_Z k * q).

(** [boxed N C lo hi d a]: every cell of the [N x N] array [a] is a finite
    float within [[lo - d, hi + d]], and within [[lo, hi]] outside the class
    [C] of cells (the cells that the step under way assigns). *)
Definition boxed (N : nat) (C : Z -> Z -> Prop) (lo hi d : Q) (a : grid float) : Prop :=
  forall y x, 0 <= y < Z.of_nat N -> 0 <= x < Z.of_nat N ->
    exists v, cell a (Z.to_nat y) (Z.to_nat x) = Some v /\
      between (lo - d) (hi + d) v /\ (~ C y x -> between lo hi v).

(** An engine whose draws to come are in [[0, 1)]. *)
Definition drawing (N : nat) (w : World float) : Prop :=
  engine_ok N w /\ forall i, unit_draw (tape (random w) i).

(** The offsets that a range [r] gives stay within [d] of zero. *)
Definition offsets_within (r : float) (d : Q) : Prop :=
  forall u, unit_draw u -> between (- d) d (random_offset u r (lit 6 10)).

(** A finite float. *)
Definition finite (x : float) : Prop := exists q, val x q.

(** A float between two others. *)
Definition within (lo hi v : float) : Prop :=
  (lo <=? v)%num = true /\ (v <=? hi)%num = true.

(** The ranges of the channels of a pixel, by kind of cell (lines 84-95). *)
Definition water_pixel (px : rgb) : Prop :=
  let '(red, green, blue) := px in red = 0 /\ 150 <= green <= 225 /\ 150 <= blue <= 255.

Definition land_pixel (px : rgb) : Prop :=
  let '(red, green, blue) := px in 100 <= red <= 150 /\ 120 <= green <= 180 /\ blue = 50.


(** The range of pass [j] (the first is pass 0): [2^-j]. *)
Definition pass_range (j : nat) : Q := (1 / inject_Z (2 ^ Z.of_nat j))%Q.

(** A float of magnitude at most [2^1000]. *)
Definition moderate (x : float) : Prop :=
  between (- inject_Z (2 ^ 1000)) (inject_Z (2 ^ 1000)) x.

(** ** The square step, value by value *)




(** ** Two runs on the same draws *)

(** The next [k] draws of two generators are the same. *)
Definition same_draws {F} (k : nat) (r1 r2 : rng F) : Prop :=
  forall i, (i < k)%nat -> tape r1 (pos r1 + i) = tape r2 (pos r2 + i).

(** Two outcomes with the same result: the same value, or the same
    exception. *)
Definition same_result {F A} (o1 o2 : Outcome F A) : Prop :=
  match o1, o2 with
  | Ok a _, Ok b _ => a = b
  | Raise e _, Raise e' _ => e = e'
  | _, _ => False
  end.

(** [alike k w1 w2 o1 o2]: of two calls started in [w1] and [w2], whose
    next [k] draws were the same, either both consumed more than [k] draws,
    or both consumed the same number [d <= k] of draws, ended with the same
    result and the same engine, and the draws that remain of the [k] are
    still the same. *)
Definition alike {F A} (k : nat) (w1 w2 : World F) (o1 o2 : Outcome F A) : Prop :=
  ((pos (random w1) + k < pos (random (final o1)))%nat /\
   (pos (random w2) + k < pos (random (final o2)))%nat) \/
  exists d, (d <= k)%nat /\
    pos (random (final o1)) = (pos (random w1) + d)%nat /\
    pos (random (final o2)) = (pos (random w2) + d)%nat /\
    same_result o1 o2 /\
    self (final o1) = self (final o2) /\
    same_draws (k - d) (random (final o1)) (random (final o2)).

(** [windowed m]: [m] never rewinds the generator, and it depends on the
    generator through the draws it consumes only. *)
Definition windowed {F A} (m : M F A) : Prop :=
  (forall w, (pos (random w) <= pos (random (final (m w))))%nat) /\
  forall k w1 w2, self w1 = self w2 -> same_draws k (random w1) (random w2) ->
    alike k w1 w2 (m w1) (m w2).

(** A generator one draw further than [sample_rng], whose draws to come are
    those of [sample_rng]. *)
Definition later_rng {F} `{Num F} : rng F :=
  {| tape := fun i => tape sample_rng (Nat.pred i); pos := 1 |}.

(** * Properties *)

(** ** Python ranges *)

Lemma range_spec (a b s v : Z) :
  0 < s -> In v (range a b s) <-> (a <= v < b /\ (s | v - a)).
Proof.
  intros Hs. unfold range.
  destruct (Z.ltb_spec 0 s) as [_|]; [|lia].
  rewrite in_map_iff. split.
  - intros (k & <- & Hk). apply in_seq in Hk.
    assert (Hlt : Z.of_nat k < (b - a + s - 1) / s) by lia.
    assert (Hle : Z.of_nat k + 1 <= (b - a + s - 1) / s) by lia.
    assert (s * (Z.of_nat k + 1) <= b - a + s - 1).
    { etransitivity; [apply Z.mul_le_mono_nonneg_l; [lia|exact Hle]|].
      apply Z.mul_div_le. lia. }
    split; [nia|]. exists (Z.of_nat k). lia.
  - intros ([Ha Hb] & q & Hq).
    assert (0 <= q) by nia.
    exists (Z.to_nat q). split; [lia|].
    apply in_seq. split; [lia|].
    simpl. apply Nat2Z.inj_lt. rewrite Z2Nat.id by lia.
    assert (q + 1 <= (b - a + s - 1) / s); [|lia].
    apply Z.div_le_lower_bound; nia.
Qed.

(** ** Arrays of a given shape *)

Lemma norm_index_lt (len i : Z) (r : nat) :
  norm_index len i = Some r -> Z.of_nat r < len.
Proof.
  unfold norm_index.
  destruct (Z.leb_spec 0 i), (Z.ltb_spec i len); simpl;
    try (intros [= <-]; lia);
    destruct (Z.leb_spec (- len) i), (Z.ltb_spec i 0); simpl;
    try discriminate; intros [= <-]; lia.
Qed.

Lemma norm_index_nonneg (len i : Z) :
  0 <= i < len -> norm_index len i = Some (Z.to_nat i).
Proof.
  intros Hi. unfold norm_index.
  destruct (Z.leb_spec 0 i), (Z.ltb_spec i len); simpl; auto; lia.
Qed.

Lemma norm_index_last (len : Z) :
  0 < len -> norm_index len (-1) = Some (Z.to_nat (len - 1)).
Proof.
  intros Hl. unfold norm_index. simpl.
  destruct (Z.leb_spec (- len) (-1)), (Z.ltb_spec (-1) 0); simpl;
    try lia. f_equal. lia.
Qed.

Lemma shaped_row {A} (N : nat) (a : grid A) (r : nat) :
  shaped N a -> (r < N)%nat -> exists row, a !! r = Some row /\ length row = N.
Proof.
  intros [Hl Hr] Hlt.
  destruct (lookup_lt_is_Some_2 a r) as [row Hrow]; [lia|].
  exists row. split; [done|]. eapply Forall_lookup_1 in Hr; eauto.
Qed.

Lemma locate_shaped {A} (N : nat) (a : grid A) (i j : Z) (r c : nat) :
  shaped N a ->
  norm_index (Z.of_nat N) i = Some r ->
  norm_index (Z.of_nat N) j = Some c ->
  locate a i j = Some (r, c).
Proof.
  intros Hs Hi Hj. unfold locate, nrows.
  rewrite (proj1 Hs), Hi.
  destruct (shaped_row N a r Hs) as (row & -> & Hrow).
  { apply norm_index_lt in Hi. lia. }
  now rewrite Hrow, Hj.
Qed.

Lemma cell_shaped {A} (N : nat) (a : grid A) (r c : nat) :
  shaped N a -> (r < N)%nat -> (c < N)%nat -> exists v, cell a r c = Some v.
Proof.
  intros Hs Hr Hc. unfold cell.
  destruct (shaped_row N a r Hs Hr) as (row & -> & Hrow).
  destruct (lookup_lt_is_Some_2 row c) as [v Hv]; [lia|]. eauto.
Qed.

Lemma grid_set_shaped {A} (N : nat) (a : grid A) (r c : nat) (v : A) :
  shaped N a -> shaped N (grid_set a r c v).
Proof.
  intros [Hl Hr]. unfold grid_set.
  destruct (a !! r) as [row|] eqn:Hrow; [|done].
  split; [by rewrite length_insert|].
  apply Forall_insert; [done|]. cbv beta.
  rewrite length_insert. eapply Forall_lookup_1 in Hr; eauto.
Qed.

Lemma cell_all {A} (P : A -> Prop) (a : grid A) (r c : nat) (v : A) :
  Forall (Forall P) a -> cell a r c = Some v -> P v.
Proof.
  unfold cell. intros Ha Hv.
  destruct (a !! r) as [row|] eqn:Hrow; [|done].
  eapply Forall_lookup_1 in Ha; eauto.
  eapply Forall_lookup_1 in Ha; eauto.
Qed.

Lemma grid_set_all {A} (P : A -> Prop) (a : grid A) (r c : nat) (v : A) :
  Forall (Forall P) a -> P v -> Forall (Forall P) (grid_set a r c v).
Proof.
  intros Ha Hv. unfold grid_set.
  destruct (a !! r) as [row|] eqn:Hrow; [|done].
  apply Forall_insert; [done|].
  apply Forall_insert; [|done].
  eapply Forall_lookup_1 in Ha; eauto.
Qed.

Lemma replicate_shaped {A} (N : nat) (v : A) :
  shaped N (replicate N (replicate N v)).
Proof.
  split; [apply length_replicate|].
  apply Forall_replicate, length_replicate.
Qed.

(** ** The lattice of a pass

    In a pass the step size [s = 2 * h] divides [size - 1]. *)

Lemma lattice_next (s a b : Z) :
  0 < s -> (s | a) -> (s | b) -> a < b -> a + s <= b.
Proof.
  intros Hs [p ->] [q ->] Hlt.
  assert (p < q) by nia. nia.
Qed.

Lemma lattice_mod (s v : Z) : 0 < s -> (s | v - v mod s).
Proof.
  intros Hs. exists (v / s). pose proof (Z.div_mod v s). lia.
Qed.

Lemma square_visit_lattice (size s h y x : Z) :
  1 <= h -> s = 2 * h -> square_visit size s h y x ->
  0 <= y < size /\ 0 <= x < size /\ (h | y) /\ (h | x) /\ (s | x - y - h).
Proof.
  intros Hh -> [Hy Hx].
  apply range_spec in Hy; [|lia]. apply range_spec in Hx; [|lia].
  destruct Hy as [Hy Hdy], Hx as [Hx Hdx].
  rewrite Z.sub_0_r in Hdy.
  pose proof (Z.mod_pos_bound (y + h) (2 * h)).
  assert (Hs : (2 * h | x - y - h)).
  { destruct Hdx as [k Hk], (lattice_mod (2 * h) (y + h)) as [k' Hk']; [lia|].
    exists (k - k'). lia. }
  split; [lia|]. split; [lia|]. split; [done|]. split; [|done].
  destruct Hdy as [p Hp], Hs as [q Hq]. exists (2 * q + p + 1). lia.
Qed.

(** The four corners are multiples of [s]; a visited point is not. *)
Lemma square_visit_off_lattice (s h y x : Z) :
  1 <= h -> s = 2 * h -> (s | x - y - h) -> (s | y) -> (s | x) -> False.
Proof.
  intros Hh -> [k Hk] [p Hp] [q Hq].
  assert (E : h * 1 = h * (2 * (q - p - k))) by lia.
  apply Z.mul_reg_l in E; lia.
Qed.

(** On the half-step lattice a direction is missing exactly at the edge
    of the grid it points to. *)
Lemma lattice_low (h v : Z) : 1 <= h -> 0 <= v -> (h | v) -> (v >=? h) = negb (v =? 0).
Proof.
  intros Hh Hv [k ->].
  destruct (Z.geb_spec (k * h) h), (Z.eqb_spec (k * h) 0); simpl; auto; [lia|].
  assert (k <= 0 \/ 1 <= k) as [|] by lia; nia.
Qed.

Lemma lattice_high (size h v : Z) :
  1 <= h -> v < size -> (h | v) -> (h | size - 1) ->
  (v + h <? size) = negb (v =? size - 1).
Proof.
  intros Hh Hv [k Hk] [m Hm].
  destruct (Z.ltb_spec (v + h) size), (Z.eqb_spec v (size - 1)); simpl; auto; try lia.
  assert (k < m) by nia. nia.
Qed.

Lemma neighbor_count_lattice (size h y x : Z) :
  1 <= h -> 2 <= size -> (h | size - 1) -> 0 <= y < size -> 0 <= x < size ->
  (h | y) -> (h | x) ->
  neighbor_count size h y x =
    4 - (if (y =? 0) || (y =? size - 1) then 1 else 0)
      - (if (x =? 0) || (x =? size - 1) then 1 else 0).
Proof.
  intros Hh Hsz Hd Hy Hx Hdy Hdx. unfold neighbor_count.
  rewrite (lattice_low h y), (lattice_low h x) by (done || lia).
  rewrite (lattice_high size h y), (lattice_high size h x) by (done || lia).
  destruct (Z.eqb_spec y 0), (Z.eqb_spec y (size - 1)),
    (Z.eqb_spec x 0), (Z.eqb_spec x (size - 1)); simpl; lia.
Qed.

Lemma square_visit_count (size s h y x : Z) :
  2 <= size -> 1 <= h -> s = 2 * h -> (s | size - 1) ->
  square_visit size s h y x ->
  neighbor_count size h y x = if on_boundary size y x then 3 else 4.
Proof.
  intros Hsz Hh Hs Hd Hv.
  destruct (square_visit_lattice _ _ _ _ _ Hh Hs Hv) as (Hy & Hx & Hdy & Hdx & Hdxy).
  assert (Hdh : (h | size - 1)).
  { destruct Hd as [m Hm]. exists (2 * m). lia. }
  rewrite neighbor_count_lattice by done.
  assert (Hnc : ~ ((y = 0 \/ y = size - 1) /\ (x = 0 \/ x = size - 1))).
  { intros [Hr Hc]. apply (square_visit_off_lattice s h y x); auto.
    - destruct Hr as [->| ->]; [apply Z.divide_0_r|done].
    - destruct Hc as [->| ->]; [apply Z.divide_0_r|done]. }
  unfold on_boundary.
  destruct (Z.eqb_spec y 0), (Z.eqb_spec y (size - 1)),
    (Z.eqb_spec x 0), (Z.eqb_spec x (size - 1)); simpl; lia.
Qed.

(** ** A program logic for runs that do not raise

    [spec N allowed m Q]: started in a world whose engine holds a well
    formed [N x N] heightmap, [m] returns normally, keeps the world well
    formed, appends only [allowed] events to the trace, and its result
    satisfies [Q].  [good] is any property of floats that the arithmetic
    of the engine preserves (for instance: being a finite number). *)

Section Logic.

Context {F : Type} `{Num F}.

Variable good : F -> Prop.

Hypothesis good_of_int : forall k : Z, good (of_int k).

Hypothesis good_add : forall a b, good a -> good b -> good (a + b)%num.

Hypothesis good_sub : forall a b, good a -> good b -> good (a - b)%num.

Hypothesis good_mul : forall a b, good a -> good b -> good (a * b)%num.

Hypothesis good_div : forall a (k : Z), good a -> k <> 0 -> good (a / of_int k)%num.

Lemma good_lit (n d : Z) : d <> 0 -> good (lit n d).
Proof. intros Hd. unfold lit. auto. Qed.

Lemma ext_refl allowed (w : World F) : ext allowed w w.
Proof. split; [done|]. exists []. by rewrite app_nil_r. Qed.

Lemma ext_trans allowed (w1 w2 w3 : World F) :
  ext allowed w1 w2 -> ext allowed w2 w3 -> ext allowed w1 w3.
Proof.
  intros (Ht1 & e1 & He1 & Hf1) (Ht2 & e2 & He2 & Hf2).
  split; [congruence|]. exists (e1 ++ e2).
  rewrite He2, He1, app_assoc. split; [done|]. by apply Forall_app.
Qed.

Lemma ext_mono (P P' : event -> Prop) (w w' : World F) :
  (forall e, P e -> P' e) -> ext P w w' -> ext P' w w'.
Proof.
  intros HP (Ht & evs & He & Hf). split; [done|]. exists evs.
  split; [done|]. eapply Forall_impl; eauto.
Qed.

Lemma spec_ret {A} N allowed (a : A) (Q : A -> Prop) :
  Q a -> spec good N allowed (ret a) Q.
Proof. intros HQ w Hw. exists a, w. auto using ext_refl. Qed.

Lemma spec_bind {A B} N allowed (m : M F A) (k : A -> M F B) Q1 Q2 :
  spec good N allowed m Q1 ->
  (forall a, Q1 a -> spec good N allowed (k a) Q2) ->
  spec good N allowed (bind m k) Q2.
Proof.
  intros Hm Hk w Hw.
  destruct (Hm w Hw) as (a & w1 & E1 & I1 & X1 & HQ1).
  destruct (Hk a HQ1 w1 I1) as (b & w2 & E2 & I2 & X2 & HQ2).
  exists b, w2. unfold bind. rewrite E1.
  eauto using ext_trans.
Qed.

Lemma spec_for {A} N allowed (xs : list A) (body : A -> M F unit) :
  (forall x, In x xs -> spec good N allowed (body x) (fun _ => True)) ->
  spec good N allowed (for_ xs body) (fun _ => True).
Proof.
  induction xs as [|x xs IH]; intros Hb; simpl.
  - by apply spec_ret.
  - eapply spec_bind; [apply Hb; by left|].
    intros _ _. apply IH. intros x' Hx'. apply Hb. by right.
Qed.

Lemma spec_get_self N allowed :
  spec good N allowed get_self
       (fun s => self_size s = Z.of_nat N /\ self_roughness s = lit 6 10 /\
                 self_sea_level s = lit 4 10).
Proof.
  intros w Hw. exists (self w), w.
  split; [done|]. split; [done|]. split; [apply ext_refl|].
  destruct Hw. auto.
Qed.

Lemma spec_random N allowed : spec good N allowed random_random good.
Proof.
  intros w Hw. eexists _, _. split; [reflexivity|]. destruct Hw.
  split; [by constructor|]. split; [|done].
  split; [done|]. exists []. by rewrite app_nil_r.
Qed.

Lemma spec_log N (allowed : event -> Prop) e :
  allowed e -> spec good N allowed (log e) (fun _ => True).
Proof.
  intros He w Hw. eexists _, _. split; [reflexivity|]. destruct Hw.
  split; [by constructor|]. split; [|done].
  split; [done|]. exists [e]. auto.
Qed.

Lemma spec_getitem N allowed (i j : Z) :
  0 <= i < Z.of_nat N -> 0 <= j < Z.of_nat N ->
  spec good N allowed (getitem i j) good.
Proof.
  intros Hi Hj w Hw. destruct Hw as [Hsz Hsh Hg Hr Hsl Ht].
  unfold getitem, bind, get_self, grid_get.
  rewrite (locate_shaped N _ i j _ _ Hsh (norm_index_nonneg _ _ Hi)
             (norm_index_nonneg _ _ Hj)).
  destruct (cell_shaped N _ (Z.to_nat i) (Z.to_nat j) Hsh) as [v Hv]; [lia..|].
  rewrite Hv. exists v, w. split; [done|]. split; [by constructor|].
  split; [apply ext_refl|]. eapply cell_all; eauto.
Qed.

Lemma spec_setitem N (allowed : event -> Prop) (i j : Z) (r c : nat) (v : F) :
  norm_index (Z.of_nat N) i = Some r ->
  norm_index (Z.of_nat N) j = Some c ->
  allowed (EvWrite r c) -> good v ->
  spec good N allowed (setitem i j v) (fun _ => True).
Proof.
  intros Hi Hj Ha Hv w Hw. destruct Hw as [Hsz Hsh Hg Hr Hsl Ht].
  unfold setitem. rewrite (locate_shaped N _ i j r c Hsh Hi Hj).
  eexists _, _. split; [reflexivity|].
  split; [constructor; simpl; auto using grid_set_shaped, grid_set_all|].
  split; [|done]. split; [done|]. exists [EvWrite r c]. auto.
Qed.

Lemma spec_random_offset N allowed (current_range : F) :
  good current_range ->
  spec good N allowed (_get_random_offset current_range) good.
Proof.
  intros Hr. unfold _get_random_offset.
  eapply spec_bind; [apply spec_random|]. intros u Hu.
  eapply spec_bind; [apply spec_get_self|]. intros s (_ & Hs & _).
  apply spec_ret. unfold random_offset. rewrite Hs.
  auto using good_lit.
Qed.

Lemma blank_inv (N : nat) (r : rng F) :
  (forall i, good (tape r i)) -> inv good N (start (blank (Z.of_nat N)) r).
Proof.
  intros Ht. constructor; simpl; auto.
  - unfold np_zeros. rewrite Nat2Z.id. apply replicate_shaped.
  - unfold np_zeros. apply Forall_replicate, Forall_replicate. auto.
Qed.

(** *** The two steps of a pass *)

Lemma spec_diamond_point N (s h : Z) (r : F) (y x : Z) :
  0 <= y -> y + s <= Z.of_nat N - 1 ->
  0 <= x -> x + s <= Z.of_nat N - 1 ->
  1 <= h < s -> good r ->
  spec good N (pass_event N) (diamond_point s h r y x) (fun _ => True).
Proof.
  intros Hy Hys Hx Hxs Hh Hr. unfold diamond_point.
  eapply spec_bind; [apply spec_getitem; lia|]. intros a Ha.
  eapply spec_bind; [apply spec_getitem; lia|]. intros b Hb.
  eapply spec_bind; [apply spec_getitem; lia|]. intros c Hc.
  eapply spec_bind; [apply spec_getitem; lia|]. intros d Hd.
  eapply spec_bind; [by apply spec_random_offset|]. intros off Hoff.
  eapply spec_setitem; try (apply norm_index_nonneg; lia).
  - simpl. unfold corner. lia.
  - apply good_add; [|done]. apply good_div; [|lia]. auto.
Qed.

Lemma spec_diamond_step N (s h : Z) (r : F) :
  (s | Z.of_nat N - 1) -> s = 2 * h -> 1 <= h -> good r ->
  spec good N (pass_event N) (diamond_step s h r) (fun _ => True).
Proof.
  intros Hd Hs Hh Hr. unfold diamond_step.
  eapply spec_bind; [apply spec_get_self|]. intros g (-> & _).
  apply spec_for. intros y Hy. apply range_spec in Hy; [|lia].
  apply spec_for. intros x Hx. apply range_spec in Hx; [|lia].
  rewrite Z.sub_0_r in Hy, Hx. destruct Hy as [Hy Hdy], Hx as [Hx Hdx].
  apply spec_diamond_point; try lia; try done; apply lattice_next; auto; lia.
Qed.

Lemma spec_add_neighbor N allowed (b : bool) (i j : Z) (acc : F * Z) :
  (b = true -> 0 <= i < Z.of_nat N /\ 0 <= j < Z.of_nat N) ->
  good (fst acc) ->
  spec good N allowed (add_neighbor b i j acc)
       (fun acc' => good (fst acc') /\ snd acc' = snd acc + (if b then 1 else 0)).
Proof.
  intros Hb Hacc. unfold add_neighbor. destruct b.
  - destruct Hb as [Hi Hj]; [done|].
    eapply spec_bind; [by apply spec_getitem|]. intros v Hv.
    apply spec_ret. simpl. auto.
  - apply spec_ret. split; [done|lia].
Qed.

Lemma spec_square_neighbors N allowed (h y x : Z) :
  0 <= h -> 0 <= y < Z.of_nat N -> 0 <= x < Z.of_nat N ->
  spec good N allowed (square_neighbors h y x)
       (fun acc => good (fst acc) /\ snd acc = neighbor_count (Z.of_nat N) h y x).
Proof.
  intros Hh Hy Hx. unfold square_neighbors.
  eapply spec_bind; [apply spec_get_self|]. intros g (-> & _).
  eapply spec_bind.
  { apply spec_add_neighbor; [|apply good_of_int].
    intros Hb. apply Z.geb_le in Hb. lia. }
  intros acc1 [G1 C1]. eapply spec_bind.
  { apply spec_add_neighbor; [|done].
    intros Hb. apply Z.ltb_lt in Hb. lia. }
  intros acc2 [G2 C2]. eapply spec_bind.
  { apply spec_add_neighbor; [|done].
    intros Hb. apply Z.geb_le in Hb. lia. }
  intros acc3 [G3 C3]. eapply spec_bind.
  { apply spec_add_neighbor; [|done].
    intros Hb. apply Z.ltb_lt in Hb. lia. }
  intros acc4 [G4 C4]. apply spec_ret. split; [done|].
  unfold neighbor_count. simpl in C1. lia.
Qed.

Lemma spec_average N allowed (avg : F) (count : Z) :
  good avg -> count <> 0 -> spec good N allowed (average avg count) good.
Proof.
  intros Ha Hc. unfold average.
  destruct (Z.eqb_spec count 0); [done|].
  apply spec_ret. auto.
Qed.

Lemma pass_event_visit N (s h y x : Z) :
  (s | Z.of_nat N - 1) -> s = 2 * h -> 1 <= h ->
  0 <= y < Z.of_nat N -> 0 <= x < Z.of_nat N -> (h | y) -> (s | x - y - h) ->
  pass_event N (EvWrite (Z.to_nat y) (Z.to_nat x)).
Proof.
  intros Hd Hs Hh Hy Hx Hdy Hdx [Hr Hc]. simpl in *.
  apply (square_visit_off_lattice s h y x); auto.
  - destruct Hr as [Hr|Hr].
    + replace y with 0 by lia. apply Z.divide_0_r.
    + replace y with (Z.of_nat N - 1) by lia. done.
  - destruct Hc as [Hc|Hc].
    + replace x with 0 by lia. apply Z.divide_0_r.
    + replace x with (Z.of_nat N - 1) by lia. done.
Qed.

Lemma spec_square_point N (s h : Z) (r : F) (y x : Z) :
  (2 <= N)%nat -> (s | Z.of_nat N - 1) -> s = 2 * h -> 1 <= h -> good r ->
  square_visit (Z.of_nat N) s h y x ->
  spec good N (pass_event N) (square_point h r y x) (fun _ => True).
Proof.
  intros HN Hd Hs Hh Hr Hv.
  destruct (square_visit_lattice _ _ _ _ _ Hh Hs Hv) as (Hy & Hx & Hdy & Hdx & Hdxy).
  assert (Hdh : (h | Z.of_nat N - 1)).
  { destruct Hd as [m Hm]. exists (2 * m). lia. }
  unfold square_point.
  eapply spec_bind; [apply spec_square_neighbors; lia|]. intros acc [G C].
  eapply spec_bind.
  { apply spec_average; [done|]. rewrite C.
    rewrite neighbor_count_lattice by (done || lia).
    repeat match goal with |- context [if ?b then _ else _] => destruct b end; lia. }
  intros avg Havg.
  eapply spec_bind; [by apply spec_random_offset|]. intros off Hoff.
  eapply spec_setitem; try (apply norm_index_nonneg; lia).
  - apply (pass_event_visit N s h y x); auto.
  - by apply good_add.
Qed.

Lemma spec_square_step N (s h : Z) (r : F) :
  (2 <= N)%nat -> (s | Z.of_nat N - 1) -> s = 2 * h -> 1 <= h -> good r ->
  spec good N (pass_event N) (square_step s h r) (fun _ => True).
Proof.
  intros HN Hd Hs Hh Hr. unfold square_step.
  eapply spec_bind; [apply spec_get_self|]. intros g (-> & _).
  apply spec_for. intros y Hy. apply spec_for. intros x Hx.
  apply (spec_square_point N s h r y x); auto. by split.
Qed.

(** *** The main loop on a grid of side [2^n + 1] *)

Lemma spec_main_loop N (n : nat) :
  Z.of_nat N = 2 ^ Z.of_nat n + 1 ->
  forall (j fuel : nat) (r : F),
    (j <= n)%nat -> (j <= fuel)%nat -> good r ->
    spec good N (pass_event N) (main_loop fuel (2 ^ Z.of_nat j) r) (fun _ => True).
Proof.
  intros HN. induction j as [|j IH]; intros fuel r Hj Hf Hr.
  - destruct fuel; simpl; by apply spec_ret.
  - destruct fuel as [|fuel]; [lia|].
    assert (Hpow : 2 ^ Z.of_nat (S j) = 2 * 2 ^ Z.of_nat j).
    { rewrite Nat2Z.inj_succ. apply Z.pow_succ_r. lia. }
    assert (Hpos : 0 < 2 ^ Z.of_nat j) by (apply Z.pow_pos_nonneg; lia).
    assert (Hhalf : 2 ^ Z.of_nat (S j) / 2 = 2 ^ Z.of_nat j).
    { rewrite Hpow, Z.mul_comm. apply Z.div_mul. lia. }
    assert (Hdiv : (2 ^ Z.of_nat (S j) | Z.of_nat N - 1)).
    { exists (2 ^ (Z.of_nat n - Z.of_nat (S j))).
      replace (Z.of_nat N - 1) with (2 ^ Z.of_nat n) by lia.
      rewrite <- Z.pow_add_r by lia. f_equal. lia. }
    assert (2 <= N)%nat.
    { assert (0 < 2 ^ Z.of_nat n) by (apply Z.pow_pos_nonneg; lia). lia. }
    cbn [main_loop].
    destruct (Z.gtb_spec (2 ^ Z.of_nat (S j)) 1); [|lia].
    rewrite Hhalf.
    eapply spec_bind; [apply spec_log; simpl; lia|]. intros _ _.
    eapply spec_bind; [apply spec_diamond_step; auto; lia|]. intros _ _.
    eapply spec_bind; [apply spec_square_step; auto; lia|]. intros _ _.
    apply IH; [lia..|]. auto using good_lit.
Qed.

Lemma setitem_shaped N (w : World F) (i j : Z) (r c : nat) (v : F) :
  shaped N (self_heightmap (self w)) ->
  norm_index (Z.of_nat N) i = Some r ->
  norm_index (Z.of_nat N) j = Some c ->
  setitem i j v w =
    Ok tt (record (EvWrite r c)
             (with_heightmap (grid_set (self_heightmap (self w)) r c v) w)).
Proof.
  intros Hs Hi Hj. unfold setitem. by rewrite (locate_shaped N _ i j r c Hs Hi Hj).
Qed.

Lemma init_corners_spec N (w : World F) :
  (1 <= N)%nat -> inv good N w ->
  exists w', init_corners w = Ok tt w' /\ inv good N w' /\
    tape (random w') = tape (random w) /\
    pos (random w') = (pos (random w) + 4)%nat /\
    trace w' = trace w ++ corner_writes N.
Proof.
  intros HN [Hsz Hsh Hg Hr Hsl Ht].
  assert (H0 : norm_index (Z.of_nat N) 0 = Some 0%nat).
  { rewrite norm_index_nonneg by lia. done. }
  assert (H1 : norm_index (Z.of_nat N) (-1) = Some (N - 1)%nat).
  { rewrite norm_index_last by lia. f_equal. lia. }
  unfold init_corners, bind, random_random.
  erewrite (setitem_shaped N) by (simpl; eauto using grid_set_shaped).
  erewrite (setitem_shaped N) by (simpl; eauto using grid_set_shaped).
  erewrite (setitem_shaped N) by (simpl; eauto using grid_set_shaped).
  erewrite (setitem_shaped N) by (simpl; eauto using grid_set_shaped).
  eexists. split; [reflexivity|]. simpl.
  split; [|split; [done|split; [lia|]]].
  - constructor; simpl; auto using grid_set_shaped, grid_set_all.
  - unfold corner_writes. by rewrite <- !app_assoc.
Qed.

Lemma diamond_square_valid N (n : nat) (w : World F) :
  Z.of_nat N = 2 ^ Z.of_nat n + 1 -> inv good N w ->
  exists w' rest,
    diamond_square w = Ok tt w' /\ inv good N w' /\
    tape (random w') = tape (random w) /\
    trace w' = trace w ++ corner_writes N ++ rest /\
    Forall (pass_event N) rest.
Proof.
  intros HN Hw.
  assert (Hpos : 0 < 2 ^ Z.of_nat n) by (apply Z.pow_pos_nonneg; lia).
  assert (Hlin : Z.of_nat n < 2 ^ Z.of_nat n) by (apply Z.pow_gt_lin_r; lia).
  destruct (init_corners_spec N w) as (w1 & E1 & I1 & T1 & P1 & Tr1); [lia|done|].
  unfold diamond_square, bind. rewrite E1. unfold get_self.
  rewrite (inv_size _ _ _ I1).
  replace (Z.of_nat N - 1) with (2 ^ Z.of_nat n) by lia.
  destruct (spec_main_loop N n HN n (Z.to_nat (Z.of_nat N)) (of_int 1)
              ltac:(lia) ltac:(lia) (good_of_int 1) w1 I1)
    as ([] & w2 & E2 & I2 & (T2 & rest & Tr2 & Hrest) & _).
  exists w2, rest. rewrite E2. split; [done|]. split; [done|].
  split; [congruence|]. split; [|done].
  by rewrite Tr2, Tr1, <- app_assoc.
Qed.

End Logic.

(** ** The passes of the main loop, whatever the outcome *)

Lemma halving_to_one_length (s : Z) (l : list Z) :
  halving_to_one s l -> 1 <= s -> Z.of_nat (length l) = Z.log2 s.
Proof.
  induction 1 as [s Hs|s l Hs Hl IH]; intros H1.
  - replace s with 1 by lia. done.
  - assert (1 <= s / 2) by (apply Z.div_le_lower_bound; lia).
    simpl length. rewrite Nat2Z.inj_succ, IH by done.
    rewrite <- Z.div2_div, Z.div2_spec, Z.log2_shiftr by lia.
    assert (0 < Z.log2 s) by (apply Z.log2_pos; lia). lia.
Qed.

Section Passes.

Context {F : Type} `{Num F}.

Local Abbreviation quiet := (@quiet F _).

Lemma quiet_ret {A} (a : A) : quiet (ret a).
Proof. by intros w. Qed.

Lemma quiet_raise {A} (e : exn) : e <> OutOfFuel -> quiet (raise (A:=A) e).
Proof. intros He w. split; [done|]. unfold raise. congruence. Qed.

Lemma quiet_bind {A B} (m : M F A) (k : A -> M F B) :
  quiet m -> (forall a, quiet (k a)) -> quiet (bind m k).
Proof.
  intros Hm Hk w. unfold bind. destruct (Hm w) as [Hp Hf].
  destruct (m w) as [a w1|e w1]; simpl in *.
  - destruct (Hk a w1) as [Hp1 Hf1]. split; [congruence|done].
  - split; [done|]. intros w' [= -> ->]. by eapply Hf.
Qed.

Lemma quiet_for {A} (xs : list A) (body : A -> M F unit) :
  (forall x, quiet (body x)) -> quiet (for_ xs body).
Proof.
  intros Hb. induction xs as [|x xs IH]; simpl.
  - apply quiet_ret.
  - apply quiet_bind; auto.
Qed.

Lemma passes_app (t1 t2 : list event) : passes (t1 ++ t2) = passes t1 ++ passes t2.
Proof. unfold passes. by rewrite flat_map_app. Qed.

Lemma quiet_get_self : quiet get_self.
Proof. by intros w. Qed.

Lemma quiet_random : quiet random_random.
Proof. by intros w. Qed.

Lemma quiet_getitem (i j : Z) : quiet (getitem i j).
Proof.
  unfold getitem. apply quiet_bind; [apply quiet_get_self|]. intros g.
  destruct (grid_get _ i j); [apply quiet_ret|by apply quiet_raise].
Qed.

Lemma quiet_setitem (i j : Z) (v : F) : quiet (setitem i j v).
Proof.
  intros w. unfold setitem.
  destruct (locate _ i j) as [[r c]|]; [|by split].
  split; [|done]. simpl. rewrite passes_app. simpl. apply app_nil_r.
Qed.

Lemma quiet_random_offset (r : F) : quiet (_get_random_offset r).
Proof.
  unfold _get_random_offset.
  apply quiet_bind; [apply quiet_random|]. intros u.
  apply quiet_bind; [apply quiet_get_self|]. intros g. apply quiet_ret.
Qed.

Lemma quiet_init_corners : quiet init_corners.
Proof.
  unfold init_corners.
  repeat (apply quiet_bind; [first [apply quiet_random | apply quiet_setitem]|];
          intros ?).
  apply quiet_setitem.
Qed.

Lemma quiet_diamond_step (s h : Z) (r : F) : quiet (diamond_step s h r).
Proof.
  unfold diamond_step. apply quiet_bind; [apply quiet_get_self|]. intros g.
  apply quiet_for. intros y. apply quiet_for. intros x. unfold diamond_point.
  repeat (apply quiet_bind; [first [apply quiet_getitem | apply quiet_random_offset]|];
          intros ?).
  apply quiet_setitem.
Qed.

Lemma quiet_add_neighbor (b : bool) (i j : Z) (acc : F * Z) :
  quiet (add_neighbor b i j acc).
Proof.
  unfold add_neighbor. destruct b; [|apply quiet_ret].
  apply quiet_bind; [apply quiet_getitem|]. intros v. apply quiet_ret.
Qed.

Lemma quiet_square_step (s h : Z) (r : F) : quiet (square_step s h r).
Proof.
  unfold square_step. apply quiet_bind; [apply quiet_get_self|]. intros g.
  apply quiet_for. intros y. apply quiet_for. intros x. unfold square_point.
  apply quiet_bind.
  { unfold square_neighbors. apply quiet_bind; [apply quiet_get_self|]. intros g'.
    repeat (apply quiet_bind; [apply quiet_add_neighbor|]; intros ?).
    apply quiet_ret. }
  intros acc. apply quiet_bind.
  { unfold average. destruct (_ =? _); [by apply quiet_raise|apply quiet_ret]. }
  intros avg. apply quiet_bind; [apply quiet_random_offset|]. intros off.
  apply quiet_setitem.
Qed.

Lemma log2_half (s : Z) : 1 < s -> Z.log2 (s / 2) = Z.log2 s - 1.
Proof.
  intros Hs. rewrite <- Z.div2_div, Z.div2_spec, Z.log2_shiftr by lia.
  assert (0 < Z.log2 s) by (apply Z.log2_pos; lia). lia.
Qed.

Lemma main_loop_stop (fuel : nat) (s : Z) (r : F) (w : World F) :
  s <= 1 -> main_loop fuel s r w = Ok tt w.
Proof.
  intros Hs. destruct fuel; cbn [main_loop];
    destruct (Z.gtb_spec s 1); try lia; done.
Qed.

Lemma main_loop_pass (fuel : nat) (s : Z) (r : F) (w : World F) :
  1 < s ->
  main_loop (S fuel) s r w =
    match diamond_step s (s / 2) r (record (EvPass s) w) with
    | Ok _ w2 =>
        match square_step s (s / 2) r w2 with
        | Ok _ w3 => main_loop fuel (s / 2) (r * lit 5 10)%num w3
        | Raise e w3 => Raise e w3
        end
    | Raise e w2 => Raise e w2
    end.
Proof.
  intros Hs. cbn [main_loop]. destruct (Z.gtb_spec s 1); [|lia]. done.
Qed.

Lemma main_loop_passes (fuel : nat) :
  forall (s : Z) (r : F) (w : World F),
  exists P,
    passes (trace (final (main_loop fuel s r w))) = passes (trace w) ++ P /\
    halving s P /\
    (forall w', main_loop fuel s r w = Ok tt w' -> halving_to_one s P) /\
    (Z.log2 s < Z.of_nat fuel -> forall w', main_loop fuel s r w <> Raise OutOfFuel w').
Proof.
  induction fuel as [|fuel IH]; intros s r w;
    (destruct (Z.le_gt_cases s 1) as [Hs|Hs];
     [rewrite main_loop_stop by done;
      exists []; rewrite app_nil_r; split; [done|]; split; [constructor|];
      split; [by constructor|done] |]).
  - cbn [main_loop]. destruct (Z.gtb_spec s 1); [|lia].
    exists []. rewrite app_nil_r. split; [done|]. split; [constructor|].
    split; [done|]. pose proof (Z.log2_nonneg s). lia.
  - rewrite main_loop_pass by done.
    set (w1 := record (EvPass s) w).
    assert (Hw1 : passes (trace w1) = passes (trace w) ++ [s]).
    { unfold w1. simpl. by rewrite passes_app. }
    assert (Hcut : halving s [s]) by (constructor; [done|constructor]).
    destruct (quiet_diamond_step s (s / 2) r w1) as [Hp2 Hf2].
    destruct (diamond_step s (s / 2) r w1) as [[] w2|e2 w2].
    2:{ exists [s]. simpl in *. split; [congruence|]. split; [done|].
        split; [done|]. intros _ w' [= -> ->]. by eapply Hf2. }
    destruct (quiet_square_step s (s / 2) r w2) as [Hp3 Hf3].
    destruct (square_step s (s / 2) r w2) as [[] w3|e3 w3].
    2:{ exists [s]. simpl in *. split; [congruence|]. split; [done|].
        split; [done|]. intros _ w' [= -> ->]. by eapply Hf3. }
    destruct (IH (s / 2) (r * lit 5 10)%num w3) as (P & HP & Hh & Hok & Hfuel).
    exists (s :: P). simpl in *. split.
    { rewrite HP, Hp3, Hp2, Hw1, <- app_assoc. done. }
    split; [by constructor|]. split.
    + intros w' Hw'. constructor; eauto.
    + intros Hlog. apply Hfuel. rewrite log2_half by done. lia.
Qed.

End Passes.

(** ** Sizes of the form [2^n + 1] *)

Lemma pow2_facts (n : nat) :
  0 < 2 ^ Z.of_nat n /\ Z.of_nat n < 2 ^ Z.of_nat n /\
  Z.of_nat (Z.to_nat (2 ^ Z.of_nat n + 1)) = 2 ^ Z.of_nat n + 1.
Proof.
  assert (0 < 2 ^ Z.of_nat n) by (apply Z.pow_pos_nonneg; lia).
  assert (Z.of_nat n < 2 ^ Z.of_nat n) by (apply Z.pow_gt_lin_r; lia).
  lia.
Qed.

Lemma writes_to_app (r c : nat) (t1 t2 : list event) :
  writes_to r c (t1 ++ t2) = (writes_to r c t1 + writes_to r c t2)%nat.
Proof. unfold writes_to. by rewrite List.filter_app, length_app. Qed.

Lemma writes_to_pass (N r c : nat) (rest : list event) :
  corner N r c -> Forall (pass_event N) rest -> writes_to r c rest = 0%nat.
Proof.
  intros Hc. induction 1 as [|e rest He _ IH]; [done|].
  unfold writes_to in *. simpl.
  destruct e as [r' c'|s]; [|done].
  destruct (Nat.eqb_spec r' r), (Nat.eqb_spec c' c); simpl; try done.
  subst. by destruct He.
Qed.

Lemma writes_to_corners (N : nat) :
  (2 <= N)%nat ->
  writes_to 0 0 (corner_writes N) = 1%nat /\
  writes_to 0 (N - 1) (corner_writes N) = 1%nat /\
  writes_to (N - 1) 0 (corner_writes N) = 1%nat /\
  writes_to (N - 1) (N - 1) (corner_writes N) = 1%nat.
Proof.
  intros HN. unfold writes_to, corner_writes.
  destruct (N - 1)%nat as [|k] eqn:E; [lia|].
  simpl. rewrite !Nat.eqb_refl. simpl. done.
Qed.

(** ** Runs on a valid size, for any float arithmetic *)

Section Runs.

Context {F : Type} `{Num F}.

Lemma blank_ok (size : Z) (r : rng F) :
  0 <= size -> engine_ok (Z.to_nat size) (start (blank size) r).
Proof.
  intros Hs. unfold engine_ok.
  rewrite <- (Z2Nat.id size) at 2 by done.
  apply (blank_inv any); intros; exact I.
Qed.

Lemma run_valid (n : nat) (r : rng F) :
  let size := 2 ^ Z.of_nat n + 1 in
  let N := Z.to_nat size in
  exists w' rest,
    diamond_square (start (blank size) r) = Ok tt w' /\
    engine_ok N w' /\
    tape (random w') = tape r /\
    trace w' = corner_writes N ++ rest /\
    Forall (pass_event N) rest.
Proof.
  intros size N. destruct (pow2_facts n) as (Hpos & Hlin & HN).
  destruct (diamond_square_valid any) with (N := N) (n := n) (w := start (blank size) r)
    as (w' & rest & E & I' & Ht & Tr & Hrest);
    try (intros; exact I); [unfold N, size; lia|apply blank_ok; unfold size; lia|].
  by exists w', rest.
Qed.

Lemma diamond_square_unfold (w : World F) :
  diamond_square w =
    match init_corners w with
    | Ok _ w1 =>
        main_loop (Z.to_nat (self_size (self w1))) (self_size (self w1) - 1) (of_int 1) w1
    | Raise e w1 => Raise e w1
    end.
Proof. reflexivity. Qed.

Lemma init_corners_size (w w1 : World F) :
  init_corners w = Ok tt w1 -> self_size (self w1) = self_size (self w).
Proof.
  unfold init_corners, bind, random_random, setitem.
  repeat (destruct (locate _ _ _) as [[? ?]|]; [|discriminate]).
  by intros [= <-].
Qed.

Lemma neighbors_ok (N : nat) (h y x : Z) (w : World F) :
  engine_ok N w -> 0 <= h -> 0 <= y < Z.of_nat N -> 0 <= x < Z.of_nat N ->
  exists avg w',
    square_neighbors h y x w = Ok (avg, neighbor_count (Z.of_nat N) h y x) w'.
Proof.
  intros Hw Hh Hy Hx.
  destruct (spec_square_neighbors any) with (N := N) (allowed := fun _ : event => True)
    (h := h) (y := y) (x := x) (w := w)
    as ([avg c] & w' & E & _ & _ & _ & Hc); try (intros; exact I); try done.
  simpl in Hc. subst c. by exists avg, w'.
Qed.

(** The arithmetic of pass [j] on a grid of side [2^n + 1]. *)
Lemma pass_facts (n j : nat) :
  (1 <= j <= n)%nat ->
  let size := 2 ^ Z.of_nat n + 1 in
  let s := 2 ^ Z.of_nat j in
  let h := s / 2 in
  1 <= h /\ s = 2 * h /\ (s | size - 1) /\ (h | size - 1) /\ 3 <= size /\
  Z.of_nat (Z.to_nat size) = size.
Proof.
  intros Hj size s h.
  destruct (pow2_facts n) as (Hpos & Hlin & HN).
  assert (Hs : s = 2 * 2 ^ Z.of_nat (j - 1)).
  { unfold s. rewrite <- Z.pow_succ_r by lia. f_equal. lia. }
  assert (Hh : h = 2 ^ Z.of_nat (j - 1)).
  { unfold h. rewrite Hs, Z.mul_comm. apply Z.div_mul. lia. }
  assert (0 < 2 ^ Z.of_nat (j - 1)) by (apply Z.pow_pos_nonneg; lia).
  assert (Hd : (s | size - 1)).
  { exists (2 ^ (Z.of_nat n - Z.of_nat j)). unfold s, size.
    rewrite <- Z.pow_add_r by lia.
    replace (2 ^ Z.of_nat n + 1 - 1) with (2 ^ Z.of_nat n) by lia.
    f_equal. lia. }
  assert (2 <= 2 ^ Z.of_nat n).
  { destruct Hd as [m Hm]. unfold size in Hm.
    replace (2 ^ Z.of_nat n + 1 - 1) with (2 ^ Z.of_nat n) in Hm by lia.
    assert (1 <= m) by nia. nia. }
  split; [lia|]. split; [lia|]. split; [done|]. split.
  { destruct Hd as [m Hm]. exists (2 * m). lia. }
  unfold size. lia.
Qed.

End Runs.

(** ** The ghost trace does not influence a run *)

Section Deterministic.

Context {F : Type} `{Num F}.

Local Abbreviation oblivious := (@oblivious F _).

Lemma obl_ret {A} (a : A) : oblivious (ret a).
Proof. by intros w1 w2 Hs. Qed.

Lemma obl_raise {A} (e : exn) : oblivious (raise (A:=A) e).
Proof. by intros w1 w2 Hs. Qed.

Lemma obl_bind {A B} (m : M F A) (k : A -> M F B) :
  oblivious m -> (forall a, oblivious (k a)) -> oblivious (bind m k).
Proof.
  intros Hm Hk w1 w2 Hs. unfold bind. specialize (Hm w1 w2 Hs).
  destruct (m w1) as [a u1|e u1], (m w2) as [b u2|e' u2]; simpl in Hm; try done.
  destruct Hm as [<- Hu]. by apply Hk.
Qed.

Lemma obl_for {A} (xs : list A) (body : A -> M F unit) :
  (forall x, oblivious (body x)) -> oblivious (for_ xs body).
Proof.
  intros Hb. induction xs as [|x xs IH]; simpl.
  - apply obl_ret.
  - apply obl_bind; auto.
Qed.

Lemma obl_fold_for {A S} (xs : list A) (body : A -> S -> M F S) :
  (forall x acc, oblivious (body x acc)) -> forall acc, oblivious (fold_for xs body acc).
Proof.
  intros Hb. induction xs as [|x xs IH]; intros acc; simpl.
  - apply obl_ret.
  - apply obl_bind; auto.
Qed.

Lemma obl_get_self : oblivious get_self.
Proof. intros [s1 r1 t1] [s2 r2 t2] [Hs Hr]. simpl in *. by subst. Qed.

Lemma obl_random : oblivious random_random.
Proof. intros [s1 r1 t1] [s2 r2 t2] [Hs Hr]. simpl in *. by subst. Qed.

Lemma obl_log (e : event) : oblivious (log e).
Proof. intros [s1 r1 t1] [s2 r2 t2] [Hs Hr]. simpl in *. by subst. Qed.

Lemma obl_getitem (i j : Z) : oblivious (getitem i j).
Proof.
  unfold getitem. apply obl_bind; [apply obl_get_self|]. intros g.
  destruct (grid_get _ i j); [apply obl_ret|apply obl_raise].
Qed.

Lemma obl_setitem (i j : Z) (v : F) : oblivious (setitem i j v).
Proof.
  intros [s1 r1 t1] [s2 r2 t2] [Hs Hr]. simpl in *. subst.
  unfold setitem. simpl.
  by destruct (locate _ i j) as [[r c]|].
Qed.

Lemma obl_set_heightmap (a : grid F) : oblivious (set_heightmap a).
Proof.
  intros [s1 r1 t1] [s2 r2 t2] [Hs Hr]. simpl in *. by subst.
Qed.

Ltac obl :=
  repeat first
    [ apply obl_ret | apply obl_raise | apply obl_get_self | apply obl_random
    | apply obl_log | apply obl_getitem | apply obl_setitem | apply obl_set_heightmap
    | apply obl_for; intros ? | apply obl_fold_for; intros ? ?
    | apply obl_bind; [|intros ?]
    | match goal with |- oblivious (if ?b then _ else _) => destruct b end
    | match goal with |- oblivious (match ?x with _ => _ end) => destruct x end ].

Lemma obl_diamond_step (s h : Z) (r : F) : oblivious (diamond_step s h r).
Proof. unfold diamond_step, diamond_point. obl. Qed.

Lemma obl_square_step (s h : Z) (r : F) : oblivious (square_step s h r).
Proof.
  unfold square_step, square_point, square_neighbors, add_neighbor, average.
  obl.
Qed.

Lemma obl_main_loop (fuel : nat) : forall (s : Z) (r : F), oblivious (main_loop fuel s r).
Proof.
  induction fuel as [|fuel IH]; intros s r; cbn [main_loop];
    destruct (s >? 1); try apply obl_ret; try apply obl_raise.
  apply obl_bind; [apply obl_log|]. intros _.
  apply obl_bind; [apply obl_diamond_step|]. intros _.
  apply obl_bind; [apply obl_square_step|]. intros _. apply IH.
Qed.

Lemma obl_diamond_square : oblivious diamond_square.
Proof.
  unfold diamond_square, init_corners. obl. apply obl_main_loop.
Qed.

Lemma obl_normalize : oblivious normalize.
Proof. unfold normalize, np_min, np_max. obl. Qed.

Lemma obl_color_mapping : oblivious color_mapping.
Proof.
  unfold color_mapping, image_set, color, make_pixel, py_int, uint8. obl.
Qed.

Lemma obl_generate_coastline : oblivious generate_coastline.
Proof.
  unfold generate_coastline.
  apply obl_bind; [apply obl_diamond_square|]. intros _.
  apply obl_bind; [apply obl_normalize|]. intros _.
  apply obl_color_mapping.
Qed.

End Deterministic.

Lemma Forall_rows {A} (P : A -> Prop) (a : list (list A)) :
  Forall P (concat a) -> Forall (Forall P) a.
Proof.
  induction a as [|row a IH]; simpl; intros Ha; [done|].
  apply Forall_app in Ha as [Hr Ha]. constructor; auto.
Qed.

Lemma rescale_shaped {F} `{Num F} (N : nat) (a : grid F) (lo hi : F) :
  shaped N a -> shaped N (rescale a lo hi).
Proof.
  intros [Hl Hr]. unfold rescale. split; [by rewrite length_map|].
  apply Forall_fmap. eapply Forall_impl; [exact Hr|]. intros row Hrow. simpl.
  by rewrite length_map.
Qed.

(** *** Computations that leave the world as it is *)

Lemma reads_ret {F A} (w : World F) (a : A) (Q : A -> Prop) :
  Q a -> reads w (ret a) Q.
Proof. intros HQ. by exists a. Qed.

Lemma reads_bind {F A B} (w : World F) (m : M F A) (k : A -> M F B) Q1 Q2 :
  reads w m Q1 -> (forall a, Q1 a -> reads w (k a) Q2) -> reads w (bind m k) Q2.
Proof.
  intros (a & E & HQ) Hk. destruct (Hk a HQ) as (b & E' & HQ').
  exists b. unfold bind. by rewrite E.
Qed.

Lemma reads_fold_for {F A S} (w : World F) (xs : list A) (body : A -> S -> M F S)
    (I : S -> Prop) :
  (forall x acc, In x xs -> I acc -> reads w (body x acc) I) ->
  forall acc, I acc -> reads w (fold_for xs body acc) I.
Proof.
  induction xs as [|x xs IH]; intros Hb acc Hacc; simpl.
  - by apply reads_ret.
  - eapply reads_bind; [apply Hb; [by left|done]|].
    intros acc' Hacc'. apply IH; [|done].
    intros x' acc'' Hx'. apply Hb. by right.
Qed.

Lemma reads_getitem {F} `{Num F} (N : nat) (w : World F) (i j : Z) (P : F -> Prop) :
  shaped N (self_heightmap (self w)) ->
  Forall (Forall P) (self_heightmap (self w)) ->
  0 <= i < Z.of_nat N -> 0 <= j < Z.of_nat N ->
  reads w (getitem i j) P.
Proof.
  intros Hsh Hall Hi Hj. unfold reads, getitem, bind, get_self, grid_get.
  rewrite (locate_shaped N _ i j _ _ Hsh (norm_index_nonneg _ _ Hi)
             (norm_index_nonneg _ _ Hj)).
  destruct (cell_shaped N _ (Z.to_nat i) (Z.to_nat j) Hsh) as [v Hv]; [lia..|].
  rewrite Hv. exists v. split; [done|]. eapply cell_all; eauto.
Qed.

Lemma reads_image_set {F} (N : nat) (w : World F) (img : grid rgb) (y x : Z) (px : rgb) :
  shaped N img -> 0 <= y < Z.of_nat N -> 0 <= x < Z.of_nat N ->
  reads w (image_set img y x px) (shaped N).
Proof.
  intros Hsh Hy Hx. unfold reads, image_set.
  rewrite (locate_shaped N _ y x _ _ Hsh (norm_index_nonneg _ _ Hy)
             (norm_index_nonneg _ _ Hx)).
  eexists. split; [done|]. by apply grid_set_shaped.
Qed.

(** * Further properties of the engine *)

(** ** A program logic for the exact events of a run

    [runs N m evs d Q] strengthens [spec]: it gives the very events that
    a computation appends to the trace, the number of draws it consumes,
    and the cells it leaves alone.  It holds of the passes of every size
    whose step divides [size - 1], not only of the sizes [2^n + 1]. *)

Lemma cell_grid_set_ne {A} (a : grid A) (r c r' c' : nat) (v : A) :
  r <> r' \/ c <> c' -> cell (grid_set a r' c' v) r c = cell a r c.
Proof.
  intros Hne. unfold cell, grid_set.
  destruct (a !! r') as [row|] eqn:Hrow; [|done].
  destruct (decide (r = r')) as [->|Hr].
  - rewrite list_lookup_insert_eq by (by eapply lookup_lt_Some).
    rewrite Hrow. apply list_lookup_insert_ne. destruct Hne; congruence.
  - by rewrite list_lookup_insert_ne.
Qed.

Lemma cell_grid_set_eq {A} (N : nat) (a : grid A) (r c : nat) (v : A) :
  shaped N a -> (r < N)%nat -> (c < N)%nat -> cell (grid_set a r c v) r c = Some v.
Proof.
  intros Hs Hr Hc. unfold cell, grid_set.
  destruct (shaped_row N a r Hs Hr) as (row & Hrow & Hlen). rewrite Hrow.
  rewrite list_lookup_insert_eq by (destruct Hs; lia).
  apply list_lookup_insert_eq. lia.
Qed.

Lemma writes_to_single (r c r' c' : nat) :
  writes_to r c [EvWrite r' c'] = 0%nat -> r <> r' \/ c <> c'.
Proof.
  unfold writes_to. simpl.
  destruct (Nat.eqb_spec r' r), (Nat.eqb_spec c' c); simpl; try discriminate; auto.
Qed.

Section Traces.

Context {F : Type} `{Num F}.

Lemma runs_as {A} N (m : M F A) e d Q e' d' (Q' : A -> Prop) :
  runs N m e d Q -> e = e' -> d = d' -> (forall a, Q a -> Q' a) -> runs N m e' d' Q'.
Proof.
  intros Hm <- <- HQ w Hw.
  destruct (Hm w Hw) as (a & w1 & E1 & I1 & T1 & P1 & Tr1 & G1 & Fr1 & HQ1).
  exists a, w1. auto 10.
Qed.

Lemma runs_ret {A} N (a : A) (Q : A -> Prop) : Q a -> runs N (ret a) [] 0 Q.
Proof.
  intros HQ w Hw. exists a, w. rewrite app_nil_r, Nat.add_0_r. auto 10.
Qed.

Lemma runs_bind {A B} N (m : M F A) (k : A -> M F B) e1 e2 d1 d2 Q1 (Q2 : B -> Prop) :
  runs N m e1 d1 Q1 -> (forall a, Q1 a -> runs N (k a) e2 d2 Q2) ->
  runs N (bind m k) (e1 ++ e2) (d1 + d2) Q2.
Proof.
  intros Hm Hk w Hw.
  destruct (Hm w Hw) as (a & w1 & E1 & I1 & T1 & P1 & Tr1 & G1 & Fr1 & HQ1).
  destruct (Hk a HQ1 w1 I1) as (b & w2 & E2 & I2 & T2 & P2 & Tr2 & G2 & Fr2 & HQ2).
  exists b, w2. unfold bind. rewrite E1. split; [done|]. split; [done|].
  split; [congruence|]. split; [lia|]. split; [by rewrite Tr2, Tr1, app_assoc|].
  split; [by apply Forall_app|]. split; [|done]. intros r c Hrc. rewrite writes_to_app in Hrc.
  rewrite Fr2, Fr1 by lia. done.
Qed.

Lemma runs_get_self N :
  runs N get_self [] 0
       (fun s => self_size s = Z.of_nat N /\ self_roughness s = lit 6 10).
Proof.
  intros w Hw. exists (self w), w. rewrite app_nil_r, Nat.add_0_r.
  split; [done|]. split; [done|]. split; [done|]. split; [done|].
  split; [done|]. split; [done|]. split; [done|]. by destruct Hw.
Qed.

Lemma runs_random N : runs N random_random [] 1 (fun _ => True).
Proof.
  intros w Hw. eexists _, _. split; [reflexivity|]. destruct Hw.
  split; [by constructor|]. simpl. rewrite app_nil_r.
  split; [done|]. split; [lia|]. done.
Qed.

Lemma runs_log N (e : event) :
  match e with EvPass _ => True | EvWrite _ _ => False end ->
  runs N (log e) [e] 0 (fun _ => True).
Proof.
  intros He w Hw. eexists _, _. split; [reflexivity|]. destruct Hw.
  split; [by constructor|]. simpl. rewrite Nat.add_0_r.
  split; [done|]. split; [done|]. split; [done|].
  split; [constructor; [by destruct e|done]|]. done.
Qed.

Lemma runs_getitem N (i j : Z) :
  0 <= i < Z.of_nat N -> 0 <= j < Z.of_nat N ->
  runs N (getitem i j) [] 0 (fun _ => True).
Proof.
  intros Hi Hj w Hw.
  destruct (reads_getitem N w i j any) as (v & E & _); try done;
    try (by destruct Hw).
  exists v, w. rewrite app_nil_r, Nat.add_0_r. auto 10.
Qed.

Lemma runs_setitem N (i j : Z) (r c : nat) (v : F) :
  norm_index (Z.of_nat N) i = Some r ->
  norm_index (Z.of_nat N) j = Some c ->
  runs N (setitem i j v) [EvWrite r c] 0 (fun _ => True).
Proof.
  intros Hi Hj w Hw. destruct Hw as [Hsz Hsh Hg Hr Hsl Ht].
  rewrite (setitem_shaped N w i j r c v Hsh Hi Hj).
  eexists _, _. split; [reflexivity|].
  split; [constructor; simpl; auto using grid_set_shaped; by apply grid_set_all|].
  simpl. rewrite Nat.add_0_r. split; [done|]. split; [done|]. split; [done|].
  split.
  { constructor; [|done]. simpl.
    apply norm_index_lt in Hi, Hj. lia. }
  split; [|done]. intros r' c' Hrc. apply cell_grid_set_ne.
  by apply writes_to_single.
Qed.

End Traces.

(** ** The steps of a pass, event by event *)

Lemma assignments_app (t1 t2 : list event) :
  assignments (t1 ++ t2) = (assignments t1 + assignments t2)%nat.
Proof. unfold assignments. by rewrite List.filter_app, length_app. Qed.

Lemma assignments_pass (s : Z) (t : list event) :
  assignments (EvPass s :: t) = assignments t.
Proof. reflexivity. Qed.

Lemma neighbor_count_pos (size h y x : Z) :
  0 <= y -> 2 * h < size -> 1 <= neighbor_count size h y x.
Proof.
  intros Hy Hh. unfold neighbor_count.
  destruct (Z.geb_spec y h), (Z.ltb_spec (y + h) size),
    (Z.geb_spec x h), (Z.ltb_spec (x + h) size); lia.
Qed.

Section Steps.

Context {F : Type} `{Num F}.

Lemma paced_for {A} N (xs : list A) (body : A -> M F unit) (ev : A -> list event) :
  (forall x, In x xs -> paced N (body x) (ev x)) ->
  paced N (for_ xs body) (flat_map ev xs).
Proof.
  induction xs as [|x xs IH]; intros Hb; simpl.
  - by apply runs_ret.
  - eapply runs_as.
    + eapply runs_bind; [apply Hb; by left|].
      intros _ _. apply IH. intros x' Hx'. apply Hb. by right.
    + done.
    + by rewrite assignments_app.
    + done.
Qed.

Lemma runs_random_offset N (current_range : F) :
  runs N (_get_random_offset current_range) [] 1 (fun _ => True).
Proof.
  unfold _get_random_offset. eapply runs_as.
  - eapply runs_bind; [apply runs_random|]. intros u _.
    eapply runs_bind; [apply runs_get_self|]. intros s _.
    by apply (runs_ret N _ (fun _ => True)).
  - done.
  - done.
  - done.
Qed.

Lemma paced_init_corners N :
  (1 <= N)%nat -> paced N init_corners (corner_writes N).
Proof.
  intros HN.
  assert (H0 : norm_index (Z.of_nat N) 0 = Some 0%nat).
  { rewrite norm_index_nonneg by lia. done. }
  assert (H1 : norm_index (Z.of_nat N) (-1) = Some (N - 1)%nat).
  { rewrite norm_index_last by lia. f_equal. lia. }
  unfold init_corners. eapply runs_as.
  - eapply runs_bind; [apply runs_random|]. intros u0 _.
    eapply runs_bind; [by apply (runs_setitem N 0 0)|]. intros _ _.
    eapply runs_bind; [apply runs_random|]. intros u1 _.
    eapply runs_bind; [by apply (runs_setitem N 0 (-1))|]. intros _ _.
    eapply runs_bind; [apply runs_random|]. intros u2 _.
    eapply runs_bind; [by apply (runs_setitem N (-1) 0)|]. intros _ _.
    eapply runs_bind; [apply runs_random|]. intros u3 _.
    by apply (runs_setitem N (-1) (-1)).
  - done.
  - done.
  - done.
Qed.

Lemma paced_diamond_point N (s h : Z) (r : F) (y x : Z) :
  0 <= y -> y + s <= Z.of_nat N - 1 ->
  0 <= x -> x + s <= Z.of_nat N - 1 ->
  1 <= h < s ->
  paced N (diamond_point s h r y x) [EvWrite (Z.to_nat (y + h)) (Z.to_nat (x + h))].
Proof.
  intros Hy Hys Hx Hxs Hh. unfold diamond_point. eapply runs_as.
  - eapply runs_bind; [apply runs_getitem; lia|]. intros a _.
    eapply runs_bind; [apply runs_getitem; lia|]. intros b _.
    eapply runs_bind; [apply runs_getitem; lia|]. intros c _.
    eapply runs_bind; [apply runs_getitem; lia|]. intros d _.
    eapply runs_bind; [apply runs_random_offset|]. intros off _.
    apply runs_setitem; apply norm_index_nonneg; lia.
  - done.
  - done.
  - done.
Qed.

Lemma paced_diamond_step N (s h : Z) (r : F) :
  (s | Z.of_nat N - 1) -> 1 <= h < s ->
  paced N (diamond_step s h r) (diamond_writes (Z.of_nat N) s h).
Proof.
  intros Hd Hh. unfold diamond_step. eapply runs_as.
  - eapply runs_bind; [apply runs_get_self|]. intros g (-> & _).
    apply paced_for with
      (ev := fun y => flat_map (fun x => [EvWrite (Z.to_nat (y + h)) (Z.to_nat (x + h))])
                        (range 0 (Z.of_nat N - 1) s)).
    intros y Hy. apply range_spec in Hy; [|lia].
    apply paced_for with
      (ev := fun x => [EvWrite (Z.to_nat (y + h)) (Z.to_nat (x + h))]).
    intros x Hx. apply range_spec in Hx; [|lia].
    rewrite Z.sub_0_r in Hy, Hx. destruct Hy as [Hy Hdy], Hx as [Hx Hdx].
    apply paced_diamond_point; try lia; apply lattice_next; auto; lia.
  - done.
  - done.
  - done.
Qed.

Lemma runs_add_neighbor N (b : bool) (i j : Z) (acc : F * Z) :
  (b = true -> 0 <= i < Z.of_nat N /\ 0 <= j < Z.of_nat N) ->
  runs N (add_neighbor b i j acc) [] 0
       (fun acc' => snd acc' = snd acc + (if b then 1 else 0)).
Proof.
  intros Hb. unfold add_neighbor. destruct b.
  - destruct Hb as [Hi Hj]; [done|]. eapply runs_as.
    + eapply runs_bind; [by apply runs_getitem|]. intros v _.
      by apply (runs_ret N _ (fun acc' => snd acc' = snd acc + 1)).
    + done.
    + done.
    + done.
  - apply runs_ret. lia.
Qed.

Lemma runs_square_neighbors N (h y x : Z) :
  0 <= h -> 0 <= y < Z.of_nat N -> 0 <= x < Z.of_nat N ->
  runs N (square_neighbors h y x) [] 0
       (fun acc => snd acc = neighbor_count (Z.of_nat N) h y x).
Proof.
  intros Hh Hy Hx. unfold square_neighbors. eapply runs_as.
  - eapply runs_bind; [apply runs_get_self|]. intros g (-> & _).
    eapply runs_bind.
    { apply runs_add_neighbor. intros Hb. apply Z.geb_le in Hb. lia. }
    intros acc1 C1. eapply runs_bind.
    { apply runs_add_neighbor. intros Hb. apply Z.ltb_lt in Hb. lia. }
    intros acc2 C2. eapply runs_bind.
    { apply runs_add_neighbor. intros Hb. apply Z.geb_le in Hb. lia. }
    intros acc3 C3. eapply runs_bind.
    { apply runs_add_neighbor. intros Hb. apply Z.ltb_lt in Hb. lia. }
    intros acc4 C4.
    apply (runs_ret N _ (fun acc => snd acc = neighbor_count (Z.of_nat N) h y x)).
    unfold neighbor_count. simpl in C1, C2, C3, C4. lia.
  - done.
  - done.
  - done.
Qed.

Lemma paced_square_point N (h : Z) (r : F) (y x : Z) :
  1 <= h -> 2 * h < Z.of_nat N -> 0 <= y < Z.of_nat N -> 0 <= x < Z.of_nat N ->
  paced N (square_point h r y x) [EvWrite (Z.to_nat y) (Z.to_nat x)].
Proof.
  intros Hh H2 Hy Hx. unfold square_point. eapply runs_as.
  - eapply runs_bind; [apply runs_square_neighbors; lia|]. intros acc C.
    eapply runs_bind.
    { unfold average. rewrite C.
      pose proof (neighbor_count_pos (Z.of_nat N) h y x ltac:(lia) H2).
      destruct (Z.eqb_spec (neighbor_count (Z.of_nat N) h y x) 0); [lia|].
      by apply (runs_ret N _ (fun _ => True)). }
    intros avg _.
    eapply runs_bind; [apply runs_random_offset|]. intros off _.
    apply runs_setitem; apply norm_index_nonneg; lia.
  - done.
  - done.
  - done.
Qed.

Lemma paced_square_step N (s h : Z) (r : F) :
  1 <= h -> 1 <= s -> 2 * h < Z.of_nat N ->
  paced N (square_step s h r) (square_writes (Z.of_nat N) s h).
Proof.
  intros Hh Hs H2. unfold square_step. eapply runs_as.
  - eapply runs_bind; [apply runs_get_self|]. intros g (-> & _).
    apply paced_for with
      (ev := fun y => flat_map (fun x => [EvWrite (Z.to_nat y) (Z.to_nat x)])
                        (range ((y + h) mod s) (Z.of_nat N) s)).
    intros y Hy. apply range_spec in Hy; [|lia].
    apply paced_for with (ev := fun x => [EvWrite (Z.to_nat y) (Z.to_nat x)]).
    intros x Hx. apply range_spec in Hx; [|lia].
    pose proof (Z.mod_pos_bound (y + h) s ltac:(lia)).
    apply paced_square_point; lia.
  - done.
  - done.
  - done.
Qed.

Lemma paced_main_loop N (fuel : nat) :
  forall (s : Z) (r : F),
    s <= Z.of_nat N - 1 -> Z.log2 s < Z.of_nat fuel ->
    Forall (fun s' => (s' | Z.of_nat N - 1)) (step_sizes fuel s) ->
    paced N (main_loop fuel s r) (loop_events fuel (Z.of_nat N) s).
Proof.
  induction fuel as [|fuel IH]; intros s r Hs Hlog Hdiv.
  { pose proof (Z.log2_nonneg s). lia. }
  cbn [main_loop loop_events step_sizes] in *.
  destruct (Z.gtb_spec s 1) as [H1|H1]; destruct (Z.ltb_spec 1 s); try lia.
  2:{ by apply runs_ret. }
  apply Forall_cons in Hdiv as [Hd Hrest].
  assert (Hh : 1 <= s / 2) by (apply Z.div_le_lower_bound; lia).
  assert (Hh2 : 2 * (s / 2) <= s) by (apply Z.mul_div_le; lia).
  eapply runs_as.
  - eapply runs_bind; [by apply (runs_log N (EvPass s))|]. intros _ _.
    eapply runs_bind; [apply paced_diamond_step; [done|lia]|]. intros _ _.
    eapply runs_bind; [apply paced_square_step; lia|]. intros _ _.
    apply IH; [lia| |done]. rewrite log2_half by done. lia.
  - done.
  - rewrite assignments_pass, !assignments_app. lia.
  - done.
Qed.

Lemma paced_diamond_square N :
  (1 <= N)%nat ->
  Forall (fun s => (s | Z.of_nat N - 1)) (step_sizes N (Z.of_nat N - 1)) ->
  paced N diamond_square (corner_writes N ++ loop_events N (Z.of_nat N) (Z.of_nat N - 1)).
Proof.
  intros HN Hdiv. unfold diamond_square. eapply runs_as.
  - eapply runs_bind; [by apply paced_init_corners|]. intros _ _.
    eapply runs_bind; [apply runs_get_self|]. intros g (-> & _).
    rewrite Nat2Z.id. apply paced_main_loop; [lia| |done].
    destruct (Z.le_gt_cases (Z.of_nat N - 1) 0).
    + rewrite Z.log2_nonpos by done. lia.
    + pose proof (Z.log2_lt_lin (Z.of_nat N - 1)). lia.
  - done.
  - by rewrite !assignments_app.
  - done.
Qed.

End Steps.

(** ** Counting assignments *)

Lemma range_NoDup (a b s : Z) : 0 < s -> NoDup (range a b s).
Proof.
  intros Hs. unfold range. destruct (Z.ltb_spec 0 s); [|lia].
  apply NoDup_fmap_2_strong; [|apply NoDup_seq].
  intros k k' _ _ E. nia.
Qed.

Lemma writes_to_absent (r c : nat) (l : list event) :
  ~ In (EvWrite r c) l -> writes_to r c l = 0%nat.
Proof.
  unfold writes_to. induction l as [|e l IH]; intros Hn; [done|]. simpl.
  destruct e as [r' c'|s]; simpl.
  - destruct (Nat.eqb_spec r' r), (Nat.eqb_spec c' c); simpl;
      try (apply IH; intros Hi; apply Hn; by right).
    subst. exfalso. apply Hn. by left.
  - apply IH. intros Hi. apply Hn. by right.
Qed.

Lemma writes_to_NoDup (r c : nat) (l : list event) :
  NoDup l -> In (EvWrite r c) l -> writes_to r c l = 1%nat.
Proof.
  induction 1 as [|e l Hne Hnd IH]; intros Hin; [done|].
  rewrite list_elem_of_In in Hne.
  change (e :: l) with ([e] ++ l). rewrite writes_to_app.
  destruct Hin as [->|Hin].
  - rewrite (writes_to_absent r c l) by done.
    unfold writes_to. simpl. by rewrite !Nat.eqb_refl.
  - rewrite IH by done. rewrite (writes_to_absent r c [e]); [done|].
    intros [->|[]]. done.
Qed.

Lemma in_loops {A} (ys : list Z) (xs : Z -> list Z) (f : Z -> Z -> A) (e : A) :
  In e (flat_map (fun y => flat_map (fun x => [f y x]) (xs y)) ys) <->
  exists y x, In y ys /\ In x (xs y) /\ e = f y x.
Proof.
  rewrite in_flat_map. split.
  - intros (y & Hy & He). apply in_flat_map in He as (x & Hx & [<-|[]]). eauto.
  - intros (y & x & Hy & Hx & ->). exists y. split; [done|].
    apply in_flat_map. exists x. split; [done|]. by left.
Qed.

Lemma NoDup_loops {A} (ys : list Z) (xs : Z -> list Z) (f : Z -> Z -> A) :
  NoDup ys -> (forall y, In y ys -> NoDup (xs y)) ->
  (forall y x y' x', In y ys -> In x (xs y) -> In y' ys -> In x' (xs y') ->
     f y x = f y' x' -> y = y' /\ x = x') ->
  NoDup (flat_map (fun y => flat_map (fun x => [f y x]) (xs y)) ys).
Proof.
  intros Hys Hxs Hinj. induction Hys as [|y ys Hne Hnd IH]; simpl; [constructor|].
  rewrite list_elem_of_In in Hne.
  apply NoDup_app. split; [|split].
  - assert (Hrow : forall x x', In x (xs y) -> In x' (xs y) -> f y x = f y x' -> x = x').
    { intros x x' Hx Hx' E.
      by destruct (Hinj y x y x' ltac:(by left) Hx ltac:(by left) Hx' E). }
    specialize (Hxs y (or_introl eq_refl)).
    induction Hxs as [|x l Hx Hl IHl]; simpl; [constructor|].
    rewrite list_elem_of_In in Hx.
    constructor.
    + rewrite list_elem_of_In. intros Hi.
      apply in_flat_map in Hi as (x' & Hx' & [E|[]]).
      assert (x = x') by (symmetry; apply Hrow; [by right|by left|done]).
      by subst.
    + apply IHl. intros x1 x2 H1 H2. apply Hrow; by right.
  - intros e He He'. rewrite list_elem_of_In in He, He'.
    apply in_flat_map in He as (x & Hx & [<-|[]]).
    apply (in_loops ys xs f) in He' as (y' & x' & Hy' & Hx' & E).
    destruct (Hinj y x y' x' ltac:(by left) Hx ltac:(by right) Hx' E) as [Ey _].
    by subst.
  - apply IH.
    + intros y' Hy'. apply Hxs. by right.
    + intros y1 x1 y2 x2 H1 H2 H3 H4. apply Hinj; auto; by right.
Qed.

Lemma EvWrite_inj (a b a' b' : Z) :
  0 <= a -> 0 <= b -> 0 <= a' -> 0 <= b' ->
  EvWrite (Z.to_nat a) (Z.to_nat b) = EvWrite (Z.to_nat a') (Z.to_nat b') ->
  a = a' /\ b = b'.
Proof. intros ? ? ? ? [= E1 E2]. lia. Qed.

(** ** Residues *)

Lemma divide_residue (s a v : Z) : 0 <= a < s -> (s | v - a) <-> v mod s = a.
Proof.
  intros Ha. split.
  - intros [k Hk]. replace v with (a + k * s) by lia.
    rewrite Z_mod_plus_full. by apply Z.mod_small.
  - intros E. exists (v / s). pose proof (Z.div_mod v s). lia.
Qed.

Lemma half_lattice (h v : Z) :
  1 <= h -> (h | v) <-> v mod (2 * h) = 0 \/ v mod (2 * h) = h.
Proof.
  intros Hh. split.
  - intros [k ->].
    destruct (Z.Even_or_Odd k) as [[q ->]|[q ->]].
    + left. replace (2 * q * h) with (0 + q * (2 * h)) by lia.
      rewrite Z_mod_plus_full. done.
    + right. replace ((2 * q + 1) * h) with (h + q * (2 * h)) by lia.
      rewrite Z_mod_plus_full. apply Z.mod_small. lia.
  - intros E. pose proof (Z.div_mod v (2 * h) ltac:(lia)) as D.
    destruct E as [E|E]; rewrite E in D.
    + exists (2 * (v / (2 * h))). lia.
    + exists (2 * (v / (2 * h)) + 1). lia.
Qed.

(** The cells of a square step, by their residues modulo the step. *)
Lemma mixed_residues (h y x : Z) :
  1 <= h ->
  (h | y) /\ (2 * h | x - y - h) <->
  (y mod (2 * h) = 0 /\ x mod (2 * h) = h) \/ (y mod (2 * h) = h /\ x mod (2 * h) = 0).
Proof.
  intros Hh. rewrite (half_lattice h y) by done. split.
  - intros [[Ey|Ey] Hdx].
    + left. split; [done|].
      apply divide_residue; [lia|].
      apply divide_residue in Ey; [|lia]. rewrite Z.sub_0_r in Ey.
      destruct Ey as [p Hp], Hdx as [q Hq]. exists (p + q). lia.
    + right. split; [done|].
      apply divide_residue; [lia|]. rewrite Z.sub_0_r.
      apply divide_residue in Ey; [|lia].
      destruct Ey as [p Hp], Hdx as [q Hq]. exists (p + q + 1). lia.
  - intros [[Ey Ex]|[Ey Ex]]; (split; [auto|]).
    + apply divide_residue in Ey, Ex; try lia. rewrite Z.sub_0_r in Ey.
      destruct Ey as [p Hp], Ex as [q Hq]. exists (q - p). lia.
    + apply divide_residue in Ey, Ex; try lia. rewrite Z.sub_0_r in Ex.
      destruct Ey as [p Hp], Ex as [q Hq]. exists (q - p - 1). lia.
Qed.

Lemma diamond_count (size s h y x : Z) :
  1 <= h < s -> (s | size - 1) -> 0 <= y < size -> 0 <= x < size ->
  writes_to (Z.to_nat y) (Z.to_nat x) (diamond_writes size s h) =
    if (y mod s =? h) && (x mod s =? h) then 1%nat else 0%nat.
Proof.
  intros Hh Hd Hy Hx.
  assert (Hnd : NoDup (diamond_writes size s h)).
  { apply NoDup_loops; [apply range_NoDup; lia|intros; apply range_NoDup; lia|].
    intros y1 x1 y2 x2 H1 H2 H3 H4 E.
    apply range_spec in H1, H2, H3, H4; try lia.
    apply EvWrite_inj in E; lia. }
  assert (Hin : In (EvWrite (Z.to_nat y) (Z.to_nat x)) (diamond_writes size s h) <->
                y mod s = h /\ x mod s = h).
  { unfold diamond_writes. rewrite in_loops. split.
    - intros (y' & x' & Hy' & Hx' & E).
      apply range_spec in Hy', Hx'; try lia.
      apply EvWrite_inj in E as [-> ->]; try lia.
      rewrite Z.sub_0_r in Hy', Hx'.
      split; apply divide_residue; try lia.
      + replace (y' + h - h) with y' by lia. by destruct Hy'.
      + replace (x' + h - h) with x' by lia. by destruct Hx'.
    - intros [Ey Ex].
      assert (Hby : forall v, 0 <= v < size -> v mod s = h -> 0 <= v - h < size - 1 /\ (s | v - h)).
      { intros v Hv Ev. split; [|apply divide_residue; [lia|done]].
        pose proof (Z.mod_le v s ltac:(lia) ltac:(lia)). lia. }
      destruct (Hby y Hy Ey), (Hby x Hx Ex).
      exists (y - h), (x - h). rewrite !range_spec by lia. rewrite !Z.sub_0_r.
      repeat split; try lia; try done. f_equal; f_equal; lia. }
  destruct (Z.eqb_spec (y mod s) h) as [Ey|Ey], (Z.eqb_spec (x mod s) h) as [Ex|Ex]; simpl;
    try (apply writes_to_absent; rewrite Hin; tauto).
  apply writes_to_NoDup; [done|]. by apply Hin.
Qed.

Lemma square_count (size s h y x : Z) :
  1 <= h -> s = 2 * h -> 0 <= y < size -> 0 <= x < size ->
  writes_to (Z.to_nat y) (Z.to_nat x) (square_writes size s h) =
    if ((y mod s =? 0) && (x mod s =? h)) || ((y mod s =? h) && (x mod s =? 0))
    then 1%nat else 0%nat.
Proof.
  intros Hh Hs Hy Hx.
  assert (Hm : forall v, 0 <= (v + h) mod s) by (intros v; apply Z.mod_pos_bound; lia).
  assert (Hnd : NoDup (square_writes size s h)).
  { apply NoDup_loops; [apply range_NoDup; lia|intros; apply range_NoDup; lia|].
    intros y1 x1 y2 x2 H1 H2 H3 H4 E.
    apply range_spec in H1, H2, H3, H4; try lia.
    pose proof (Hm y1). pose proof (Hm y2).
    apply EvWrite_inj in E; lia. }
  assert (Hin : In (EvWrite (Z.to_nat y) (Z.to_nat x)) (square_writes size s h) <->
                (h | y) /\ (s | x - y - h)).
  { unfold square_writes. rewrite in_loops. split.
    - intros (y' & x' & Hy' & Hx' & E).
      destruct (square_visit_lattice size s h y' x' Hh Hs (conj Hy' Hx'))
        as (? & ? & ? & ? & ?).
      apply EvWrite_inj in E as [-> ->]; try lia. done.
    - intros [Hdy Hdx]. exists y, x. rewrite !range_spec by lia.
      rewrite Z.sub_0_r. split; [done|]. split; [|done].
      assert (Ex : x mod s = (y + h) mod s).
      { destruct Hdx as [k Hk]. replace x with (y + h + k * s) by lia.
        apply Z_mod_plus_full. }
      split.
      + rewrite <- Ex. split; [|lia]. apply Z.mod_le; lia.
      + rewrite <- Ex. exists (x / s). pose proof (Z.div_mod x s). lia. }
  pose proof (mixed_residues h y x Hh) as Hcases. rewrite <- Hs in Hcases.
  rewrite Hcases in Hin.
  destruct (Z.eqb_spec (y mod s) 0), (Z.eqb_spec (y mod s) h),
    (Z.eqb_spec (x mod s) 0), (Z.eqb_spec (x mod s) h); simpl;
    try (apply writes_to_absent; rewrite Hin; lia);
    apply writes_to_NoDup; try done; apply Hin; lia.
Qed.

Lemma writes_to_pass_mark (r c : nat) (s : Z) (t : list event) :
  writes_to r c (EvPass s :: t) = writes_to r c t.
Proof. reflexivity. Qed.

Lemma pow2_half (k : nat) :
  2 ^ Z.of_nat (S k) = 2 * 2 ^ Z.of_nat k /\ 1 <= 2 ^ Z.of_nat k /\
  2 ^ Z.of_nat (S k) / 2 = 2 ^ Z.of_nat k.
Proof.
  assert (E : 2 ^ Z.of_nat (S k) = 2 * 2 ^ Z.of_nat k).
  { rewrite Nat2Z.inj_succ. apply Z.pow_succ_r. lia. }
  assert (0 < 2 ^ Z.of_nat k) by (apply Z.pow_pos_nonneg; lia).
  split; [done|]. split; [lia|].
  rewrite E, Z.mul_comm. apply Z.div_mul. lia.
Qed.

(** After the passes with steps [2^k, ..., 2], the assigned cells are those
    off the lattice of step [2^k]. *)
Lemma loop_count (size y x : Z) (k : nat) :
  forall fuel, (k <= fuel)%nat -> (2 ^ Z.of_nat k | size - 1) ->
  0 <= y < size -> 0 <= x < size ->
  writes_to (Z.to_nat y) (Z.to_nat x) (loop_events fuel size (2 ^ Z.of_nat k)) =
    if (y mod 2 ^ Z.of_nat k =? 0) && (x mod 2 ^ Z.of_nat k =? 0) then 0%nat else 1%nat.
Proof.
  induction k as [|k IH]; intros fuel Hf Hd Hy Hx.
  - change (2 ^ Z.of_nat 0) with 1. rewrite !Z.mod_1_r. simpl.
    destruct fuel; done.
  - destruct fuel as [|fuel]; [lia|].
    destruct (pow2_half k) as (Es & Hh & Ehalf).
    set (s := 2 ^ Z.of_nat (S k)) in *. set (h := 2 ^ Z.of_nat k) in *.
    cbn [loop_events]. destruct (Z.ltb_spec 1 s); [|lia].
    rewrite Ehalf, writes_to_pass_mark, !writes_to_app.
    assert (Hdh : (h | size - 1)).
    { destruct Hd as [m Hm]. exists (2 * m). lia. }
    rewrite diamond_count, square_count, IH by (done || lia).
    pose proof (half_lattice h y Hh) as Ly. pose proof (half_lattice h x Hh) as Lx.
    rewrite <- Es in Ly, Lx.
    rewrite <- (Z.mod_divide y h), <- (Z.mod_divide x h) in * by lia.
    clear IH.
    set (ys := y mod s) in *. set (xs := x mod s) in *.
    set (yh := y mod h) in *. set (xh := x mod h) in *.
    clearbody ys xs yh xh.
    destruct (Z.eqb_spec ys h), (Z.eqb_spec xs h), (Z.eqb_spec ys 0), (Z.eqb_spec xs 0),
      (Z.eqb_spec yh 0), (Z.eqb_spec xh 0); simpl; lia.
Qed.

Lemma corner_count (N r c : nat) :
  (2 <= N)%nat ->
  writes_to r c (corner_writes N) =
    if ((r =? 0)%nat || (r =? N - 1)%nat) && ((c =? 0)%nat || (c =? N - 1)%nat)
    then 1%nat else 0%nat.
Proof.
  intros HN. unfold writes_to, corner_writes. cbn [List.filter].
  destruct (Nat.eqb_spec 0 r), (Nat.eqb_spec (N - 1) r), (Nat.eqb_spec 0 c),
    (Nat.eqb_spec (N - 1) c), (Nat.eqb_spec r 0), (Nat.eqb_spec r (N - 1)),
    (Nat.eqb_spec c 0), (Nat.eqb_spec c (N - 1)); simpl; lia.
Qed.

Lemma mod_full (L v : Z) : 1 <= L -> 0 <= v <= L -> (v mod L =? 0) = (v =? 0) || (v =? L).
Proof.
  intros HL Hv.
  destruct (Z.eqb_spec v 0) as [->|H0]; [by rewrite Z.mod_0_l by lia|].
  destruct (Z.eqb_spec v L) as [->|H1]; [by rewrite Z.mod_same by lia|].
  rewrite Z.mod_small by lia. simpl. by apply Z.eqb_neq.
Qed.

Lemma step_sizes_pow2 (n : nat) (fuel : nat) :
  forall k : nat, (k <= n)%nat ->
  Forall (fun s => (s | 2 ^ Z.of_nat n)) (step_sizes fuel (2 ^ Z.of_nat k)).
Proof.
  induction fuel as [|fuel IH]; intros k Hk; [constructor|].
  cbn [step_sizes]. destruct (Z.ltb_spec 1 (2 ^ Z.of_nat k)); [|constructor].
  destruct k as [|k]; [simpl in *; lia|].
  destruct (pow2_half k) as (_ & _ & ->).
  constructor; [|apply IH; lia].
  exists (2 ^ (Z.of_nat n - Z.of_nat (S k))).
  rewrite <- Z.pow_add_r by lia. f_equal. lia.
Qed.

(** ** Assignments and cells *)

Lemma sum_list_with_same {A} (f g : A -> nat) (l : list A) :
  (forall x, In x l -> f x = g x) -> sum_list_with f l = sum_list_with g l.
Proof.
  induction l as [|a l IH]; intros Hfg; simpl; [done|].
  rewrite Hfg by (by left). rewrite IH; [done|]. intros x Hx. apply Hfg. by right.
Qed.

Lemma sum_list_with_bump (a k : nat) (g : nat -> nat) (l : list nat) :
  NoDup l -> In a l ->
  sum_list_with (fun x => (if (a =? x)%nat then k else 0) + g x)%nat l =
    (k + sum_list_with g l)%nat.
Proof.
  induction 1 as [|b l Hb Hl IH]; intros Hin; [done|].
  rewrite list_elem_of_In in Hb. simpl.
  destruct Hin as [->|Hin].
  - rewrite Nat.eqb_refl.
    rewrite (sum_list_with_same _ g); [lia|].
    intros x Hx. destruct (Nat.eqb_spec a x); [by subst|done].
  - rewrite IH by done.
    destruct (Nat.eqb_spec a b); [by subst|lia].
Qed.

Lemma assignments_by_cell (N : nat) (tr : list event) :
  Forall (in_grid N) tr -> assignments tr = assigned_cells N tr.
Proof.
  induction 1 as [|e tr He _ IH].
  - unfold assigned_cells. symmetry.
    rewrite (sum_list_with_same _ (fun _ => 0%nat)).
    + induction (seq 0 N); simpl; auto.
    + intros r _. induction (seq 0 N); simpl; auto.
  - destruct e as [r0 c0|s]; [|by rewrite assignments_pass, IH].
    destruct He as [Hr Hc].
    change (assignments (EvWrite r0 c0 :: tr)) with (S (assignments tr)).
    rewrite IH. unfold assigned_cells.
    rewrite <- (sum_list_with_bump r0 1 _ (seq 0 N));
      [|apply NoDup_seq|apply in_seq; lia].
    apply sum_list_with_same. intros r _.
    rewrite <- (sum_list_with_bump c0 (if (r0 =? r)%nat then 1 else 0)%nat _ (seq 0 N));
      [|apply NoDup_seq|apply in_seq; lia].
    apply sum_list_with_same. intros c _.
    change (EvWrite r0 c0 :: tr) with ([EvWrite r0 c0] ++ tr).
    rewrite writes_to_app. f_equal. unfold writes_to. simpl.
    by destruct (r0 =? r)%nat, (c0 =? c)%nat.
Qed.

Lemma assigned_cells_once (N : nat) (tr : list event) :
  (forall r c, (r < N)%nat -> (c < N)%nat -> writes_to r c tr = 1%nat) ->
  assigned_cells N tr = (N * N)%nat.
Proof.
  intros Hone. unfold assigned_cells.
  assert (Hsum : forall (l : list nat), sum_list_with (fun _ => 1%nat) l = length l).
  { induction l; simpl; auto. }
  rewrite (sum_list_with_same _ (fun _ => N)).
  - assert (Hc : forall (l : list nat), sum_list_with (fun _ => N) l = (length l * N)%nat).
    { induction l as [|a l IHl]; simpl; [done|]. by rewrite IHl. }
    by rewrite Hc, length_seq.
  - intros r Hr. apply in_seq in Hr.
    rewrite (sum_list_with_same _ (fun _ => 1%nat)).
    + by rewrite Hsum, length_seq.
    + intros c Hc. apply in_seq in Hc. apply Hone; lia.
Qed.

(** On a grid of side [N = 2^n + 1] the corners and the passes assign
    every cell once. *)
Lemma all_cells_once (n : nat) (r c : nat) :
  let size := 2 ^ Z.of_nat n + 1 in
  let N := Z.to_nat size in
  (r < N)%nat -> (c < N)%nat ->
  writes_to r c (corner_writes N ++ loop_events N size (2 ^ Z.of_nat n)) = 1%nat.
Proof.
  intros size N Hr Hc. destruct (pow2_facts n) as (Hpos & Hlin & HN).
  fold size in HN. fold N in HN.
  rewrite writes_to_app, corner_count by lia.
  pose proof (loop_count size (Z.of_nat r) (Z.of_nat c) n N ltac:(lia)
    ltac:(exists 1; unfold size; lia) ltac:(lia) ltac:(lia)) as Hl.
  rewrite !Nat2Z.id in Hl. rewrite Hl.
  rewrite !mod_full by (unfold size in HN; lia).
  replace (2 ^ Z.of_nat n) with (Z.of_nat (N - 1)) by (unfold size in HN; lia).
  destruct (Nat.eqb_spec r 0), (Nat.eqb_spec r (N - 1)), (Nat.eqb_spec c 0),
    (Nat.eqb_spec c (N - 1)), (Z.eqb_spec (Z.of_nat r) 0),
    (Z.eqb_spec (Z.of_nat r) (Z.of_nat (N - 1))), (Z.eqb_spec (Z.of_nat c) 0),
    (Z.eqb_spec (Z.of_nat c) (Z.of_nat (N - 1))); simpl; lia.
Qed.

Section Run_structure.

Context {F : Type} `{Num F}.

(** A run on a grid of side [2^n + 1]: its trace, what it draws and what
    it leaves alone. *)
Lemma run_trace (n : nat) (w : World F) :
  let size := 2 ^ Z.of_nat n + 1 in
  let N := Z.to_nat size in
  engine_ok N w ->
  exists w',
    diamond_square w = Ok tt w' /\ engine_ok N w' /\
    tape (random w') = tape (random w) /\
    pos (random w') = (pos (random w) + N * N)%nat /\
    trace w' = trace w ++ corner_writes N ++ loop_events N size (2 ^ Z.of_nat n).
Proof.
  intros size N Hw. destruct (pow2_facts n) as (Hpos & Hlin & HN).
  fold size in HN. fold N in HN.
  assert (HL : Z.of_nat N - 1 = 2 ^ Z.of_nat n) by (unfold size in HN; lia).
  destruct (paced_diamond_square N) with (w := w)
    as ([] & w' & E & I' & T' & P' & Tr' & G' & _); [lia| |done|].
  { rewrite HL. by apply step_sizes_pow2. }
  rewrite HL, HN in Tr', G', P'.
  exists w'. split; [done|]. split; [done|]. split; [done|]. split; [|done].
  rewrite P'. f_equal. rewrite (assignments_by_cell N) by done.
  apply assigned_cells_once. intros r c. apply (all_cells_once n).
Qed.

End Run_structure.

(** ** What the rest of [generate_coastline] leaves alone *)

Section Still.

Context {F : Type} `{Num F}.

Lemma still_ret {A} (a : A) : still (ret (F:=F) a).
Proof. by intros w. Qed.

Lemma still_raise {A} (e : exn) : still (raise (F:=F) (A:=A) e).
Proof. by intros w. Qed.

Lemma still_bind {A B} (m : M F A) (k : A -> M F B) :
  still m -> (forall a, still (k a)) -> still (bind m k).
Proof.
  intros Hm Hk w. unfold bind. destruct (Hm w) as [R T].
  destruct (m w) as [a w1|e w1]; simpl in *; [|done].
  destruct (Hk a w1) as [R1 T1]. split; congruence.
Qed.

Lemma still_fold_for {A S} (xs : list A) (body : A -> S -> M F S) :
  (forall x acc, still (body x acc)) -> forall acc, still (fold_for xs body acc).
Proof.
  intros Hb. induction xs as [|x xs IH]; intros acc; simpl.
  - apply still_ret.
  - apply still_bind; auto.
Qed.

Lemma still_get_self : still (get_self (F:=F)).
Proof. by intros w. Qed.

Lemma still_getitem (i j : Z) : still (getitem (F:=F) i j).
Proof.
  unfold getitem. apply still_bind; [apply still_get_self|]. intros g.
  destruct (grid_get _ i j); [apply still_ret|apply still_raise].
Qed.

Lemma still_normalize : still (normalize (F:=F)).
Proof.
  unfold normalize, np_min, np_max.
  apply still_bind; [apply still_get_self|]. intros g1.
  apply still_bind; [destruct (reduce _ _); [apply still_ret|apply still_raise]|].
  intros lo. apply still_bind; [apply still_get_self|]. intros g2.
  apply still_bind; [destruct (reduce _ _); [apply still_ret|apply still_raise]|].
  intros hi. apply still_bind; [apply still_get_self|]. intros g3.
  by intros w.
Qed.

Lemma still_py_int (x : F) : still (py_int x).
Proof. unfold py_int. destruct (to_int x); [apply still_raise|apply still_ret]. Qed.

Lemma still_make_pixel (r g b : Z) : still (make_pixel (F:=F) r g b).
Proof.
  unfold make_pixel, uint8.
  repeat (apply still_bind;
          [match goal with |- still (if ?c then _ else _) => destruct c end;
           [apply still_ret|apply still_raise]|]; intros ?).
  apply still_ret.
Qed.

Lemma still_color (height : F) : still (color height).
Proof.
  unfold color. apply still_bind; [apply still_get_self|]. intros g.
  destruct (height <? self_sea_level g)%num.
  - apply still_bind; [apply still_py_int|]. intros blue.
    apply still_bind; [apply still_py_int|]. intros green.
    apply still_make_pixel.
  - apply still_bind; [apply still_py_int|]. intros green.
    apply still_bind; [apply still_py_int|]. intros red.
    apply still_make_pixel.
Qed.

Lemma still_color_mapping : still (color_mapping (F:=F)).
Proof.
  unfold color_mapping. apply still_bind; [apply still_get_self|]. intros g.
  apply still_fold_for. intros y img. apply still_fold_for. intros x img'.
  apply still_bind; [apply still_getitem|]. intros v.
  apply still_bind; [apply still_color|]. intros px.
  unfold image_set. destruct (locate _ _ _) as [[? ?]|]; [apply still_ret|apply still_raise].
Qed.

Lemma after_diamond_square (w w' : World F) :
  diamond_square w = Ok tt w' ->
  random (final (generate_coastline w)) = random w' /\
  trace (final (generate_coastline w)) = trace w'.
Proof.
  intros E.
  assert (Eg : generate_coastline w = bind normalize (fun _ => color_mapping) w').
  { unfold generate_coastline. unfold bind at 1. by rewrite E. }
  rewrite Eg. apply (still_bind normalize (fun _ => color_mapping));
    [apply still_normalize|intros _; apply still_color_mapping].
Qed.

End Still.

(** ** The first values *)

Lemma range_single (s : Z) : 0 < s -> range 0 s s = [0].
Proof.
  intros Hs. unfold range. destruct (Z.ltb_spec 0 s); [|lia].
  replace ((s - 0 + s - 1) / s) with 1; [done|].
  apply Z.div_unique with (r := s - 1); lia.
Qed.

Section Values.

Context {F : Type} `{Num F}.

Lemma getitem_cell (N : nat) (w : World F) (i j : Z) (v : F) :
  engine_ok N w -> 0 <= i < Z.of_nat N -> 0 <= j < Z.of_nat N ->
  cell (self_heightmap (self w)) (Z.to_nat i) (Z.to_nat j) = Some v ->
  getitem i j w = Ok v w.
Proof.
  intros Hw Hi Hj Hv. unfold getitem, bind, get_self, grid_get.
  rewrite (locate_shaped N _ i j _ _ (inv_shape _ _ _ Hw) (norm_index_nonneg _ _ Hi)
             (norm_index_nonneg _ _ Hj)).
  by rewrite Hv.
Qed.

(** The corners after lines 19-22: the first four draws. *)
Lemma init_corners_cells (N : nat) (w : World F) :
  (2 <= N)%nat -> engine_ok N w ->
  let u k := tape (random w) (pos (random w) + k) in
  exists w1,
    init_corners w = Ok tt w1 /\ engine_ok N w1 /\
    random w1 = {| tape := tape (random w); pos := pos (random w) + 4 |} /\
    trace w1 = trace w ++ corner_writes N /\
    cell (self_heightmap (self w1)) 0 0 = Some (u 0%nat) /\
    cell (self_heightmap (self w1)) 0 (N - 1) = Some (u 1%nat) /\
    cell (self_heightmap (self w1)) (N - 1) 0 = Some (u 2%nat) /\
    cell (self_heightmap (self w1)) (N - 1) (N - 1) = Some (u 3%nat).
Proof.
  intros HN Hw u. destruct Hw as [Hsz Hsh Hg Hr Hsl Ht].
  assert (H0 : norm_index (Z.of_nat N) 0 = Some 0%nat).
  { rewrite norm_index_nonneg by lia. done. }
  assert (H1 : norm_index (Z.of_nat N) (-1) = Some (N - 1)%nat).
  { rewrite norm_index_last by lia. f_equal. lia. }
  unfold init_corners, bind, random_random.
  erewrite (setitem_shaped N) by (simpl; eauto using grid_set_shaped).
  erewrite (setitem_shaped N) by (simpl; eauto using grid_set_shaped).
  erewrite (setitem_shaped N) by (simpl; eauto using grid_set_shaped).
  erewrite (setitem_shaped N) by (simpl; eauto using grid_set_shaped).
  eexists. split; [reflexivity|]. simpl.
  split; [constructor; simpl; auto using grid_set_shaped; by repeat apply grid_set_all|].
  split; [f_equal; lia|].
  split; [unfold corner_writes; by rewrite <- !app_assoc|].
  unfold u. rewrite !Nat.add_0_r.
  replace (pos (random w) + 1)%nat with (S (pos (random w))) by lia.
  replace (pos (random w) + 2)%nat with (S (S (pos (random w)))) by lia.
  replace (pos (random w) + 3)%nat with (S (S (S (pos (random w))))) by lia.
  repeat split.
  - rewrite !cell_grid_set_ne by lia.
    apply (cell_grid_set_eq N); [done|lia..].
  - rewrite !cell_grid_set_ne by lia.
    apply (cell_grid_set_eq N); [by apply grid_set_shaped|lia..].
  - rewrite !cell_grid_set_ne by lia.
    apply (cell_grid_set_eq N); [by repeat apply grid_set_shaped|lia..].
  - apply (cell_grid_set_eq N); [by repeat apply grid_set_shaped|lia..].
Qed.

(** One diamond point, with the values it reads. *)
Lemma diamond_point_run (N : nat) (s h : Z) (r : F) (y x : Z) (w : World F) (a b c d : F) :
  engine_ok N w ->
  0 <= y -> y + s <= Z.of_nat N - 1 -> 0 <= x -> x + s <= Z.of_nat N - 1 -> 1 <= h < s ->
  cell (self_heightmap (self w)) (Z.to_nat y) (Z.to_nat x) = Some a ->
  cell (self_heightmap (self w)) (Z.to_nat (y + s)) (Z.to_nat x) = Some b ->
  cell (self_heightmap (self w)) (Z.to_nat y) (Z.to_nat (x + s)) = Some c ->
  cell (self_heightmap (self w)) (Z.to_nat (y + s)) (Z.to_nat (x + s)) = Some d ->
  diamond_point s h r y x w =
    Ok tt (record (EvWrite (Z.to_nat (y + h)) (Z.to_nat (x + h)))
             (with_heightmap
                (grid_set (self_heightmap (self (advance w))) (Z.to_nat (y + h))
                   (Z.to_nat (x + h))
                   ((a + b + c + d) / of_int 4 +
                    random_offset (tape (random w) (pos (random w))) r (lit 6 10))%num)
                (advance w))).
Proof.
  intros Hw Hy Hys Hx Hxs Hh Ha Hb Hc Hd.
  unfold diamond_point, bind.
  rewrite (getitem_cell N w y x a), (getitem_cell N w (y + s) x b),
    (getitem_cell N w y (x + s) c), (getitem_cell N w (y + s) (x + s) d)
    by (done || lia).
  unfold _get_random_offset, bind, random_random, get_self, ret.
  destruct Hw as [Hsz Hsh Hg Hr Hsl Ht].
  erewrite (setitem_shaped N); [|done|apply norm_index_nonneg; lia..].
  simpl. by rewrite Hr.
Qed.

Lemma diamond_point_value (N : nat) (s h : Z) (r : F) (y x : Z) (w : World F) (a b c d : F) :
  engine_ok N w ->
  0 <= y -> y + s <= Z.of_nat N - 1 -> 0 <= x -> x + s <= Z.of_nat N - 1 -> 1 <= h < s ->
  cell (self_heightmap (self w)) (Z.to_nat y) (Z.to_nat x) = Some a ->
  cell (self_heightmap (self w)) (Z.to_nat (y + s)) (Z.to_nat x) = Some b ->
  cell (self_heightmap (self w)) (Z.to_nat y) (Z.to_nat (x + s)) = Some c ->
  cell (self_heightmap (self w)) (Z.to_nat (y + s)) (Z.to_nat (x + s)) = Some d ->
  exists w',
    diamond_point s h r y x w = Ok tt w' /\ engine_ok N w' /\
    random w' = random (advance w) /\
    (forall r' c', r' <> Z.to_nat (y + h) \/ c' <> Z.to_nat (x + h) ->
       cell (self_heightmap (self w')) r' c' = cell (self_heightmap (self w)) r' c') /\
    cell (self_heightmap (self w')) (Z.to_nat (y + h)) (Z.to_nat (x + h)) =
      Some ((a + b + c + d) / of_int 4 +
            random_offset (tape (random w) (pos (random w))) r (lit 6 10))%num.
Proof.
  intros Hw Hy Hys Hx Hxs Hh Ha Hb Hc Hd.
  eexists. split; [by apply (diamond_point_run N)|].
  destruct Hw as [Hsz Hsh Hg Hr Hsl Ht]. simpl.
  split; [constructor; simpl; auto using grid_set_shaped; by apply grid_set_all|].
  split; [done|].
  split; [intros r' c' Hne; by apply cell_grid_set_ne|].
  apply (cell_grid_set_eq N); [done|lia..].
Qed.

End Values.

Lemma engine_ok_record {F} `{Num F} (N : nat) (e : event) (w : World F) :
  engine_ok N w -> engine_ok N (record e w).
Proof. intros [Hsz Hsh Hg Hr Hsl Ht]. by constructor. Qed.

Lemma first_pass {F} `{Num F} (fuel : nat) (s : Z) (r : F) (w : World F) :
  1 < s -> (1 <= fuel)%nat ->
  main_loop fuel s r w =
    match diamond_step s (s / 2) r (record (EvPass s) w) with
    | Ok _ w2 =>
        match square_step s (s / 2) r w2 with
        | Ok _ w3 => main_loop (fuel - 1) (s / 2) (r * lit 5 10)%num w3
        | Raise e w3 => Raise e w3
        end
    | Raise e w2 => Raise e w2
    end.
Proof.
  intros Hs Hf. destruct fuel as [|fuel]; [lia|].
  rewrite main_loop_pass by done. by rewrite Nat.sub_succ, Nat.sub_0_r.
Qed.

(** The first pass has a single diamond point, the centre of the grid. *)
Lemma first_diamond_step {F} `{Num F} (N : nat) (s h : Z) (r : F) (w : World F) :
  engine_ok N w -> Z.of_nat N - 1 = s -> 1 <= s ->
  diamond_step s h r w =
    match diamond_point s h r 0 0 w with
    | Ok _ w' => Ok tt w'
    | Raise e w' => Raise e w'
    end.
Proof.
  intros Hw HN Hs. unfold diamond_step, bind at 1, get_self.
  rewrite (inv_size _ _ _ Hw), HN, range_single by lia. simpl. unfold bind, ret.
  by destruct (diamond_point s h r 0 0 w) as [[] w'|e w'].
Qed.

(** ** Sizes on which a run raises *)

Lemma norm_index_beyond (len i : Z) : 0 <= len <= i -> norm_index len i = None.
Proof.
  intros Hi. unfold norm_index.
  destruct (Z.leb_spec 0 i), (Z.ltb_spec i len), (Z.leb_spec (- len) i), (Z.ltb_spec i 0);
    simpl; auto; lia.
Qed.

Lemma range_head (b s : Z) : 0 < s -> 0 < b -> exists tl, range 0 b s = 0 :: tl.
Proof.
  intros Hs Hb. unfold range. destruct (Z.ltb_spec 0 s); [|lia].
  assert (1 <= (b - 0 + s - 1) / s) by (apply Z.div_le_lower_bound; lia).
  destruct (Z.to_nat ((b - 0 + s - 1) / s)) as [|k] eqn:E; [lia|].
  simpl. eauto.
Qed.

Lemma divides_all_or_not (L : Z) (l : list Z) :
  Forall (fun s => (s | L)) l \/ Exists (fun s => ~ (s | L)) l.
Proof.
  induction l as [|s l [IH|IH]]; [by left| |by right; right].
  destruct (Z.BoolSpec_divide s L); [left|right]; by constructor.
Qed.

Section Failures.

Context {F : Type} `{Num F}.

Lemma getitem_beyond (N : nat) (w : World F) (i j : Z) :
  engine_ok N w -> 0 <= i < Z.of_nat N -> Z.of_nat N <= j ->
  getitem i j w = Raise IndexError w.
Proof.
  intros Hw Hi Hj. destruct Hw as [Hsz Hsh Hg Hr Hsl Ht].
  unfold getitem, bind, get_self, grid_get, locate, nrows.
  rewrite (proj1 Hsh), norm_index_nonneg by done.
  destruct (shaped_row N _ (Z.to_nat i) Hsh) as (row & -> & Hrow); [lia|].
  by rewrite Hrow, norm_index_beyond by lia.
Qed.

Lemma fails_bind {A B} N e (m : M F A) (k : A -> M F B) :
  fails N e m -> fails N e (bind m k).
Proof.
  intros Hm w Hw. destruct (Hm w Hw) as [w' E]. exists w'. unfold bind. by rewrite E.
Qed.

Lemma fails_after {A B} N e (m : M F A) (k : A -> M F B) evs d Q :
  runs N m evs d Q -> (forall a, Q a -> fails N e (k a)) -> fails N e (bind m k).
Proof.
  intros Hm Hk w Hw.
  destruct (Hm w Hw) as (a & w1 & E1 & I1 & _ & _ & _ & _ & _ & HQ).
  destruct (Hk a HQ w1 I1) as [w' E]. exists w'. unfold bind. by rewrite E1.
Qed.

(** A loop raises at the first iteration that does. *)
Lemma for_fails {A} N e (xs : list A) (body : A -> M F unit) :
  (forall x, In x xs -> (exists evs, paced N (body x) evs) \/ fails N e (body x)) ->
  (exists x, In x xs /\ fails N e (body x)) ->
  fails N e (for_ xs body).
Proof.
  induction xs as [|x xs IH]; intros Hall (x0 & Hin & Hbad); [done|]. simpl.
  destruct (Hall x (or_introl eq_refl)) as [[evs Hgood]|Hx]; [|by apply fails_bind].
  destruct Hin as [->|Hin]; [by apply fails_bind|].
  eapply fails_after; [exact Hgood|]. intros _ _. apply IH; [|eauto].
  intros x' Hx'. apply Hall. by right.
Qed.

Lemma for_head_fails {A} N e (xs : list A) (body : A -> M F unit) (x : A) (tl : list A) :
  xs = x :: tl -> fails N e (body x) -> fails N e (for_ xs body).
Proof. intros -> Hx. simpl. by apply fails_bind. Qed.

Lemma diamond_point_fails N (s h : Z) (r : F) (x : Z) :
  1 <= s <= Z.of_nat N - 1 -> 0 <= x <= Z.of_nat N - 1 -> Z.of_nat N - 1 < x + s ->
  fails N IndexError (diamond_point s h r 0 x).
Proof.
  intros Hs Hx Hxs. unfold diamond_point.
  eapply fails_after; [apply runs_getitem; lia|]. intros a _.
  eapply fails_after; [apply runs_getitem; lia|]. intros b _.
  apply fails_bind. intros w Hw. exists w. apply (getitem_beyond N); [done|lia..].
Qed.

Lemma diamond_step_fails N (s h : Z) (r : F) :
  1 <= h < s -> s <= Z.of_nat N - 1 -> ~ (s | Z.of_nat N - 1) ->
  fails N IndexError (diamond_step s h r).
Proof.
  intros Hh Hs Hnd. unfold diamond_step.
  eapply fails_after; [apply runs_get_self|]. intros g (-> & _).
  destruct (range_head (Z.of_nat N - 1) s) as [tl E]; [lia..|].
  apply (for_head_fails N _ _ _ 0 tl E). apply for_fails.
  - intros x Hx. apply range_spec in Hx as [Hx Hdx]; [|lia].
    destruct (Z.le_gt_cases (x + s) (Z.of_nat N - 1)).
    + left. eexists. apply paced_diamond_point; lia.
    + right. apply diamond_point_fails; lia.
  - set (L := Z.of_nat N - 1) in *.
    pose proof (Z.div_mod L s ltac:(lia)) as D.
    pose proof (Z.mod_pos_bound L s ltac:(lia)) as B.
    assert (L mod s <> 0).
    { intros E0. apply Hnd. exists (L / s). lia. }
    assert (0 <= L / s) by (apply Z.div_pos; lia).
    exists (s * (L / s)). split.
    + apply range_spec; [lia|]. split; [nia|]. exists (L / s). lia.
    + apply diamond_point_fails; nia.
Qed.

Lemma main_loop_fails N (fuel : nat) :
  forall (s : Z) (r : F),
    s <= Z.of_nat N - 1 -> Z.log2 s < Z.of_nat fuel ->
    Exists (fun s' => ~ (s' | Z.of_nat N - 1)) (step_sizes fuel s) ->
    fails N IndexError (main_loop fuel s r).
Proof.
  induction fuel as [|fuel IH]; intros s r Hs Hlog Hex.
  { pose proof (Z.log2_nonneg s). lia. }
  cbn [main_loop step_sizes] in *.
  destruct (Z.gtb_spec s 1) as [H1|H1]; destruct (Z.ltb_spec 1 s); try lia.
  2:{ by apply Exists_nil in Hex. }
  assert (Hh : 1 <= s / 2) by (apply Z.div_le_lower_bound; lia).
  assert (Hh2 : 2 * (s / 2) <= s) by (apply Z.mul_div_le; lia).
  eapply fails_after; [by apply (runs_log N (EvPass s))|]. intros _ _.
  apply Exists_cons in Hex as [Hbad|Hex].
  - apply fails_bind. apply diamond_step_fails; [lia|done..].
  - destruct (Z.BoolSpec_divide s (Z.of_nat N - 1)) as [Hd|Hnd].
    2:{ apply fails_bind. apply diamond_step_fails; [lia|done..]. }
    eapply fails_after; [apply paced_diamond_step; [done|lia]|]. intros _ _.
    eapply fails_after; [apply paced_square_step; lia|]. intros _ _.
    apply IH; [lia| |done]. rewrite log2_half by done. lia.
Qed.

Lemma log2_fuel (N : nat) : (1 <= N)%nat -> Z.log2 (Z.of_nat N - 1) < Z.of_nat N.
Proof.
  intros HN. destruct (Z.le_gt_cases (Z.of_nat N - 1) 0).
  - rewrite Z.log2_nonpos by done. lia.
  - pose proof (Z.log2_lt_lin (Z.of_nat N - 1)). lia.
Qed.

Lemma diamond_square_fails N :
  (1 <= N)%nat ->
  Exists (fun s => ~ (s | Z.of_nat N - 1)) (step_sizes N (Z.of_nat N - 1)) ->
  fails N IndexError diamond_square.
Proof.
  intros HN Hex. unfold diamond_square.
  eapply fails_after; [by apply paced_init_corners|]. intros _ _.
  eapply fails_after; [apply runs_get_self|]. intros g (-> & _).
  rewrite Nat2Z.id. by apply main_loop_fails; [lia|apply log2_fuel|].
Qed.

End Failures.

Lemma step_sizes_complete (fuel : nat) :
  forall s, Z.log2 s < Z.of_nat fuel -> halving_to_one s (step_sizes fuel s).
Proof.
  induction fuel as [|fuel IH]; intros s Hlog.
  { pose proof (Z.log2_nonneg s). lia. }
  cbn [step_sizes]. destruct (Z.ltb_spec 1 s); [|by constructor].
  constructor; [done|]. apply IH. rewrite log2_half by done. lia.
Qed.

(** A run on a fresh engine either returns or raises [IndexError]. *)
Lemma diamond_square_cases {F} `{Num F} (size : Z) (r : rng F) :
  0 <= size ->
  let out := diamond_square (start (blank size) r) in
  let steps := step_sizes (Z.to_nat size) (size - 1) in
  (1 <= size /\ Forall (fun s => (s | size - 1)) steps /\ exists w', out = Ok tt w') \/
  ((size = 0 \/ Exists (fun s => ~ (s | size - 1)) steps) /\
   exists w', out = Raise IndexError w').
Proof.
  intros Hsz out steps.
  destruct (Z.eq_dec size 0) as [->|Hne].
  { right. split; [by left|]. eexists. reflexivity. }
  destruct (divides_all_or_not (size - 1) steps) as [Hall|Hex].
  - left. split; [lia|]. split; [done|].
    destruct (paced_diamond_square (Z.to_nat size)) with (w := start (blank size) r)
      as ([] & w' & E & _); [lia| |apply blank_ok; lia|by exists w'].
    rewrite Z2Nat.id by lia. done.
  - right. split; [by right|].
    apply (diamond_square_fails (Z.to_nat size)); [lia| |apply blank_ok; lia].
    rewrite Z2Nat.id by lia. done.
Qed.

(** ** What generation can raise *)

Section Exceptions.

Context {F : Type} `{Num F}.

Variable allowed : exn -> Prop.

Lemma only_ret {A} (a : A) : raises_only allowed (ret (F:=F) a).
Proof. by intros w e w'. Qed.

Lemma only_raise {A} (e : exn) : allowed e -> raises_only allowed (raise (F:=F) (A:=A) e).
Proof. intros He w e' w' [= <- _]. done. Qed.

Lemma only_bind {A B} (m : M F A) (k : A -> M F B) :
  raises_only allowed m -> (forall a, raises_only allowed (k a)) ->
  raises_only allowed (bind m k).
Proof.
  intros Hm Hk w e w'. unfold bind.
  destruct (m w) as [a w1|e1 w1] eqn:Em.
  - apply Hk.
  - intros [= <- _]. by eapply Hm.
Qed.

Lemma only_fold_for {A S} (xs : list A) (body : A -> S -> M F S) :
  (forall x acc, raises_only allowed (body x acc)) ->
  forall acc, raises_only allowed (fold_for xs body acc).
Proof.
  intros Hb. induction xs as [|x xs IH]; intros acc; simpl.
  - apply only_ret.
  - apply only_bind; auto.
Qed.

Lemma only_get_self : raises_only allowed (get_self (F:=F)).
Proof. by intros w e w'. Qed.

End Exceptions.

Section Exceptions_of.

Context {F : Type} `{Num F}.

(** [int(x)] raises [ValueError] (nan) or [OverflowError] (infinity) only. *)
Hypothesis int_errors :
  forall (x : F) (e : exn), to_int x = inl e -> e = ValueError \/ e = OverflowError.

Lemma only_normalize : raises_only numeric_error (normalize (F:=F)).
Proof.
  unfold normalize, np_min, np_max.
  apply only_bind; [apply only_get_self|]. intros g1.
  apply only_bind.
  { destruct (reduce _ _); [apply only_ret|apply only_raise]. right. by left. }
  intros lo. apply only_bind; [apply only_get_self|]. intros g2.
  apply only_bind.
  { destruct (reduce _ _); [apply only_ret|apply only_raise]. right. by left. }
  intros hi. apply only_bind; [apply only_get_self|]. intros g3.
  by intros w e w'.
Qed.

Lemma only_py_int (x : F) : raises_only numeric_error (py_int x).
Proof.
  unfold py_int. destruct (to_int x) as [e|z] eqn:E; [|apply only_ret].
  apply only_raise. right. by apply int_errors in E.
Qed.

Lemma only_make_pixel (r g b : Z) : raises_only numeric_error (make_pixel (F:=F) r g b).
Proof.
  unfold make_pixel, uint8.
  repeat (apply only_bind;
          [match goal with |- raises_only _ (if ?c then _ else _) => destruct c end;
           [apply only_ret|apply only_raise; right; by right]|]; intros ?).
  apply only_ret.
Qed.

Lemma only_color (height : F) : raises_only numeric_error (color height).
Proof.
  unfold color. apply only_bind; [apply only_get_self|]. intros g.
  destruct (height <? self_sea_level g)%num.
  - apply only_bind; [apply only_py_int|]. intros blue.
    apply only_bind; [apply only_py_int|]. intros green.
    apply only_make_pixel.
  - apply only_bind; [apply only_py_int|]. intros green.
    apply only_bind; [apply only_py_int|]. intros red.
    apply only_make_pixel.
Qed.

Lemma only_color_mapping : raises_only numeric_error (color_mapping (F:=F)).
Proof.
  unfold color_mapping. apply only_bind; [apply only_get_self|]. intros g.
  apply only_fold_for. intros y img. apply only_fold_for. intros x img'.
  apply only_bind.
  { unfold getitem. apply only_bind; [apply only_get_self|]. intros g'.
    destruct (grid_get _ y x); [apply only_ret|apply only_raise; by left]. }
  intros v. apply only_bind; [apply only_color|]. intros px.
  unfold image_set. destruct (locate _ _ _) as [[? ?]|];
    [apply only_ret|apply only_raise; by left].
Qed.

End Exceptions_of.

Lemma binary64_int_errors (x : float) (e : exn) :
  to_int x = inl e -> e = ValueError \/ e = OverflowError.
Proof.
  simpl. unfold float_to_int. destruct (Prim2SF x); intros [= <-]; auto.
Qed.

(** ** The colour mapping, pixel by pixel *)

Section Rendering.

Context {F : Type} `{Num F}.

Lemma readonly_ret {A} (a : A) : readonly (ret (F:=F) a).
Proof. by intros w. Qed.

Lemma readonly_raise {A} (e : exn) : readonly (raise (F:=F) (A:=A) e).
Proof. by intros w. Qed.

Lemma readonly_bind {A B} (m : M F A) (k : A -> M F B) :
  readonly m -> (forall a, readonly (k a)) -> readonly (bind m k).
Proof.
  intros Hm Hk w. unfold bind. specialize (Hm w).
  destruct (m w) as [a w1|e w1]; simpl in *; subst; [apply Hk|done].
Qed.

Lemma readonly_ok {A} (m : M F A) (w w' : World F) (a : A) :
  readonly m -> m w = Ok a w' -> w' = w.
Proof. intros Hm E. specialize (Hm w). by rewrite E in Hm. Qed.

Lemma readonly_py_int (x : F) : readonly (py_int x).
Proof. unfold py_int. destruct (to_int x); [apply readonly_raise|apply readonly_ret]. Qed.

Lemma readonly_make_pixel (r g b : Z) : readonly (make_pixel (F:=F) r g b).
Proof.
  unfold make_pixel, uint8.
  repeat (apply readonly_bind;
          [match goal with |- readonly (if ?c then _ else _) => destruct c end;
           [apply readonly_ret|apply readonly_raise]|]; intros ?).
  apply readonly_ret.
Qed.

Lemma readonly_color (height : F) : readonly (color height).
Proof.
  unfold color. apply readonly_bind; [by intros w|]. intros g.
  destruct (height <? self_sea_level g)%num.
  - apply readonly_bind; [apply readonly_py_int|]. intros blue.
    apply readonly_bind; [apply readonly_py_int|]. intros green.
    apply readonly_make_pixel.
  - apply readonly_bind; [apply readonly_py_int|]. intros green.
    apply readonly_bind; [apply readonly_py_int|]. intros red.
    apply readonly_make_pixel.
Qed.

Lemma readonly_getitem (i j : Z) : readonly (getitem (F:=F) i j).
Proof.
  unfold getitem. apply readonly_bind; [by intros w|]. intros g.
  destruct (grid_get _ i j); [apply readonly_ret|apply readonly_raise].
Qed.

Lemma readonly_image_set (img : grid rgb) (y x : Z) (px : rgb) :
  readonly (image_set (F:=F) img y x px).
Proof.
  unfold image_set. destruct (locate _ _ _) as [[? ?]|];
    [apply readonly_ret|apply readonly_raise].
Qed.

Lemma readonly_fold_for {A S} (xs : list A) (body : A -> S -> M F S) :
  (forall x acc, readonly (body x acc)) -> forall acc, readonly (fold_for xs body acc).
Proof.
  intros Hb. induction xs as [|x xs IH]; intros acc; simpl.
  - apply readonly_ret.
  - apply readonly_bind; auto.
Qed.

(** A read-only loop around an accumulator, when it returns. *)
Lemma fold_for_prefix {A S} (w : World F) (xs : list A) (body : A -> S -> M F S)
    (I : list A -> S -> Prop) :
  (forall x acc, readonly (body x acc)) ->
  (forall pre x acc acc', In x xs -> I pre acc -> body x acc w = Ok acc' w ->
     I (pre ++ [x]) acc') ->
  forall pre acc res w',
    I pre acc -> fold_for xs body acc w = Ok res w' -> w' = w /\ I (pre ++ xs) res.
Proof.
  intros Hro. induction xs as [|x xs IH]; intros Hstep pre acc res w' Hacc E; simpl in E.
  - injection E as <- <-. by rewrite app_nil_r.
  - unfold bind in E. destruct (body x acc w) as [acc1 w1|e w1] eqn:Eb; [|done].
    assert (w1 = w) as -> by (by eapply readonly_ok).
    replace (pre ++ x :: xs) with ((pre ++ [x]) ++ xs) by (by rewrite <- app_assoc).
    apply IH with (acc := acc1); [|by eapply Hstep; [left|..]|done].
    intros pre' x' a a' Hx'. apply Hstep. by right.
Qed.

Lemma getitem_at (N : nat) (w : World F) (i j : Z) :
  shaped N (self_heightmap (self w)) -> 0 <= i < Z.of_nat N -> 0 <= j < Z.of_nat N ->
  exists v, cell (self_heightmap (self w)) (Z.to_nat i) (Z.to_nat j) = Some v /\
            getitem i j w = Ok v w.
Proof.
  intros Hsh Hi Hj.
  destruct (cell_shaped N _ (Z.to_nat i) (Z.to_nat j) Hsh) as [v Hv]; [lia..|].
  exists v. split; [done|]. unfold getitem, bind, get_self, grid_get.
  rewrite (locate_shaped N _ i j _ _ Hsh (norm_index_nonneg _ _ Hi)
             (norm_index_nonneg _ _ Hj)).
  by rewrite Hv.
Qed.

Lemma render_cell (N : nat) (w : World F) (seen : Z -> Z -> Prop) (img img' : grid rgb)
    (y x : Z) :
  shaped N (self_heightmap (self w)) ->
  0 <= y < Z.of_nat N -> 0 <= x < Z.of_nat N ->
  rendered N w seen img ->
  bind (getitem y x) (fun height =>
    bind (color height) (fun px => image_set img y x px)) w = Ok img' w ->
  rendered N w (fun y' x' => seen y' x' \/ (y' = y /\ x' = x)) img'.
Proof.
  intros Hsh Hy Hx [Himg Hseen] E.
  destruct (getitem_at N w y x Hsh Hy Hx) as (v & Hv & Eg).
  unfold bind in E. rewrite Eg in E.
  destruct (color v w) as [px w1|e w1] eqn:Ec; [|done].
  assert (w1 = w) as -> by (eapply readonly_ok; [apply readonly_color|done]).
  unfold image_set in E.
  rewrite (locate_shaped N _ y x _ _ Himg (norm_index_nonneg _ _ Hy)
             (norm_index_nonneg _ _ Hx)) in E.
  injection E as <-. split; [by apply grid_set_shaped|].
  intros y' x' Hy' Hx' Hs.
  destruct (decide (y' = y /\ x' = x)) as [[-> ->]|Hne].
  - exists v, px. split; [done|]. split; [done|].
    apply (cell_grid_set_eq N); [done|lia..].
  - destruct Hs as [Hs|Hs]; [|done].
    destruct (Hseen y' x' Hy' Hx' Hs) as (v' & px' & Hv' & Ec' & Hc').
    exists v', px'. split; [done|]. split; [done|].
    rewrite cell_grid_set_ne; [done|]. lia.
Qed.

End Rendering.

Lemma for_keeps {F A} (I : World F -> Prop) (xs : list A) (body : A -> M F unit) :
  (forall x w, In x xs -> I w -> exists w', body x w = Ok tt w' /\ I w') ->
  forall w, I w -> exists w', for_ xs body w = Ok tt w' /\ I w'.
Proof.
  induction xs as [|x xs IH]; intros Hb w Hw; simpl.
  - by exists w.
  - destruct (Hb x w ltac:(by left) Hw) as (w1 & E1 & I1).
    destruct (IH ltac:(intros x' w' Hx'; apply Hb; by right) w1 I1) as (w2 & E2 & I2).
    exists w2. unfold bind. by rewrite E1.
Qed.

(** ** Two runs from the same generator state *)

Lemma grid_ext {A} (N : nat) (a b : grid A) :
  shaped N a -> shaped N b ->
  (forall r c, (r < N)%nat -> (c < N)%nat -> cell a r c = cell b r c) -> a = b.
Proof.
  intros [La Ra] [Lb Rb] Hc. apply list_eq. intros r.
  destruct (a !! r) as [ra|] eqn:Ea.
  - pose proof (lookup_lt_Some _ _ _ Ea) as Hr.
    destruct (lookup_lt_is_Some_2 b r) as [rb Eb]; [lia|]. rewrite Eb. f_equal.
    pose proof (Forall_lookup_1 _ _ _ _ Ra Ea) as Hla.
    pose proof (Forall_lookup_1 _ _ _ _ Rb Eb) as Hlb. simpl in Hla, Hlb.
    apply list_eq. intros c.
    destruct (decide (c < N)%nat) as [Hlt|Hge].
    + specialize (Hc r c ltac:(lia) Hlt). unfold cell in Hc. by rewrite Ea, Eb in Hc.
    + rewrite !lookup_ge_None_2 by lia. done.
  - apply lookup_ge_None in Ea. symmetry. apply lookup_ge_None. lia.
Qed.

Lemma written_In (r c : nat) (l : list event) :
  writes_to r c l = 1%nat -> In (EvWrite r c) l.
Proof.
  intros E. destruct (in_dec (fun a b : event => ltac:(decide equality; try apply Nat.eq_dec;
    apply Z.eq_dec)) (EvWrite r c) l) as [Hin|Hn]; [done|].
  rewrite writes_to_absent in E by done. discriminate.
Qed.

Section Together.

Context {F : Type} `{Num F}.

Lemma together_need N (need need' : event -> Prop) (m : M F unit) evs :
  (forall e, need e -> need' e) -> together N need m evs -> together N need' m evs.
Proof. intros Hn Hm E w1 w2 HE. apply Hm. auto. Qed.

Lemma together_ret N need : together N need (ret tt) [].
Proof. intros E w1 w2 _ Hag. exists w1, w2. by rewrite app_nil_r. Qed.

Lemma together_then N (need1 need2 : event -> Prop) (m1 m2 : M F unit) e1 e2 :
  together N need1 m1 e1 -> together N need2 m2 e2 ->
  (forall e, need2 e -> need1 e \/ In e e1) ->
  together N need1 (bind m1 (fun _ => m2)) (e1 ++ e2).
Proof.
  intros H1 H2 Hn E w1 w2 HE Hag.
  destruct (H1 E w1 w2 HE Hag) as (u1 & u2 & E1 & E2 & Hag1).
  destruct (H2 (E ++ e1) u1 u2) as (v1 & v2 & E3 & E4 & Hag2); [|done|].
  { intros e He. apply in_or_app. destruct (Hn e He); auto. }
  exists v1, v2. unfold bind. rewrite E1, E2, app_assoc. auto.
Qed.

Lemma together_for {A} N need (xs : list A) (body : A -> M F unit) (ev : A -> list event) :
  (forall x, In x xs -> together N need (body x) (ev x)) ->
  together N need (for_ xs body) (flat_map ev xs).
Proof.
  induction xs as [|x xs IH]; intros Hb; simpl.
  - apply together_ret.
  - apply together_then with (need2 := need); [apply Hb; by left| |auto].
    apply IH. intros x' Hx'. apply Hb. by right.
Qed.

Lemma together_log N need (s : Z) : together N need (log (EvPass s)) [EvPass s].
Proof.
  intros E w1 w2 _ (I1 & I2 & R & Hc). eexists _, _. split; [reflexivity|].
  split; [reflexivity|]. split; [by apply engine_ok_record|].
  split; [by apply engine_ok_record|]. split; [done|]. simpl.
  intros r c Hin. apply in_app_or in Hin as [Hin|[Hin|[]]]; [auto|done].
Qed.

Lemma agree_cell N E (w1 w2 : World F) (y x : Z) :
  agree N E w1 w2 -> 0 <= y < Z.of_nat N -> 0 <= x < Z.of_nat N ->
  In (EvWrite (Z.to_nat y) (Z.to_nat x)) E ->
  exists v, cell (self_heightmap (self w1)) (Z.to_nat y) (Z.to_nat x) = Some v /\
            cell (self_heightmap (self w2)) (Z.to_nat y) (Z.to_nat x) = Some v.
Proof.
  intros (I1 & I2 & R & Hc) Hy Hx Hin.
  destruct (cell_shaped N _ (Z.to_nat y) (Z.to_nat x) (inv_shape _ _ _ I1)) as [v Hv];
    [lia..|].
  exists v. split; [done|]. by rewrite <- (Hc _ _ Hin).
Qed.

(** Assigning the same value to the same cell of both. *)
Lemma agree_assign N E (w1 w2 : World F) (r c : nat) (v : F) :
  agree N E w1 w2 -> (r < N)%nat -> (c < N)%nat ->
  agree N (E ++ [EvWrite r c])
    (record (EvWrite r c)
       (with_heightmap (grid_set (self_heightmap (self (advance w1))) r c v) (advance w1)))
    (record (EvWrite r c)
       (with_heightmap (grid_set (self_heightmap (self (advance w2))) r c v) (advance w2))).
Proof.
  intros (I1 & I2 & R & Hc) Hr Hcn.
  assert (Hok : forall w : World F, engine_ok N w ->
    engine_ok N (record (EvWrite r c)
       (with_heightmap (grid_set (self_heightmap (self (advance w))) r c v) (advance w)))).
  { intros w [Hsz Hsh Hg Hro Hsl Ht].
    constructor; simpl; auto using grid_set_shaped. by apply grid_set_all. }
  split; [by apply Hok|]. split; [by apply Hok|]. split; [simpl; by rewrite R|].
  simpl. intros r' c' Hin.
  destruct (decide (r' = r /\ c' = c)) as [[-> ->]|Hne].
  - rewrite !(cell_grid_set_eq N) by (done || apply I1 || apply I2). done.
  - rewrite !cell_grid_set_ne by lia. apply Hc.
    apply in_app_or in Hin as [Hin|[Hin|[]]]; [done|]. injection Hin as <- <-. lia.
Qed.

Lemma together_diamond_point N (s h : Z) (r : F) (y x : Z) (need : event -> Prop) :
  0 <= y -> y + s <= Z.of_nat N - 1 -> 0 <= x -> x + s <= Z.of_nat N - 1 ->
  1 <= h < s ->
  need (EvWrite (Z.to_nat y) (Z.to_nat x)) ->
  need (EvWrite (Z.to_nat (y + s)) (Z.to_nat x)) ->
  need (EvWrite (Z.to_nat y) (Z.to_nat (x + s))) ->
  need (EvWrite (Z.to_nat (y + s)) (Z.to_nat (x + s))) ->
  together N need (diamond_point s h r y x)
    [EvWrite (Z.to_nat (y + h)) (Z.to_nat (x + h))].
Proof.
  intros Hy Hys Hx Hxs Hh Na Nb Nc Nd E w1 w2 HE Hag.
  destruct (agree_cell N E w1 w2 y x Hag) as (a & A1 & A2); [lia..|auto|].
  destruct (agree_cell N E w1 w2 (y + s) x Hag) as (b & B1 & B2); [lia..|auto|].
  destruct (agree_cell N E w1 w2 y (x + s) Hag) as (c & C1 & C2); [lia..|auto|].
  destruct (agree_cell N E w1 w2 (y + s) (x + s) Hag) as (d & D1 & D2); [lia..|auto|].
  pose proof Hag as (I1 & I2 & R & Hc).
  eexists _, _.
  split; [by apply (diamond_point_run N s h r y x w1 a b c d)|].
  split; [by apply (diamond_point_run N s h r y x w2 a b c d)|].
  rewrite R. apply agree_assign; [done|lia..].
Qed.

Lemma bind_ok {A B} (m : M F A) (k : A -> M F B) (w w' : World F) (a : A) :
  m w = Ok a w' -> bind m k w = k a w'.
Proof. intros E. unfold bind. by rewrite E. Qed.

Lemma add_neighbor_same N E (w1 w2 : World F) (b : bool) (i j : Z) (acc : F * Z) :
  agree N E w1 w2 ->
  (b = true -> 0 <= i < Z.of_nat N /\ 0 <= j < Z.of_nat N /\
               In (EvWrite (Z.to_nat i) (Z.to_nat j)) E) ->
  exists acc',
    add_neighbor b i j acc w1 = Ok acc' w1 /\ add_neighbor b i j acc w2 = Ok acc' w2 /\
    snd acc' = snd acc + (if b then 1 else 0).
Proof.
  intros Hag Hb. unfold add_neighbor. destruct b.
  - destruct Hb as (Hi & Hj & Hin); [done|].
    destruct (agree_cell N E w1 w2 i j Hag Hi Hj Hin) as (v & V1 & V2).
    destruct Hag as (I1 & I2 & _).
    exists ((fst acc + v)%num, snd acc + 1). unfold bind.
    by rewrite (getitem_cell N w1 i j v), (getitem_cell N w2 i j v).
  - exists acc. unfold ret. split; [done|]. split; [done|lia].
Qed.

Lemma square_neighbors_same N E (w1 w2 : World F) (h y x : Z) :
  agree N E w1 w2 -> 0 <= h -> 0 <= y < Z.of_nat N -> 0 <= x < Z.of_nat N ->
  (forall i j, 0 <= i < Z.of_nat N -> 0 <= j < Z.of_nat N ->
     (i = y - h \/ i = y + h) /\ j = x \/ i = y /\ (j = x - h \/ j = x + h) ->
     In (EvWrite (Z.to_nat i) (Z.to_nat j)) E) ->
  exists acc,
    square_neighbors h y x w1 = Ok acc w1 /\ square_neighbors h y x w2 = Ok acc w2 /\
    snd acc = neighbor_count (Z.of_nat N) h y x.
Proof.
  intros Hag Hh Hy Hx Hin. pose proof Hag as (I1 & I2 & _).
  assert (U : forall w : World F, engine_ok N w ->
    square_neighbors h y x w =
      bind (add_neighbor (y >=? h) (y - h) x (of_int 0, 0)) (fun acc =>
      bind (add_neighbor (y + h <? Z.of_nat N) (y + h) x acc) (fun acc =>
      bind (add_neighbor (x >=? h) y (x - h) acc) (fun acc =>
      bind (add_neighbor (x + h <? Z.of_nat N) y (x + h) acc) (fun acc => ret acc)))) w).
  { intros w Hw. unfold square_neighbors, bind at 1, get_self.
    by rewrite (inv_size _ _ _ Hw). }
  rewrite (U w1 I1), (U w2 I2).
  destruct (add_neighbor_same N E w1 w2 (y >=? h) (y - h) x (of_int 0, 0) Hag)
    as (a1 & A1 & A1' & C1).
  { intros Hc. apply Z.geb_le in Hc. split; [lia|]. split; [lia|]. apply Hin; lia. }
  rewrite (bind_ok _ _ _ _ _ A1), (bind_ok _ _ _ _ _ A1').
  destruct (add_neighbor_same N E w1 w2 (y + h <? Z.of_nat N) (y + h) x a1 Hag)
    as (a2 & A2 & A2' & C2).
  { intros Hc. apply Z.ltb_lt in Hc. split; [lia|]. split; [lia|]. apply Hin; lia. }
  rewrite (bind_ok _ _ _ _ _ A2), (bind_ok _ _ _ _ _ A2').
  destruct (add_neighbor_same N E w1 w2 (x >=? h) y (x - h) a2 Hag)
    as (a3 & A3 & A3' & C3).
  { intros Hc. apply Z.geb_le in Hc. split; [lia|]. split; [lia|]. apply Hin; lia. }
  rewrite (bind_ok _ _ _ _ _ A3), (bind_ok _ _ _ _ _ A3').
  destruct (add_neighbor_same N E w1 w2 (x + h <? Z.of_nat N) y (x + h) a3 Hag)
    as (a4 & A4 & A4' & C4).
  { intros Hc. apply Z.ltb_lt in Hc. split; [lia|]. split; [lia|]. apply Hin; lia. }
  rewrite (bind_ok _ _ _ _ _ A4), (bind_ok _ _ _ _ _ A4').
  exists a4. split; [done|]. split; [done|].
  unfold neighbor_count. simpl in C1. lia.
Qed.

(** One square point, with what its neighbours gave. *)
Lemma square_point_run (N : nat) (h : Z) (r : F) (y x : Z) (w : World F) (acc : F * Z) :
  engine_ok N w -> 0 <= y < Z.of_nat N -> 0 <= x < Z.of_nat N ->
  square_neighbors h y x w = Ok acc w -> snd acc <> 0 ->
  square_point h r y x w =
    Ok tt (record (EvWrite (Z.to_nat y) (Z.to_nat x))
             (with_heightmap
                (grid_set (self_heightmap (self (advance w))) (Z.to_nat y) (Z.to_nat x)
                   (fst acc / of_int (snd acc) +
                    random_offset (tape (random w) (pos (random w))) r (lit 6 10))%num)
                (advance w))).
Proof.
  intros Hw Hy Hx En Hc. destruct Hw as [Hsz Hsh Hg Hr Hsl Ht].
  unfold square_point, bind at 1. rewrite En.
  unfold bind at 1, average. destruct (Z.eqb_spec (snd acc) 0); [done|].
  unfold ret at 1. unfold bind at 1, _get_random_offset, bind, random_random, get_self, ret.
  erewrite (setitem_shaped N); [|done|apply norm_index_nonneg; lia..].
  simpl. by rewrite Hr.
Qed.

Lemma together_square_point N (h : Z) (r : F) (y x : Z) (need : event -> Prop) :
  1 <= h -> 2 * h < Z.of_nat N -> 0 <= y < Z.of_nat N -> 0 <= x < Z.of_nat N ->
  (forall i j, 0 <= i < Z.of_nat N -> 0 <= j < Z.of_nat N ->
     (i = y - h \/ i = y + h) /\ j = x \/ i = y /\ (j = x - h \/ j = x + h) ->
     need (EvWrite (Z.to_nat i) (Z.to_nat j))) ->
  together N need (square_point h r y x) [EvWrite (Z.to_nat y) (Z.to_nat x)].
Proof.
  intros Hh H2 Hy Hx Hn E w1 w2 HE Hag.
  destruct (square_neighbors_same N E w1 w2 h y x Hag) as (acc & A1 & A2 & C);
    [lia|done|done|auto|].
  pose proof (neighbor_count_pos (Z.of_nat N) h y x ltac:(lia) H2) as Hpos.
  pose proof Hag as (I1 & I2 & R & _).
  eexists _, _.
  split; [apply (square_point_run N h r y x w1 acc); [done..|lia]|].
  split; [apply (square_point_run N h r y x w2 acc); [done..|lia]|].
  rewrite R. apply agree_assign; [done|lia..].
Qed.

Lemma diamond_step_unfold N (s h : Z) (r : F) (w : World F) :
  engine_ok N w ->
  diamond_step s h r w =
    for_ (range 0 (Z.of_nat N - 1) s)
      (fun y => for_ (range 0 (Z.of_nat N - 1) s) (fun x => diamond_point s h r y x)) w.
Proof.
  intros Hw. unfold diamond_step, bind at 1, get_self. by rewrite (inv_size _ _ _ Hw).
Qed.

Lemma square_step_unfold N (s h : Z) (r : F) (w : World F) :
  engine_ok N w ->
  square_step s h r w =
    for_ (range 0 (Z.of_nat N) h)
      (fun y => for_ (range ((y + h) mod s) (Z.of_nat N) s)
                  (fun x => square_point h r y x)) w.
Proof.
  intros Hw. unfold square_step, bind at 1, get_self. by rewrite (inv_size _ _ _ Hw).
Qed.

Lemma together_diamond_step N (s h : Z) (r : F) :
  (s | Z.of_nat N - 1) -> 1 <= h < s ->
  together N (on_lattice N s) (diamond_step s h r) (diamond_writes (Z.of_nat N) s h).
Proof.
  intros Hd Hh E w1 w2 HE Hag. pose proof Hag as (I1 & I2 & _).
  rewrite (diamond_step_unfold N s h r w1 I1), (diamond_step_unfold N s h r w2 I2).
  revert E w1 w2 HE Hag I1 I2.
  assert (Hon : forall v, (s | v) -> (s | v + s)).
  { intros v [k ->]. exists (k + 1). lia. }
  assert (Ht : together N (on_lattice N s)
            (for_ (range 0 (Z.of_nat N - 1) s)
               (fun y => for_ (range 0 (Z.of_nat N - 1) s)
                           (fun x => diamond_point s h r y x)))
            (diamond_writes (Z.of_nat N) s h)).
  { apply together_for with
      (ev := fun y => flat_map (fun x => [EvWrite (Z.to_nat (y + h)) (Z.to_nat (x + h))])
                        (range 0 (Z.of_nat N - 1) s)).
    intros y Hy. apply range_spec in Hy; [|lia].
    apply together_for with
      (ev := fun x => [EvWrite (Z.to_nat (y + h)) (Z.to_nat (x + h))]).
    intros x Hx. apply range_spec in Hx; [|lia].
    rewrite Z.sub_0_r in Hy, Hx. destruct Hy as [Hy Hdy], Hx as [Hx Hdx].
    assert (y + s <= Z.of_nat N - 1) by (apply lattice_next; auto; lia).
    assert (x + s <= Z.of_nat N - 1) by (apply lattice_next; auto; lia).
    apply together_diamond_point; try lia.
    - exists y, x. repeat split; auto; lia.
    - exists (y + s), x. repeat split; auto; lia.
    - exists y, (x + s). repeat split; auto; lia.
    - exists (y + s), (x + s). repeat split; auto; lia. }
  intros E w1 w2 HE Hag _ _. by apply Ht.
Qed.

Lemma together_square_step N (s h : Z) (r : F) :
  1 <= h -> s = 2 * h -> 2 * h < Z.of_nat N ->
  together N (unmixed N s h) (square_step s h r) (square_writes (Z.of_nat N) s h).
Proof.
  intros Hh Hs H2.
  assert (Ht : together N (unmixed N s h)
            (for_ (range 0 (Z.of_nat N) h)
               (fun y => for_ (range ((y + h) mod s) (Z.of_nat N) s)
                           (fun x => square_point h r y x)))
            (square_writes (Z.of_nat N) s h)).
  { apply together_for with
      (ev := fun y => flat_map (fun x => [EvWrite (Z.to_nat y) (Z.to_nat x)])
                        (range ((y + h) mod s) (Z.of_nat N) s)).
    intros y Hy.
    apply together_for with (ev := fun x => [EvWrite (Z.to_nat y) (Z.to_nat x)]).
    intros x Hx.
    destruct (square_visit_lattice (Z.of_nat N) s h y x Hh Hs (conj Hy Hx))
      as (Hyr & Hxr & Hdy & Hdx & Hm).
    assert (Hnm : forall e, (e = h \/ e = - h) -> ~ (s | x - y - h + e)).
    { intros e He [k Hk]. destruct Hm as [p Hp]. subst s.
      destruct He as [->| ->].
      - assert (E : h * 1 = h * (2 * (k - p))) by lia.
        apply Z.mul_reg_l in E; lia.
      - assert (E : h * 1 = h * (2 * (p - k))) by lia.
        apply Z.mul_reg_l in E; lia. }
    assert (Hsh : forall v, (h | v) -> (h | v + h) /\ (h | v - h)).
    { intros v [k ->]. split; [exists (k + 1)|exists (k - 1)]; lia. }
    apply together_square_point; try done.
    intros i j Hi Hj Hij. exists i, j. split; [done|]. split; [done|].
    destruct Hij as [[Ei ->]|[-> Ej]].
    - split; [destruct Ei as [->| ->]; by apply Hsh|]. split; [done|]. split; [|done].
      unfold mixed. destruct Ei as [->| ->].
      + replace (x - (y - h) - h) with (x - y - h + h) by lia. auto.
      + replace (x - (y + h) - h) with (x - y - h + - h) by lia. auto.
    - split; [done|]. split; [destruct Ej as [->| ->]; by apply Hsh|]. split; [|done].
      unfold mixed. destruct Ej as [->| ->].
      + replace (x - h - y - h) with (x - y - h + - h) by lia. auto.
      + replace (x + h - y - h) with (x - y - h + h) by lia. auto. }
  intros E w1 w2 HE Hag. pose proof Hag as (I1 & I2 & _).
  rewrite (square_step_unfold N s h r w1 I1), (square_step_unfold N s h r w2 I2).
  by apply Ht.
Qed.

Lemma together_draw_assign N need (i j : Z) (r c : nat) :
  norm_index (Z.of_nat N) i = Some r -> norm_index (Z.of_nat N) j = Some c ->
  together N need (bind random_random (fun u => setitem i j u)) [EvWrite r c].
Proof.
  intros Hi Hj E w1 w2 _ Hag. pose proof Hag as (I1 & I2 & R & _).
  assert (Hrun : forall w : World F, engine_ok N w ->
    bind random_random (fun u => setitem i j u) w =
      Ok tt (record (EvWrite r c)
               (with_heightmap
                  (grid_set (self_heightmap (self (advance w))) r c
                     (tape (random w) (pos (random w))))
                  (advance w)))).
  { intros w Hw. unfold bind, random_random.
    by rewrite (setitem_shaped N (advance w) i j r c _ (inv_shape _ _ _ Hw) Hi Hj). }
  eexists _, _. split; [by apply Hrun|]. split; [by apply Hrun|].
  rewrite R. apply norm_index_lt in Hi, Hj. apply agree_assign; [done|lia..].
Qed.

Lemma together_ext N need (m m' : M F unit) evs :
  (forall w, m w = m' w) -> together N need m' evs -> together N need m evs.
Proof. intros Hm Ht E w1 w2 HE Hag. rewrite !Hm. by apply Ht. Qed.

Lemma together_init_corners N need :
  (1 <= N)%nat -> together N need init_corners (corner_writes N).
Proof.
  intros HN.
  assert (H0 : norm_index (Z.of_nat N) 0 = Some 0%nat).
  { rewrite norm_index_nonneg by lia. done. }
  assert (H1 : norm_index (Z.of_nat N) (-1) = Some (N - 1)%nat).
  { rewrite norm_index_last by lia. f_equal. lia. }
  apply together_ext with
    (m' := bind (bind random_random (fun u => setitem 0 0 u)) (fun _ =>
           bind (bind random_random (fun u => setitem 0 (-1) u)) (fun _ =>
           bind (bind random_random (fun u => setitem (-1) 0 u)) (fun _ =>
           bind random_random (fun u => setitem (-1) (-1) u))))).
  { intros w. unfold init_corners, bind, random_random.
    repeat match goal with
           | |- context [setitem ?i ?j ?u ?v] =>
               destruct (setitem i j u v) as [[] ?|]; [|done]
           end.
    done. }
  change (corner_writes N) with
    ([EvWrite 0 0] ++ [EvWrite 0 (N - 1)] ++ [EvWrite (N - 1) 0] ++ [EvWrite (N - 1) (N - 1)]).
  apply together_then with (need2 := need); [by apply together_draw_assign| |auto].
  apply together_then with (need2 := need); [by apply together_draw_assign| |auto].
  apply together_then with (need2 := need); [by apply together_draw_assign| |auto].
  by apply together_draw_assign.
Qed.

(** A point of the half-step lattice is on the lattice of the step, or
    a diamond point, or a square point of the pass. *)
Lemma half_lattice_cases (h y x : Z) :
  1 <= h -> (h | y) -> (h | x) ->
  ((2 * h | y) /\ (2 * h | x)) \/
  (y mod (2 * h) = h /\ x mod (2 * h) = h) \/
  mixed (2 * h) h y x.
Proof.
  intros Hh Hy Hx. pose proof Hy as Hy'. pose proof Hx as Hx'.
  apply (half_lattice h y Hh) in Hy' as [Ey|Ey];
    apply (half_lattice h x Hh) in Hx' as [Ex|Ex].
  - left. split; apply Z.mod_divide; lia.
  - right. right. apply (mixed_residues h y x Hh). auto.
  - right. right. apply (mixed_residues h y x Hh). auto.
  - right. left. done.
Qed.

Lemma together_main_loop N (n : nat) :
  Z.of_nat N = 2 ^ Z.of_nat n + 1 ->
  forall (j fuel : nat) (r : F),
    (j <= n)%nat -> (j <= fuel)%nat ->
    together N (on_lattice N (2 ^ Z.of_nat j)) (main_loop fuel (2 ^ Z.of_nat j) r)
      (loop_events fuel (Z.of_nat N) (2 ^ Z.of_nat j)).
Proof.
  intros HN. induction j as [|j IH]; intros fuel r Hj Hf.
  - intros E w1 w2 _ Hag. rewrite !main_loop_stop by (simpl; lia).
    exists w1, w2. split; [done|]. split; [done|].
    replace (loop_events fuel (Z.of_nat N) (2 ^ Z.of_nat 0)) with (@nil event)
      by (by destruct fuel).
    by rewrite app_nil_r.
  - destruct fuel as [|fuel]; [lia|].
    destruct (pow2_half j) as (Es & Hh & Ehalf).
    assert (Hpos : 0 < 2 ^ Z.of_nat n) by (apply Z.pow_pos_nonneg; lia).
    assert (Hdiv : (2 ^ Z.of_nat (S j) | Z.of_nat N - 1)).
    { exists (2 ^ (Z.of_nat n - Z.of_nat (S j))).
      replace (Z.of_nat N - 1) with (2 ^ Z.of_nat n) by lia.
      rewrite <- Z.pow_add_r by lia. f_equal. lia. }
    assert (Hle : 2 ^ Z.of_nat (S j) <= Z.of_nat N - 1)
      by (apply Z.divide_pos_le; [lia|done]).
    cbn [main_loop loop_events].
    destruct (Z.gtb_spec (2 ^ Z.of_nat (S j)) 1); [|lia].
    destruct (Z.ltb_spec 1 (2 ^ Z.of_nat (S j))); [|lia].
    cbv zeta. rewrite Ehalf.
    set (s := 2 ^ Z.of_nat (S j)) in *. set (h := 2 ^ Z.of_nat j) in *.
    change (EvPass s :: ?l) with ([EvPass s] ++ l).
    apply together_then with (need2 := on_lattice N s); [apply together_log| |auto].
    apply together_then with (need2 := unmixed N s h);
      [apply together_diamond_step; [done|lia]| |].
    + apply together_then with (need2 := on_lattice N h);
        [apply together_square_step; lia|apply IH; lia|].
      intros e (y & x & Hy & Hx & Hdy & Hdx & ->).
      destruct (half_lattice_cases h y x Hh Hdy Hdx) as [[D1 D2]|[[E1 E2]|Hm]];
        rewrite <- Es in *.
      * left. exists y, x. repeat split; try done; try lia.
        intros Hm. apply (square_visit_off_lattice s h y x); auto.
      * left. exists y, x. repeat split; try done; try lia.
        intros Hm. pose proof (conj Hdy Hm) as Hmx. rewrite Es in Hmx.
        apply (mixed_residues h y x Hh) in Hmx. rewrite <- Es in Hmx. lia.
      * right. apply written_In. rewrite square_count by (done || lia).
        pose proof (conj Hdy Hm) as Hmx. unfold mixed in Hmx. rewrite Es in Hmx.
        apply (mixed_residues h y x Hh) in Hmx. rewrite <- Es in Hmx.
        destruct (Z.eqb_spec (y mod s) 0), (Z.eqb_spec (y mod s) h),
          (Z.eqb_spec (x mod s) 0), (Z.eqb_spec (x mod s) h); simpl; lia.
    + intros e (y & x & Hy & Hx & Hdy & Hdx & Hnm & ->).
      destruct (half_lattice_cases h y x Hh Hdy Hdx) as [[D1 D2]|[[E1 E2]|Hm]];
        rewrite <- Es in *.
      * left. exists y, x. repeat split; try done; lia.
      * right. apply written_In. rewrite diamond_count by (done || lia).
        destruct (Z.eqb_spec (y mod s) h), (Z.eqb_spec (x mod s) h); simpl; lia.
      * done.
Qed.

End Together.

(** * Binary64 arithmetic

    The operations of Rocq's primitive floats are specified by
    [SpecFloat] ([FloatAxioms]); they are shown here to compute, on finite
    operands and within the finite range, the rounding [R] of the exact
    result. *)

(** ** Rounding *)

Lemma floor_spec (y : Q) : (inject_Z (Qfloor y) <= y < inject_Z (Qfloor y) + 1)%Q.
Proof.
  split; [apply Qfloor_le|].
  pose proof (Qlt_floor y) as H. by rewrite inject_Z_plus in H.
Qed.

Lemma floor_unique (y : Q) (k : Z) :
  (inject_Z k <= y < inject_Z k + 1)%Q -> Qfloor y = k.
Proof.
  intros [H1 H2]. destruct (floor_spec y) as [F1 F2].
  assert (A : (inject_Z (Qfloor y) < inject_Z (k + 1))%Q)
    by (rewrite inject_Z_plus; change (inject_Z 1) with 1%Q; lra).
  assert (B : (inject_Z k < inject_Z (Qfloor y + 1))%Q)
    by (rewrite inject_Z_plus; change (inject_Z 1) with 1%Q; lra).
  rewrite <- Zlt_Qlt in A, B. lia.
Qed.

Lemma rint_bounds (y : Q) : Qfloor y <= rint y <= Qfloor y + 1.
Proof.
  unfold rint. destruct (_ ?= _)%Q; [destruct (Z.even _)| |]; lia.
Qed.

Lemma rint_Z (k : Z) : rint (inject_Z k) = k.
Proof.
  unfold rint. rewrite Qfloor_Z.
  destruct (Qcompare_spec (inject_Z k - inject_Z k) (1 # 2)) as [E|E|E]; [lra|done|lra].
Qed.

Lemma rint_comp (y1 y2 : Q) : (y1 == y2)%Q -> rint y1 = rint y2.
Proof.
  intros E. unfold rint. rewrite (Qfloor_comp _ _ E).
  assert (E' : (y1 - inject_Z (Qfloor y2) == y2 - inject_Z (Qfloor y2))%Q) by lra.
  by rewrite E'.
Qed.

Lemma rint_mono (y1 y2 : Q) : (y1 <= y2)%Q -> rint y1 <= rint y2.
Proof.
  intros Hle. pose proof (Qfloor_resp_le _ _ Hle) as Hf.
  destruct (Z.eq_dec (Qfloor y1) (Qfloor y2)) as [E|NE].
  - unfold rint. rewrite E.
    destruct (Qcompare_spec (y1 - inject_Z (Qfloor y2)) (1 # 2)) as [A|A|A];
      destruct (Qcompare_spec (y2 - inject_Z (Qfloor y2)) (1 # 2)) as [B|B|B];
      try destruct (Z.even _); try lia; lra.
  - pose proof (rint_bounds y1). pose proof (rint_bounds y2). lia.
Qed.

Lemma rint_le (y : Q) (k : Z) : (y <= inject_Z k)%Q -> rint y <= k.
Proof. intros Hy. rewrite <- (rint_Z k). by apply rint_mono. Qed.

Lemma rint_ge (y : Q) (k : Z) : (inject_Z k <= y)%Q -> k <= rint y.
Proof. intros Hy. rewrite <- (rint_Z k). by apply rint_mono. Qed.

(** Powers of two as rationals. *)

Lemma pow2_pos (t : Z) : 0 <= t -> 0 < 2 ^ t.
Proof. intros. by apply Z.pow_pos_nonneg. Qed.

Lemma inject_pos (k : Z) : 0 < k -> (0 < inject_Z k)%Q.
Proof. intros Hk. change 0%Q with (inject_Z 0). by rewrite <- Zlt_Qlt. Qed.

Lemma div_le_iff (x : Q) (k P : Z) :
  0 < P -> (inject_Z k <= x / inject_Z P)%Q <-> (inject_Z (k * P) <= x)%Q.
Proof.
  intros HP. pose proof (inject_pos P HP) as HP'. rewrite inject_Z_mult. split; intros Hx.
  - apply (Qmult_le_r _ _ (/ inject_Z P)); [by apply Qinv_lt_0_compat|].
    rewrite <- Qmult_assoc, Qmult_inv_r by lra. rewrite Qmult_1_r. exact Hx.
  - apply (Qmult_le_r _ _ (/ inject_Z P)) in Hx; [|by apply Qinv_lt_0_compat].
    rewrite <- Qmult_assoc, Qmult_inv_r in Hx by lra. rewrite Qmult_1_r in Hx. exact Hx.
Qed.

Lemma div_lt_iff (x : Q) (k P : Z) :
  0 < P -> (x / inject_Z P < inject_Z k)%Q <-> (x < inject_Z (k * P))%Q.
Proof.
  intros HP. pose proof (inject_pos P HP) as HP'. rewrite inject_Z_mult. split; intros Hx.
  - apply (Qmult_lt_r _ _ (/ inject_Z P)); [by apply Qinv_lt_0_compat|].
    rewrite <- (Qmult_assoc (inject_Z k)), Qmult_inv_r by lra. rewrite Qmult_1_r. exact Hx.
  - apply (Qmult_lt_r _ _ (/ inject_Z P)) in Hx; [|by apply Qinv_lt_0_compat].
    rewrite <- (Qmult_assoc (inject_Z k)), Qmult_inv_r in Hx by lra.
    rewrite Qmult_1_r in Hx. exact Hx.
Qed.

Lemma floor_div (x : Q) (P : Z) :
  0 < P -> Qfloor (x / inject_Z P) = Qfloor x / P.
Proof.
  intros HP. apply floor_unique. destruct (floor_spec x) as [F1 F2].
  pose proof (Z.mul_div_le (Qfloor x) P HP) as D1.
  pose proof (Z.mul_succ_div_gt (Qfloor x) P HP) as D2.
  split.
  - apply div_le_iff; [done|]. apply Qle_trans with (inject_Z (Qfloor x)); [|done].
    rewrite <- Zle_Qle. lia.
  - change 1%Q with (inject_Z 1). rewrite <- inject_Z_plus. apply div_lt_iff; [done|].
    apply Qlt_le_trans with (inject_Z (Qfloor x) + 1)%Q; [done|].
    change 1%Q with (inject_Z 1). rewrite <- inject_Z_plus, <- Zle_Qle. lia.
Qed.

Lemma rexp_nonneg (x : Q) : 0 <= rexp x.
Proof. unfold rexp. lia. Qed.

(** The mantissa at the exponent of the last place has at most 53 bits,
    and exactly 53 above the smallest exponent. *)
Lemma rexp_mantissa (x : Q) :
  (0 <= x)%Q ->
  let f := Qfloor x / 2 ^ rexp x in
  0 <= f < 2 ^ 53 /\ (rexp x = 0 \/ 2 ^ 52 <= f).
Proof.
  intros Hx f. assert (HF : 0 <= Qfloor x).
  { rewrite <- (Qfloor_Z 0). by apply Qfloor_resp_le. }
  pose proof (rexp_nonneg x) as Ht. pose proof (pow2_pos _ Ht) as HP.
  destruct (Z.eq_dec (Qfloor x) 0) as [E0|N0].
  { unfold f. rewrite E0, Z.div_0_l by lia. split; [lia|]. left.
    unfold rexp. rewrite E0. simpl. lia. }
  destruct (Z.log2_spec (Qfloor x)) as [L1 L2]; [lia|].
  pose proof (Z.log2_nonneg (Qfloor x)) as Hl.
  split; [split|].
  - by apply Z.div_pos.
  - apply Z.div_lt_upper_bound; [done|]. rewrite <- Z.pow_add_r by lia.
    eapply Z.lt_le_trans; [exact L2|]. apply Z.pow_le_mono_r; unfold rexp in *; lia.
  - destruct (Z.eq_dec (rexp x) 0) as [E|NE]; [by left|right].
    assert (Et : rexp x = Z.log2 (Qfloor x) - 52) by (unfold rexp in *; lia).
    apply Z.div_le_lower_bound; [done|]. rewrite <- Z.pow_add_r by lia.
    replace (rexp x + 52) with (Z.log2 (Qfloor x)) by lia. done.
Qed.

Lemma rexp_char (x : Q) (t : Z) :
  (0 <= x)%Q -> 0 <= t ->
  let f := Qfloor x / 2 ^ t in
  f < 2 ^ 53 -> (t = 0 \/ 2 ^ 52 <= f) -> rexp x = t.
Proof.
  intros Hx Ht f Hf Hn. assert (HF : 0 <= Qfloor x).
  { rewrite <- (Qfloor_Z 0). by apply Qfloor_resp_le. }
  pose proof (pow2_pos _ Ht) as HP.
  pose proof (Z.mul_div_le (Qfloor x) _ HP) as D1.
  pose proof (Z.mul_succ_div_gt (Qfloor x) _ HP) as D2. fold f in D1, D2.
  assert (Hup : Qfloor x < 2 ^ (53 + t)).
  { rewrite Z.pow_add_r by lia. nia. }
  unfold rexp. destruct Hn as [->|Hlow].
  - assert (Z.log2 (Qfloor x) < 53); [|lia].
    destruct (Z.eq_dec (Qfloor x) 0) as [->|N0]; [simpl; lia|].
    apply Z.log2_lt_pow2; [lia|]. by rewrite Z.add_0_r in Hup.
  - assert (Z.log2 (Qfloor x) = 52 + t); [|lia].
    apply Z.log2_unique; [lia|]. split.
    + rewrite Z.pow_add_r by lia. nia.
    + replace (Z.succ (52 + t)) with (53 + t) by lia. done.
Qed.

Lemma rexp_mono (x1 x2 : Q) : (x1 <= x2)%Q -> rexp x1 <= rexp x2.
Proof.
  intros Hle. unfold rexp.
  pose proof (Z.log2_le_mono _ _ (Qfloor_resp_le _ _ Hle)). lia.
Qed.

Lemma rexp_comp (x1 x2 : Q) : (x1 == x2)%Q -> rexp x1 = rexp x2.
Proof. intros E. unfold rexp. by rewrite (Qfloor_comp _ _ E). Qed.

Lemma rpos_comp (x1 x2 : Q) : (x1 == x2)%Q -> rpos x1 = rpos x2.
Proof.
  intros E. unfold rpos. rewrite (rexp_comp _ _ E). f_equal.
  apply rint_comp. by rewrite E.
Qed.

Lemma rpos_bounds (x : Q) :
  (0 <= x)%Q ->
  let t := rexp x in
  let f := Qfloor x / 2 ^ t in
  f * 2 ^ t <= rpos x <= (f + 1) * 2 ^ t.
Proof.
  intros Hx t f. pose proof (pow2_pos _ (rexp_nonneg x)) as HP. fold t in HP.
  pose proof (rint_bounds (x / inject_Z (2 ^ t))) as Hb.
  rewrite floor_div in Hb by done. fold f in Hb. unfold rpos. fold t. nia.
Qed.

Lemma rpos_nonneg (x : Q) : (0 <= x)%Q -> 0 <= rpos x.
Proof.
  intros Hx. pose proof (rpos_bounds x Hx) as Hb. cbv zeta in Hb.
  destruct (rexp_mantissa x Hx) as [Hf _].
  pose proof (pow2_pos _ (rexp_nonneg x)). nia.
Qed.

Lemma rpos_mono (x1 x2 : Q) : (0 <= x1)%Q -> (x1 <= x2)%Q -> rpos x1 <= rpos x2.
Proof.
  intros H1 Hle. assert (H2 : (0 <= x2)%Q) by lra.
  pose proof (rexp_mono _ _ Hle) as Ht.
  pose proof (rexp_nonneg x1) as Ht1.
  pose proof (pow2_pos _ Ht1) as HP1.
  pose proof (pow2_pos _ (rexp_nonneg x2)) as HP2.
  destruct (Z.eq_dec (rexp x1) (rexp x2)) as [E|NE].
  - unfold rpos. rewrite E. apply Z.mul_le_mono_nonneg_r; [lia|].
    apply rint_mono. apply Qmult_le_compat_r; [done|].
    apply Qlt_le_weak, Qinv_lt_0_compat, inject_pos. done.
  - destruct (rexp_mantissa x1 H1) as [Hf1 _].
    destruct (rexp_mantissa x2 H2) as [Hf2 [E0|Hlow]]; [lia|].
    pose proof (rpos_bounds x1 H1) as B1. pose proof (rpos_bounds x2 H2) as B2.
    cbv zeta in *.
    assert (2 ^ 53 * 2 ^ rexp x1 <= 2 ^ 52 * 2 ^ rexp x2); [|nia].
    rewrite <- !Z.pow_add_r by lia. apply Z.pow_le_mono_r; lia.
Qed.

(** A multiple of the last place is its own rounding. *)
Lemma rpos_exact (x : Q) (m : Z) :
  (0 <= x)%Q -> (x == inject_Z (m * 2 ^ rexp x))%Q -> rpos x = m * 2 ^ rexp x.
Proof.
  intros Hx E. pose proof (pow2_pos _ (rexp_nonneg x)) as HP.
  unfold rpos. f_equal. rewrite <- (rint_Z m). apply rint_comp.
  rewrite E at 1. rewrite inject_Z_mult. field.
  pose proof (inject_pos _ HP). lra.
Qed.

Lemma rpos_small (k : Z) : 0 <= k < 2 ^ 53 -> rpos (inject_Z k) = k.
Proof.
  intros Hk. assert (Hx : (0 <= inject_Z k)%Q).
  { change 0%Q with (inject_Z 0). rewrite <- Zle_Qle. lia. }
  assert (E : rexp (inject_Z k) = 0).
  { apply rexp_char; [done|lia| |by left]. rewrite Qfloor_Z, Z.pow_0_r, Z.div_1_r. lia. }
  pose proof (rpos_exact (inject_Z k) k Hx) as Hr.
  rewrite E, Z.pow_0_r, Z.mul_1_r in Hr. by apply Hr.
Qed.

(** [m * 2^t] with a mantissa of at most 53 bits. *)
Lemma rpos_repr (m t : Z) :
  0 <= m <= 2 ^ 53 -> 0 <= t -> rpos (inject_Z (m * 2 ^ t)) = m * 2 ^ t.
Proof.
  intros Hm Ht. pose proof (pow2_pos _ Ht) as HP.
  assert (Hx : (0 <= inject_Z (m * 2 ^ t))%Q).
  { change 0%Q with (inject_Z 0). rewrite <- Zle_Qle. nia. }
  set (x := inject_Z (m * 2 ^ t)) in *.
  destruct (rexp_mantissa x Hx) as [_ Hlow].
  assert (Hle : rexp x <= t \/ (m = 2 ^ 53 /\ rexp x = t + 1)).
  { destruct Hlow as [E|Hlow]; [left; lia|].
    destruct (Z_le_gt_dec (rexp x) t) as [|Hgt]; [by left|right].
    pose proof (rexp_nonneg x). unfold x in Hlow. rewrite Qfloor_Z in Hlow.
    fold x in Hlow.
    replace (rexp x) with (t + (rexp x - t)) in Hlow by lia.
    rewrite Z.pow_add_r, <- Z.div_div, Z.div_mul in Hlow by lia.
    assert (Hd : 2 ^ 52 * 2 ^ (rexp x - t) <= m).
    { pose proof (pow2_pos (rexp x - t) ltac:(lia)) as HP'.
      pose proof (Z.mul_div_le m _ HP'). nia. }
    assert (rexp x - t < 2).
    { destruct (Z_lt_ge_dec (rexp x - t) 2) as [|Hge]; [done|].
      pose proof (Z.pow_le_mono_r 2 2 (rexp x - t) ltac:(lia) ltac:(lia)) as Hp.
      change (2 ^ 2) with 4 in Hp. change (2 ^ 53) with (2 ^ 52 * 2) in Hm. nia. }
    replace (rexp x - t) with 1 in Hd by lia. change (2 ^ 1) with 2 in Hd.
    change (2 ^ 53) with (2 ^ 52 * 2) in Hm. split; [|lia].
    change (2 ^ 53) with (2 ^ 52 * 2). lia. }
  destruct Hle as [Hle|[-> E]].
  - pose proof (rexp_nonneg x).
    replace (m * 2 ^ t) with (m * 2 ^ (t - rexp x) * 2 ^ rexp x).
    + apply rpos_exact; [done|]. unfold x at 1. apply inject_Z_injective.
      rewrite <- Z.mul_assoc, <- Z.pow_add_r by lia. do 2 f_equal. lia.
    + rewrite <- Z.mul_assoc, <- Z.pow_add_r by lia. do 2 f_equal. lia.
  - replace (2 ^ 53 * 2 ^ t) with (2 ^ 52 * 2 ^ rexp x).
    + apply rpos_exact; [done|]. unfold x at 1. apply inject_Z_injective.
      rewrite E, <- !Z.pow_add_r by lia. f_equal. lia.
    + rewrite E, <- !Z.pow_add_r by lia. f_equal. lia.
Qed.

Lemma rpos_idem (x : Q) : (0 <= x)%Q -> rpos (inject_Z (rpos x)) = rpos x.
Proof.
  intros Hx. destruct (rexp_mantissa x Hx) as [Hf _].
  pose proof (rint_bounds (x / inject_Z (2 ^ rexp x))) as Hb.
  rewrite floor_div in Hb by apply pow2_pos, rexp_nonneg.
  unfold rpos at 2. apply rpos_repr; [lia|apply rexp_nonneg].
Qed.

Lemma rz_nonneg (x : Q) : (0 <= x)%Q -> rz x = rpos x.
Proof. intros Hx. unfold rz. apply Qle_bool_iff in Hx. by rewrite Hx. Qed.

Lemma rpos_0 (x : Q) : (x == 0)%Q -> rpos x = 0.
Proof. intros E. rewrite (rpos_comp _ _ E). apply (rpos_small 0). lia. Qed.

Lemma rz_neg (x : Q) : (x < 0)%Q -> rz x = - rpos (- x).
Proof.
  intros Hx. unfold rz. destruct (Qle_bool 0 x) eqn:E; [|done].
  apply Qle_bool_iff in E. lra.
Qed.

Lemma rz_opp (x : Q) : rz (- x) = - rz x.
Proof.
  destruct (Qlt_le_dec x 0) as [Hn|Hp].
  - rewrite (rz_neg x Hn), rz_nonneg by lra. lia.
  - destruct (Qlt_le_dec 0 x) as [Hp'|Hz].
    + rewrite (rz_nonneg x Hp), rz_neg by lra.
      rewrite (rpos_comp (- - x) x) by lra. done.
    + rewrite !rz_nonneg by lra. rewrite !rpos_0 by lra. done.
Qed.

Lemma rz_comp (x1 x2 : Q) : (x1 == x2)%Q -> rz x1 = rz x2.
Proof.
  intros E. destruct (Qlt_le_dec x1 0) as [Hn|Hp].
  - rewrite !rz_neg by lra. f_equal. apply rpos_comp. lra.
  - rewrite !rz_nonneg by lra. by apply rpos_comp.
Qed.

Lemma rz_mono (x1 x2 : Q) : (x1 <= x2)%Q -> rz x1 <= rz x2.
Proof.
  intros Hle. destruct (Qlt_le_dec x1 0) as [Hn1|Hp1]; destruct (Qlt_le_dec x2 0) as [Hn2|Hp2].
  - rewrite !rz_neg by done.
    assert (rpos (- x2) <= rpos (- x1)) by (apply rpos_mono; lra). lia.
  - rewrite rz_neg, rz_nonneg by done.
    assert (0 <= rpos (- x1)) by (apply rpos_nonneg; lra).
    assert (0 <= rpos x2) by (by apply rpos_nonneg). lia.
  - lra.
  - rewrite !rz_nonneg by done. by apply rpos_mono.
Qed.

Lemma rz_idem (x : Q) : rz (inject_Z (rz x)) = rz x.
Proof.
  destruct (Qlt_le_dec x 0) as [Hn|Hp].
  - rewrite (rz_neg x Hn). rewrite inject_Z_opp, rz_opp. f_equal.
    assert (Hx : (0 <= - x)%Q) by lra.
    rewrite rz_nonneg; [by apply rpos_idem|].
    change 0%Q with (inject_Z 0). rewrite <- Zle_Qle. by apply rpos_nonneg.
  - rewrite (rz_nonneg x Hp). rewrite rz_nonneg; [by apply rpos_idem|].
    change 0%Q with (inject_Z 0). rewrite <- Zle_Qle. by apply rpos_nonneg.
Qed.

Lemma repz_rz (x : Q) : repz (rz x).
Proof. apply rz_idem. Qed.

Lemma repz_opp (k : Z) : repz k -> repz (- k).
Proof. unfold repz. intros E. by rewrite inject_Z_opp, rz_opp, E. Qed.

Lemma repz_repr (m t : Z) : Z.abs m <= 2 ^ 53 -> 0 <= t -> repz (m * 2 ^ t).
Proof.
  intros Hm Ht. pose proof (pow2_pos _ Ht) as HP.
  destruct (Z_lt_le_dec m 0) as [Hn|Hp].
  - replace (m * 2 ^ t) with (- (- m * 2 ^ t)) by lia. apply repz_opp.
    unfold repz. rewrite rz_nonneg.
    + apply rpos_repr; lia.
    + change 0%Q with (inject_Z 0). rewrite <- Zle_Qle. nia.
  - unfold repz. rewrite rz_nonneg.
    + apply rpos_repr; lia.
    + change 0%Q with (inject_Z 0). rewrite <- Zle_Qle. nia.
Qed.

Lemma rz_between (x : Q) (lo hi : Z) :
  repz lo -> repz hi -> (inject_Z lo <= x <= inject_Z hi)%Q -> lo <= rz x <= hi.
Proof.
  intros Hlo Hhi [H1 H2]. unfold repz in *. split.
  - rewrite <- Hlo. by apply rz_mono.
  - rewrite <- Hhi. by apply rz_mono.
Qed.

Lemma rz_repz (k : Z) : repz k -> rz (inject_Z k) = k.
Proof. done. Qed.

(** ** The specification computes the rounding *)

Lemma digits_spec (p : positive) :
  2 ^ (Z.pos (digits2_pos p) - 1) <= Z.pos p < 2 ^ Z.pos (digits2_pos p).
Proof.
  induction p as [p IH|p IH|]; cbn [digits2_pos].
  - rewrite Pos2Z.inj_succ, (Pos2Z.inj_xI p).
    replace (Z.succ (Z.pos (digits2_pos p)) - 1) with (Z.succ (Z.pos (digits2_pos p) - 1)) by lia.
    rewrite !Z.pow_succ_r by lia.
    generalize dependent (2 ^ (Z.pos (digits2_pos p) - 1)).
    generalize (2 ^ (Z.pos (digits2_pos p))). intros. lia.
  - rewrite Pos2Z.inj_succ, (Pos2Z.inj_xO p).
    replace (Z.succ (Z.pos (digits2_pos p)) - 1) with (Z.succ (Z.pos (digits2_pos p) - 1)) by lia.
    rewrite !Z.pow_succ_r by lia.
    generalize dependent (2 ^ (Z.pos (digits2_pos p) - 1)).
    generalize (2 ^ (Z.pos (digits2_pos p))). intros. lia.
  - simpl. lia.
Qed.

Lemma Zdigits2_spec (m : Z) :
  0 < m -> 2 ^ (Zdigits2 m - 1) <= m < 2 ^ Zdigits2 m /\ 0 < Zdigits2 m.
Proof.
  destruct m as [|p|p]; try lia. intros _. simpl. split; [apply digits_spec|lia].
Qed.

Lemma Zdigits2_le (m k : Z) : 0 < m -> 0 <= k -> m < 2 ^ k -> Zdigits2 m <= k.
Proof.
  intros Hm Hk Hlt. destruct (Zdigits2_spec m Hm) as [[H1 _] Hd].
  destruct (Z_le_gt_dec (Zdigits2 m) k) as [|Hgt]; [done|].
  pose proof (Z.pow_le_mono_r 2 k (Zdigits2 m - 1) ltac:(lia) ltac:(lia)). lia.
Qed.

Lemma Zdigits2_ge (m k : Z) : 0 < m -> 2 ^ (k - 1) <= m -> k <= Zdigits2 m.
Proof.
  intros Hm Hle. destruct (Zdigits2_spec m Hm) as [[_ H2] Hd].
  destruct (Z_le_gt_dec k (Zdigits2 m)) as [|Hgt]; [done|].
  pose proof (Z.pow_le_mono_r 2 (Zdigits2 m) (k - 1) ltac:(lia) ltac:(lia)). lia.
Qed.

Lemma q2_pos (e : Z) : (0 < q2 e)%Q.
Proof.
  unfold q2. destruct (Z.leb_spec 0 e).
  - by apply inject_pos, pow2_pos.
  - apply Qinv_lt_0_compat, inject_pos, pow2_pos. lia.
Qed.

Lemma q2_nonneg (e : Z) : 0 <= e -> q2 e = inject_Z (2 ^ e).
Proof. intros He. unfold q2. destruct (Z.leb_spec 0 e); [done|lia]. Qed.

Lemma q2_add (a b : Z) : (q2 (a + b) == q2 a * q2 b)%Q.
Proof.
  assert (P : forall t, 0 <= t -> (0 < inject_Z (2 ^ t))%Q)
    by (intros; by apply inject_pos, pow2_pos).
  assert (A : forall n m, 0 <= n -> 0 <= m ->
            (inject_Z (2 ^ (n + m)) == inject_Z (2 ^ n) * inject_Z (2 ^ m))%Q).
  { intros n m Hn Hm. by rewrite Z.pow_add_r, inject_Z_mult by lia. }
  unfold q2.
  destruct (Z.leb_spec 0 a) as [Ha|Ha], (Z.leb_spec 0 b) as [Hb|Hb],
    (Z.leb_spec 0 (a + b)) as [Hab|Hab]; try lia.
  - by apply A.
  - pose proof (A (a + b) (- b) ltac:(lia) ltac:(lia)) as E.
    replace (a + b + - b) with a in E by lia.
    pose proof (P (- b) ltac:(lia)). rewrite E. field. lra.
  - pose proof (A a (- (a + b)) ltac:(lia) ltac:(lia)) as E.
    replace (a + - (a + b)) with (- b) in E by lia.
    pose proof (P (- (a + b)) ltac:(lia)). pose proof (P a Ha).
    rewrite E. field. lra.
  - pose proof (A (a + b) (- a) ltac:(lia) ltac:(lia)) as E.
    replace (a + b + - a) with b in E by lia.
    pose proof (P (- a) ltac:(lia)). rewrite E. field. lra.
  - pose proof (A b (- (a + b)) ltac:(lia) ltac:(lia)) as E.
    replace (b + - (a + b)) with (- a) in E by lia.
    pose proof (P (- (a + b)) ltac:(lia)). pose proof (P b Hb).
    rewrite E. field. lra.
  - pose proof (A (- a) (- b) ltac:(lia) ltac:(lia)) as E.
    replace (- a + - b) with (- (a + b)) in E by lia.
    pose proof (P (- a) ltac:(lia)). pose proof (P (- b) ltac:(lia)).
    rewrite E. field. lra.
Qed.

Lemma q2_0 : (q2 0 == 1)%Q.
Proof. done. Qed.

Lemma q2_opp (e : Z) : (q2 e * q2 (- e) == 1)%Q.
Proof. rewrite <- q2_add. by replace (e + - e) with 0 by lia. Qed.

Lemma located_comp (y1 y2 : Q) (mrs : shr_record) :
  (y1 == y2)%Q -> located y1 mrs -> located y2 mrs.
Proof.
  intros E [H1 H2]. unfold located. rewrite <- (Qfloor_comp _ _ E). split; [done|].
  assert (E' : (y2 - inject_Z (Qfloor y1) == y1 - inject_Z (Qfloor y1))%Q) by lra.
  unfold loc_frac in *. destruct (loc_of_shr_record mrs) as [|[]]; lra.
Qed.

Lemma located_half (y : Q) (k : Z) (b r s : bool) :
  Qfloor y = 2 * k + (if b then 1 else 0) ->
  loc_frac (y - inject_Z (Qfloor y))
    (loc_of_shr_record {| shr_m := Qfloor y; shr_r := r; shr_s := s |}) ->
  located (y / 2) {| shr_m := k; shr_r := b; shr_s := r || s |}.
Proof.
  intros Hf Hl. destruct (floor_spec y) as [F1 F2].
  rewrite Hf, inject_Z_plus, inject_Z_mult in F1, F2, Hl.
  assert (Ek : Qfloor (y / 2) = k).
  { apply floor_unique. change (inject_Z 2) with 2%Q in *.
    unfold Qdiv. change (/ 2)%Q with (1 # 2)%Q.
    destruct b; [change (inject_Z 1) with 1%Q in *|change (inject_Z 0) with 0%Q in *];
      split; lra. }
  unfold located. rewrite Ek. split; [done|].
  change (inject_Z 2) with 2%Q in *.
  unfold Qdiv. change (/ 2)%Q with (1 # 2)%Q.
  destruct b; [change (inject_Z 1) with 1%Q in *|change (inject_Z 0) with 0%Q in *];
    destruct r, s; simpl in *; lra.
Qed.

Lemma shr_1_eq (m : Z) (r s : bool) :
  0 <= m ->
  shr_1 {| shr_m := m; shr_r := r; shr_s := s |} =
  {| shr_m := Z.div2 m; shr_r := Z.odd m; shr_s := r || s |}.
Proof. intros Hm. by destruct m as [|[p|p|]|p]; try lia. Qed.

Lemma located_shr_1 (y : Q) (mrs : shr_record) :
  (0 <= y)%Q -> located y mrs -> located (y / 2) (shr_1 mrs).
Proof.
  intros Hy [Hm Hl]. destruct mrs as [m r s]. simpl in Hm. subst m.
  assert (HF : 0 <= Qfloor y).
  { rewrite <- (Qfloor_Z 0). by apply Qfloor_resp_le. }
  rewrite shr_1_eq by done. apply located_half; [|done].
  apply Z.div2_odd.
Qed.

Lemma located_iter (p : positive) (y : Q) (mrs : shr_record) :
  (0 <= y)%Q -> located y mrs ->
  located (y / inject_Z (2 ^ Z.pos p)) (SpecFloat.iter_pos shr_1 p mrs).
Proof.
  revert y mrs. induction p as [p IH|p IH|]; intros y mrs Hy Hl; cbn [SpecFloat.iter_pos].
  - assert (P : (0 < inject_Z (2 ^ Z.pos p))%Q) by (apply inject_pos, pow2_pos; lia).
    eapply located_comp; [|apply IH; [|apply IH; [|apply located_shr_1; [exact Hy|exact Hl]]]].
    + assert (E : 2 ^ Z.pos p~1 = 2 * (2 ^ Z.pos p * 2 ^ Z.pos p)).
      { rewrite (Pos2Z.inj_xI p), <- Z.pow_add_r, <- Z.pow_succ_r by lia. f_equal. lia. }
      rewrite E, !inject_Z_mult. change (inject_Z 2) with 2%Q. field. lra.
    + apply Qle_shift_div_l; [done|]. apply Qle_shift_div_l; lra.
    + apply Qle_shift_div_l; lra.
  - assert (P : (0 < inject_Z (2 ^ Z.pos p))%Q) by (apply inject_pos, pow2_pos; lia).
    eapply located_comp; [|apply IH; [|apply IH; [exact Hy|exact Hl]]].
    + assert (E : 2 ^ Z.pos p~0 = 2 ^ Z.pos p * 2 ^ Z.pos p).
      { rewrite (Pos2Z.inj_xO p), <- Z.pow_add_r by lia. f_equal. lia. }
      rewrite E, !inject_Z_mult. field. lra.
    + apply Qle_shift_div_l; lra.
  - eapply located_comp; [|apply located_shr_1; [exact Hy|exact Hl]]. done.
Qed.

Lemma loc_of_record (m : Z) (l : location) :
  loc_of_shr_record (shr_record_of_loc m l) = l /\ shr_m (shr_record_of_loc m l) = m.
Proof. by destruct l as [|[]]. Qed.

(** The shift of [shr]: the record moves to [y / 2^n], the exponent up
    by [n]. *)
Lemma located_shr (y : Q) (mrs : shr_record) (e n : Z) :
  (0 <= y)%Q -> 0 <= n -> located y mrs ->
  exists mrs', shr mrs e n = (mrs', e + n) /\ located (y / inject_Z (2 ^ n)) mrs'.
Proof.
  intros Hy Hn Hl. destruct n as [|p|p]; try lia; simpl shr.
  - exists mrs. rewrite Z.add_0_r. split; [done|].
    eapply located_comp; [|exact Hl]. change (inject_Z (2 ^ 0)) with 1%Q. field.
  - eexists. split; [done|]. by apply located_iter.
Qed.

Lemma rne_rint (y : Q) (mrs : shr_record) :
  located y mrs ->
  round_nearest_even (shr_m mrs) (loc_of_shr_record mrs) = rint y.
Proof.
  intros [Hm Hl]. rewrite Hm. unfold rint, round_nearest_even.
  destruct (Qcompare_spec (y - inject_Z (Qfloor y)) (1 # 2)) as [E|E|E];
    destruct (loc_of_shr_record mrs) as [|[]]; simpl in Hl; try done; lra.
Qed.

Lemma fexp64_eq (e : Z) : fexp64 e = Z.max (e - 53) (- 1074).
Proof. reflexivity. Qed.

Lemma shr_nonpos (mrs : shr_record) (e n : Z) : n <= 0 -> shr mrs e n = (mrs, e).
Proof. intros Hn. destruct n; [done|lia|done]. Qed.

Lemma floor_nonneg (y : Q) : (0 <= y)%Q -> 0 <= Qfloor y.
Proof. intros Hy. rewrite <- (Qfloor_Z 0). by apply Qfloor_resp_le. Qed.

Lemma pow2_mono (a b : Z) : 0 <= a <= b -> 2 ^ a <= 2 ^ b.
Proof. intros. apply Z.pow_le_mono_r; lia. Qed.

(** The rounding step of the specification, on a mantissa [mx] with the
    position [lx] of what was cut: it returns the rounding of the value
    they stand for. *)
Lemma bra_correct (sx : bool) (mx ex : Z) (lx : location) (y : Q) :
  (0 <= y)%Q -> Qfloor y = mx -> loc_frac (y - inject_Z mx) lx ->
  ex <= fexp64 (Zdigits2 mx + ex) ->
  let K := rpos (y * q2 (ex + 1074)) in
  K < 2 ^ 2098 ->
  SFunits (binary_round_aux 53 1024 sx mx ex lx) = Some (cond_Zopp sx K).
Proof.
  intros Hy Hfl Hloc Hn K HK.
  pose proof (floor_nonneg y Hy) as Hmx. rewrite Hfl in Hmx.
  set (e1 := fexp64 (Zdigits2 mx + ex)) in *.
  set (n := e1 - ex). set (t := e1 + 1074).
  assert (He1 : - 1074 <= e1) by (unfold e1; rewrite fexp64_eq; lia).
  assert (Hn0 : 0 <= n) by (unfold n; lia).
  assert (Ht0 : 0 <= t) by (unfold t; lia).
  pose proof (pow2_pos n Hn0) as HPn. pose proof (pow2_pos t Ht0) as HPt.
  pose proof (inject_pos _ HPn) as HQn. pose proof (inject_pos _ HPt) as HQt.
  assert (L0 : located y (shr_record_of_loc mx lx)).
  { destruct (loc_of_record mx lx) as [El Em]. unfold located. rewrite El, Em, Hfl. done. }
  destruct (located_shr y _ ex n Hy Hn0 L0) as (mrs1 & E1 & L1).
  set (y1 := (y / inject_Z (2 ^ n))%Q) in *.
  assert (Hy1 : (0 <= y1)%Q) by (apply Qle_shift_div_l; lra).
  assert (Em1 : shr_m mrs1 = mx / 2 ^ n).
  { destruct L1 as [-> _]. unfold y1. rewrite floor_div by done. by rewrite Hfl. }
  (* the mantissa after the shift *)
  assert (Hm1 : 0 <= shr_m mrs1 < 2 ^ 53 /\ (t = 0 \/ 2 ^ 52 <= shr_m mrs1)).
  { rewrite Em1. destruct (Z.eq_dec mx 0) as [->|Nz].
    - rewrite Z.div_0_l by lia. split; [lia|left].
      unfold t, e1 in *. simpl Zdigits2 in *. rewrite fexp64_eq in *. lia.
    - destruct (Zdigits2_spec mx ltac:(lia)) as [[D1 D2] D3].
      assert (Hd : Zdigits2 mx <= n + 53)
        by (unfold n, e1; rewrite fexp64_eq; lia).
      split; [split|].
      + by apply Z.div_pos.
      + apply Z.div_lt_upper_bound; [done|]. rewrite <- Z.pow_add_r by lia.
        eapply Z.lt_le_trans; [exact D2|]. apply pow2_mono. lia.
      + destruct (Z.eq_dec t 0) as [|Nt]; [by left|right].
        assert (En : n = Zdigits2 mx - 53)
          by (unfold t, n, e1 in *; rewrite fexp64_eq in *; lia).
        apply Z.div_le_lower_bound; [done|]. rewrite <- Z.pow_add_r by lia.
        replace (n + 52) with (Zdigits2 mx - 1) by lia. done. }
  destruct Hm1 as [Hm1 Hlow].
  (* the rounding, on the value *)
  set (X := (y * q2 (ex + 1074))%Q) in *.
  assert (EX : (X == y1 * inject_Z (2 ^ t))%Q).
  { unfold X, y1. replace (ex + 1074) with (t + - n) by (unfold t, n; lia).
    rewrite q2_add, (q2_nonneg t Ht0).
    assert (E : (q2 (- n) == / inject_Z (2 ^ n))%Q).
    { pose proof (q2_opp n) as Ho. rewrite (q2_nonneg n Hn0) in Ho.
      apply (Qmult_inj_l _ _ (inject_Z (2 ^ n))); [lra|].
      rewrite Ho. field. lra. }
    rewrite E. field. lra. }
  assert (HX : (0 <= X)%Q) by (rewrite EX; apply Qmult_le_0_compat; lra).
  assert (EXt : (X / inject_Z (2 ^ t) == y1)%Q) by (rewrite EX; field; lra).
  assert (Efl : Qfloor X / 2 ^ t = shr_m mrs1).
  { rewrite <- floor_div by done. rewrite (Qfloor_comp _ _ EXt). by destruct L1 as [-> _]. }
  assert (Et : rexp X = t).
  { apply rexp_char; try done; rewrite Efl; [lia|done]. }
  assert (EK : K = rint y1 * 2 ^ t).
  { unfold K, rpos. rewrite Et. f_equal. by apply rint_comp. }
  pose proof (rint_bounds y1) as Hr. destruct L1 as [Ef1 Hl1].
  rewrite <- Ef1 in Hr.
  unfold binary_round_aux, shr_fexp. fold e1. change (e1 - ex) with n.
  rewrite E1. replace (ex + n) with e1 by (unfold n; lia).
  rewrite (rne_rint y1 mrs1) by done.
  set (mr := rint y1) in *.
  destruct (Z.eq_dec mr 0) as [E0|N0].
  - (* rounded to zero *)
    rewrite E0. unfold shr_record_of_loc. rewrite shr_nonpos.
    + simpl. rewrite EK, E0. by destruct sx.
    + simpl Zdigits2. rewrite fexp64_eq. lia.
  - destruct (Z.eq_dec mr (2 ^ 53)) as [E53|N53].
    + (* the rounding carried into a 54th bit *)
      rewrite E53. change (Zdigits2 (2 ^ 53)) with 54.
      replace (fexp64 (54 + e1) - e1) with 1 by (rewrite fexp64_eq; lia).
      unfold shr_record_of_loc, shr. cbn [SpecFloat.iter_pos]. rewrite shr_1_eq by lia.
      cbn [shr_m]. change (Z.div2 (2 ^ 53)) with (Z.pos (Pos.pow 2 52)).
      cbv iota. change (1024 - 53) with 971.
      destruct (Z.leb_spec (e1 + 1) 971) as [Hle|Hgt].
      * cbn [SFunits]. do 2 f_equal. rewrite EK, E53.
        replace (e1 + 1 + 1074) with (t + 1) by (unfold t; lia).
        rewrite Z.pow_add_r by lia. change (Z.pos (2 ^ 52)) with (2 ^ 52).
        change (2 ^ 53) with (2 ^ 52 * 2 ^ 1). lia.
      * exfalso. rewrite EK, E53 in HK.
        pose proof (pow2_mono 2045 t ltac:(unfold t; lia)) as Hp.
        change (2 ^ 2098) with (2 ^ 53 * 2 ^ 2045) in HK. nia.
    + (* no carry *)
      assert (Hmr : 0 < mr < 2 ^ 53) by lia.
      rewrite shr_nonpos.
      2:{ pose proof (Zdigits2_le mr 53 ltac:(lia) ltac:(lia) ltac:(lia)).
          rewrite fexp64_eq. lia. }
      destruct (loc_of_record mr loc_Exact) as [_ ->].
      destruct mr as [|m|m] eqn:Emr; try lia.
      change (1024 - 53) with 971.
      destruct (Z.leb_spec e1 971) as [Hle|Hgt].
      * cbn [SFunits]. do 2 f_equal. rewrite EK. done.
      * exfalso. destruct Hlow as [Hz|Hlow]; [unfold t in Hz; lia|].
        rewrite EK in HK.
        pose proof (pow2_mono 2046 t ltac:(unfold t; lia)) as Hp.
        change (2 ^ 2098) with (2 ^ 52 * 2 ^ 2046) in HK. nia.
Qed.

Lemma bounded_spec (m : positive) (e : Z) :
  bounded 53 1024 m e = true ->
  - 1074 <= e <= 971 /\ Z.pos m < 2 ^ 53 /\ (e = - 1074 \/ 2 ^ 52 <= Z.pos m) /\
  fexp64 (Z.pos (digits2_pos m) + e) = e.
Proof.
  unfold bounded, canonical_mantissa. change (1024 - 53) with 971.
  intros H. apply andb_true_iff in H as [H1 H2].
  apply Z.eqb_eq in H1. apply Z.leb_le in H2.
  pose proof (digits_spec m) as [D1 D2]. pose proof H1 as H1'.
  rewrite fexp64_eq in H1. split; [lia|]. split; [|split; [|done]].
  - eapply Z.lt_le_trans; [exact D2|]. apply pow2_mono. lia.
  - destruct (Z.eq_dec e (- 1074)) as [|Ne]; [by left|right].
    assert (Ed : Z.pos (digits2_pos m) = 53) by lia. by rewrite Ed in D1.
Qed.

Lemma valid_finite (s : bool) (m : positive) (e : Z) :
  valid (S754_finite s m e) -> bounded 53 1024 m e = true.
Proof. done. Qed.

(** The units of a valid number are representable. *)
Lemma units_repz (x : spec_float) (A : Z) :
  valid x -> SFunits x = Some A -> repz A /\ Z.abs A < 2 ^ 2098.
Proof.
  intros Hv E. destruct x as [s|s| |s m e]; try done.
  - injection E as <-. split; [apply (repz_repr 0 0); simpl; lia|done].
  - injection E as <-. destruct (bounded_spec m e Hv) as (He & Hm & _).
    pose proof (pow2_pos (e + 1074) ltac:(lia)) as HP.
    pose proof (pow2_mono (e + 1074) 2045 ltac:(lia)) as Hp.
    change (2 ^ 2098) with (2 ^ 53 * 2 ^ 2045).
    destruct s; simpl.
    + split; [|nia]. replace (- (Z.pos m * 2 ^ (e + 1074))) with (- Z.pos m * 2 ^ (e + 1074)) by lia.
      apply repz_repr; lia.
    + split; [|nia]. apply repz_repr; lia.
Qed.

(** ** Alignment *)

Lemma pos_iter_xO (m d : positive) : Z.pos (Pos.iter xO m d) = Z.pos m * 2 ^ Z.pos d.
Proof.
  induction d as [|d IH] using Pos.peano_ind.
  - simpl. lia.
  - rewrite Pos.iter_succ, (Pos2Z.inj_xO (Pos.iter xO m d)), IH, Pos2Z.inj_succ.
    rewrite Z.pow_succ_r by lia. lia.
Qed.

Lemma shl_align_spec (mx : positive) (ex ex' : Z) :
  exists mz e, shl_align mx ex ex' = (mz, e) /\ e = Z.min ex ex' /\
    Z.pos mz = Z.pos mx * 2 ^ (ex - e).
Proof.
  unfold shl_align. destruct (ex' - ex) as [|d|d] eqn:E.
  - exists mx, ex. split; [done|]. split; [lia|]. rewrite Z.sub_diag. simpl. lia.
  - exists mx, ex. split; [done|]. split; [lia|]. rewrite Z.sub_diag. simpl. lia.
  - exists (Pos.iter xO mx d), ex'. split; [done|]. split; [lia|].
    rewrite pos_iter_xO. do 2 f_equal. lia.
Qed.

Lemma Zdigits2_shift (m k : Z) : 0 < m -> 0 <= k -> Zdigits2 (m * 2 ^ k) = Zdigits2 m + k.
Proof.
  intros Hm Hk. pose proof (pow2_pos k Hk) as HP.
  destruct (Zdigits2_spec m Hm) as [[D1 D2] D3].
  apply Z.le_antisymm.
  - apply Zdigits2_le; [nia|lia|]. rewrite Z.pow_add_r by lia. nia.
  - apply Zdigits2_ge; [nia|]. replace (Zdigits2 m + k - 1) with (Zdigits2 m - 1 + k) by lia.
    rewrite Z.pow_add_r by lia. nia.
Qed.

Lemma inject_nonneg (k : Z) : 0 <= k -> (0 <= inject_Z k)%Q.
Proof. intros Hk. change 0%Q with (inject_Z 0). by rewrite <- Zle_Qle. Qed.

Lemma loc_exact (k : Z) : loc_frac (inject_Z k - inject_Z k) loc_Exact.
Proof. simpl. lra. Qed.

(** ** Rounding an integer mantissa *)

Lemma binary_round_correct (sx : bool) (mx : positive) (ex : Z) :
  - 1074 <= ex ->
  let K := rpos (inject_Z (Z.pos mx * 2 ^ (ex + 1074))) in
  K < 2 ^ 2098 ->
  SFunits (binary_round 53 1024 sx mx ex) = Some (cond_Zopp sx K).
Proof.
  intros Hex K HK. unfold binary_round.
  destruct (shl_align_spec mx ex (fexp64 (Z.pos (digits2_pos mx) + ex)))
    as (mz & ez & -> & Ez & Emz).
  assert (Hez : - 1074 <= ez <= ex) by (rewrite fexp64_eq in Ez; lia).
  pose proof (pow2_pos (ex - ez) ltac:(lia)) as HP.
  assert (Ed : Zdigits2 (Z.pos mz) + ez = Z.pos (digits2_pos mx) + ex).
  { rewrite Emz, Zdigits2_shift by lia. simpl Zdigits2. lia. }
  assert (EK : rpos (inject_Z (Z.pos mz) * q2 (ez + 1074)) = K).
  { apply rpos_comp.
    rewrite q2_nonneg by lia. rewrite <- inject_Z_mult. apply inject_Z_injective.
    rewrite Emz, <- Z.mul_assoc, <- Z.pow_add_r by lia. do 2 f_equal. lia. }
  rewrite (bra_correct sx (Z.pos mz) ez loc_Exact (inject_Z (Z.pos mz))).
  - by rewrite EK.
  - by apply inject_nonneg.
  - apply Qfloor_Z.
  - apply loc_exact.
  - rewrite Ed. lia.
  - by rewrite EK.
Qed.

Lemma binary_normalize_correct (m e : Z) (sz : bool) :
  - 1074 <= e ->
  let K := rz (inject_Z (m * 2 ^ (e + 1074))) in
  Z.abs K < 2 ^ 2098 ->
  SFunits (binary_normalize 53 1024 m e sz) = Some K.
Proof.
  intros He K HK. pose proof (pow2_pos (e + 1074) ltac:(lia)) as HP.
  destruct m as [|p|p]; cbn [binary_normalize].
  - simpl. unfold K. rewrite Z.mul_0_l. by rewrite (rz_repz 0) by (apply (repz_repr 0 0); simpl; lia).
  - assert (EK : K = rpos (inject_Z (Z.pos p * 2 ^ (e + 1074)))).
    { unfold K. apply rz_nonneg, inject_nonneg. lia. }
    rewrite binary_round_correct; [by rewrite EK|done|rewrite <- EK; lia].
  - assert (EK : K = - rpos (inject_Z (Z.pos p * 2 ^ (e + 1074)))).
    { unfold K. replace (Z.neg p * 2 ^ (e + 1074)) with (- (Z.pos p * 2 ^ (e + 1074))) by lia.
      rewrite inject_Z_opp, rz_opp. f_equal. apply rz_nonneg, inject_nonneg. lia. }
    rewrite binary_round_correct; [by rewrite EK|done|lia].
Qed.

(** ** The four operations *)

Lemma aligned_units (s : bool) (m : positive) (e ez : Z) :
  - 1074 <= ez <= e ->
  cond_Zopp s (Z.pos (fst (shl_align m e ez))) * 2 ^ (ez + 1074) =
  cond_Zopp s (Z.pos m * 2 ^ (e + 1074)).
Proof.
  intros He. destruct (shl_align_spec m e ez) as (mz & e' & -> & Ee & Emz).
  cbn [fst]. rewrite Emz. replace e' with ez by lia.
  replace (e + 1074) with (e - ez + (ez + 1074)) by lia.
  rewrite (Z.pow_add_r 2 (e - ez) (ez + 1074)) by lia. destruct s; cbn [cond_Zopp]; ring.
Qed.

Lemma SFadd_units (x y : spec_float) (A B : Z) :
  valid x -> valid y -> SFunits x = Some A -> SFunits y = Some B ->
  let K := rz (inject_Z (A + B)) in
  Z.abs K < 2 ^ 2098 ->
  SFunits (SFadd 53 1024 x y) = Some K.
Proof.
  intros Vx Vy Ex Ey K HK.
  destruct (units_repz x A Vx Ex) as [Rx _]. destruct (units_repz y B Vy Ey) as [Ry _].
  destruct x as [sx|sx| |sx mx ex]; try done; destruct y as [sy|sy| |sy my ey]; try done.
  - injection Ex as <-. injection Ey as <-. unfold K. change (0 + 0) with 0.
    rewrite (rz_repz 0) by done. by destruct sx, sy.
  - injection Ex as <-. unfold K. rewrite Z.add_0_l, (rz_repz B) by done. done.
  - injection Ey as <-. unfold K. rewrite Z.add_0_r, (rz_repz A) by done. done.
  - injection Ex as <-. injection Ey as <-.
    destruct (bounded_spec mx ex Vx) as (Hex & _). destruct (bounded_spec my ey Vy) as (Hey & _).
    cbn [SFadd]. set (ez := Z.min ex ey).
    rewrite binary_normalize_correct; [|lia|].
    + do 2 f_equal. rewrite Z.mul_add_distr_r, !aligned_units by lia. done.
    + rewrite Z.mul_add_distr_r, !aligned_units by lia. done.
Qed.

Lemma SFsub_units (x y : spec_float) (A B : Z) :
  valid x -> valid y -> SFunits x = Some A -> SFunits y = Some B ->
  let K := rz (inject_Z (A - B)) in
  Z.abs K < 2 ^ 2098 ->
  SFunits (SFsub 53 1024 x y) = Some K.
Proof.
  intros Vx Vy Ex Ey K HK.
  destruct (units_repz x A Vx Ex) as [Rx _]. destruct (units_repz y B Vy Ey) as [Ry _].
  destruct x as [sx|sx| |sx mx ex]; try done; destruct y as [sy|sy| |sy my ey]; try done.
  - injection Ex as <-. injection Ey as <-. unfold K. change (0 - 0) with 0.
    rewrite (rz_repz 0) by done. by destruct sx, sy.
  - injection Ex as <-. unfold K. rewrite Z.sub_0_l, (rz_repz (- B)) by by apply repz_opp.
    injection Ey as <-. cbn [SFsub SFunits]. f_equal. destruct sy; simpl; lia.
  - injection Ey as <-. unfold K. rewrite Z.sub_0_r, (rz_repz A) by done. done.
  - injection Ex as <-. injection Ey as <-.
    destruct (bounded_spec mx ex Vx) as (Hex & _). destruct (bounded_spec my ey Vy) as (Hey & _).
    cbn [SFsub]. set (ez := Z.min ex ey).
    rewrite binary_normalize_correct; [|lia|].
    + do 2 f_equal. rewrite Z.mul_sub_distr_r, !aligned_units by lia. done.
    + rewrite Z.mul_sub_distr_r, !aligned_units by lia. done.
Qed.

Lemma rz_0 (x : Q) : (x == 0)%Q -> rz x = 0.
Proof. intros E. rewrite rz_nonneg by lra. by apply rpos_0. Qed.

Lemma scale_pos : 0 < scale.
Proof. done. Qed.

Lemma q2_scale : q2 1074 = inject_Z scale.
Proof. done. Qed.

(** The rounding of a value with a sign, from that of its magnitude. *)
Lemma rz_signed (s : bool) (x p : Q) :
  (0 < p)%Q -> (x == if s then - p else p)%Q -> rz x = cond_Zopp s (rpos p).
Proof.
  intros Hp E. destruct s; cbn [cond_Zopp].
  - rewrite rz_neg by lra. f_equal. apply rpos_comp. lra.
  - rewrite rz_nonneg by lra. by apply rpos_comp.
Qed.

Lemma SFmul_units (x y : spec_float) (A B : Z) :
  valid x -> valid y -> SFunits x = Some A -> SFunits y = Some B ->
  let K := rz (inject_Z (A * B) / inject_Z scale) in
  Z.abs K < 2 ^ 2098 ->
  SFunits (SFmul 53 1024 x y) = Some K.
Proof.
  intros Vx Vy Ex Ey K HK. pose proof (inject_pos _ scale_pos) as HS.
  assert (Z0 : forall a b, a = 0 \/ b = 0 -> rz (inject_Z (a * b) / inject_Z scale) = 0).
  { intros a b Hab. apply rz_0. replace (a * b) with 0 by nia.
    change (inject_Z 0) with 0%Q. field. lra. }
  destruct x as [sx|sx| |sx mx ex]; try done; destruct y as [sy|sy| |sy my ey]; try done;
    injection Ex as <-; injection Ey as <-.
  - unfold K. rewrite Z0 by (by left). done.
  - unfold K. rewrite Z0 by (by left). done.
  - unfold K. rewrite Z0 by (by right). done.
  - destruct (bounded_spec mx ex Vx) as (Hex & Hmx & Nx & _).
    destruct (bounded_spec my ey Vy) as (Hey & Hmy & Ny & _).
    cbn [SFmul].
    set (P := (inject_Z (Z.pos (mx * my)) * q2 (ex + ey + 1074))%Q).
    assert (HP : (0 < P)%Q).
    { apply Qmult_lt_0_compat; [by apply inject_pos|apply q2_pos]. }
    assert (EK : K = cond_Zopp (xorb sx sy) (rpos P)).
    { unfold K. apply rz_signed; [done|].
      assert (E : (inject_Z (Z.pos mx * 2 ^ (ex + 1074) * (Z.pos my * 2 ^ (ey + 1074))) /
                   inject_Z scale == P)%Q).
      { unfold P. rewrite Pos2Z.inj_mul, !inject_Z_mult.
        rewrite <- !q2_nonneg by lia. rewrite <- q2_scale.
        replace (ex + ey + 1074) with ((ex + 1074) + (ey + 1074) + - 1074) by lia.
        rewrite !q2_add. pose proof (q2_opp 1074) as Ho. pose proof (q2_pos 1074).
        pose proof (q2_pos (- 1074)).
        assert (Ei : (q2 (- 1074) == / q2 1074)%Q).
        { apply (Qmult_inj_l _ _ (q2 1074)); [lra|]. rewrite Ho. field. lra. }
        rewrite Ei. field. lra. }
      set (a := Z.pos mx * 2 ^ (ex + 1074)) in *. set (b := Z.pos my * 2 ^ (ey + 1074)) in *.
      destruct sx, sy; cbn [cond_Zopp xorb]; rewrite <- E.
      - by replace (- a * - b) with (a * b) by ring.
      - replace (- a * b) with (- (a * b)) by ring. rewrite inject_Z_opp. field. lra.
      - replace (a * - b) with (- (a * b)) by ring. rewrite inject_Z_opp. field. lra.
      - done. }
    rewrite (bra_correct _ _ _ loc_Exact (inject_Z (Z.pos (mx * my)))).
    + by rewrite EK.
    + by apply inject_nonneg.
    + apply Qfloor_Z.
    + apply loc_exact.
    + rewrite fexp64_eq.
      destruct (Z_le_gt_dec (ex + ey) (- 1074)) as [|Hgt]; [lia|].
      assert (Hd : 53 <= Zdigits2 (Z.pos (mx * my))); [|lia].
      apply Zdigits2_ge; [lia|]. rewrite Pos2Z.inj_mul. change (2 ^ (53 - 1)) with (2 ^ 52).
      destruct Nx as [->|Nx]; destruct Ny as [->|Ny]; try lia; nia.
    + fold P. destruct (xorb sx sy); cbn [cond_Zopp] in EK; lia.
Qed.

Lemma frac_lt_half (r m : Z) : 0 < m -> (inject_Z r / inject_Z m < 1 # 2)%Q <-> 2 * r < m.
Proof.
  intros Hm. pose proof (inject_pos m Hm) as HQ. split; intros H.
  - apply (Qmult_lt_r _ _ (inject_Z m)) in H; [|done].
    assert (E : (inject_Z r / inject_Z m * inject_Z m == inject_Z r)%Q) by (field; lra).
    rewrite E in H. assert (H' : (inject_Z (2 * r) < inject_Z m)%Q).
    { rewrite inject_Z_mult. change (inject_Z 2) with 2%Q. lra. }
    by rewrite <- Zlt_Qlt in H'.
  - apply Qlt_shift_div_r; [done|]. rewrite Zlt_Qlt, inject_Z_mult in H.
    change (inject_Z 2) with 2%Q in H. lra.
Qed.

Lemma frac_gt_half (r m : Z) : 0 < m -> ((1 # 2) < inject_Z r / inject_Z m)%Q <-> m < 2 * r.
Proof.
  intros Hm. pose proof (inject_pos m Hm) as HQ. split; intros H.
  - apply (Qmult_lt_r _ _ (inject_Z m)) in H; [|done].
    assert (E : (inject_Z r / inject_Z m * inject_Z m == inject_Z r)%Q) by (field; lra).
    rewrite E in H. assert (H' : (inject_Z m < inject_Z (2 * r))%Q).
    { rewrite inject_Z_mult. change (inject_Z 2) with 2%Q. lra. }
    by rewrite <- Zlt_Qlt in H'.
  - apply Qlt_shift_div_l; [done|]. rewrite Zlt_Qlt, inject_Z_mult in H.
    change (inject_Z 2) with 2%Q in H. lra.
Qed.

Lemma frac_eq_half (r m : Z) : 0 < m -> 2 * r = m -> (inject_Z r / inject_Z m == 1 # 2)%Q.
Proof.
  intros Hm <-. rewrite inject_Z_mult. change (inject_Z 2) with 2%Q.
  assert (0 < r) by lia. pose proof (inject_pos r ltac:(lia)). field. lra.
Qed.

Lemma frac_bounds (r m : Z) : 0 < r < m -> (0 < inject_Z r / inject_Z m < 1)%Q.
Proof.
  intros [H0 H1]. pose proof (inject_pos m ltac:(lia)) as HQ.
  pose proof (inject_pos r H0). rewrite Zlt_Qlt in H1. split.
  - apply Qlt_shift_div_l; lra.
  - apply Qlt_shift_div_r; lra.
Qed.

(** The position of the remainder of a division. *)
Lemma new_location_frac (m r : Z) :
  0 <= r < m -> loc_frac (inject_Z r / inject_Z m) (new_location m r).
Proof.
  intros Hr. assert (Hm : 0 < m) by lia. pose proof (inject_pos m Hm) as HQ.
  assert (Hz : r = 0 -> loc_frac (inject_Z r / inject_Z m) loc_Exact).
  { intros ->. simpl. change (inject_Z 0) with 0%Q. field. lra. }
  unfold new_location, new_location_even, new_location_odd.
  destruct (Z.even m) eqn:Ev; cbv beta; destruct (Z.eqb_spec r 0) as [Ez|Nz]; auto;
    pose proof (frac_bounds r m ltac:(lia)) as [B0 B1].
  - destruct (Z.compare_spec (2 * r) m) as [E|E|E]; simpl.
    + by apply frac_eq_half.
    + split; [done|]. by apply frac_lt_half.
    + split; [|done]. by apply frac_gt_half.
  - assert (Hodd : m <> 2 * r).
    { intros ->. rewrite Z.even_mul in Ev. done. }
    destruct (Z.compare_spec (2 * r + 1) m) as [E|E|E]; simpl.
    + split; [done|]. apply frac_lt_half; lia.
    + split; [done|]. apply frac_lt_half; lia.
    + split; [|done]. apply frac_gt_half; lia.
Qed.

Lemma SFdiv_units (x y : spec_float) (A B : Z) :
  valid x -> valid y -> SFunits x = Some A -> SFunits y = Some B -> B <> 0 ->
  let K := rz (inject_Z (A * scale) / inject_Z B) in
  Z.abs K < 2 ^ 2098 ->
  SFunits (SFdiv 53 1024 x y) = Some K.
Proof.
  intros Vx Vy Ex Ey HB K HK. pose proof (inject_pos _ scale_pos) as HS.
  destruct x as [sx|sx| |sx mx ex]; try done; destruct y as [sy|sy| |sy my ey]; try done;
    injection Ex as <-; injection Ey as <-; try done.
  destruct (bounded_spec mx ex Vx) as (Hex & Hmx & Nx & _).
  destruct (bounded_spec my ey Vy) as (Hey & Hmy & Ny & _).
  cbn [SFdiv]. unfold SFdiv_core_binary.
  set (d1 := Zdigits2 (Z.pos mx)). set (d2 := Zdigits2 (Z.pos my)).
  set (e' := Z.min (fexp64 (d1 + ex - (d2 + ey))) (ex - ey)).
  set (s := ex - ey - e').
  assert (Hs : 0 <= s) by (unfold s, e'; lia).
  pose proof (pow2_pos s Hs) as HPs.
  set (m' := match s with Z.pos _ => Z.shiftl (Z.pos mx) s | 0 => Z.pos mx | Z.neg _ => 0 end).
  assert (Em' : m' = Z.pos mx * 2 ^ s).
  { unfold m'. destruct s as [|p|p] eqn:Es; [simpl; lia| |lia].
    by rewrite Z.shiftl_mul_pow2. }
  pose proof (Z_div_mod m' (Z.pos my) ltac:(lia)) as Hdm.
  destruct (Z.div_eucl m' (Z.pos my)) as [q r] eqn:Edm.
  destruct Hdm as [Hq Hr].
  assert (Eq' : q = m' / Z.pos my).
  { apply (Z.div_unique_pos _ _ q r); lia. }
  pose proof (inject_pos (Z.pos my) ltac:(lia)) as HQy.
  set (y := (inject_Z m' / inject_Z (Z.pos my))%Q).
  assert (Hy : (0 <= y)%Q).
  { apply Qle_shift_div_l; [done|]. rewrite Qmult_0_l. apply inject_nonneg. nia. }
  assert (Efl : Qfloor y = q) by (unfold y; by rewrite <- Zdiv_Qdiv).
  assert (Hq0 : 0 <= q) by (rewrite <- Efl; by apply floor_nonneg).
  assert (Hloc : loc_frac (y - inject_Z q) (new_location (Z.pos my) r)).
  { pose proof (new_location_frac (Z.pos my) r Hr) as Hl.
    assert (E : (y - inject_Z q == inject_Z r / inject_Z (Z.pos my))%Q).
    { unfold y. rewrite Hq, inject_Z_plus, inject_Z_mult. field. lra. }
    unfold loc_frac in *. destruct (new_location (Z.pos my) r) as [|[]]; lra. }
  set (P := (y * q2 (e' + 1074))%Q).
  assert (HP0 : (0 < P)%Q).
  { apply Qmult_lt_0_compat; [|apply q2_pos]. apply Qlt_shift_div_l; [done|].
    rewrite Qmult_0_l. apply inject_pos. nia. }
  assert (EK : K = cond_Zopp (xorb sx sy) (rpos P)).
  { unfold K. apply rz_signed; [done|].
    set (a := Z.pos mx * 2 ^ (ex + 1074)) in *. set (b := Z.pos my * 2 ^ (ey + 1074)) in *.
    pose proof (pow2_pos (ex + 1074) ltac:(lia)). pose proof (pow2_pos (ey + 1074) ltac:(lia)).
    assert (Hb : (0 < inject_Z b)%Q) by (apply inject_pos; unfold b; nia).
    assert (E : (inject_Z (a * scale) / inject_Z b == P)%Q).
    { unfold P, y, a, b. rewrite Em', !inject_Z_mult.
      rewrite <- !q2_nonneg by lia. rewrite <- q2_scale.
      assert (E2 : (q2 (ex + 1074) * q2 1074 == q2 s * q2 (e' + 1074) * q2 (ey + 1074))%Q).
      { rewrite <- !q2_add. by replace (ex + 1074 + 1074) with (s + (e' + 1074) + (ey + 1074))
          by (unfold s; lia). }
      pose proof (q2_pos (ey + 1074)). pose proof (q2_pos s). pose proof (q2_pos (e' + 1074)).
      pose proof (q2_pos (ex + 1074)). pose proof (q2_pos 1074).
      apply (Qmult_inj_r _ _ (q2 (ey + 1074))); [lra|].
      transitivity (inject_Z (Z.pos mx) / inject_Z (Z.pos my) * (q2 (ex + 1074) * q2 1074))%Q;
        [field; lra|].
      rewrite E2. field. lra. }
    destruct sx, sy; cbn [cond_Zopp xorb]; rewrite <- E.
    - replace (- a * scale) with (- (a * scale)) by ring. rewrite !inject_Z_opp. field. lra.
    - replace (- a * scale) with (- (a * scale)) by ring. rewrite !inject_Z_opp. field. lra.
    - rewrite !inject_Z_opp. field. lra.
    - done. }
  rewrite (bra_correct _ _ _ _ y).
  - by rewrite EK.
  - done.
  - done.
  - done.
  - rewrite fexp64_eq.
    destruct (Z_le_gt_dec e' (- 1074)) as [|Hgt]; [lia|].
    assert (Hd : 53 <= Zdigits2 q); [|lia].
    assert (He' : e' <= d1 + ex - (d2 + ey) - 53).
    { unfold e' in *. rewrite fexp64_eq in *. lia. }
    destruct (Zdigits2_spec (Z.pos mx) ltac:(lia)) as [[D1 _] _].
    destruct (Zdigits2_spec (Z.pos my) ltac:(lia)) as [[_ D2] D3].
    fold d1 in D1. fold d2 in D2, D3.
    assert (Hq52 : 2 ^ 52 <= q).
    { rewrite Eq'. apply Z.div_le_lower_bound; [lia|]. rewrite Em'.
      assert (Hpw : 2 ^ d2 * 2 ^ 52 <= 2 ^ (d1 - 1) * 2 ^ s).
      { rewrite <- !Z.pow_add_r by (unfold d1, d2 in *; simpl in *; lia).
        apply pow2_mono. unfold s, d1, d2 in *. simpl in *. lia. }
      pose proof (pow2_pos (d1 - 1) ltac:(unfold d1; simpl; lia)). nia. }
    apply Zdigits2_ge; [lia|done].
  - fold P. destruct (xorb sx sy); cbn [cond_Zopp] in EK; lia.
Qed.

(** ** Comparison *)

Lemma units_exp_lt (m1 m2 : positive) (e1 e2 : Z) :
  bounded 53 1024 m1 e1 = true -> bounded 53 1024 m2 e2 = true -> e1 < e2 ->
  Z.pos m1 * 2 ^ (e1 + 1074) < Z.pos m2 * 2 ^ (e2 + 1074).
Proof.
  intros B1 B2 Hlt.
  destruct (bounded_spec m1 e1 B1) as (He1 & Hm1 & _).
  destruct (bounded_spec m2 e2 B2) as (He2 & _ & [->|Hm2] & _); [lia|].
  pose proof (pow2_pos (e1 + 1074) ltac:(lia)) as HP.
  replace (e2 + 1074) with (e2 - e1 + (e1 + 1074)) by lia.
  rewrite (Z.pow_add_r 2 (e2 - e1)) by lia.
  pose proof (pow2_mono 1 (e2 - e1) ltac:(lia)) as Hp. change (2 ^ 1) with 2 in Hp.
  change (2 ^ 53) with (2 ^ 52 * 2) in Hm1.
  assert (Hm : Z.pos m1 < Z.pos m2 * 2 ^ (e2 - e1)) by nia.
  rewrite Z.mul_assoc. by apply Z.mul_lt_mono_pos_r.
Qed.

Lemma finite_compare (m1 m2 : positive) (e1 e2 : Z) :
  bounded 53 1024 m1 e1 = true -> bounded 53 1024 m2 e2 = true ->
  match e1 ?= e2 with
  | Lt => Lt
  | Gt => Gt
  | Eq => Pos.compare_cont Eq m1 m2
  end = (Z.pos m1 * 2 ^ (e1 + 1074) ?= Z.pos m2 * 2 ^ (e2 + 1074)).
Proof.
  intros B1 B2. destruct (Z.compare_spec e1 e2) as [->|Hlt|Hgt]; symmetry.
  - destruct (bounded_spec m2 e2 B2) as (He2 & _).
    pose proof (pow2_pos (e2 + 1074) ltac:(lia)) as HP.
    rewrite <- Zmult_compare_compat_r by lia. done.
  - apply Z.compare_lt_iff. by apply units_exp_lt.
  - apply Z.compare_gt_iff. by apply units_exp_lt.
Qed.

Lemma SFcompare_units (x y : spec_float) (A B : Z) :
  valid x -> valid y -> SFunits x = Some A -> SFunits y = Some B ->
  SFcompare x y = Some (A ?= B).
Proof.
  intros Vx Vy Ex Ey.
  destruct x as [sx|sx| |sx mx ex]; try done; destruct y as [sy|sy| |sy my ey]; try done;
    injection Ex as <-; injection Ey as <-; cbn [SFcompare].
  - done.
  - destruct (bounded_spec my ey Vy) as (Hey & _).
    pose proof (pow2_pos (ey + 1074) ltac:(lia)).
    f_equal. symmetry. destruct sy; cbn [cond_Zopp].
    + apply Z.compare_gt_iff. nia.
    + apply Z.compare_lt_iff. nia.
  - destruct (bounded_spec mx ex Vx) as (Hex & _).
    pose proof (pow2_pos (ex + 1074) ltac:(lia)).
    f_equal. symmetry. destruct sx; cbn [cond_Zopp].
    + apply Z.compare_lt_iff. nia.
    + apply Z.compare_gt_iff. nia.
  - destruct (bounded_spec mx ex Vx) as (Hex & _).
    destruct (bounded_spec my ey Vy) as (Hey & _).
    pose proof (pow2_pos (ex + 1074) ltac:(lia)).
    pose proof (pow2_pos (ey + 1074) ltac:(lia)).
    f_equal. destruct sx, sy; cbn [cond_Zopp].
    + rewrite Z.compare_opp, (Z.compare_antisym (Z.pos mx * _)). f_equal.
      assert (E : forall c, match c with Lt => Gt | Eq => CompOpp (Pos.compare_cont Eq mx my)
                                   | Gt => Lt end =
                            CompOpp (match c with Lt => Lt | Gt => Gt
                                     | Eq => Pos.compare_cont Eq mx my end))
        by (by intros []).
      rewrite E. f_equal. by apply finite_compare.
    + symmetry. apply Z.compare_lt_iff. nia.
    + symmetry. apply Z.compare_gt_iff. nia.
    + by apply finite_compare.
Qed.

Lemma SFltb_units (x y : spec_float) (A B : Z) :
  valid x -> valid y -> SFunits x = Some A -> SFunits y = Some B ->
  SFltb x y = (A <? B).
Proof.
  intros Vx Vy Ex Ey. unfold SFltb. by rewrite (SFcompare_units x y A B).
Qed.

Lemma SFleb_units (x y : spec_float) (A B : Z) :
  valid x -> valid y -> SFunits x = Some A -> SFunits y = Some B ->
  SFleb x y = (A <=? B).
Proof.
  intros Vx Vy Ex Ey. unfold SFleb. rewrite (SFcompare_units x y A B) by done.
  unfold Z.leb. by destruct (A ?= B).
Qed.

(** A number that compares is not a nan. *)
Lemma SFltb_true (x y : spec_float) :
  SFltb x y = true -> x <> S754_nan /\ y <> S754_nan.
Proof.
  unfold SFltb. destruct x as [| | |]; destruct y as [| | |]; try done.
Qed.

Lemma SFleb_true (x y : spec_float) :
  SFleb x y = true -> x <> S754_nan /\ y <> S754_nan.
Proof.
  unfold SFleb. destruct x as [| | |]; destruct y as [| | |]; try done.
Qed.

(** ** Floats and their values *)

Lemma scale_Q : (0 < inject_Z scale)%Q.
Proof. apply inject_pos, scale_pos. Qed.

Lemma units_scaled (k : Z) : (inject_Z k / inject_Z scale * inject_Z scale == inject_Z k)%Q.
Proof. pose proof scale_Q. field. lra. Qed.

Lemma div_scale_le (a b : Z) :
  (inject_Z a / inject_Z scale <= inject_Z b / inject_Z scale)%Q <-> a <= b.
Proof.
  pose proof scale_Q as HS. rewrite Zle_Qle. split; intros H.
  - apply (Qmult_le_r _ _ (inject_Z scale)) in H; [|done]. by rewrite !units_scaled in H.
  - apply (Qmult_le_r _ _ (inject_Z scale)); [done|]. by rewrite !units_scaled.
Qed.

Lemma div_scale_lt (a b : Z) :
  (inject_Z a / inject_Z scale < inject_Z b / inject_Z scale)%Q <-> a < b.
Proof.
  pose proof scale_Q as HS. rewrite Zlt_Qlt. split; intros H.
  - apply (Qmult_lt_r _ _ (inject_Z scale)) in H; [|done]. by rewrite !units_scaled in H.
  - apply (Qmult_lt_r _ _ (inject_Z scale)); [done|]. by rewrite !units_scaled.
Qed.

Lemma R_comp (p q : Q) : (p == q)%Q -> (R p == R q)%Q.
Proof. intros E. unfold R. rewrite (rz_comp (p * inject_Z scale) (q * inject_Z scale)); [done|by rewrite E]. Qed.

#[export] Instance R_proper : Proper (Qeq ==> Qeq) R.
Proof. intros p q E. by apply R_comp. Qed.

Lemma R_mono (p q : Q) : (p <= q)%Q -> (R p <= R q)%Q.
Proof.
  intros Hle. unfold R. apply div_scale_le, rz_mono.
  apply Qmult_le_compat_r; [done|]. apply Qlt_le_weak, scale_Q.
Qed.

Lemma R_units (k : Z) : repz k -> (R (inject_Z k / inject_Z scale) == inject_Z k / inject_Z scale)%Q.
Proof.
  intros Hk. unfold R. rewrite (rz_comp _ (inject_Z k)) by apply units_scaled.
  by rewrite Hk.
Qed.

Lemma R_rep (q : Q) : rep q -> (R q == q)%Q.
Proof. intros (k & Hk & _ & E). rewrite E. by apply R_units. Qed.

Lemma R_between (q lo hi : Q) :
  rep lo -> rep hi -> (lo <= q <= hi)%Q -> (lo <= R q <= hi)%Q.
Proof.
  intros Hlo Hhi [H1 H2]. rewrite <- (R_rep lo Hlo), <- (R_rep hi Hhi).
  split; by apply R_mono.
Qed.

Lemma rep_proper (p q : Q) : (p == q)%Q -> rep p -> rep q.
Proof. intros E (k & Hk & Hb & Ek). exists k. split; [done|]. split; [done|]. by rewrite <- E. Qed.

Lemma rep_opp (q : Q) : rep q -> rep (- q).
Proof.
  intros (k & Hk & Hb & E). exists (- k). split; [by apply repz_opp|]. split; [lia|].
  rewrite E, inject_Z_opp. pose proof scale_Q. field. lra.
Qed.

(** [m / 2^j] with at most 53 bits of mantissa. *)
Lemma rep_dyadic (m j : Z) :
  Z.abs m <= 2 ^ 53 -> 0 <= j <= 1074 -> rep (inject_Z m / inject_Z (2 ^ j)).
Proof.
  intros Hm Hj. exists (m * 2 ^ (1074 - j)).
  split; [apply repz_repr; lia|]. split.
  - pose proof (pow2_pos (1074 - j) ltac:(lia)).
    pose proof (pow2_mono (1074 - j) 1074 ltac:(lia)).
    change (2 ^ 2098) with (2 ^ 53 * 2 ^ 1074 * 2 ^ 971). rewrite Z.abs_mul. 
    rewrite (Z.abs_eq (2 ^ _)) by lia. nia.
  - pose proof (inject_pos _ (pow2_pos j ltac:(lia))). pose proof scale_Q as HS.
    apply (Qmult_inj_r _ _ (inject_Z scale)); [lra|]. rewrite units_scaled.
    unfold scale in *. replace 1074 with (1074 - j + j) at 1 by lia.
    rewrite (Z.pow_add_r 2 (1074 - j)) by lia. rewrite !inject_Z_mult. field. lra.
Qed.

Lemma rep_int (m : Z) : Z.abs m <= 2 ^ 53 -> rep (inject_Z m).
Proof.
  intros Hm. eapply rep_proper; [|apply (rep_dyadic m 0 Hm); lia].
  change (inject_Z (2 ^ 0)) with 1%Q. field.
Qed.

Lemma rep_bound (q : Q) : rep q -> (Qabs q < inject_Z (2 ^ 1024))%Q.
Proof.
  intros (k & _ & Hb & E). rewrite E. pose proof scale_Q as HS.
  change (2 ^ 2098) with (2 ^ 1024 * scale) in Hb.
  apply Qabs_case; intros _.
  - apply Qlt_shift_div_r; [done|]. rewrite <- inject_Z_mult, <- Zlt_Qlt. lia.
  - assert (E' : (- (inject_Z k / inject_Z scale) == inject_Z (- k) / inject_Z scale)%Q)
      by (rewrite inject_Z_opp; field; lra).
    rewrite E'. apply Qlt_shift_div_r; [done|]. rewrite <- inject_Z_mult, <- Zlt_Qlt. lia.
Qed.

(** *** Values *)

Lemma valid_Prim2SF (x : float) : valid (Prim2SF x).
Proof. apply Prim2SF_valid. Qed.

Lemma fval_units (x : float) (c : Q) :
  fval x = Some c -> exists k, funits x = Some k /\ c = (inject_Z k / inject_Z scale)%Q.
Proof.
  unfold fval. destruct (funits x) as [k|]; [|done]. intros [= <-]. by exists k.
Qed.

Lemma val_units (x : float) (q : Q) :
  val x q -> exists k, funits x = Some k /\ (q == inject_Z k / inject_Z scale)%Q /\
                       repz k /\ Z.abs k < 2 ^ 2098.
Proof.
  intros (c & Hc & E). destruct (fval_units x c Hc) as (k & Hk & ->).
  exists k. split; [done|]. split; [by symmetry|].
  by apply (units_repz (Prim2SF x)); [apply valid_Prim2SF|].
Qed.

Lemma units_val (x : float) (k : Z) : funits x = Some k -> val x (inject_Z k / inject_Z scale).
Proof. intros Hk. exists (inject_Z k / inject_Z scale)%Q. unfold fval. by rewrite Hk. Qed.

Lemma val_proper (x : float) (p q : Q) : (p == q)%Q -> val x p -> val x q.
Proof. intros E (c & Hc & Ec). exists c. split; [done|]. by rewrite Ec. Qed.

Lemma val_unique (x : float) (p q : Q) : val x p -> val x q -> (p == q)%Q.
Proof. intros (c & Hc & Ec) (c' & Hc' & Ec'). rewrite Hc in Hc'. injection Hc' as <-. by rewrite <- Ec. Qed.

Lemma val_rep (x : float) (q : Q) : val x q -> rep q.
Proof. intros Hv. destruct (val_units x q Hv) as (k & _ & E & Hk & Hb). by exists k. Qed.

Lemma rep_units (q : Q) (k : Z) :
  rep q -> rz (q * inject_Z scale) = k -> (q == inject_Z k / inject_Z scale)%Q.
Proof.
  intros (k' & Hk' & _ & E) <-. rewrite E at 1.
  rewrite (rz_comp _ (inject_Z k')); [by rewrite Hk'|]. rewrite E. apply units_scaled.
Qed.

(** The result of an operation whose rounding is within given finite
    bounds. *)
Lemma rounded_units (e : Q) (lo hi : Q) :
  rep lo -> rep hi -> (lo <= e <= hi)%Q ->
  let K := rz (e * inject_Z scale) in
  Z.abs K < 2 ^ 2098 /\ (lo <= inject_Z K / inject_Z scale <= hi)%Q /\
  (inject_Z K / inject_Z scale == R e)%Q.
Proof.
  intros Hlo Hhi Hb K. pose proof (R_between e lo hi Hlo Hhi Hb) as HR.
  fold K in HR. change (inject_Z (rz (e * inject_Z scale)) / inject_Z scale)%Q with (R e).
  split; [|done].
  destruct Hlo as (kl & _ & Bl & El). destruct Hhi as (kh & _ & Bh & Eh).
  unfold R in HR. fold K in HR. rewrite El, Eh in HR. destruct HR as [H1 H2].
  apply (proj1 (div_scale_le _ _)) in H1. apply (proj1 (div_scale_le _ _)) in H2. lia.
Qed.

(** *** The operations *)

Section Operations.

Variables (x y : float) (a b : Q).

Hypothesis (Hx : val x a) (Hy : val y b).

Lemma fadd_val (lo hi : Q) :
  rep lo -> rep hi -> (lo <= a + b <= hi)%Q ->
  exists c, val (x + y)%float c /\ (lo <= c <= hi)%Q /\ (c == R (a + b))%Q.
Proof.
  intros Hlo Hhi Hb.
  destruct (val_units x a Hx) as (kx & Ux & Ea & _).
  destruct (val_units y b Hy) as (ky & Uy & Eb & _).
  destruct (rounded_units (a + b) lo hi Hlo Hhi Hb) as (HK & Hbd & ER).
  assert (EK : rz ((a + b) * inject_Z scale) = rz (inject_Z (kx + ky))).
  { apply rz_comp. rewrite Ea, Eb, inject_Z_plus. pose proof scale_Q. field. lra. }
  rewrite EK in HK, Hbd, ER.
  exists (inject_Z (rz (inject_Z (kx + ky))) / inject_Z scale)%Q.
  split; [|done]. apply units_val. unfold funits. rewrite FloatAxioms.add_spec.
  apply SFadd_units; try done; apply valid_Prim2SF.
Qed.

Lemma fsub_val (lo hi : Q) :
  rep lo -> rep hi -> (lo <= a - b <= hi)%Q ->
  exists c, val (x - y)%float c /\ (lo <= c <= hi)%Q /\ (c == R (a - b))%Q.
Proof.
  intros Hlo Hhi Hb.
  destruct (val_units x a Hx) as (kx & Ux & Ea & _).
  destruct (val_units y b Hy) as (ky & Uy & Eb & _).
  destruct (rounded_units (a - b) lo hi Hlo Hhi Hb) as (HK & Hbd & ER).
  assert (EK : rz ((a - b) * inject_Z scale) = rz (inject_Z (kx - ky))).
  { apply rz_comp. rewrite Ea, Eb. unfold Z.sub. rewrite inject_Z_plus, inject_Z_opp.
    pose proof scale_Q. field. lra. }
  rewrite EK in HK, Hbd, ER.
  exists (inject_Z (rz (inject_Z (kx - ky))) / inject_Z scale)%Q.
  split; [|done]. apply units_val. unfold funits. rewrite FloatAxioms.sub_spec.
  apply SFsub_units; try done; apply valid_Prim2SF.
Qed.

Lemma fmul_val (lo hi : Q) :
  rep lo -> rep hi -> (lo <= a * b <= hi)%Q ->
  exists c, val (x * y)%float c /\ (lo <= c <= hi)%Q /\ (c == R (a * b))%Q.
Proof.
  intros Hlo Hhi Hb.
  destruct (val_units x a Hx) as (kx & Ux & Ea & _).
  destruct (val_units y b Hy) as (ky & Uy & Eb & _).
  destruct (rounded_units (a * b) lo hi Hlo Hhi Hb) as (HK & Hbd & ER).
  assert (EK : rz (a * b * inject_Z scale) = rz (inject_Z (kx * ky) / inject_Z scale)).
  { apply rz_comp. rewrite Ea, Eb, inject_Z_mult. pose proof scale_Q. field. lra. }
  rewrite EK in HK, Hbd, ER.
  exists (inject_Z (rz (inject_Z (kx * ky) / inject_Z scale)) / inject_Z scale)%Q.
  split; [|done]. apply units_val. unfold funits. rewrite FloatAxioms.mul_spec.
  apply SFmul_units; try done; apply valid_Prim2SF.
Qed.

Lemma fdiv_val (lo hi : Q) :
  ~ (b == 0)%Q -> rep lo -> rep hi -> (lo <= a / b <= hi)%Q ->
  exists c, val (x / y)%float c /\ (lo <= c <= hi)%Q /\ (c == R (a / b))%Q.
Proof.
  intros Hnz Hlo Hhi Hb.
  destruct (val_units x a Hx) as (kx & Ux & Ea & _).
  destruct (val_units y b Hy) as (ky & Uy & Eb & _).
  destruct (rounded_units (a / b) lo hi Hlo Hhi Hb) as (HK & Hbd & ER).
  pose proof scale_Q as HS.
  assert (Hky : ky <> 0).
  { intros ->. apply Hnz. rewrite Eb. change (inject_Z 0) with 0%Q. field. lra. }
  assert (Hky' : ~ (inject_Z ky == 0)%Q).
  { intros E. apply Hky. apply inject_Z_injective. by rewrite E. }
  assert (EK : rz (a / b * inject_Z scale) = rz (inject_Z (kx * scale) / inject_Z ky)).
  { apply rz_comp. rewrite Ea, Eb, inject_Z_mult. field. split; [done|lra]. }
  rewrite EK in HK, Hbd, ER.
  exists (inject_Z (rz (inject_Z (kx * scale) / inject_Z ky)) / inject_Z scale)%Q.
  split; [|done]. apply units_val. unfold funits. rewrite FloatAxioms.div_spec.
  apply SFdiv_units; try done; apply valid_Prim2SF.
Qed.

Lemma fltb_val : (x <? y)%float = true <-> (a < b)%Q.
Proof.
  destruct (val_units x a Hx) as (kx & Ux & Ea & _).
  destruct (val_units y b Hy) as (ky & Uy & Eb & _).
  rewrite FloatAxioms.ltb_spec, (SFltb_units _ _ kx ky) by (done || apply valid_Prim2SF).
  rewrite Z.ltb_lt, Ea, Eb. symmetry. apply div_scale_lt.
Qed.

Lemma fleb_val : (x <=? y)%float = true <-> (a <= b)%Q.
Proof.
  destruct (val_units x a Hx) as (kx & Ux & Ea & _).
  destruct (val_units y b Hy) as (ky & Uy & Eb & _).
  rewrite FloatAxioms.leb_spec, (SFleb_units _ _ kx ky) by (done || apply valid_Prim2SF).
  rewrite Z.leb_le, Ea, Eb. symmetry. apply div_scale_le.
Qed.

End Operations.

Lemma fltb_false (x y : float) (a b : Q) :
  val x a -> val y b -> (x <? y)%float = false <-> (b <= a)%Q.
Proof.
  intros Hx Hy. pose proof (fltb_val x y a b Hx Hy) as H. split.
  - intros E. apply Qnot_lt_le. intros Hlt. apply H in Hlt. congruence.
  - intros Hle. destruct (x <? y)%float eqn:E; [|done].
    assert (a < b)%Q by (by apply H). lra.
Qed.

Lemma fleb_false (x y : float) (a b : Q) :
  val x a -> val y b -> (x <=? y)%float = false <-> (b < a)%Q.
Proof.
  intros Hx Hy. pose proof (fleb_val x y a b Hx Hy) as H. split.
  - intros E. apply Qnot_le_lt. intros Hle. apply H in Hle. congruence.
  - intros Hlt. destruct (x <=? y)%float eqn:E; [|done].
    assert (a <= b)%Q by (by apply H). lra.
Qed.

(** A float between two finite floats is finite. *)
Lemma val_between (lo x hi : float) (a b : Q) :
  val lo a -> val hi b -> (lo <=? x)%float = true -> (x <=? hi)%float = true ->
  exists q, val x q /\ (a <= q <= b)%Q.
Proof.
  intros Hlo Hhi H1 H2.
  assert (Hf : exists k, funits x = Some k).
  { destruct (val_units lo a Hlo) as (kl & Ul & _). destruct (val_units hi b Hhi) as (kh & Uh & _).
    rewrite FloatAxioms.leb_spec in H1, H2. unfold funits in *.
    destruct (Prim2SF x) as [s|s| |s m e]; [by eexists| | |by eexists].
    - exfalso. destruct s.
      + destruct (Prim2SF lo) as [| | |]; try done.
      + destruct (Prim2SF hi) as [| | |]; try done.
    - exfalso. by destruct (Prim2SF lo) as [| | |]. }
  destruct Hf as (k & Hk). pose proof (units_val x k Hk) as Hv.
  eexists. split; [exact Hv|]. split.
  - by apply (fleb_val lo x).
  - by apply (fleb_val x hi).
Qed.

(** *** nan *)

Lemma Prim2SF_nan (x : float) : PrimFloat.is_nan x = true <-> Prim2SF x = S754_nan.
Proof.
  unfold Prim2SF. destruct (PrimFloat.is_nan x); split; try done.
  destruct (PrimFloat.is_zero x); [done|]. destruct (PrimFloat.is_infinity x); [done|].
  destruct (Z.frexp x) as [r e]. destruct (shr_fexp _ _ _ _ _) as [mrs e'].
  by destruct (shr_m mrs).
Qed.

Lemma val_not_nan (x : float) (q : Q) : val x q -> PrimFloat.is_nan x = false.
Proof.
  intros Hv. destruct (val_units x q Hv) as (k & Hk & _). unfold funits in Hk.
  destruct (PrimFloat.is_nan x) eqn:E; [|done]. apply Prim2SF_nan in E. by rewrite E in Hk.
Qed.

Lemma nan_add_l (x y : float) : PrimFloat.is_nan x = true -> PrimFloat.is_nan (x + y)%float = true.
Proof. rewrite !Prim2SF_nan, FloatAxioms.add_spec. by intros ->. Qed.

Lemma nan_add_r (x y : float) : PrimFloat.is_nan y = true -> PrimFloat.is_nan (x + y)%float = true.
Proof. rewrite !Prim2SF_nan, FloatAxioms.add_spec. intros ->. by destruct (Prim2SF x). Qed.

Lemma nan_sub_l (x y : float) : PrimFloat.is_nan x = true -> PrimFloat.is_nan (x - y)%float = true.
Proof. rewrite !Prim2SF_nan, FloatAxioms.sub_spec. by intros ->. Qed.

Lemma nan_sub_r (x y : float) : PrimFloat.is_nan y = true -> PrimFloat.is_nan (x - y)%float = true.
Proof. rewrite !Prim2SF_nan, FloatAxioms.sub_spec. intros ->. by destruct (Prim2SF x). Qed.

Lemma nan_mul_l (x y : float) : PrimFloat.is_nan x = true -> PrimFloat.is_nan (x * y)%float = true.
Proof. rewrite !Prim2SF_nan, FloatAxioms.mul_spec. by intros ->. Qed.

Lemma nan_mul_r (x y : float) : PrimFloat.is_nan y = true -> PrimFloat.is_nan (x * y)%float = true.
Proof. rewrite !Prim2SF_nan, FloatAxioms.mul_spec. intros ->. by destruct (Prim2SF x). Qed.

Lemma nan_div_l (x y : float) : PrimFloat.is_nan x = true -> PrimFloat.is_nan (x / y)%float = true.
Proof. rewrite !Prim2SF_nan, FloatAxioms.div_spec. by intros ->. Qed.

Lemma nan_ltb (x y : float) : PrimFloat.is_nan x = true -> (x <? y)%float = false.
Proof. rewrite Prim2SF_nan, FloatAxioms.ltb_spec. by intros ->. Qed.

(** Zero divided by zero. *)
Lemma zero_div_zero (x y : float) : val x 0 -> val y 0 -> PrimFloat.is_nan (x / y)%float = true.
Proof.
  intros Hx Hy. rewrite Prim2SF_nan, FloatAxioms.div_spec.
  assert (Z : forall z, val z 0 -> exists s, Prim2SF z = S754_zero s).
  { intros z Hz. destruct (val_units z 0 Hz) as (k & Hk & E & _).
    assert (k = 0).
    { pose proof scale_Q. apply inject_Z_injective.
      apply (Qmult_inj_r _ _ (/ inject_Z scale)); [|rewrite <- E; ring].
      intros E'. assert (0 < / inject_Z scale)%Q by by apply Qinv_lt_0_compat. lra. }
    subst k. unfold funits in Hk. destruct (Prim2SF z) as [s| | |s m e] eqn:Ez; try done.
    - by exists s.
    - exfalso. pose proof (valid_Prim2SF z) as V. rewrite Ez in V.
      destruct (bounded_spec m e V) as (He & _).
      pose proof (pow2_pos (e + 1074) ltac:(lia)). simpl in Hk. destruct s; simpl in Hk; injection Hk; nia. }
  destruct (Z x Hx) as (sx & ->). destruct (Z y Hy) as (sy & ->). done.
Qed.

(** * The values of a run in binary64 *)

(** ** Constants *)

Lemma val_of_int (k : Z) : 0 <= k <= 2 ^ 53 -> val (of_int k) (inject_Z k).
Proof.
  intros Hk. cbn [of_int binary64]. unfold float_of_int.
  destruct (Z.ltb_spec k 0) as [|_]; [lia|].
  eapply val_proper; [|apply units_val].
  2:{ unfold funits. rewrite of_uint63_spec, Uint63.of_Z_spec.
      rewrite Z.mod_small by (change wB with (2 ^ 63); change (2 ^ 53) with 9007199254740992 in Hk;
                              change (2 ^ 63) with 9223372036854775808; lia).
      apply binary_normalize_correct; [lia|].
      rewrite Z.add_0_l, (rz_repz (k * 2 ^ 1074)) by (apply repz_repr; lia).
      change (2 ^ 2098) with (2 ^ 1024 * 2 ^ 1074). change (2 ^ 53) with 9007199254740992 in Hk.
      assert (0 < 2 ^ 1074) by done. assert (2 ^ 53 < 2 ^ 1024) by done.
      change (2 ^ 53) with 9007199254740992 in *. nia. }
  cbv zeta. rewrite Z.add_0_l, (rz_repz (k * 2 ^ 1074)) by (apply repz_repr; lia).
  rewrite inject_Z_mult. pose proof scale_Q. unfold scale in *. field. lra.
Qed.

Lemma fdiv_exact (x y : float) (a b q : Q) :
  val x a -> val y b -> ~ (b == 0)%Q -> rep q -> (a / b == q)%Q -> val (x / y)%float q.
Proof.
  intros Hx Hy Hb Hq E.
  destruct (fdiv_val x y a b Hx Hy q q Hb Hq Hq) as (c & Hc & Hbd & _); [lra|].
  eapply val_proper; [|exact Hc]. lra.
Qed.

Lemma rep_half : rep (1 # 2).
Proof. eapply rep_proper; [|apply (rep_dyadic 1 1)]; [done|simpl; lia|lia]. Qed.

Lemma val_half : val (lit 5 10) (1 # 2).
Proof.
  unfold lit. apply (fdiv_exact _ _ (inject_Z 5) (inject_Z 10)).
  - apply val_of_int. simpl. lia.
  - apply val_of_int. simpl. lia.
  - done.
  - apply rep_half.
  - done.
Qed.

Lemma rep_q (m j : Z) (q : Q) :
  Z.abs m <= 2 ^ 53 -> 0 <= j <= 1074 -> (q == inject_Z m / inject_Z (2 ^ j))%Q -> rep q.
Proof. intros Hm Hj E. eapply rep_proper; [symmetry; exact E|]. by apply rep_dyadic. Qed.

(** The roughness [0.6] and the sea level [0.4] of the constructor. *)
Lemma val_roughness : exists c, val (lit 6 10) c /\ ((1 # 2) <= c <= 5 # 8)%Q.
Proof.
  unfold lit.
  destruct (fdiv_val _ _ (inject_Z 6) (inject_Z 10) (val_of_int 6 ltac:(simpl; lia))
              (val_of_int 10 ltac:(simpl; lia)) (1 # 2) (5 # 8)) as (c & Hc & Hb & _).
  - done.
  - apply rep_half.
  - apply (rep_q 5 3); [simpl; lia|lia|done].
  - split; unfold Qle; simpl; lia.
  - by exists c.
Qed.

Lemma val_sea_level : exists c, val (lit 4 10) c /\ ((3 # 8) <= c <= 1 # 2)%Q.
Proof.
  unfold lit.
  destruct (fdiv_val _ _ (inject_Z 4) (inject_Z 10) (val_of_int 4 ltac:(simpl; lia))
              (val_of_int 10 ltac:(simpl; lia)) (3 # 8) (1 # 2)) as (c & Hc & Hb & _).
  - done.
  - apply (rep_q 3 3); [simpl; lia|lia|done].
  - apply rep_half.
  - split; unfold Qle; simpl; lia.
  - by exists c.
Qed.

Lemma val_0 : val (of_int 0) 0.
Proof. apply (val_of_int 0). simpl. lia. Qed.

Lemma val_1 : val (of_int 1) 1.
Proof. apply (val_of_int 1). simpl. lia. Qed.

Lemma rep_int_small (k : Z) : Z.abs k <= 2 ^ 53 -> rep (inject_Z k).
Proof. apply rep_int. Qed.

(** ** Draws *)

Lemma unit_draw_val (u : float) : unit_draw u -> exists q, val u q /\ (0 <= q < 1)%Q.
Proof.
  intros [H0 H1]. cbn [fle flt binary64] in H0, H1.
  assert (H1' : (u <=? of_int 1)%float = true).
  { rewrite FloatAxioms.leb_spec. rewrite FloatAxioms.ltb_spec in H1.
    unfold SFleb, SFltb in *. by destruct (SFcompare _ _) as [[]|]. }
  destruct (val_between _ u _ 0 1 val_0 val_1 H0 H1') as (q & Hq & Hb).
  exists q. split; [done|]. split; [lra|].
  by apply (fltb_val u (of_int 1) q 1 Hq val_1).
Qed.

(** ** [int(x)] *)

Lemma to_int_val (x : float) (q : Q) (lo hi : Z) :
  val x q -> 0 <= lo -> (inject_Z lo <= q <= inject_Z hi)%Q ->
  exists z, to_int x = inr z /\ lo <= z <= hi /\ z = Qfloor q.
Proof.
  intros Hv Hlo [H1 H2]. destruct (val_units x q Hv) as (k & Hk & E & _).
  pose proof scale_Q as HS.
  assert (Hq0 : (0 <= q)%Q).
  { apply Qle_trans with (inject_Z lo); [|done]. by apply inject_nonneg. }
  assert (Hk0 : 0 <= k).
  { rewrite E in Hq0. apply (Qmult_le_r _ _ (inject_Z scale)) in Hq0; [|done].
    rewrite units_scaled, Qmult_0_l in Hq0. change 0%Q with (inject_Z 0) in Hq0.
    by rewrite <- Zle_Qle in Hq0. }
  assert (Efl : Qfloor q = k / scale).
  { rewrite (Qfloor_comp _ _ E). symmetry. apply Zdiv_Qdiv. }
  assert (Hz : lo <= Qfloor q <= hi).
  { split.
    - rewrite <- (Qfloor_Z lo). by apply Qfloor_resp_le.
    - rewrite <- (Qfloor_Z hi). by apply Qfloor_resp_le. }
  exists (Qfloor q). split; [|done].
  cbn [to_int binary64]. unfold float_to_int. unfold funits in Hk.
  pose proof (valid_Prim2SF x) as V.
  destruct (Prim2SF x) as [s|s| |s m e]; try done.
  - injection Hk as <-. rewrite Efl. done.
  - injection Hk as <-. destruct (bounded_spec m e V) as (He & _).
    pose proof (pow2_pos (e + 1074) ltac:(lia)) as HP.
    destruct s; [cbn [cond_Zopp] in Hk0; nia|]. cbn [cond_Zopp] in Efl.
    rewrite Efl. f_equal. unfold scale.
    destruct (Z.leb_spec 0 e) as [Hp|Hn].
    + rewrite Z.pow_add_r, Z.mul_assoc, Z.div_mul by lia. done.
    + replace 1074 with (e + 1074 + - e) at 2 by lia.
      rewrite (Z.pow_add_r 2 (e + 1074)) by lia.
      rewrite (Z.mul_comm (2 ^ (e + 1074))), Z.div_mul_cancel_r; [done| |lia].
      pose proof (pow2_pos (- e) ltac:(lia)). lia.
Qed.

Lemma dyq_rep (m : Z) : Z.abs m <= 2 ^ 53 -> rep (dyq m).
Proof. intros Hm. apply (rep_dyadic m 49); [done|lia]. Qed.

Lemma dyq_mul (k m : Z) : (inject_Z k * dyq m == dyq (k * m))%Q.
Proof. unfold dyq. rewrite inject_Z_mult. field. done. Qed.

Lemma dyq_add (a b : Z) : (dyq a + dyq b == dyq (a + b))%Q.
Proof. unfold dyq. rewrite inject_Z_plus. field. done. Qed.

Lemma dyq_sub (a b : Z) : (dyq a - dyq b == dyq (a - b))%Q.
Proof.
  unfold dyq, Z.sub. rewrite inject_Z_plus, inject_Z_opp. field. done.
Qed.

Lemma dyq_opp (a : Z) : (- dyq a == dyq (- a))%Q.
Proof. unfold dyq. rewrite inject_Z_opp. field. done. Qed.

Lemma dyq_le (a b : Z) : a <= b -> (dyq a <= dyq b)%Q.
Proof.
  intros Hab. unfold dyq. apply Qmult_le_compat_r; [by rewrite <- Zle_Qle|].
  apply Qinv_le_0_compat. done.
Qed.

Lemma dyq_summable (m : Z) : Z.abs m <= 2 ^ 51 -> summable (dyq m).
Proof.
  intros Hm k Hk. eapply rep_proper; [symmetry; apply dyq_mul|].
  apply dyq_rep. change (2 ^ 53) with (4 * 2 ^ 51). nia.
Qed.

Lemma between_widen_1 (lo hi lo' hi' : Q) (x : float) :
  (lo' <= lo)%Q -> (hi <= hi')%Q -> between lo hi x -> between lo' hi' x.
Proof. intros Hlo Hhi (q & Hq & Hb). exists q. split; [done|lra]. Qed.

Lemma between_widen (lo hi lo' hi' : Q) (a : grid float) :
  (lo' <= lo)%Q -> (hi <= hi')%Q ->
  Forall (Forall (between lo hi)) a -> Forall (Forall (between lo' hi')) a.
Proof.
  intros Hlo Hhi Ha. eapply Forall_impl; [exact Ha|]. intros row Hrow.
  eapply Forall_impl; [exact Hrow|]. intros x. by apply between_widen_1.
Qed.

Lemma unit_draw_between (u : float) : unit_draw u -> between 0 1 u.
Proof. intros Hu. destruct (unit_draw_val u Hu) as (q & Hq & Hb). exists q. split; [done|lra]. Qed.

(** ** Offsets *)

Lemma offset_val (u r : float) (rho h d : Q) :
  unit_draw u -> val r rho -> (0 <= rho)%Q ->
  rep h -> rep d -> (rho * (1 # 2) <= h)%Q -> (h * (5 # 8) <= d)%Q ->
  between (- d) d (random_offset u r (lit 6 10)).
Proof.
  intros Hu Hr Hrho Hh Hd Hhr Hdh.
  destruct (unit_draw_val u Hu) as (q & Hq & Hq01).
  destruct val_roughness as (c06 & Hc & Hc06).
  unfold random_offset.
  destruct (fsub_val u (lit 5 10) q (1 # 2) Hq val_half (- (1 # 2)) (1 # 2))
    as (c1 & H1 & B1 & _); [apply rep_opp, rep_half|apply rep_half|lra|].
  destruct (fmul_val _ r c1 rho H1 Hr (- h) h) as (c2 & H2 & B2 & _);
    [by apply rep_opp|done|split; nra|].
  destruct (fmul_val _ (lit 6 10) c2 c06 H2 Hc (- d) d) as (c3 & H3 & B3 & _);
    [by apply rep_opp|done|split; nra|].
  by exists c3.
Qed.

(** ** Sums and means *)

Lemma add_between (x y : float) (lo1 hi1 lo2 hi2 : Q) :
  between lo1 hi1 x -> between lo2 hi2 y -> rep (lo1 + lo2) -> rep (hi1 + hi2) ->
  between (lo1 + lo2) (hi1 + hi2) (x + y)%num.
Proof.
  intros (a & Ha & Ba) (b & Hb & Bb) Hlo Hhi.
  destruct (fadd_val x y a b Ha Hb _ _ Hlo Hhi) as (c & Hc & Bc & _); [lra|].
  by exists c.
Qed.

Lemma summable_rep (q : Q) : summable q -> rep q.
Proof. intros Hs. eapply rep_proper; [|apply (Hs 1); lia]. change (inject_Z 1) with 1%Q. ring. Qed.

Lemma acc_between (acc v : float) (k : Z) (lo hi : Q) :
  summable lo -> summable hi -> 0 <= k <= 3 ->
  between (inject_Z k * lo) (inject_Z k * hi) acc -> between lo hi v ->
  between (inject_Z (k + 1) * lo) (inject_Z (k + 1) * hi) (acc + v)%num.
Proof.
  intros Hlo Hhi Hk Ha Hv.
  eapply between_widen_1; [| |apply (add_between acc v _ _ _ _ Ha Hv)].
  - rewrite inject_Z_plus. change (inject_Z 1) with 1%Q. lra.
  - rewrite inject_Z_plus. change (inject_Z 1) with 1%Q. lra.
  - eapply rep_proper; [|apply (Hlo (k + 1)); lia].
    rewrite inject_Z_plus. change (inject_Z 1) with 1%Q. ring.
  - eapply rep_proper; [|apply (Hhi (k + 1)); lia].
    rewrite inject_Z_plus. change (inject_Z 1) with 1%Q. ring.
Qed.

Lemma mean_between (acc : float) (k : Z) (lo hi : Q) :
  summable lo -> summable hi -> 1 <= k <= 4 ->
  between (inject_Z k * lo) (inject_Z k * hi) acc ->
  between lo hi (acc / of_int k)%num.
Proof.
  intros Hlo Hhi Hk (a & Ha & Ba).
  assert (Hk0 : (0 < inject_Z k)%Q) by (apply inject_pos; lia).
  destruct (fdiv_val acc (of_int k) a (inject_Z k) Ha (val_of_int k ltac:(simpl; lia)) lo hi)
    as (c & Hc & Bc & _).
  - lra.
  - by apply summable_rep.
  - by apply summable_rep.
  - split; [apply Qle_shift_div_l|apply Qle_shift_div_r]; try done; lra.
  - by exists c.
Qed.

Lemma mean4_between (a b c d : float) (lo hi : Q) :
  summable lo -> summable hi ->
  between lo hi a -> between lo hi b -> between lo hi c -> between lo hi d ->
  between lo hi ((a + b + c + d) / of_int 4)%num.
Proof.
  intros Hlo Hhi Ha Hb Hc Hd.
  apply (mean_between _ 4); [done|done|lia|].
  apply (acc_between _ d 3); [done|done|lia| |done].
  apply (acc_between _ c 2); [done|done|lia| |done].
  apply (acc_between _ b 1); [done|done|lia| |done].
  eapply between_widen_1; [| |exact Ha]; change (inject_Z 1) with 1%Q; lra.
Qed.

(** ** Bounds on the raw elevations *)

Lemma all_boxed (N : nat) (C : Z -> Z -> Prop) (lo hi d : Q) (a : grid float) :
  shaped N a -> (0 <= d)%Q -> Forall (Forall (between lo hi)) a -> boxed N C lo hi d a.
Proof.
  intros Hsh Hd Ha y x Hy Hx.
  destruct (cell_shaped N a (Z.to_nat y) (Z.to_nat x) Hsh) as [v Hv]; [lia..|].
  pose proof (cell_all _ _ _ _ _ Ha Hv) as Hb.
  exists v. split; [done|]. split; [|done].
  eapply between_widen_1; [| |exact Hb]; lra.
Qed.

Lemma boxed_all (N : nat) (C : Z -> Z -> Prop) (lo hi d : Q) (a : grid float) :
  shaped N a -> boxed N C lo hi d a -> Forall (Forall (between (lo - d) (hi + d))) a.
Proof.
  intros [Hl Hr] Hb. apply Forall_lookup_2. intros r row Hrow.
  apply Forall_lookup_2. intros c v Hv.
  pose proof (lookup_lt_Some _ _ _ Hrow) as Hlr.
  pose proof (Forall_lookup_1 _ _ _ _ Hr Hrow) as Hlen. simpl in Hlen.
  pose proof (lookup_lt_Some _ _ _ Hv) as Hlc.
  destruct (Hb (Z.of_nat r) (Z.of_nat c)) as (v' & Hq & Hbd & _); [lia..|].
  rewrite !Nat2Z.id in Hq. unfold cell in Hq. rewrite Hrow, Hv in Hq.
  injection Hq as ->. done.
Qed.

Lemma drawing_next (N : nat) (w w' : World float) :
  drawing N w -> engine_ok N w' -> tape (random w') = tape (random w) -> drawing N w'.
Proof. intros [_ Ht] Hw' E. split; [done|]. intros i. rewrite E. apply Ht. Qed.

Lemma drawing_record (N : nat) (e : event) (w : World float) :
  drawing N w -> drawing N (record e w).
Proof. intros [Hok Ht]. split; [by apply engine_ok_record|done]. Qed.

(** *** The diamond step *)

Lemma diamond_point_keeps (N : nat) (s h : Z) (r : float) (lo hi d : Q) (y x : Z)
    (w : World float) :
  drawing N w -> boxed N (off_lattice s) lo hi d (self_heightmap (self w)) ->
  0 <= y -> y + s <= Z.of_nat N - 1 -> 0 <= x -> x + s <= Z.of_nat N - 1 ->
  1 <= h < s -> (s | y) -> (s | x) ->
  offsets_within r d -> summable lo -> summable hi -> rep (lo - d) -> rep (hi + d) ->
  exists w',
    diamond_point s h r y x w = Ok tt w' /\ drawing N w' /\
    boxed N (off_lattice s) lo hi d (self_heightmap (self w')).
Proof.
  intros Hw Hb Hy Hys Hx Hxs Hh Hdy Hdx Hoff Hlo Hhi Hrl Hrh.
  assert (Hon : forall v, (s | v) -> (s | v + s)).
  { intros v [k ->]. exists (k + 1). lia. }
  assert (Hread : forall y' x', 0 <= y' < Z.of_nat N -> 0 <= x' < Z.of_nat N ->
            (s | y') -> (s | x') ->
            exists v, cell (self_heightmap (self w)) (Z.to_nat y') (Z.to_nat x') = Some v /\
                      between lo hi v).
  { intros y' x' Hy' Hx' D1 D2. destruct (Hb y' x' Hy' Hx') as (v & Hv & _ & Hin).
    exists v. split; [done|]. apply Hin. intros Hoff'. by apply Hoff'. }
  destruct (Hread y x) as (qa & Ha & Ba); [lia..|done|done|].
  destruct (Hread (y + s) x) as (qb & Hqb & Bb); [lia..|auto|done|].
  destruct (Hread y (x + s)) as (qc & Hqc & Bc); [lia..|done|auto|].
  destruct (Hread (y + s) (x + s)) as (qd & Hqd & Bd); [lia..|auto|auto|].
  destruct Hw as [Hok Ht].
  destruct (diamond_point_value N s h r y x w _ _ _ _ Hok Hy Hys Hx Hxs Hh
              Ha Hqb Hqc Hqd) as (w' & E & Hok' & Erand & Frame & Hval).
  exists w'. split; [done|].
  split; [apply (drawing_next N w); [done..|by rewrite Erand]|].
  pose proof (Hoff _ (Ht (pos (random w)))) as Ho.
  pose proof (mean4_between _ _ _ _ lo hi Hlo Hhi Ba Bb Bc Bd) as Hm.
  intros y' x' Hy' Hx'.
  destruct (decide (y' = y + h /\ x' = x + h)) as [[-> ->]|Hne].
  - eexists. split; [exact Hval|]. split.
    + eapply between_widen_1; [| |apply (add_between _ _ _ _ _ _ Hm Ho)].
      * lra.
      * lra.
      * eapply rep_proper; [|exact Hrl]. ring.
      * done.
    + intros Hn. exfalso. apply Hn. intros [[k Hk] _].
      destruct Hdy as [p Hp]. assert (h = (k - p) * s) by lia.
      assert (0 < k - p) by nia. nia.
  - rewrite Frame by lia. apply Hb; lia.
Qed.

Lemma diamond_step_keeps (N : nat) (s h : Z) (r : float) (lo hi d : Q) (w : World float) :
  drawing N w -> Forall (Forall (between lo hi)) (self_heightmap (self w)) ->
  (s | Z.of_nat N - 1) -> 1 <= h < s ->
  (0 <= d)%Q -> offsets_within r d -> summable lo -> summable hi ->
  rep (lo - d) -> rep (hi + d) ->
  exists w',
    diamond_step s h r w = Ok tt w' /\ drawing N w' /\
    Forall (Forall (between (lo - d) (hi + d))) (self_heightmap (self w')).
Proof.
  intros Hw Ha Hd Hh Hd0 Hoff Hlo Hhi Hrl Hrh.
  set (I := fun w : World float =>
              drawing N w /\
              boxed N (off_lattice s) lo hi d (self_heightmap (self w))).
  assert (HI : I w).
  { split; [done|]. apply all_boxed; [apply Hw|lra|done]. }
  unfold diamond_step, bind at 1, get_self. rewrite (inv_size _ _ _ (proj1 Hw)).
  destruct (for_keeps I (range 0 (Z.of_nat N - 1) s)
              (fun y => for_ (range 0 (Z.of_nat N - 1) s)
                          (fun x => diamond_point s h r y x))) with (w := w)
    as (w' & E & [Hw' Hb']); [|done|].
  - intros y w1 Hy I1. apply range_spec in Hy; [|lia].
    apply (for_keeps I); [|done].
    intros x w2 Hx [D2 B2]. apply range_spec in Hx; [|lia].
    rewrite Z.sub_0_r in Hy, Hx. destruct Hy as [Hy Hdy], Hx as [Hx Hdx].
    apply diamond_point_keeps; try done; try lia;
      apply lattice_next; auto; lia.
  - exists w'. split; [done|]. split; [done|].
    apply (boxed_all N (off_lattice s)); [apply Hw'|done].
Qed.

(** *** The square step *)

Lemma add_neighbor_sum (N : nat) (w : World float) (lo hi : Q) (b : bool) (i j : Z)
    (acc : float) (k : Z) :
  shaped N (self_heightmap (self w)) -> summable lo -> summable hi -> 0 <= k <= 3 ->
  (b = true -> 0 <= i < Z.of_nat N /\ 0 <= j < Z.of_nat N /\
     exists v, cell (self_heightmap (self w)) (Z.to_nat i) (Z.to_nat j) = Some v /\
               between lo hi v) ->
  between (inject_Z k * lo) (inject_Z k * hi) acc ->
  reads w (add_neighbor b i j (acc, k))
    (fun acc' => snd acc' = k + (if b then 1 else 0) /\
       between (inject_Z (snd acc') * lo) (inject_Z (snd acc') * hi) (fst acc')).
Proof.
  intros Hsh Hlo Hhi Hk Hb Hs. unfold add_neighbor. destruct b.
  - destruct Hb as (Hi & Hj & q & Hq & Hbd); [done|].
    destruct (getitem_at N w i j Hsh Hi Hj) as (v & Hv & Eg).
    rewrite Hq in Hv. injection Hv as <-.
    exists ((acc + q)%num, k + 1). unfold bind. rewrite Eg. split; [done|].
    split; [done|]. cbn [fst snd]. by apply acc_between.
  - exists (acc, k). split; [done|]. cbn [fst snd]. rewrite Z.add_0_r. done.
Qed.

Lemma square_neighbors_sum (N : nat) (s h : Z) (lo hi d : Q) (y x : Z) (w : World float) :
  engine_ok N w -> boxed N (mixed s h) lo hi d (self_heightmap (self w)) ->
  summable lo -> summable hi ->
  1 <= h -> s = 2 * h -> 2 * h < Z.of_nat N ->
  0 <= y < Z.of_nat N -> 0 <= x < Z.of_nat N -> mixed s h y x ->
  exists acc,
    square_neighbors h y x w = Ok acc w /\ 1 <= snd acc <= 4 /\
    between (inject_Z (snd acc) * lo) (inject_Z (snd acc) * hi) (fst acc).
Proof.
  intros Hw Hb Hlo Hhi Hh Hs H2 Hy Hx Hm.
  pose proof (inv_shape _ _ _ Hw) as Hsh.
  assert (Hread : forall y' x', 0 <= y' < Z.of_nat N -> 0 <= x' < Z.of_nat N ->
            ~ mixed s h y' x' ->
            0 <= y' < Z.of_nat N /\ 0 <= x' < Z.of_nat N /\
            exists v, cell (self_heightmap (self w)) (Z.to_nat y') (Z.to_nat x') = Some v /\
                      between lo hi v).
  { intros y' x' Hy' Hx' Hn. split; [done|]. split; [done|].
    destruct (Hb y' x' Hy' Hx') as (q & Hq & _ & Hin). exists q. auto. }
  assert (Hnm : forall e, (e = h \/ e = - h) -> ~ (s | x - y - h + e)).
  { intros e He [k Hk]. destruct Hm as [p Hp]. subst s.
    destruct He as [->| ->].
    - assert (E : h * 1 = h * (2 * (k - p))) by lia.
      apply Z.mul_reg_l in E; lia.
    - assert (E : h * 1 = h * (2 * (p - k))) by lia.
      apply Z.mul_reg_l in E; lia. }
  pose proof (neighbor_count_pos (Z.of_nat N) h y x ltac:(lia) H2) as Hc.
  unfold neighbor_count in Hc.
  unfold square_neighbors, bind at 1, get_self. rewrite (inv_size _ _ _ Hw).
  destruct (add_neighbor_sum N w lo hi (y >=? h) (y - h) x (of_int 0) 0 Hsh Hlo Hhi)
    as ([a1 k1] & E1 & K1 & B1); [lia| | |].
  { intros Hc'. apply Z.geb_le in Hc'. apply Hread; [lia..|].
    unfold mixed. replace (x - (y - h) - h) with (x - y - h + h) by lia. auto. }
  { exists 0%Q. split; [apply val_0|]. change (inject_Z 0) with 0%Q. lra. }
  unfold bind at 1. rewrite E1. cbn [fst snd] in K1, B1.
  destruct (add_neighbor_sum N w lo hi (y + h <? Z.of_nat N) (y + h) x a1 k1 Hsh Hlo Hhi)
    as ([a2 k2] & E2 & K2 & B2); [destruct (y >=? h); lia| |exact B1|].
  { intros Hc'. apply Z.ltb_lt in Hc'. apply Hread; [lia..|].
    unfold mixed. replace (x - (y + h) - h) with (x - y - h + - h) by lia. auto. }
  unfold bind at 1. rewrite E2. cbn [fst snd] in K2, B2.
  destruct (add_neighbor_sum N w lo hi (x >=? h) y (x - h) a2 k2 Hsh Hlo Hhi)
    as ([a3 k3] & E3 & K3 & B3);
    [destruct (y >=? h), (y + h <? Z.of_nat N); lia| |exact B2|].
  { intros Hc'. apply Z.geb_le in Hc'. apply Hread; [lia..|].
    unfold mixed. replace (x - h - y - h) with (x - y - h + - h) by lia. auto. }
  unfold bind at 1. rewrite E3. cbn [fst snd] in K3, B3.
  destruct (add_neighbor_sum N w lo hi (x + h <? Z.of_nat N) y (x + h) a3 k3 Hsh Hlo Hhi)
    as ([a4 k4] & E4 & K4 & B4);
    [destruct (y >=? h), (y + h <? Z.of_nat N), (x >=? h); lia| |exact B3|].
  { intros Hc'. apply Z.ltb_lt in Hc'. apply Hread; [lia..|].
    unfold mixed. replace (x + h - y - h) with (x - y - h + h) by lia. auto. }
  unfold bind. rewrite E4. cbn [fst snd] in K4, B4.
  exists (a4, k4). split; [done|]. cbn [fst snd]. split; [|done].
  destruct (y >=? h), (y + h <? Z.of_nat N), (x >=? h), (x + h <? Z.of_nat N); lia.
Qed.

Lemma square_point_keeps (N : nat) (s h : Z) (r : float) (lo hi d : Q) (y x : Z)
    (w : World float) :
  drawing N w -> boxed N (mixed s h) lo hi d (self_heightmap (self w)) ->
  1 <= h -> s = 2 * h -> 2 * h < Z.of_nat N ->
  0 <= y < Z.of_nat N -> 0 <= x < Z.of_nat N -> mixed s h y x ->
  offsets_within r d -> summable lo -> summable hi -> rep (lo - d) -> rep (hi + d) ->
  exists w',
    square_point h r y x w = Ok tt w' /\ drawing N w' /\
    boxed N (mixed s h) lo hi d (self_heightmap (self w')).
Proof.
  intros [Hok Ht] Hb Hh Hs H2 Hy Hx Hm Hoff Hlo Hhi Hrl Hrh.
  destruct (square_neighbors_sum N s h lo hi d y x w Hok Hb Hlo Hhi Hh Hs H2 Hy Hx Hm)
    as ([a k] & En & Hk & Bs). cbn [fst snd] in Hk, Bs.
  pose proof Hok as [Hsz Hsh Hg Hr Hsl _].
  rewrite (square_point_run N h r y x w (a, k) Hok Hy Hx En) by (cbn [snd]; lia).
  eexists. split; [reflexivity|]. cbn [self random record with_heightmap advance tape
    self_heightmap fst snd].
  split.
  { split; [|done].
    constructor; simpl; auto using grid_set_shaped; try (by apply grid_set_all); by intros. }
  pose proof (Hoff _ (Ht (pos (random w)))) as Ho.
  pose proof (mean_between a k lo hi Hlo Hhi Hk Bs) as Hmean.
  intros y' x' Hy' Hx'.
  destruct (decide (y' = y /\ x' = x)) as [[-> ->]|Hne].
  - rewrite (cell_grid_set_eq N) by (done || lia).
    eexists. split; [reflexivity|]. split.
    + eapply between_widen_1; [| |apply (add_between _ _ _ _ _ _ Hmean Ho)].
      * lra.
      * lra.
      * eapply rep_proper; [|exact Hrl]. ring.
      * done.
    + intros Hn. by exfalso.
  - rewrite cell_grid_set_ne by lia. apply Hb; lia.
Qed.

Lemma square_step_keeps (N : nat) (s h : Z) (r : float) (lo hi d : Q) (w : World float) :
  drawing N w -> Forall (Forall (between lo hi)) (self_heightmap (self w)) ->
  1 <= h -> s = 2 * h -> 2 * h < Z.of_nat N ->
  (0 <= d)%Q -> offsets_within r d -> summable lo -> summable hi ->
  rep (lo - d) -> rep (hi + d) ->
  exists w',
    square_step s h r w = Ok tt w' /\ drawing N w' /\
    Forall (Forall (between (lo - d) (hi + d))) (self_heightmap (self w')).
Proof.
  intros Hw Ha Hh Hs H2 Hd0 Hoff Hlo Hhi Hrl Hrh.
  set (I := fun w : World float =>
              drawing N w /\
              boxed N (mixed s h) lo hi d (self_heightmap (self w))).
  assert (HI : I w).
  { split; [done|]. apply all_boxed; [apply Hw|lra|done]. }
  unfold square_step, bind at 1, get_self. rewrite (inv_size _ _ _ (proj1 Hw)).
  destruct (for_keeps I (range 0 (Z.of_nat N) h)
              (fun y => for_ (range ((y + h) mod s) (Z.of_nat N) s)
                          (fun x => square_point h r y x))) with (w := w)
    as (w' & E & [Hw' Hb']); [|done|].
  - intros y w1 Hy I1. apply (for_keeps I); [|done].
    intros x w2 Hx [D2 B2].
    destruct (square_visit_lattice (Z.of_nat N) s h y x Hh Hs (conj Hy Hx))
      as (Hyr & Hxr & _ & _ & Hmx).
    by apply (square_point_keeps N s h).
  - exists w'. split; [done|]. split; [done|].
    apply (boxed_all N (mixed s h)); [apply Hw'|done].
Qed.

(** *** The passes *)

Lemma offsets_dyq (r : float) (e : Z) :
  0 <= e -> 16 * e <= 2 ^ 53 -> val r (dyq (16 * e)) -> offsets_within r (dyq (5 * e)).
Proof.
  intros He Hb Hr u Hu.
  apply (offset_val u r (dyq (16 * e)) (dyq (8 * e)) (dyq (5 * e))); try done.
  - rewrite <- (dyq_mul 16 e). pose proof (dyq_le 0 e He) as H0.
    change (dyq 0) with (0 / inject_Z (2 ^ 49))%Q in H0.
    assert (0 <= dyq e)%Q by (unfold Qdiv in H0; rewrite Qmult_0_l in H0; done).
    change (inject_Z 16) with 16%Q. lra.
  - apply dyq_rep. lia.
  - apply dyq_rep. lia.
  - rewrite <- (dyq_mul 16 e), <- (dyq_mul 8 e).
    change (inject_Z 16) with 16%Q. change (inject_Z 8) with 8%Q. lra.
  - rewrite <- (dyq_mul 5 e), <- (dyq_mul 8 e).
    change (inject_Z 5) with 5%Q. change (inject_Z 8) with 8%Q. lra.
Qed.

Lemma dyq_nonneg (e : Z) : 0 <= e -> (0 <= dyq e)%Q.
Proof.
  intros He. pose proof (dyq_le 0 e He) as H0.
  change (dyq 0) with (0 / inject_Z (2 ^ 49))%Q in H0.
  unfold Qdiv in H0. by rewrite Qmult_0_l in H0.
Qed.

Lemma between_dyq (lo hi lo' hi' : Q) (a : grid float) :
  (lo' == lo)%Q -> (hi == hi')%Q ->
  Forall (Forall (between lo hi)) a -> Forall (Forall (between lo' hi')) a.
Proof. intros Hlo Hhi. apply between_widen; lra. Qed.

Lemma halve_range (r : float) (e : Z) :
  Z.abs (16 * e) <= 2 ^ 53 -> val r (dyq (16 * (2 * e))) -> val (r * lit 5 10)%num (dyq (16 * e)).
Proof.
  intros Hb Hr.
  destruct (fmul_val r (lit 5 10) _ _ Hr val_half (dyq (16 * e)) (dyq (16 * e)))
    as (c & Hc & Bc & _).
  - by apply dyq_rep.
  - by apply dyq_rep.
  - rewrite <- (dyq_mul 16 (2 * e)), <- (dyq_mul 2 e), <- (dyq_mul 16 e).
    change (inject_Z 16) with 16%Q. change (inject_Z 2) with 2%Q. lra.
  - eapply val_proper; [|exact Hc]. lra.
Qed.

(** Each pass widens the range of the elevations by at most [5/8] of
    [range_size] (the two offsets of a pass are each at most
    [0.5 * range_size * 0.6], rounded), and [range_size] halves exactly from
    pass to pass: at most [5/4] of the first range in all.  The bounds are
    multiples of [2^-49], so that no rounding leaves them. *)
Lemma main_loop_keeps (N n : nat) :
  Z.of_nat N = 2 ^ Z.of_nat n + 1 ->
  forall (j fuel k : nat) (r : float) (ml mh : Z) (w : World float),
    (j <= n)%nat -> (j <= fuel)%nat -> (j <= k)%nat ->
    val r (dyq (16 * 2 ^ Z.of_nat k)) ->
    Z.abs ml + 20 * 2 ^ Z.of_nat k <= 2 ^ 51 ->
    Z.abs mh + 20 * 2 ^ Z.of_nat k <= 2 ^ 51 ->
    drawing N w -> Forall (Forall (between (dyq ml) (dyq mh))) (self_heightmap (self w)) ->
    exists w',
      main_loop fuel (2 ^ Z.of_nat j) r w = Ok tt w' /\ drawing N w' /\
      Forall (Forall (between (dyq (ml - 20 * 2 ^ Z.of_nat k)) (dyq (mh + 20 * 2 ^ Z.of_nat k))))
        (self_heightmap (self w')).
Proof.
  intros HN. induction j as [|j IH]; intros fuel k r ml mh w Hj Hf Hk Hr Hml Hmh Hw Ha.
  - exists w. rewrite main_loop_stop by (simpl; lia). split; [done|]. split; [done|].
    pose proof (pow2_pos (Z.of_nat k) ltac:(lia)).
    apply (between_widen (dyq ml) (dyq mh)); [apply dyq_le; lia..|done].
  - destruct fuel as [|fuel]; [lia|]. destruct k as [|k]; [lia|].
    destruct (pow2_half j) as (Es & Hh & Ehalf).
    destruct (pow2_half k) as (Ek & Hk1 & _).
    assert (Hdiv : (2 ^ Z.of_nat (S j) | Z.of_nat N - 1)).
    { exists (2 ^ (Z.of_nat n - Z.of_nat (S j))).
      replace (Z.of_nat N - 1) with (2 ^ Z.of_nat n) by lia.
      rewrite <- Z.pow_add_r by lia. f_equal. lia. }
    assert (Hle : 2 ^ Z.of_nat (S j) <= Z.of_nat N - 1).
    { apply Z.divide_pos_le; [|done].
      assert (0 < 2 ^ Z.of_nat n) by (apply Z.pow_pos_nonneg; lia). lia. }
    rewrite main_loop_pass by lia. rewrite Ehalf.
    set (s := 2 ^ Z.of_nat (S j)) in *. set (h := 2 ^ Z.of_nat j) in *.
    set (e := 2 ^ Z.of_nat (S k)) in *. set (e' := 2 ^ Z.of_nat k) in *.
    change (2 ^ 51) with 2251799813685248 in *.
    assert (Hoff : offsets_within r (dyq (5 * e))).
    { apply offsets_dyq; [lia| |done]. change (2 ^ 53) with 9007199254740992. lia. }
    assert (Hsum : forall m, Z.abs m <= 2251799813685248 -> summable (dyq m)).
    { intros m Hm. by apply dyq_summable. }
    assert (Hrep : forall m, Z.abs m <= 2251799813685248 -> rep (dyq m)).
    { intros m Hm. apply dyq_rep. change (2 ^ 53) with 9007199254740992. lia. }
    destruct (diamond_step_keeps N s h r (dyq ml) (dyq mh) (dyq (5 * e)) (record (EvPass s) w))
      as (w2 & E2 & D2 & B2); try done.
    { by apply drawing_record. }
    { lia. }
    { apply dyq_nonneg. lia. }
    { apply Hsum. lia. }
    { apply Hsum. lia. }
    { eapply rep_proper; [symmetry; apply dyq_sub|]. apply Hrep. lia. }
    { eapply rep_proper; [symmetry; apply dyq_add|]. apply Hrep. lia. }
    rewrite E2.
    apply (between_dyq _ _ (dyq (ml - 5 * e)) (dyq (mh + 5 * e))) in B2;
      [|symmetry; apply dyq_sub|apply dyq_add].
    destruct (square_step_keeps N s h r (dyq (ml - 5 * e)) (dyq (mh + 5 * e)) (dyq (5 * e))
                w2 D2 B2) as (w3 & E3 & D3 & B3); try done.
    { lia. }
    { apply dyq_nonneg. lia. }
    { apply Hsum. lia. }
    { apply Hsum. lia. }
    { eapply rep_proper; [symmetry; apply dyq_sub|]. apply Hrep. lia. }
    { eapply rep_proper; [symmetry; apply dyq_add|]. apply Hrep. lia. }
    rewrite E3.
    apply (between_dyq _ _ (dyq (ml - 20 * e')) (dyq (mh + 20 * e'))) in B3.
    2:{ rewrite dyq_sub. replace (ml - 5 * e - 5 * e) with (ml - 20 * e') by lia. done. }
    2:{ rewrite dyq_add. replace (mh + 5 * e + 5 * e) with (mh + 20 * e') by lia. done. }
    destruct (IH fuel k (r * lit 5 10)%num (ml - 20 * e') (mh + 20 * e') w3)
      as (w4 & E4 & D4 & B4); try done; try lia.
    { fold e'. apply halve_range.
      - change (2 ^ 53) with 9007199254740992. lia.
      - replace (2 * e') with e by lia. exact Hr. }
    exists w4. split; [done|]. split; [done|].
    replace (ml - 20 * e) with (ml - 20 * e' - 20 * e') by lia.
    by replace (mh + 20 * e) with (mh + 20 * e' + 20 * e') by lia.
Qed.

(** The raw elevations of a run: within [[-5/4, 9/4]]. *)
Lemma raw_elevations (n : nat) (r : rng float) :
  (n <= 45)%nat -> (forall i, unit_draw (tape r i)) ->
  let size := 2 ^ Z.of_nat n + 1 in
  exists w',
    diamond_square (start (blank size) r) = Ok tt w' /\
    drawing (Z.to_nat size) w' /\
    random w' = {| tape := tape r; pos := pos r + Z.to_nat size * Z.to_nat size |} /\
    Forall (Forall (between (- (5 # 4)) (9 # 4))) (self_heightmap (self w')).
Proof.
  intros Hn Ht. cbv zeta. destruct (pow2_facts n) as (Hpos & Hlin & HN).
  set (size := 2 ^ Z.of_nat n + 1) in *. set (N := Z.to_nat size) in *.
  assert (I0 : inv (between 0 1) N (start (blank size) r)).
  { constructor; simpl; auto.
    - unfold np_zeros. apply replicate_shaped.
    - unfold np_zeros. apply Forall_replicate, Forall_replicate.
      exists 0%Q. split; [apply val_0|lra].
    - intros i. by apply unit_draw_between. }
  destruct (init_corners_spec (between 0 1) N _ ltac:(lia) I0)
    as (w1 & E1 & I1 & T1 & P1 & _).
  assert (Hok0 : engine_ok N (start (blank size) r)).
  { destruct I0 as [Hsz Hsh Hg Hr Hsl Htape]. constructor; auto; [|by intros].
    eapply Forall_impl; [exact Hg|]. intros row _. by apply Forall_forall. }
  destruct (run_trace n (start (blank size) r) Hok0) as (wf & Ef & _ & Tf & Pf & _).
  fold size N in Ef, Pf.
  rewrite diamond_square_unfold, E1, (inv_size _ _ _ I1), Nat2Z.id in Ef |- *.
  replace (Z.of_nat N - 1) with (2 ^ Z.of_nat n) in Ef |- * by lia.
  destruct (main_loop_keeps N n HN n N 45 (of_int 1) 0 (2 ^ 49) w1) as (w' & E & D & B);
    try lia.
  - eapply val_proper; [|apply val_1]. done.
  - split.
    + destruct I1 as [Hsz Hsh Hg Hr Hsl Htape]. constructor; auto; [|by intros].
      eapply Forall_impl; [exact Hg|]. intros row _. by apply Forall_forall.
    + intros i. rewrite T1. apply Ht.
  - eapply between_dyq; [| |apply I1]; done.
  - exists w'. split; [exact E|]. split; [done|]. split.
    + rewrite E in Ef. injection Ef as ->. destruct (random wf) as [tp ps].
      simpl in Tf, Pf. by subst.
    + eapply between_dyq; [| |exact B]; done.
Qed.

Lemma between_finite (lo hi : Q) (x : float) : between lo hi x -> finite x.
Proof. intros (q & Hq & _). by exists q. Qed.

Lemma fle_refl (x : float) : finite x -> (x <=? x)%num = true.
Proof. intros [q Hq]. apply (fleb_val x x q q Hq Hq). lra. Qed.

Lemma fle_trans (x y z : float) :
  finite x -> finite y -> finite z ->
  (x <=? y)%num = true -> (y <=? z)%num = true -> (x <=? z)%num = true.
Proof.
  intros [a Ha] [b Hb] [c Hc] H1 H2.
  apply (fleb_val x y a b Ha Hb) in H1. apply (fleb_val y z b c Hb Hc) in H2.
  apply (fleb_val x z a c Ha Hc). lra.
Qed.

(** *** Minimum and maximum *)

Lemma np_minimum_finite (a b : float) :
  finite a -> finite b ->
  (np_minimum a b = a \/ np_minimum a b = b) /\
  (np_minimum a b <=? a)%num = true /\ (np_minimum a b <=? b)%num = true.
Proof.
  intros [qa Ha] [qb Hb]. unfold np_minimum.
  change (isnan a) with (PrimFloat.is_nan a). rewrite (val_not_nan a qa Ha), orb_false_r.
  destruct (a <? b)%num eqn:E.
  - split; [by left|]. split; [apply fle_refl; by exists qa|].
    apply (fltb_val a b qa qb Ha Hb) in E. apply (fleb_val a b qa qb Ha Hb). lra.
  - split; [by right|]. split; [|apply fle_refl; by exists qb].
    apply (fltb_false a b qa qb Ha Hb) in E. by apply (fleb_val b a qb qa Hb Ha).
Qed.

Lemma np_maximum_finite (a b : float) :
  finite a -> finite b ->
  (np_maximum a b = a \/ np_maximum a b = b) /\
  (a <=? np_maximum a b)%num = true /\ (b <=? np_maximum a b)%num = true.
Proof.
  intros [qa Ha] [qb Hb]. unfold np_maximum.
  change (isnan a) with (PrimFloat.is_nan a). rewrite (val_not_nan a qa Ha), orb_false_r.
  destruct (b <? a)%num eqn:E.
  - split; [by left|]. split; [apply fle_refl; by exists qa|].
    apply (fltb_val b a qb qa Hb Ha) in E. apply (fleb_val b a qb qa Hb Ha). lra.
  - split; [by right|]. split; [|apply fle_refl; by exists qb].
    apply (fltb_false b a qb qa Hb Ha) in E. by apply (fleb_val a b qa qb Ha Hb).
Qed.

Lemma fold_minimum (vs : list float) :
  Forall finite vs -> forall v, finite v ->
  let m := fold_left np_minimum vs v in
  finite m /\ In m (v :: vs) /\ Forall (fun x => (m <=? x)%num = true) (v :: vs).
Proof.
  induction 1 as [|x vs Hx Hvs IH]; intros v Hv; cbv zeta.
  - simpl. split; [done|]. split; [by left|]. constructor; [by apply fle_refl|done].
  - simpl fold_left. destruct (np_minimum_finite v x Hv Hx) as (Hin & H1 & H2).
    assert (Hf : finite (np_minimum v x)) by (destruct Hin as [-> | ->]; done).
    destruct (IH _ Hf) as (Hm & Him & Hall).
    split; [done|]. split.
    + destruct Him as [<-|Him]; [|by right; right].
      destruct Hin as [-> | ->]; [by left|by right; left].
    + apply Forall_cons in Hall as [H0 Hall].
      constructor; [by apply (fle_trans _ (np_minimum v x))|].
      constructor; [by apply (fle_trans _ (np_minimum v x))|done].
Qed.

Lemma fold_maximum (vs : list float) :
  Forall finite vs -> forall v, finite v ->
  let m := fold_left np_maximum vs v in
  finite m /\ In m (v :: vs) /\ Forall (fun x => (x <=? m)%num = true) (v :: vs).
Proof.
  induction 1 as [|x vs Hx Hvs IH]; intros v Hv; cbv zeta.
  - simpl. split; [done|]. split; [by left|]. constructor; [by apply fle_refl|done].
  - simpl fold_left. destruct (np_maximum_finite v x Hv Hx) as (Hin & H1 & H2).
    assert (Hf : finite (np_maximum v x)) by (destruct Hin as [-> | ->]; done).
    destruct (IH _ Hf) as (Hm & Him & Hall).
    split; [done|]. split.
    + destruct Him as [<-|Him]; [|by right; right].
      destruct Hin as [-> | ->]; [by left|by right; left].
    + apply Forall_cons in Hall as [H0 Hall].
      constructor; [by apply (fle_trans _ (np_maximum v x))|].
      constructor; [by apply (fle_trans _ (np_maximum v x))|done].
Qed.

Lemma in_concat_cell {A} (a : grid A) (v : A) :
  In v (concat a) -> exists r c, cell a r c = Some v.
Proof.
  intros Hin. apply in_concat in Hin as (row & Hrow & Hv).
  apply list_elem_of_In, list_elem_of_lookup in Hrow as [r Hr].
  apply list_elem_of_In, list_elem_of_lookup in Hv as [c Hc].
  exists r, c. unfold cell. by rewrite Hr.
Qed.

(** The extrema of a non-empty array of finite floats: two of its cells,
    with every cell between them. *)
Lemma extrema (N : nat) (a : grid float) :
  (1 <= N)%nat -> shaped N a -> Forall (Forall finite) a ->
  exists lo hi,
    reduce np_minimum a = Some lo /\
    reduce np_maximum a = Some hi /\
    finite lo /\ finite hi /\
    (exists r c, cell a r c = Some lo) /\
    (exists r c, cell a r c = Some hi) /\
    Forall (Forall (within lo hi)) a.
Proof.
  intros HN Hs Hf. unfold reduce.
  assert (Hc : Forall finite (concat a)) by by apply Forall_concat.
  destruct (concat a) as [|v vs] eqn:Ec.
  { destruct Hs as [Hl Hr]. destruct a as [|row a]; [simpl in Hl; lia|].
    apply Forall_cons in Hr as [Hrow _]. simpl in Ec.
    destruct row; [simpl in Hrow; lia|done]. }
  apply Forall_cons in Hc as [Hv Hvs].
  destruct (fold_minimum vs Hvs v Hv) as (Flo & Ilo & Alo).
  destruct (fold_maximum vs Hvs v Hv) as (Fhi & Ihi & Ahi).
  eexists _, _. split; [done|]. split; [done|]. split; [done|]. split; [done|].
  rewrite <- Ec in Ilo, Ihi.
  split; [by apply in_concat_cell|]. split; [by apply in_concat_cell|].
  apply Forall_rows. rewrite Ec. apply Forall_forall. intros x Hx.
  rewrite Forall_forall in Alo, Ahi. split; [by apply Alo|by apply Ahi].
Qed.

(** *** Rescaling *)

Lemma in_unit_interval_between (v : float) :
  between 0 1 v -> in_unit_interval v = true.
Proof.
  intros (q & Hq & H0 & H1). unfold in_unit_interval.
  apply andb_true_iff. split.
  - by apply (fleb_val _ v 0 q val_0 Hq).
  - by apply (fleb_val v _ q 1 Hq val_1).
Qed.

Lemma rep_unit : rep (inject_Z 1 / inject_Z scale).
Proof. apply (rep_dyadic 1 1074); [simpl; lia|lia]. Qed.

Lemma rep_0 : rep 0.
Proof. apply (rep_int 0). simpl. lia. Qed.

Lemma rep_1 : rep 1.
Proof. apply (rep_int 1). simpl. lia. Qed.

(** Two different finite floats are at least [2^-1074] apart. *)
Lemma val_gap (x y : float) (a b : Q) :
  val x a -> val y b -> (a < b)%Q -> (inject_Z 1 / inject_Z scale <= b - a)%Q.
Proof.
  intros Hx Hy Hlt.
  destruct (val_units x a Hx) as (ka & _ & Ea & _).
  destruct (val_units y b Hy) as (kb & _ & Eb & _).
  rewrite Ea, Eb in Hlt. apply (proj1 (div_scale_lt _ _)) in Hlt.
  assert (H1 : 1 <= kb - ka) by lia.
  apply (proj2 (div_scale_le _ _)) in H1.
  rewrite Ea, Eb. unfold Z.sub in H1. rewrite inject_Z_plus, inject_Z_opp in H1.
  pose proof scale_Q.
  assert (E : ((inject_Z kb + - inject_Z ka) / inject_Z scale ==
               inject_Z kb / inject_Z scale - inject_Z ka / inject_Z scale)%Q) by (field; lra).
  by rewrite <- E.
Qed.

(** One cell of the rescaled array: its value is the rounded quotient of
    the two rounded differences. *)
Lemma rescale_val (v lo hi : float) (qv ql qh D : Q) :
  val v qv -> val lo ql -> val hi qh ->
  (ql <= qv <= qh)%Q -> (ql < qh)%Q -> rep D -> (qh - ql <= D)%Q ->
  exists z, val ((v - lo) / (hi - lo))%num z /\ (0 <= z <= 1)%Q /\
            (0 < R (qh - ql))%Q /\ (z == R (R (qv - ql) / R (qh - ql)))%Q.
Proof.
  intros Hv Hlo Hhi Hb Hlt HD HDb.
  pose proof (val_gap lo hi ql qh Hlo Hhi Hlt) as Hgap.
  pose proof scale_Q as HS.
  assert (Hu : (0 < inject_Z 1 / inject_Z scale)%Q).
  { apply Qlt_shift_div_l; [done|]. rewrite Qmult_0_l. done. }
  destruct (fsub_val v lo qv ql Hv Hlo 0 D rep_0 HD) as (c1 & H1 & B1 & E1); [lra|].
  destruct (fsub_val hi lo qh ql Hhi Hlo (inject_Z 1 / inject_Z scale) D rep_unit HD)
    as (c2 & H2 & B2 & E2); [lra|].
  assert (H12 : (c1 <= c2)%Q).
  { rewrite E1, E2. apply R_mono. lra. }
  assert (Hc2 : (0 < c2)%Q) by lra.
  destruct (fdiv_val _ _ c1 c2 H1 H2 0 1) as (z & Hz & Bz & Ez).
  - lra.
  - apply rep_0.
  - apply rep_1.
  - split; [apply Qle_shift_div_l|apply Qle_shift_div_r]; try done; lra.
  - exists z. split; [done|]. split; [done|]. split; [by rewrite <- E2|].
    by rewrite <- E1, <- E2.
Qed.

Lemma cell_rescale {F} `{Num F} (a : grid F) (lo hi : F) (r c : nat) (v : F) :
  cell a r c = Some v ->
  cell (rescale a lo hi) r c = Some ((v - lo) / (hi - lo))%num.
Proof.
  unfold cell, rescale. intros Hv.
  destruct (a !! r) as [row|] eqn:Hrow; [|done].
  change (map ?f ?l) with (f <$> l).
  rewrite !list_lookup_fmap, Hrow. simpl.
  change (map ?f ?l) with (f <$> l).
  by rewrite list_lookup_fmap, Hv.
Qed.

Lemma rescale_all {F} `{Num F} (P Q : F -> Prop) (a : grid F) (lo hi : F) :
  (forall v, P v -> Q ((v - lo) / (hi - lo))%num) ->
  Forall (Forall P) a -> Forall (Forall Q) (rescale a lo hi).
Proof.
  intros HPQ Ha. unfold rescale.
  apply Forall_fmap. eapply Forall_impl; [exact Ha|]. intros row Hrow. simpl.
  apply Forall_fmap. eapply Forall_impl; [exact Hrow|]. intros v Hv. simpl. auto.
Qed.

Lemma within_val (lo hi v : float) (ql qh : Q) :
  val lo ql -> val hi qh -> within lo hi v ->
  exists q, val v q /\ (ql <= q <= qh)%Q.
Proof. intros Hlo Hhi [H1 H2]. by apply (val_between lo v hi). Qed.

Lemma rescale_unit (lo hi : float) (b1 b2 D : Q) (a : grid float) :
  between b1 b2 lo -> between b1 b2 hi -> rep D -> (b2 - b1 <= D)%Q ->
  (lo <? hi)%num = true ->
  Forall (Forall (within lo hi)) a ->
  Forall (Forall (between 0 1)) (rescale a lo hi).
Proof.
  intros (ql & Hlo & Bl) (qh & Hhi & Bh) HD HDb Hlt.
  apply rescale_all. intros v Hv.
  destruct (within_val lo hi v ql qh Hlo Hhi Hv) as (qv & Hqv & Bv).
  apply (fltb_val lo hi ql qh Hlo Hhi) in Hlt.
  destruct (rescale_val v lo hi qv ql qh D Hqv Hlo Hhi Bv Hlt HD) as (z & Hz & Bz & _); [lra|].
  by exists z.
Qed.

Lemma rescale_flat (lo hi : float) (a : grid float) :
  finite lo -> finite hi -> (lo <? hi)%num = false ->
  Forall (Forall (within lo hi)) a ->
  Forall (Forall (fun v => isnan v = true)) (rescale a lo hi).
Proof.
  intros [ql Hlo] [qh Hhi] Hlt.
  apply rescale_all. intros v Hv.
  destruct (within_val lo hi v ql qh Hlo Hhi Hv) as (qv & Hqv & Bv).
  apply (fltb_false lo hi ql qh Hlo Hhi) in Hlt.
  apply zero_div_zero.
  - destruct (fsub_val v lo qv ql Hqv Hlo 0 0 rep_0 rep_0) as (c & Hc & Bc & _); [lra|].
    eapply val_proper; [|exact Hc]. lra.
  - destruct (fsub_val hi lo qh ql Hhi Hlo 0 0 rep_0 rep_0) as (c & Hc & Bc & _); [lra|].
    eapply val_proper; [|exact Hc]. lra.
Qed.

(** *** Colours *)

Lemma uint8_ok {F} (z : Z) (w : World F) : 0 <= z <= 255 -> uint8 z w = Ok z w.
Proof.
  intros Hz. unfold uint8.
  destruct (Z.leb_spec 0 z), (Z.leb_spec z 255); simpl; try lia. done.
Qed.

Lemma make_pixel_ok {F} (r g b : Z) (w : World F) :
  0 <= r <= 255 -> 0 <= g <= 255 -> 0 <= b <= 255 ->
  make_pixel r g b w = Ok (r, g, b) w.
Proof.
  intros Hr Hg Hb. unfold make_pixel, bind.
  by rewrite (uint8_ok r), (uint8_ok g), (uint8_ok b).
Qed.

Lemma py_int_between (x : float) (lo hi : Z) (w : World float) :
  0 <= lo -> between (inject_Z lo) (inject_Z hi) x ->
  exists z, py_int x w = Ok z w /\ lo <= z <= hi.
Proof.
  intros Hlo (q & Hq & Hb).
  destruct (to_int_val x q lo hi Hq Hlo Hb) as (z & E & Hz & _).
  exists z. unfold py_int. by rewrite E.
Qed.

Lemma scaled_between (k : Z) (x : float) :
  0 <= k <= 2 ^ 53 -> between 0 1 x -> between 0 (inject_Z k) (of_int k * x)%num.
Proof.
  intros Hk (q & Hq & Hb).
  assert (0 <= inject_Z k)%Q by (apply inject_nonneg; lia).
  destruct (fmul_val (of_int k) x (inject_Z k) q (val_of_int k Hk) Hq 0 (inject_Z k))
    as (c & Hc & Bc & _).
  - apply rep_0.
  - apply rep_int. lia.
  - split; nra.
  - by exists c.
Qed.

Lemma channel_up (b k : Z) (x : float) (w : World float) :
  0 <= b -> 0 <= k -> b + k <= 2 ^ 53 -> between 0 1 x ->
  exists z, py_int (of_int b + of_int k * x)%num w = Ok z w /\ b <= z <= b + k.
Proof.
  intros Hb Hk Hbk Hx. apply py_int_between; [done|].
  destruct (scaled_between k x ltac:(lia) Hx) as (q & Hq & Bq).
  destruct (fadd_val (of_int b) _ (inject_Z b) q (val_of_int b ltac:(lia)) Hq
              (inject_Z b) (inject_Z (b + k))) as (c & Hc & Bc & _).
  - apply rep_int. lia.
  - apply rep_int. lia.
  - rewrite inject_Z_plus. lra.
  - by exists c.
Qed.

Lemma channel_down (b k : Z) (x : float) (w : World float) :
  0 <= k <= b -> b <= 2 ^ 53 -> between 0 1 x ->
  exists z, py_int (of_int b - of_int k * x)%num w = Ok z w /\ b - k <= z <= b.
Proof.
  intros Hk Hb Hx. apply py_int_between; [lia|].
  destruct (scaled_between k x ltac:(lia) Hx) as (q & Hq & Bq).
  destruct (fsub_val (of_int b) _ (inject_Z b) q (val_of_int b ltac:(lia)) Hq
              (inject_Z (b - k)) (inject_Z b)) as (c & Hc & Bc & _).
  - apply rep_int. lia.
  - apply rep_int. lia.
  - unfold Z.sub. rewrite inject_Z_plus, inject_Z_opp. lra.
  - by exists c.
Qed.

Lemma channel_scaled (k : Z) (x : float) (w : World float) :
  0 <= k <= 2 ^ 53 -> between 0 1 x ->
  exists z, py_int (of_int k * x)%num w = Ok z w /\ 0 <= z <= k.
Proof.
  intros Hk Hx. apply py_int_between; [done|]. by apply scaled_between.
Qed.

(** The colour of a height in [[0, 1]] (lines 84-95). *)
Lemma color_val (v : float) (w : World float) :
  self_sea_level (self w) = lit 4 10 -> between 0 1 v ->
  exists px, color v w = Ok px w /\
    if (v <? self_sea_level (self w))%num then water_pixel px else land_pixel px.
Proof.
  intros Hsea (q & Hq & Hb).
  destruct val_sea_level as (c04 & Hc & Bc).
  unfold color, bind at 1, get_self. rewrite Hsea.
  destruct (v <? lit 4 10)%num eqn:E.
  - apply (fltb_val v _ q c04 Hq Hc) in E.
    assert (Hd : between 0 1 (v / lit 4 10)%num).
    { destruct (fdiv_val v _ q c04 Hq Hc 0 1) as (d & Hd & Bd & _).
      - lra.
      - apply rep_0.
      - apply rep_1.
      - split; [apply Qle_shift_div_l|apply Qle_shift_div_r]; lra.
      - by exists d. }
    destruct (channel_up 150 105 _ w ltac:(lia) ltac:(lia) ltac:(simpl; lia) Hd)
      as (blue & Eb & Hblue).
    destruct (channel_up 150 75 _ w ltac:(lia) ltac:(lia) ltac:(simpl; lia) Hd)
      as (green & Eg & Hgreen).
    exists (0, green, blue). unfold bind. rewrite Eb, Eg.
    split; [apply make_pixel_ok; lia|]. simpl. lia.
  - apply (fltb_false v _ q c04 Hq Hc) in E.
    assert (Hl : between 0 1 ((v - lit 4 10) / (of_int 1 - lit 4 10))%num).
    { destruct (fsub_val v _ q c04 Hq Hc 0 1 rep_0 rep_1) as (c1 & H1 & B1 & E1); [lra|].
      destruct (fsub_val _ _ 1 c04 val_1 Hc (1 # 2) 1 rep_half rep_1)
        as (c2 & H2 & B2 & E2); [lra|].
      assert (c1 <= c2)%Q by (rewrite E1, E2; apply R_mono; lra).
      destruct (fdiv_val _ _ c1 c2 H1 H2 0 1) as (d & Hd & Bd & _).
      - lra.
      - apply rep_0.
      - apply rep_1.
      - split; [apply Qle_shift_div_l|apply Qle_shift_div_r]; lra.
      - by exists d. }
    destruct (channel_down 180 60 _ w ltac:(lia) ltac:(simpl; lia) Hl)
      as (green & Eg & Hgreen).
    destruct (channel_scaled 50 _ w ltac:(simpl; lia) Hl) as (red & Er & Hred).
    exists (100 + red, green, 50). unfold bind. rewrite Eg, Er.
    split; [apply make_pixel_ok; lia|]. simpl. lia.
Qed.

Lemma color_mapping_ok (N : nat) (w : World float) :
  self_size (self w) = Z.of_nat N ->
  shaped N (self_heightmap (self w)) ->
  Forall (Forall (between 0 1)) (self_heightmap (self w)) ->
  self_sea_level (self w) = lit 4 10 ->
  exists img, color_mapping w = Ok img w /\ shaped N img.
Proof.
  intros Hsz Hsh Hall Hsea. unfold color_mapping, bind, get_self.
  rewrite Hsz, Nat2Z.id.
  apply (reads_fold_for w _ _ (shaped N)); [|apply replicate_shaped].
  intros y img Hy Himg. apply range_spec in Hy as [Hy _]; [|lia].
  apply (reads_fold_for w _ _ (shaped N)); [|done].
  intros x img' Hx Himg'. apply range_spec in Hx as [Hx _]; [|lia].
  eapply reads_bind; [by apply (reads_getitem N w y x (between 0 1))|].
  intros v Hv.
  eapply reads_bind.
  { destruct (color_val v w Hsea Hv) as (px & E & _). exists px. split; [done|exact I]. }
  intros px _. by apply reads_image_set.
Qed.

(** The colour of a nan: [int] refuses it. *)
Lemma color_nan (v : float) (w : World float) :
  isnan v = true -> color v w = Raise ValueError w.
Proof.
  intros Hn. change (isnan v) with (PrimFloat.is_nan v) in Hn.
  unfold color, bind at 1, get_self.
  change (v <? self_sea_level (self w))%num with (v <? self_sea_level (self w))%float.
  rewrite (nan_ltb v _ Hn). unfold bind at 1, py_int.
  set (x := (of_int 180 - of_int 60 * ((v - self_sea_level (self w)) /
                                       (of_int 1 - self_sea_level (self w))))%num).
  assert (Hx : PrimFloat.is_nan x = true).
  { apply nan_sub_r, nan_mul_r, nan_div_l, nan_sub_l, Hn. }
  apply Prim2SF_nan in Hx. cbn [to_int binary64]. unfold float_to_int. by rewrite Hx.
Qed.

Lemma color_mapping_nan (N : nat) (w : World float) :
  (1 <= N)%nat -> engine_ok N w ->
  Forall (Forall (fun v => isnan v = true)) (self_heightmap (self w)) ->
  color_mapping w = Raise ValueError w.
Proof.
  intros HN Hw Hnan. pose proof Hw as [Hsz Hsh _ _ Hsea _].
  unfold color_mapping, bind at 1, get_self. rewrite Hsz.
  destruct (range_head (Z.of_nat N) 1) as [tl E]; [lia..|]. rewrite E.
  cbn [fold_for]. unfold bind at 1. cbn [fold_for]. unfold bind at 1.
  unfold bind at 1.
  destruct (cell_shaped N _ 0 0 Hsh) as [v Hv]; [lia..|].
  assert (Hv' : isnan v = true) by (eapply (cell_all (fun v => isnan v = true)); eauto).
  rewrite (getitem_cell N w 0 0 v) by (done || lia).
  unfold bind at 1. by rewrite color_nan.
Qed.

(** ** The constructor *)

Lemma init_blank {F} `{Num F} (mem size : Z) (g : CoastlineGenerator F) :
  __init__ mem size = inr g ->
  g = blank size /\ 0 <= size /\ 8 * size * size <= 2 ^ 63 - 1 /\ 8 * size * size <= mem.
Proof.
  unfold __init__, np_zeros_error.
  destruct (Z.ltb_spec size 0); [done|].
  destruct (Z.ltb_spec (2 ^ 63 - 1) (8 * size * size)); [done|].
  destruct (Z.ltb_spec mem (8 * size * size)); [done|].
  intros [= <-]. done.
Qed.

Lemma init_pow2 {F} `{Num F} (mem : Z) (n : nat) (g : CoastlineGenerator F) :
  __init__ mem (2 ^ Z.of_nat n + 1) = inr g ->
  g = blank (2 ^ Z.of_nat n + 1) /\ (n <= 29)%nat.
Proof.
  intros E. apply init_blank in E as (-> & _ & Hb & _). split; [done|].
  destruct (decide (n <= 29)%nat) as [|Hn]; [done|]. exfalso.
  assert (2 ^ 30 <= 2 ^ Z.of_nat n) by (apply Z.pow_le_mono_r; lia).
  change (2 ^ 63) with 9223372036854775808 in Hb. change (2 ^ 30) with 1073741824 in *. nia.
Qed.

(** ** The draws of the sample generator *)

Lemma sample_draws_unit (i : nat) : unit_draw (tape (sample_rng (F:=float)) i).
Proof.
  change (unit_draw (lit (Z.of_nat ((i * 7 + 3) mod 16)) 16)).
  pose proof (Nat.mod_upper_bound (i * 7 + 3) 16 ltac:(lia)) as Hk.
  generalize dependent ((i * 7 + 3) mod 16)%nat. intros k Hk.
  do 16 (destruct k as [|k]; [by vm_compute|]). lia.
Qed.

(** ** A run up to the colour mapping *)

Lemma float_generation (n : nat) (r : rng float) :
  (n <= 45)%nat -> (forall i, unit_draw (tape r i)) ->
  let size := 2 ^ Z.of_nat n + 1 in
  let N := Z.to_nat size in
  let w0 := start (blank size) r in
  exists w1 lo hi,
    diamond_square w0 = Ok tt w1 /\ engine_ok N w1 /\
    Forall (Forall (between (- (5 # 4)) (9 # 4))) (self_heightmap (self w1)) /\
    np_min (self_heightmap (self w1)) w1 = Ok lo w1 /\
    np_max (self_heightmap (self w1)) w1 = Ok hi w1 /\
    between (- (5 # 4)) (9 # 4) lo /\ between (- (5 # 4)) (9 # 4) hi /\
    (exists y x, cell (self_heightmap (self w1)) y x = Some lo) /\
    (exists y x, cell (self_heightmap (self w1)) y x = Some hi) /\
    Forall (Forall (within lo hi)) (self_heightmap (self w1)) /\
    generate_coastline w0 =
      color_mapping (with_heightmap (rescale (self_heightmap (self w1)) lo hi) w1).
Proof.
  intros Hn Ht size N w0.
  destruct (raw_elevations n r Hn Ht) as (w1 & E1 & [Hok _] & _ & Hb).
  fold size N in E1, Hok. fold w0 in E1. pose proof Hok as [Hsz Hsh _ Hr Hsea _].
  destruct (pow2_facts n) as (Hpos & Hlin & HN).
  assert (Hfin : Forall (Forall finite) (self_heightmap (self w1))).
  { eapply Forall_impl; [exact Hb|]. intros row Hrow.
    eapply Forall_impl; [exact Hrow|]. intros v. apply between_finite. }
  destruct (extrema N _ ltac:(unfold N, size; lia) Hsh Hfin)
    as (lo & hi & Emin & Emax & Flo & Fhi & Hlo & Hhi & Hwithin).
  exists w1, lo, hi. split; [done|]. split; [done|]. split; [done|].
  split; [unfold np_min; by rewrite Emin|].
  split; [unfold np_max; by rewrite Emax|].
  split. { destruct Hlo as (y & x & Hc). eapply (cell_all _ _ _ _ _ Hb Hc). }
  split. { destruct Hhi as (y & x & Hc). eapply (cell_all _ _ _ _ _ Hb Hc). }
  split; [done|]. split; [done|]. split; [done|].
  unfold generate_coastline. unfold bind at 1. rewrite E1.
  unfold bind at 1.
  assert (En : normalize w1 =
            Ok tt (with_heightmap (rescale (self_heightmap (self w1)) lo hi) w1)).
  { unfold normalize, bind, get_self, np_min, np_max.
    rewrite Emin. unfold ret at 1. cbv beta iota. by rewrite Emax. }
  by rewrite En.
Qed.

Lemma rep_4 : rep 4.
Proof. apply (rep_int 4). simpl. lia. Qed.




Lemma pass_range_half (j : nat) : (pass_range j * (1 # 2) == pass_range (S j))%Q.
Proof.
  unfold pass_range. destruct (pow2_half j) as (E & _ & _). rewrite E, inject_Z_mult.
  pose proof (inject_pos _ (pow2_pos (Z.of_nat j) ltac:(lia))).
  change (inject_Z 2) with 2%Q. field. lra.
Qed.


Lemma rep_pass_range (j : nat) : (j <= 1074)%nat -> rep (pass_range j).
Proof.
  intros Hj. unfold pass_range. change 1%Q with (inject_Z 1).
  apply rep_dyadic; [simpl; lia|lia].
Qed.





(** Line 68, [range_size *= 0.5], is exact: the pass after a pass of range
    [2^-j] has range [2^-(j+1)]. *)
Lemma pass_range_next (j : nat) (r : float) :
  (j < 1074)%nat -> val r (pass_range j) -> val (r * lit 5 10)%num (pass_range (S j)).
Proof.
  intros Hj Hr.
  destruct (fmul_val r (lit 5 10) _ _ Hr val_half (pass_range (S j)) (pass_range (S j)))
    as (c & Hc & Bc & _).
  - apply rep_pass_range. lia.
  - apply rep_pass_range. lia.
  - rewrite pass_range_half. lra.
  - eapply val_proper; [|exact Hc]. lra.
Qed.

Lemma rep_pow2 (t : Z) : 0 <= t <= 1023 -> rep (inject_Z (2 ^ t)).
Proof.
  intros Ht. exists (1 * 2 ^ (t + 1074)).
  split; [apply repz_repr; simpl; lia|]. split.
  - rewrite Z.mul_1_l, Z.abs_eq by (pose proof (pow2_pos (t + 1074)); lia).
    apply Z.pow_lt_mono_r; lia.
  - pose proof scale_Q as HS. unfold scale in *.
    rewrite Z.mul_1_l, Z.pow_add_r, inject_Z_mult by lia. field. lra.
Qed.

(** * Runs and the draws they consume *)

Section Windowed.

Context {F : Type} `{Num F}.

Local Abbreviation windowed := (@windowed F).

Lemma same_draws_le (k k' : nat) (r1 r2 : rng F) :
  (k' <= k)%nat -> same_draws k r1 r2 -> same_draws k' r1 r2.
Proof. intros Hk Hs i Hi. apply Hs. lia. Qed.

(** A computation that draws nothing and depends on the engine only. *)
Lemma win_pure {A} (m : M F A) :
  (forall w, random (final (m w)) = random w) ->
  (forall w1 w2, self w1 = self w2 ->
     same_result (m w1) (m w2) /\ self (final (m w1)) = self (final (m w2))) ->
  windowed m.
Proof.
  intros Hr Hs. split.
  - intros w. by rewrite Hr.
  - intros k w1 w2 E D. right. exists 0%nat. rewrite !Hr, !Nat.add_0_r, Nat.sub_0_r.
    destruct (Hs w1 w2 E) as [H1 H2].
    split; [lia|]. split; [done|]. split; [done|]. split; [done|]. by split.
Qed.

Lemma win_ret {A} (a : A) : windowed (ret a).
Proof. by apply win_pure. Qed.

Lemma win_raise {A} (e : exn) : windowed (raise (A:=A) e).
Proof. by apply win_pure. Qed.

Lemma win_get_self : windowed get_self.
Proof. by apply win_pure. Qed.

Lemma win_log (e : event) : windowed (log e).
Proof. by apply win_pure. Qed.

Lemma win_set_heightmap (a : grid F) : windowed (set_heightmap a).
Proof.
  apply win_pure; [done|]. intros w1 w2 E. split; [done|]. simpl. by rewrite E.
Qed.

Lemma win_setitem (i j : Z) (v : F) : windowed (setitem i j v).
Proof.
  apply win_pure.
  - intros w. unfold setitem. by destruct (locate _ i j) as [[r c]|].
  - intros w1 w2 E. unfold setitem. rewrite E.
    destruct (locate _ i j) as [[r c]|]; simpl.
    + by rewrite E.
    + by split.
Qed.

Lemma win_random : windowed random_random.
Proof.
  split; [simpl; lia|]. intros k w1 w2 E D. destruct k as [|k].
  - left. simpl. lia.
  - right. exists 1%nat. simpl. split; [lia|]. split; [lia|]. split; [lia|].
    split. { pose proof (D 0%nat ltac:(lia)) as D0. by rewrite !Nat.add_0_r in D0. }
    split; [done|]. intros i Hi. simpl.
    pose proof (D (S i) ltac:(lia)) as Di. by rewrite !Nat.add_succ_r in Di.
Qed.

Lemma win_bind {A B} (m : M F A) (k : A -> M F B) :
  windowed m -> (forall a, windowed (k a)) -> windowed (bind m k).
Proof.
  intros [Mm Hm] Hk. split.
  - intros w. unfold bind. specialize (Mm w).
    destruct (m w) as [a u|e u]; simpl in *; [|done].
    destruct (Hk a) as [Mk _]. specialize (Mk u). lia.
  - intros n w1 w2 E D. unfold bind.
    pose proof (Mm w1) as M1. pose proof (Mm w2) as M2.
    specialize (Hm n w1 w2 E D). unfold alike in Hm.
    destruct (m w1) as [a u1|e u1], (m w2) as [b u2|e' u2]; simpl in *.
    + destruct (Hk a) as [Mk Hk1]. destruct (Hk b) as [Mk' _].
      destruct Hm as [[X1 X2]|(d & Hd & P1 & P2 & <- & Es & Ds)].
      * left. pose proof (Mk u1). pose proof (Mk' u2). lia.
      * destruct (Hk1 (n - d)%nat u1 u2 Es Ds)
          as [[X1 X2]|(d' & Hd' & Q1 & Q2 & Hr & Es' & Ds')]; simpl in *.
        -- left. lia.
        -- right. exists (d + d')%nat. split; [lia|]. split; [lia|]. split; [lia|].
           split; [done|]. split; [done|].
           by replace (n - (d + d'))%nat with (n - d - d')%nat by lia.
    + destruct Hm as [[X1 X2]|(d & _ & _ & _ & [] & _)].
      left. simpl. destruct (Hk a) as [Mk _]. pose proof (Mk u1). lia.
    + destruct Hm as [[X1 X2]|(d & _ & _ & _ & [] & _)].
      left. simpl. destruct (Hk b) as [Mk _]. pose proof (Mk u2). lia.
    + exact Hm.
Qed.

Lemma win_for {A} (xs : list A) (body : A -> M F unit) :
  (forall x, windowed (body x)) -> windowed (for_ xs body).
Proof.
  intros Hb. induction xs as [|x xs IH]; simpl.
  - apply win_ret.
  - apply win_bind; auto.
Qed.

Lemma win_fold_for {A S} (xs : list A) (body : A -> S -> M F S) :
  (forall x acc, windowed (body x acc)) -> forall acc, windowed (fold_for xs body acc).
Proof.
  intros Hb. induction xs as [|x xs IH]; intros acc; simpl.
  - apply win_ret.
  - apply win_bind; auto.
Qed.

Lemma win_getitem (i j : Z) : windowed (getitem i j).
Proof.
  unfold getitem. apply win_bind; [apply win_get_self|]. intros g.
  destruct (grid_get _ i j); [apply win_ret|apply win_raise].
Qed.

Ltac win :=
  repeat first
    [ apply win_ret | apply win_raise | apply win_get_self | apply win_random
    | apply win_log | apply win_getitem | apply win_setitem | apply win_set_heightmap
    | apply win_for; intros ? | apply win_fold_for; intros ? ?
    | apply win_bind; [|intros ?]
    | match goal with |- windowed (if ?b then _ else _) => destruct b end
    | match goal with |- windowed (match ?x with _ => _ end) => destruct x end ].

Lemma win_diamond_step (s h : Z) (r : F) : windowed (diamond_step s h r).
Proof. unfold diamond_step, diamond_point, _get_random_offset. win. Qed.

Lemma win_square_step (s h : Z) (r : F) : windowed (square_step s h r).
Proof.
  unfold square_step, square_point, square_neighbors, add_neighbor, average,
    _get_random_offset.
  win.
Qed.

Lemma win_main_loop (fuel : nat) : forall (s : Z) (r : F), windowed (main_loop fuel s r).
Proof.
  induction fuel as [|fuel IH]; intros s r; cbn [main_loop];
    destruct (s >? 1); try apply win_ret; try apply win_raise.
  apply win_bind; [apply win_log|]. intros _.
  apply win_bind; [apply win_diamond_step|]. intros _.
  apply win_bind; [apply win_square_step|]. intros _. apply IH.
Qed.

Lemma win_diamond_square : windowed diamond_square.
Proof.
  unfold diamond_square, init_corners. win. apply win_main_loop.
Qed.

Lemma win_normalize : windowed normalize.
Proof. unfold normalize, np_min, np_max. win. Qed.

Lemma win_color_mapping : windowed color_mapping.
Proof.
  unfold color_mapping, image_set, color, make_pixel, py_int, uint8. win.
Qed.

Lemma win_generate_coastline : windowed generate_coastline.
Proof.
  unfold generate_coastline.
  apply win_bind; [apply win_diamond_square|]. intros _.
  apply win_bind; [apply win_normalize|]. intros _.
  apply win_color_mapping.
Qed.

End Windowed.

Section Square_values.

Context {F : Type} `{Num F}.






(** The passes leave the corners alone. *)
Lemma run_corners (n : nat) (w : World F) :
  (1 <= n)%nat ->
  let size := 2 ^ Z.of_nat n + 1 in
  let N := Z.to_nat size in
  let u k := tape (random w) (pos (random w) + k) in
  engine_ok N w ->
  exists w',
    diamond_square w = Ok tt w' /\
    cell (self_heightmap (self w')) 0 0 = Some (u 0%nat) /\
    cell (self_heightmap (self w')) 0 (N - 1) = Some (u 1%nat) /\
    cell (self_heightmap (self w')) (N - 1) 0 = Some (u 2%nat) /\
    cell (self_heightmap (self w')) (N - 1) (N - 1) = Some (u 3%nat).
Proof.
  intros Hn size N u Hw.
  destruct (pass_facts n n ltac:(lia)) as (Hh & Hs & _ & _ & Hsz & HN).
  fold size in Hs, Hsz, HN. fold N in HN.
  set (L := 2 ^ Z.of_nat n) in *.
  assert (HL : Z.of_nat N - 1 = L) by (unfold size in HN; lia).
  assert (Hlin : Z.of_nat n < L) by apply pow2_facts.
  destruct (init_corners_cells N _ ltac:(lia) Hw)
    as (w1 & E1 & I1 & R1 & _ & C00 & C0L & CL0 & CLL).
  rewrite diamond_square_unfold, E1, (inv_size _ _ _ I1), Nat2Z.id, HL.
  destruct (paced_main_loop N N L (of_int 1)) with (w := w1)
    as ([] & w2 & E2 & I2 & _ & _ & _ & _ & Fr & _); try lia; try done.
  { unfold L. rewrite Z.log2_pow2 by lia. lia. }
  { rewrite HL. apply step_sizes_pow2. lia. }
  exists w2. split; [done|].
  assert (Hkeep : forall y x : Z, (y = 0 \/ y = L) -> (x = 0 \/ x = L) ->
    cell (self_heightmap (self w2)) (Z.to_nat y) (Z.to_nat x) =
    cell (self_heightmap (self w1)) (Z.to_nat y) (Z.to_nat x)).
  { intros y x Hy Hx. apply Fr. rewrite HN. unfold L.
    rewrite loop_count; try lia.
    - fold L.
      assert (HmL : forall v, v = 0 \/ v = L -> v mod L = 0).
      { intros v [->| ->]; [apply Z.mod_0_l|apply Z.mod_same]; lia. }
      by rewrite (HmL y Hy), (HmL x Hx).
    - fold L. exists 1. unfold size. lia. }
  pose proof (Hkeep 0 0 ltac:(lia) ltac:(lia)) as K00.
  pose proof (Hkeep 0 L ltac:(lia) ltac:(lia)) as K0L.
  pose proof (Hkeep L 0 ltac:(lia) ltac:(lia)) as KL0.
  pose proof (Hkeep L L ltac:(lia) ltac:(lia)) as KLL.
  change (Z.to_nat 0) with 0%nat in *.
  replace (Z.to_nat L) with (N - 1)%nat in * by lia.
  rewrite K00, K0L, KL0, KLL. auto.
Qed.

End Square_values.

(** The failures of the constructor are those of [np.zeros]: they depend on
    the number of bytes, not on the form of [size]. *)
Lemma init_failures {F} `{Num F} (mem size : Z) (e : exn) :
  __init__ (F:=F) mem size = inl e ->
  (e = ValueError /\ (size < 0 \/ 2 ^ 63 - 1 < 8 * size * size)) \/
  (e = MemoryError /\ 0 <= size /\ mem < 8 * size * size).
Proof.
  unfold __init__, np_zeros_error.
  destruct (Z.ltb_spec size 0); [intros [= <-]; auto|].
  destruct (Z.ltb_spec (2 ^ 63 - 1) (8 * size * size)); [intros [= <-]; auto|].
  destruct (Z.ltb_spec mem (8 * size * size)); [intros [= <-]; auto|done].
Qed.

(** * The claims *)

(** C1 (amended).  The constructor does not validate [size]: for every
    [size >= 0] whose array of [8 * size * size] bytes numpy can allocate
    (at most [2^63 - 1] bytes, and the host grants them), whatever the form
    of [size], it succeeds and leaves an engine with that size, a
    zero-filled [size x size] heightmap, roughness [0.6] and sea level
    [0.4].  (That [size] should be [2^n + 1] is a comment in the source;
    there is no [InvalidSizeError].) *)
Theorem init_never_validates {F} `{Num F} (mem size : Z) :
  0 <= size -> 8 * size * size <= 2 ^ 63 - 1 -> 8 * size * size <= mem ->
  exists g, __init__ mem size = inr g /\
    self_size g = size /\
    shaped (Z.to_nat size) (self_heightmap g) /\
    Forall (Forall (fun v => v = of_int 0)) (self_heightmap g) /\
    self_roughness g = lit 6 10 /\ self_sea_level g = lit 4 10.
Proof.
  intros Hs Hb Hm. exists (blank size). split.
  - unfold __init__, np_zeros_error.
    destruct (Z.ltb_spec size 0); [lia|].
    destruct (Z.ltb_spec (2 ^ 63 - 1) (8 * size * size)); [lia|].
    destruct (Z.ltb_spec mem (8 * size * size)); [lia|]. done.
  - split; [done|]. split; [apply replicate_shaped|].
    split; [|done]. by apply Forall_replicate, Forall_replicate.
Qed.

Lemma init_never_validates_witness :
  exists g, __init__ (F:=float) (2 ^ 30) 10 = inr g /\
    self_size g = 10 /\
    shaped 10 (self_heightmap g) /\
    Forall (Forall (fun v => v = of_int 0)) (self_heightmap g) /\
    self_roughness g = lit 6 10 /\ self_sea_level g = lit 4 10.
Proof. apply (init_never_validates (F:=float) (2 ^ 30) 10); simpl; lia. Defined.

(** C1 as stated fails: the sizes [10] (not [2^n + 1]) and [2] (below 3)
    are both accepted (on a host that grants the few hundred bytes). *)
Lemma init_accepts_invalid_sizes :
  valid_size 10 = false /\ __init__ (F:=float) (2 ^ 30) 10 = inr (blank 10) /\
  valid_size 2 = false /\ __init__ (F:=float) (2 ^ 30) 2 = inr (blank 2).
Proof. repeat split; reflexivity. Qed.

(** What the accepted sizes [10] and [4] lead to (binary64): on the first
    the second pass reads outside the array and the run ends with an
    [IndexError]; on the second the run returns normally after one pass
    and leaves cells that were never assigned. *)
Example invalid_sizes_run :
  let out10 := diamond_square (start (blank (F:=float) 10) sample_rng) in
  let out4 := diamond_square (start (blank (F:=float) 4) sample_rng) in
  (exists w, out10 = Raise IndexError w) /\
  passes (trace (final out10)) = [9; 4] /\
  returned out4 = Some tt /\
  passes (trace (final out4)) = [3] /\
  writes_to 0 2 (trace (final out4)) = 0%nat.
Proof.
  split; [eexists; vm_compute; reflexivity|].
  repeat split; vm_compute; reflexivity.
Qed.

(** C2 (amended).  In binary64, for an engine that the constructor
    returned for a size [2^n + 1], [n >= 1], and draws in [[0, 1)]:
    [diamond_square] returns normally and the raw minimum [lo] and maximum
    [hi] of the heightmap exist; whenever [lo < hi], [generate_coastline]
    returns normally, what it returns is the [N x N] image, and it leaves in
    [self.heightmap] the [N x N] array of the rescaled elevations, each in
    [[0, 1]]: the colour mapping that follows the normalisation does not
    write the heightmap. *)
Theorem heightmap_normalized (mem : Z) (n : nat) (g : CoastlineGenerator float)
    (r : rng float) :
  (1 <= n)%nat ->
  __init__ mem (2 ^ Z.of_nat n + 1) = inr g ->
  (forall i, unit_draw (tape r i)) ->
  let N := Z.to_nat (2 ^ Z.of_nat n + 1) in
  exists w1 lo hi,
    diamond_square (start g r) = Ok tt w1 /\
    np_min (self_heightmap (self w1)) w1 = Ok lo w1 /\
    np_max (self_heightmap (self w1)) w1 = Ok hi w1 /\
    ((lo <? hi)%num = true ->
     exists img w2,
       generate_coastline (start g r) = Ok img w2 /\
       self_heightmap (self w2) = rescale (self_heightmap (self w1)) lo hi /\
       shaped N (self_heightmap (self w2)) /\
       Forall (Forall (fun v => in_unit_interval v = true)) (self_heightmap (self w2)) /\
       shaped N img).
Proof.
  intros Hn Einit Ht N. apply init_pow2 in Einit as [-> Hn29].
  destruct (float_generation n r ltac:(lia) Ht)
    as (w1 & lo & hi & E1 & Hok & Hb & Emin & Emax & Blo & Bhi & _ & _ & Hw & Egen).
  exists w1, lo, hi. split; [done|]. split; [done|]. split; [done|].
  intros Hlt. pose proof Hok as [Hsz Hsh _ Hr Hsea _].
  pose proof (rescale_unit lo hi _ _ 4 _ Blo Bhi rep_4 ltac:(lra) Hlt Hw) as Hunit.
  destruct (color_mapping_ok N
              (with_heightmap (rescale (self_heightmap (self w1)) lo hi) w1))
    as (img & Ec & Himg); simpl; auto using rescale_shaped.
  eexists img, _. rewrite Egen. split; [exact Ec|]. simpl.
  split; [done|]. split; [by apply rescale_shaped|]. split; [|done].
  eapply Forall_impl; [exact Hunit|]. intros row Hrow.
  eapply Forall_impl; [exact Hrow|]. intros v. apply in_unit_interval_between.
Qed.

Lemma heightmap_normalized_witness :
  exists w1 lo hi,
    diamond_square (start (blank 3) sample_rng) = Ok tt w1 /\
    np_min (self_heightmap (self w1)) w1 = Ok lo w1 /\
    np_max (self_heightmap (self w1)) w1 = Ok hi w1 /\
    ((lo <? hi)%num = true ->
     exists img w2,
       generate_coastline (start (blank 3) sample_rng) = Ok img w2 /\
       self_heightmap (self w2) = rescale (self_heightmap (self w1)) lo hi /\
       shaped 3 (self_heightmap (self w2)) /\
       Forall (Forall (fun v => in_unit_interval v = true)) (self_heightmap (self w2)) /\
       shaped 3 img).
Proof.
  apply (heightmap_normalized (2 ^ 30) 1 (blank 3) sample_rng);
    [lia|reflexivity|apply sample_draws_unit].
Defined.

(** C2 as stated fails: what generation returns is the RGB image, whose
    entries are triples of integers up to 255 (here the first pixel of a
    3 x 3 run in binary64), not elevations in [[0, 1]]. *)
Lemma image_is_not_unit_interval_array :
  exists img,
    returned (generate_coastline (start (blank (F:=float) 3) sample_rng)) = Some img /\
    cell img 0 0 = Some (0, 191, 208).
Proof. eexists. split; vm_compute; reflexivity. Qed.

(** C3 (the code divides by zero).  A 3 x 3 run in binary64 in which
    every draw is [0.5]: the generated surface is flat, its minimum and
    maximum are equal, [normalize] divides by their difference [0] without
    raising, every cell becomes nan, and [generate_coastline] then fails
    with the [ValueError] of [int(nan)] in the colour mapping: there is no
    check of the range and no fallback. *)
Theorem flat_surface_divides_by_zero :
  let w0 := start (blank (F:=float) 3) flat_rng in
  exists w1 w2 lo hi,
    diamond_square w0 = Ok tt w1 /\
    np_min (self_heightmap (self w1)) w1 = Ok lo w1 /\
    np_max (self_heightmap (self w1)) w1 = Ok hi w1 /\
    PrimFloat.eqb (hi - lo)%num 0%float = true /\
    normalize w1 = Ok tt w2 /\
    Forall (Forall (fun v => isnan v = true)) (self_heightmap (self w2)) /\
    generate_coastline w0 = Raise ValueError w2.
Proof.
  eexists _, _, _, _.
  split; [vm_compute; reflexivity|].
  split; [vm_compute; reflexivity|].
  split; [vm_compute; reflexivity|].
  split; [vm_compute; reflexivity|].
  split; [vm_compute; reflexivity|].
  split; [|vm_compute; reflexivity].
  repeat constructor.
Qed.

(** The same division by zero on every run of a one-cell grid, a size the
    constructor accepts: the only cell is both minimum and maximum. *)
Example single_cell_divides_by_zero :
  let w0 := start (blank (F:=float) 1) sample_rng in
  exists w2,
    generate_coastline w0 = Raise ValueError w2 /\
    Forall (Forall (fun v => isnan v = true)) (self_heightmap (self w2)).
Proof. eexists. split; [vm_compute; reflexivity|]. repeat constructor. Qed.

(** C4 (amended).  Generation is a function of the size and of the draws
    that the global generator has in store.  On two engines of the same
    side [N = 2^n + 1], started with the global generator in two states
    (any tapes, any positions) whose next [N * N] draws are the same, the
    two runs end alike: the same image or the same exception, the same
    engine (hence the same heightmap); each consumes exactly [N * N] draws;
    and both assign the cells in the same fixed order, the corners and then
    the passes. *)
Theorem generation_is_a_function_of_the_draws {F} `{Num F} (n : nat) (r1 r2 : rng F) :
  let size := 2 ^ Z.of_nat n + 1 in
  let N := Z.to_nat size in
  same_draws (N * N) r1 r2 ->
  let out1 := generate_coastline (start (blank size) r1) in
  let out2 := generate_coastline (start (blank size) r2) in
  same_result out1 out2 /\
  self (final out1) = self (final out2) /\
  pos (random (final out1)) = (pos r1 + N * N)%nat /\
  pos (random (final out2)) = (pos r2 + N * N)%nat /\
  trace (final out1) = corner_writes N ++ loop_events N size (2 ^ Z.of_nat n) /\
  trace (final out2) = trace (final out1).
Proof.
  intros size N Hd out1 out2. destruct (pow2_facts n) as (Hpos & _ & _).
  assert (Hrun : forall r : rng F,
            pos (random (final (generate_coastline (start (blank size) r)))) =
              (pos r + N * N)%nat /\
            trace (final (generate_coastline (start (blank size) r))) =
              corner_writes N ++ loop_events N size (2 ^ Z.of_nat n)).
  { intros r. destruct (run_trace n (start (blank size) r)) as (w' & E & _ & _ & P & Tr).
    { apply blank_ok. lia. }
    destruct (after_diamond_square _ _ E) as [Er Et]. by rewrite Er, Et. }
  destruct (Hrun r1) as [P1 T1]. destruct (Hrun r2) as [P2 T2].
  fold out1 in P1, T1. fold out2 in P2, T2.
  destruct win_generate_coastline as [_ Hw].
  destruct (Hw (N * N)%nat (start (blank size) r1) (start (blank size) r2) eq_refl Hd)
    as [[X1 _]|(d & _ & _ & _ & Hres & Hself & _)].
  - fold out1 in X1. simpl in X1. lia.
  - split; [done|]. split; [done|]. split; [done|]. split; [done|]. split; [done|].
    by rewrite T1, T2.
Qed.

Lemma generation_is_a_function_of_the_draws_witness :
  let out1 := generate_coastline (start (blank (F:=float) 3) sample_rng) in
  let out2 := generate_coastline (start (blank (F:=float) 3) later_rng) in
  same_result out1 out2 /\
  self (final out1) = self (final out2) /\
  pos (random (final out1)) = 9%nat /\
  pos (random (final out2)) = 10%nat /\
  trace (final out1) = corner_writes 3 ++ loop_events 3 3 2 /\
  trace (final out2) = trace (final out1).
Proof.
  apply (generation_is_a_function_of_the_draws (F:=float) 1 sample_rng later_rng).
  intros i _. reflexivity.
Defined.

(** C4 as stated fails: the generator is the global one, no seed is a
    parameter, and a second engine of the same size, run after the first,
    continues the stream where the first left it: the two heightmaps and
    the two images differ (3 x 3, binary64). *)
Lemma successive_runs_differ :
  let out1 := generate_coastline (start (blank (F:=float) 3) sample_rng) in
  let out2 := generate_coastline (start (blank (F:=float) 3) (random (final out1))) in
  exists img1 img2 a b,
    returned out1 = Some img1 /\ returned out2 = Some img2 /\
    cell (self_heightmap (self (final out1))) 0 1 = Some a /\
    cell (self_heightmap (self (final out2))) 0 1 = Some b /\
    (b <? a)%num = true /\
    img1 <> img2.
Proof.
  eexists _, _, _, _.
  repeat (split; [vm_compute; reflexivity|]). vm_compute. discriminate.
Qed.

(** C5.  On a grid of side [N = 2^n + 1], [n >= 1], [diamond_square]
    returns normally; its trace of events is the four corner assignments
    [(0,0)], [(0,N-1)], [(N-1,0)], [(N-1,N-1)] followed by the events of the
    passes, none of which is an assignment to a corner: each corner is
    written exactly once, before the first pass; and the heightmap it
    leaves still holds in its corners what these four assignments stored,
    the first four draws in that order. *)
Theorem corners_written_once {F} `{Num F} (n : nat) (r : rng F) :
  (1 <= n)%nat ->
  let size := 2 ^ Z.of_nat n + 1 in
  let N := Z.to_nat size in
  let u k := tape r (pos r + k) in
  exists w' rest,
    diamond_square (start (blank size) r) = Ok tt w' /\
    trace w' = corner_writes N ++ rest /\
    Forall (pass_event N) rest /\
    writes_to 0 0 (trace w') = 1%nat /\
    writes_to 0 (N - 1) (trace w') = 1%nat /\
    writes_to (N - 1) 0 (trace w') = 1%nat /\
    writes_to (N - 1) (N - 1) (trace w') = 1%nat /\
    cell (self_heightmap (self w')) 0 0 = Some (u 0%nat) /\
    cell (self_heightmap (self w')) 0 (N - 1) = Some (u 1%nat) /\
    cell (self_heightmap (self w')) (N - 1) 0 = Some (u 2%nat) /\
    cell (self_heightmap (self w')) (N - 1) (N - 1) = Some (u 3%nat).
Proof.
  intros Hn size N u.
  destruct (run_valid n r) as (w' & rest & E & _ & _ & Tr & Hrest).
  fold size N in E, Tr, Hrest.
  destruct (pow2_facts n) as (Hpos & Hlin & HN).
  assert (HN2 : (2 <= N)%nat) by (unfold N, size; lia).
  destruct (writes_to_corners N HN2) as (C1 & C2 & C3 & C4).
  destruct (run_corners n (start (blank size) r) Hn) as (w'' & E' & K).
  { apply blank_ok. lia. }
  fold size N in E', K. rewrite E in E'. injection E' as <-.
  exists w', rest. split; [done|]. split; [done|]. split; [done|].
  rewrite Tr, !writes_to_app, C1, C2, C3, C4.
  rewrite !(writes_to_pass N) by (done || (unfold corner; lia)).
  repeat (split; [done|]). exact K.
Qed.

Lemma corners_written_once_witness :
  let u k := tape (sample_rng (F:=float)) k in
  exists w' rest,
    diamond_square (start (blank (F:=float) 5) sample_rng) = Ok tt w' /\
    trace w' = corner_writes 5 ++ rest /\
    Forall (pass_event 5) rest /\
    writes_to 0 0 (trace w') = 1%nat /\
    writes_to 0 4 (trace w') = 1%nat /\
    writes_to 4 0 (trace w') = 1%nat /\
    writes_to 4 4 (trace w') = 1%nat /\
    cell (self_heightmap (self w')) 0 0 = Some (u 0%nat) /\
    cell (self_heightmap (self w')) 0 4 = Some (u 1%nat) /\
    cell (self_heightmap (self w')) 4 0 = Some (u 2%nat) /\
    cell (self_heightmap (self w')) 4 4 = Some (u 3%nat).
Proof. apply (corners_written_once (F:=float) 2 sample_rng). lia. Defined.






(** C8 (the code loses the order on a flat surface).  On the failing
    input of C3 (3 x 3, binary64, every draw [0.5]) the corners [(0,0)] and
    [(0,2)] hold equal raw elevations, so the first is [<=] the second;
    after [normalize] both are nan and [<=] no longer holds between
    them. *)
Theorem flat_surface_loses_order :
  let w0 := start (blank (F:=float) 3) flat_rng in
  exists w1 w2 a b a' b',
    diamond_square w0 = Ok tt w1 /\
    normalize w1 = Ok tt w2 /\
    cell (self_heightmap (self w1)) 0 0 = Some a /\
    cell (self_heightmap (self w1)) 0 2 = Some b /\
    (a <=? b)%num = true /\
    cell (self_heightmap (self w2)) 0 0 = Some a' /\
    cell (self_heightmap (self w2)) 0 2 = Some b' /\
    (a' <=? b')%num = false.
Proof.
  eexists _, _, _, _, _, _.
  repeat (split; [vm_compute; reflexivity|]). vm_compute. reflexivity.
Qed.

(** C9.  For every [size >= 2] the main loop terminates: the run never
    exhausts its loop budget; the step sizes of the passes it enters are
    [size - 1], then half of it (floor division), and so on, each above 1;
    when the run returns normally the halving has gone on until the step
    size was 1 or less, after [log2 (size - 1)] passes; and for
    [size = 2^n + 1] the run does return normally, after exactly [n]
    passes.  (For other sizes a pass may end the run early with an
    [IndexError].) *)
Theorem main_loop_terminates {F} `{Num F} (size : Z) (r : rng F) :
  2 <= size ->
  let out := diamond_square (start (blank size) r) in
  let P := passes (trace (final out)) in
  (forall w', out <> Raise OutOfFuel w') /\
  halving (size - 1) P /\
  (forall w', out = Ok tt w' ->
     halving_to_one (size - 1) P /\ Z.of_nat (length P) = Z.log2 (size - 1)) /\
  (forall n : nat, size = 2 ^ Z.of_nat n + 1 ->
     (exists w', out = Ok tt w') /\ length P = n).
Proof.
  intros Hsz out P.
  assert (Hmain : (forall w', out <> Raise OutOfFuel w') /\
    halving (size - 1) P /\
    (forall w', out = Ok tt w' ->
       halving_to_one (size - 1) P /\ Z.of_nat (length P) = Z.log2 (size - 1))).
  { unfold P, out. rewrite diamond_square_unfold.
    destruct (quiet_init_corners (start (blank size) r)) as [Hq Hf].
    destruct (init_corners (start (blank size) r)) as [[] w1|e w1] eqn:E1.
    - rewrite (init_corners_size _ _ E1). simpl self_size.
      destruct (main_loop_passes (Z.to_nat size) (size - 1) (of_int 1) w1)
        as (P' & HP & Hh & Hok & Hfuel).
      simpl in Hq. rewrite Hq in HP. simpl in HP. rewrite HP.
      split; [|split; [done|]].
      + apply Hfuel. pose proof (Z.log2_lt_lin (size - 1)). lia.
      + intros w' Hw'. split; [eauto|].
        apply halving_to_one_length; [eauto|lia].
    - simpl in *. rewrite Hq. split; [|split; [constructor|done]].
      intros w' [= -> ->]. by eapply Hf. }
  destruct Hmain as (H1 & H2 & H3). split; [done|]. split; [done|]. split; [done|].
  intros n ->.
  destruct (run_valid n r) as (w' & rest & E & _).
  cbv zeta in E. split; [by exists w'|].
  destruct (H3 w' E) as [_ Hlen].
  replace (2 ^ Z.of_nat n + 1 - 1) with (2 ^ Z.of_nat n) in Hlen by lia.
  rewrite Z.log2_pow2 in Hlen by lia. lia.
Qed.

Lemma main_loop_terminates_witness :
  let out := diamond_square (start (blank (F:=float) 5) sample_rng) in
  let P := passes (trace (final out)) in
  (forall w', out <> Raise OutOfFuel w') /\
  halving 4 P /\
  (forall w', out = Ok tt w' ->
     halving_to_one 4 P /\ Z.of_nat (length P) = Z.log2 4) /\
  (forall n : nat, 5 = 2 ^ Z.of_nat n + 1 ->
     (exists w', out = Ok tt w') /\ length P = n).
Proof. apply (main_loop_terminates (F:=float) 5 sample_rng). lia. Defined.

(** C10.  On a grid of side [2^n + 1], in every pass [j], every point the
    square step visits has at least three of its four directions in
    bounds: [square_neighbors] counts 3 or 4, so [avg /= count] has a
    non-zero divisor and returns normally; and the whole of
    [diamond_square] returns normally, whatever the draws. *)
Theorem square_count_never_zero {F} `{Num F} (n j : nat) (w : World F) (y x : Z)
    (r : rng F) :
  (1 <= j <= n)%nat ->
  let size := 2 ^ Z.of_nat n + 1 in
  let step_size := 2 ^ Z.of_nat j in
  let half_step := step_size / 2 in
  engine_ok (Z.to_nat size) w ->
  square_visit size step_size half_step y x ->
  (exists avg count w',
     square_neighbors half_step y x w = Ok (avg, count) w' /\
     3 <= count <= 4 /\
     average avg count w' = Ok (avg / of_int count)%num w') /\
  (exists w', diamond_square (start (blank size) r) = Ok tt w').
Proof.
  intros Hj size s h Hw Hv. split.
  2:{ destruct (run_valid n r) as (w' & rest & E & _). by exists w'. }
  destruct (pass_facts n j Hj) as (Hh1 & Hs & Hd & Hdh & Hsz & HN).
  fold size s h in Hh1, Hs, Hd, Hdh, Hsz, HN.
  destruct (square_visit_lattice _ _ _ _ _ Hh1 Hs Hv) as (Hy & Hx & _).
  destruct (neighbors_ok (Z.to_nat size) h y x w Hw) as (avg & w' & E);
    [lia|rewrite HN; lia|rewrite HN; lia|].
  exists avg, (neighbor_count size h y x), w'.
  rewrite HN in E. split; [done|].
  rewrite (square_visit_count size s h y x) by (done || lia).
  split; [destruct (on_boundary size y x); lia|].
  unfold average. by destruct (on_boundary size y x).
Qed.

Lemma square_count_never_zero_witness :
  (exists avg count w',
     square_neighbors 1 0 1 (start (blank (F:=float) 5) sample_rng) = Ok (avg, count) w' /\
     3 <= count <= 4 /\
     average avg count w' = Ok (avg / of_int count)%num w') /\
  (exists w', diamond_square (start (blank (F:=float) 5) sample_rng) = Ok tt w').
Proof.
  apply (square_count_never_zero (F:=float) 2 1 (start (blank 5) sample_rng) 0 1
           sample_rng).
  - lia.
  - apply (blank_ok 5). lia.
  - split; simpl; auto.
Defined.

(** * Properties beyond the claims *)

(** X1.  Away from the flat surface the rescaling of binary64 is
    monotonic: for a minimum [lo] below a maximum [hi], both of magnitude
    at most [2^1000] (so that no difference overflows), and two elevations
    [p <= q] between them, the rescaled [p'] and [q'] satisfy [p' <= q'],
    and both are in [[0, 1]]. *)
Theorem normalization_monotone (lo hi p q : float) :
  moderate lo -> moderate hi -> within lo hi p -> within lo hi q ->
  (lo <? hi)%num = true -> (p <=? q)%num = true ->
  exists p' q',
    rescale [[p; q]] lo hi = [[p'; q']] /\
    (p' <=? q')%num = true /\
    in_unit_interval p' = true /\ in_unit_interval q' = true.
Proof.
  intros (ql & Hlo & Bl) (qh & Hhi & Bh) Hp Hq Hlt Hpq.
  destruct (within_val lo hi p ql qh Hlo Hhi Hp) as (qp & Hqp & Bp).
  destruct (within_val lo hi q ql qh Hlo Hhi Hq) as (qq & Hqq & Bq).
  apply (fltb_val lo hi ql qh Hlo Hhi) in Hlt.
  apply (fleb_val p q qp qq Hqp Hqq) in Hpq.
  assert (HD : rep (inject_Z (2 ^ 1001))) by (apply rep_pow2; lia).
  assert (Hd : (qh - ql <= inject_Z (2 ^ 1001))%Q).
  { change (2 ^ 1001) with (2 ^ 1000 + 2 ^ 1000). rewrite inject_Z_plus. lra. }
  destruct (rescale_val p lo hi qp ql qh _ Hqp Hlo Hhi Bp Hlt HD Hd) as (zp & Hzp & Bzp & Hpos & Ep).
  destruct (rescale_val q lo hi qq ql qh _ Hqq Hlo Hhi Bq Hlt HD Hd) as (zq & Hzq & Bzq & _ & Eq).
  eexists _, _. split; [reflexivity|]. split.
  - apply (fleb_val _ _ zp zq Hzp Hzq). rewrite Ep, Eq. apply R_mono.
    apply Qmult_le_compat_r; [apply R_mono; lra|]. apply Qinv_le_0_compat. lra.
  - split; apply in_unit_interval_between; [by exists zp|by exists zq].
Qed.

Lemma normalization_monotone_witness :
  exists p' q',
    rescale [[lit 1 4; lit 1 2]] (of_int 0) (of_int 1) = [[p'; q']] /\
    (p' <=? q')%num = true /\
    in_unit_interval p' = true /\ in_unit_interval q' = true.
Proof.
  apply (normalization_monotone (of_int 0) (of_int 1) (lit 1 4) (lit 1 2)).
  - exists 0%Q. split; [apply val_0|]. split; unfold Qle; by vm_compute.
  - exists 1%Q. split; [apply val_1|]. split; unfold Qle; by vm_compute.
  - split; reflexivity.
  - split; reflexivity.
  - reflexivity.
  - reflexivity.
Defined.

(** X2.  On an engine of side [N = 2^n + 1] (any [n >= 0]) whose heightmap
    holds anything, [diamond_square] returns normally and assigns every
    cell of the heightmap exactly once, the four corners first and every
    other cell in one of the passes; and no cell keeps what it held before
    the call: started with the same generator state on any other contents
    of the heightmap, the call leaves the same heightmap. *)
Theorem every_cell_assigned_once {F} `{Num F} (n : nat) (w : World F) :
  let size := 2 ^ Z.of_nat n + 1 in
  let N := Z.to_nat size in
  engine_ok N w ->
  exists w',
    diamond_square w = Ok tt w' /\
    trace w' = trace w ++ corner_writes N ++ loop_events N size (2 ^ Z.of_nat n) /\
    (forall y x, (y < N)%nat -> (x < N)%nat ->
       writes_to y x (corner_writes N ++ loop_events N size (2 ^ Z.of_nat n)) = 1%nat) /\
    (forall w2, engine_ok N w2 -> random w2 = random w ->
       exists w2', diamond_square w2 = Ok tt w2' /\
                   self_heightmap (self w2') = self_heightmap (self w')).
Proof.
  intros size N I1. destruct (pow2_facts n) as (Hpos & Hlin & HN). fold size N in HN.
  destruct (run_trace n w I1) as (w' & E & _ & _ & _ & Tr). fold size N in E, Tr.
  exists w'. split; [done|]. split; [done|].
  split; [intros y x Hy Hx; by apply (all_cells_once n)|].
  intros w2 I2 R.
  destruct (together_init_corners N (fun _ => False) ltac:(lia) [] w w2)
    as (u1 & u2 & E1 & E2 & Hag);
    [done|split; [done|split; [done|split; [done|by intros r c []]]]|].
  simpl in Hag.
  destruct (together_main_loop N n HN n N (of_int 1) ltac:(lia) ltac:(lia)
              (corner_writes N) u1 u2) as (v1 & v2 & E3 & E4 & Hag'); [|done|].
  { intros e (y & x & Hy & Hx & Hdy & Hdx & ->).
    assert (Hc : forall v, 0 <= v < Z.of_nat N -> (2 ^ Z.of_nat n | v) ->
              Z.to_nat v = 0%nat \/ Z.to_nat v = (N - 1)%nat).
    { intros v Hv [k Hk]. assert (k = 0 \/ k = 1) as [->| ->] by nia; lia. }
    destruct (Hc y Hy Hdy) as [->| ->], (Hc x Hx Hdx) as [->| ->];
      unfold corner_writes; simpl; auto. }
  assert (Hds : forall w u v : World F, engine_ok N u -> init_corners w = Ok tt u ->
            main_loop N (2 ^ Z.of_nat n) (of_int 1) u = Ok tt v ->
            diamond_square w = Ok tt v).
  { intros w0 u v Hu Ei El.
    rewrite diamond_square_unfold, Ei, (inv_size _ _ _ Hu), Nat2Z.id.
    by replace (Z.of_nat N - 1) with (2 ^ Z.of_nat n) by lia. }
  destruct Hag as (Iu1 & Iu2 & _). destruct Hag' as (Iv1 & Iv2 & Rv & Hcells).
  pose proof (Hds w u1 v1 Iu1 E1 E3) as D1.
  pose proof (Hds w2 u2 v2 Iu2 E2 E4) as D2.
  rewrite E in D1. injection D1 as ->.
  exists v2. split; [done|]. symmetry.
  apply (grid_ext N); [apply Iv1|apply Iv2|]. intros r c Hr Hc.
  apply Hcells, written_In. rewrite HN. by apply (all_cells_once n).
Qed.

Lemma every_cell_assigned_once_witness :
  let w := start (blank (F:=float) 3) sample_rng in
  exists w',
    diamond_square w = Ok tt w' /\
    trace w' = trace w ++ corner_writes 3 ++ loop_events 3 3 2 /\
    (forall y x, (y < 3)%nat -> (x < 3)%nat ->
       writes_to y x (corner_writes 3 ++ loop_events 3 3 2) = 1%nat) /\
    (forall w2, engine_ok 3 w2 -> random w2 = random w ->
       exists w2', diamond_square w2 = Ok tt w2' /\
                   self_heightmap (self w2') = self_heightmap (self w')).
Proof.
  apply (every_cell_assigned_once (F:=float) 1 (start (blank 3) sample_rng)).
  apply (blank_ok 3). lia.
Defined.

(** X3.  On a grid of side [N = 2^n + 1] a run of [diamond_square]
    consumes exactly [N * N] draws of the global generator, one for each
    cell; the rest of [generate_coastline] (normalisation and colour
    mapping) draws nothing more, whether it returns or raises. *)
Theorem draws_consumed {F} `{Num F} (n : nat) (r : rng F) :
  let size := 2 ^ Z.of_nat n + 1 in
  let N := Z.to_nat size in
  let w0 := start (blank size) r in
  exists w',
    diamond_square w0 = Ok tt w' /\
    tape (random w') = tape r /\
    pos (random w') = (pos r + N * N)%nat /\
    random (final (generate_coastline w0)) = random w'.
Proof.
  intros size N w0. destruct (pow2_facts n) as (Hpos & _ & _).
  destruct (run_trace n w0) as (w' & E & _ & T & P & _).
  { apply blank_ok. lia. }
  exists w'. split; [done|]. split; [done|]. split; [done|].
  by apply after_diamond_square.
Qed.

(** X4.  On a grid of side [2^n + 1], [n >= 1], the raw heightmap that
    [diamond_square] leaves holds the first four draws in its corners
    [(0,0)], [(0,-1)], [(-1,0)], [(-1,-1)], in that order, and in its centre
    the mean of the four corners plus the offset of the fifth draw with
    range [1.0]. *)
Theorem corners_and_centre {F} `{Num F} (n : nat) (r : rng F) :
  (1 <= n)%nat ->
  let size := 2 ^ Z.of_nat n + 1 in
  let last := Z.to_nat (size - 1) in
  let mid := Z.to_nat ((size - 1) / 2) in
  let u k := tape r (pos r + k) in
  exists w',
    diamond_square (start (blank size) r) = Ok tt w' /\
    cell (self_heightmap (self w')) 0 0 = Some (u 0%nat) /\
    cell (self_heightmap (self w')) 0 last = Some (u 1%nat) /\
    cell (self_heightmap (self w')) last 0 = Some (u 2%nat) /\
    cell (self_heightmap (self w')) last last = Some (u 3%nat) /\
    cell (self_heightmap (self w')) mid mid =
      Some ((u 0%nat + u 2%nat + u 1%nat + u 3%nat) / of_int 4 +
            random_offset (u 4%nat) (of_int 1) (lit 6 10))%num.
Proof.
  intros Hn size last mid u.
  destruct (pass_facts n n ltac:(lia)) as (Hh & Hs & _ & _ & Hsz & HN).
  fold size in Hs, Hsz, HN.
  set (L := 2 ^ Z.of_nat n) in *. set (h := L / 2) in *.
  set (N := Z.to_nat size) in *.
  assert (HL : Z.of_nat N - 1 = L) by (unfold size in HN; lia).
  assert (Hmid : (size - 1) / 2 = h) by (unfold size; f_equal; lia).
  assert (Hlast : last = (N - 1)%nat) by (unfold last; lia).
  assert (Hlin : Z.of_nat n < L) by apply pow2_facts.
  assert (Ehp : h = 2 ^ Z.of_nat (n - 1)).
  { unfold h, L. replace n with (S (n - 1)) at 1 by lia.
    by destruct (pow2_half (n - 1)) as (_ & _ & ->). }
  assert (Hw0 : engine_ok N (start (blank size) r)) by (apply blank_ok; lia).
  destruct (init_corners_cells N _ ltac:(lia) Hw0)
    as (w1 & E1 & I1 & R1 & _ & C00 & C0L & CL0 & CLL).
  simpl in R1, C00, C0L, CL0, CLL.
  rewrite diamond_square_unfold, E1, (inv_size _ _ _ I1), Nat2Z.id, HL.
  rewrite first_pass by lia. fold h.
  (* the diamond step of the first pass *)
  pose proof (engine_ok_record N (EvPass L) w1 I1) as I1'.
  rewrite (first_diamond_step N) by (done || lia).
  destruct (diamond_point_value N L h (of_int 1) 0 0 _ (u 0%nat) (u 2%nat) (u 1%nat) (u 3%nat) I1')
    as (w2 & E2 & I2 & _ & Fr2 & Cmid); try lia;
    try (simpl; rewrite ?Z.add_0_l; replace (Z.to_nat L) with (N - 1)%nat by lia; done).
  rewrite E2. simpl in Cmid. rewrite R1 in Cmid. simpl in Cmid.
  rewrite Z.add_0_l in Cmid, Fr2.
  (* the rest of the run leaves these five cells alone *)
  destruct (paced_square_step N L h (of_int 1)) with (w := w2)
    as ([] & w3 & E3 & I3 & _ & _ & _ & _ & Fr3 & _); try lia; [done|].
  rewrite E3.
  destruct (paced_main_loop N (N - 1) h (of_int 1 * lit 5 10)%num) with (w := w3)
    as ([] & w4 & E4 & I4 & _ & _ & _ & _ & Fr4 & _); try lia; try done.
  { rewrite Ehp, Z.log2_pow2 by lia. lia. }
  { rewrite HL, Ehp. apply step_sizes_pow2. lia. }
  rewrite E4. exists w4. split; [done|].
  assert (Hkeep : forall y x : Z,
    ((y = 0 \/ y = L) /\ (x = 0 \/ x = L)) \/ (y = h /\ x = h) ->
    cell (self_heightmap (self w4)) (Z.to_nat y) (Z.to_nat x) =
    cell (self_heightmap (self w2)) (Z.to_nat y) (Z.to_nat x)).
  { intros y x Hyx.
    assert (Hm : forall v, v = 0 \/ v = L \/ v = h -> v mod h = 0).
    { intros v [->|[->| ->]].
      - apply Z.mod_0_l. lia.
      - rewrite Hs. apply Z.mod_mul. lia.
      - apply Z.mod_same. lia. }
    assert (HmL : forall v, v = 0 \/ v = L -> v mod L = 0).
    { intros v [->| ->]; [apply Z.mod_0_l|apply Z.mod_same]; lia. }
    assert (Hmh : h mod L = h) by (apply Z.mod_small; lia).
    rewrite Fr4, Fr3; [done| |].
    - rewrite HN, square_count by lia.
      destruct Hyx as [[Hy Hx]|[-> ->]].
      + rewrite (HmL y Hy), (HmL x Hx).
        destruct (Z.eqb_spec 0 h); [lia|]. done.
      + rewrite Hmh. destruct (Z.eqb_spec h 0); [lia|].
        by rewrite andb_false_r.
    - rewrite HN, Ehp, loop_count; try lia.
      + rewrite <- Ehp, (Hm y), (Hm x) by lia. done.
      + rewrite <- Ehp. exists 2. lia. }
  pose proof (Hkeep 0 0 ltac:(lia)) as K00.
  pose proof (Hkeep 0 L ltac:(lia)) as K0L.
  pose proof (Hkeep L 0 ltac:(lia)) as KL0.
  pose proof (Hkeep L L ltac:(lia)) as KLL.
  pose proof (Hkeep h h ltac:(lia)) as Khh.
  change (Z.to_nat 0) with 0%nat in *.
  unfold mid, last. rewrite Hmid. replace (size - 1) with L by (unfold size; lia).
  rewrite K00, K0L, KL0, KLL, Khh, !Fr2 by lia. simpl.
  replace (Z.to_nat L) with (N - 1)%nat by lia.
  unfold u in *. auto.
Qed.

Lemma corners_and_centre_witness :
  let r := sample_rng (F:=float) in
  let u k := tape r (pos r + k) in
  exists w',
    diamond_square (start (blank 5) r) = Ok tt w' /\
    cell (self_heightmap (self w')) 0 0 = Some (u 0%nat) /\
    cell (self_heightmap (self w')) 0 4 = Some (u 1%nat) /\
    cell (self_heightmap (self w')) 4 0 = Some (u 2%nat) /\
    cell (self_heightmap (self w')) 4 4 = Some (u 3%nat) /\
    cell (self_heightmap (self w')) 2 2 =
      Some ((u 0%nat + u 2%nat + u 1%nat + u 3%nat) / of_int 4 +
            random_offset (u 4%nat) (of_int 1) (lit 6 10))%num.
Proof. apply (corners_and_centre (F:=float) 2 sample_rng). lia. Defined.

(** X5.  The outcome of [diamond_square] on a freshly constructed engine,
    for every size the constructor accepts.  Let the step sizes be
    [size - 1], then half of it (floor division), and so on while above 1.
    The run returns normally exactly when [size >= 1] and every step size
    divides [size - 1]; otherwise it raises [IndexError]: on the first
    corner for [size = 0], else in the diamond step of the first pass
    whose step does not divide [size - 1].  It raises nothing else (no
    [ZeroDivisionError] in [avg /= count], whatever the size). *)
Theorem diamond_square_outcome {F} `{Num F} (size : Z) (r : rng F) :
  0 <= size ->
  let out := diamond_square (start (blank size) r) in
  let steps := step_sizes (Z.to_nat size) (size - 1) in
  halving_to_one (size - 1) steps /\
  ((exists w', out = Ok tt w') <->
     1 <= size /\ Forall (fun s => (s | size - 1)) steps) /\
  ((exists w', out = Raise IndexError w') <->
     size = 0 \/ Exists (fun s => ~ (s | size - 1)) steps).
Proof.
  intros Hsz out steps. split.
  { destruct (Z.eq_dec size 0) as [->|Hne]; [constructor; lia|].
    apply step_sizes_complete.
    pose proof (log2_fuel (Z.to_nat size) ltac:(lia)) as Hl.
    rewrite Z2Nat.id in Hl at 1 by lia. exact Hl. }
  subst out steps.
  destruct (diamond_square_cases size r Hsz) as [(H1 & Hall & w1 & E1)|(Hbad & w1 & E1)].
  - split; split.
    + by intros _.
    + intros _. by exists w1.
    + intros [w' E]. congruence.
    + intros [->|Hex]; [lia|]. exfalso.
      apply Exists_exists in Hex as (s & Hin & Hs). rewrite Forall_forall in Hall.
      apply Hs, Hall, Hin.
  - split; split.
    + intros [w' E]. congruence.
    + intros [H1 Hall]. exfalso. destruct Hbad as [->|Hex]; [lia|].
      apply Exists_exists in Hex as (s & Hin & Hs). rewrite Forall_forall in Hall.
      apply Hs, Hall, Hin.
    + by intros _.
    + intros _. by exists w1.
Qed.

Lemma diamond_square_outcome_witness :
  let out := diamond_square (start (blank (F:=float) 10) sample_rng) in
  let steps := step_sizes 10 9 in
  halving_to_one 9 steps /\
  ((exists w', out = Ok tt w') <-> 1 <= 10 /\ Forall (fun s => (s | 10 - 1)) steps) /\
  ((exists w', out = Raise IndexError w') <->
     10 = 0 \/ Exists (fun s => ~ (s | 10 - 1)) steps).
Proof. apply (diamond_square_outcome (F:=float) 10 sample_rng). lia. Defined.

(** X6.  What [generate_coastline] can raise on a freshly constructed
    engine, whatever the size and the draws: an [IndexError] (the sizes of
    [diamond_square_outcome]), or the [ValueError] or [OverflowError] of an
    [int(...)] or of a uint8 store in the colour mapping.  In particular
    the division by a zero range in the normalisation never raises
    [ZeroDivisionError]: it is numpy's, and gives nan. *)
Theorem generation_raises {F} `{Num F} (size : Z) (r : rng F) :
  (forall (x : F) (e : exn), to_int x = inl e -> e = ValueError \/ e = OverflowError) ->
  0 <= size ->
  let out := generate_coastline (start (blank size) r) in
  (exists img w', out = Ok img w') \/
  (exists e w', out = Raise e w' /\ numeric_error e).
Proof.
  intros Hint Hsz out.
  destruct out as [img w'|e w'] eqn:E; [left; eauto|right].
  exists e, w'. split; [done|].
  subst out. unfold generate_coastline in E. unfold bind at 1 in E.
  destruct (diamond_square_cases size r Hsz) as [(_ & _ & w1 & E1)|(_ & w1 & E1)];
    rewrite E1 in E.
  - revert E. apply (only_bind numeric_error normalize (fun _ => color_mapping)).
    + apply only_normalize.
    + intros _. by apply only_color_mapping.
  - injection E as <- _. by left.
Qed.

Lemma generation_raises_witness :
  let out := generate_coastline (start (blank (F:=float) 10) sample_rng) in
  (exists img w', out = Ok img w') \/
  (exists e w', out = Raise e w' /\ numeric_error e).
Proof.
  apply (generation_raises (F:=float) 10 sample_rng); [apply binary64_int_errors|lia].
Defined.

(** X7.  The palette (binary64, sea level [0.4], heights in [[0, 1]]).
    Below sea level a cell is rendered [(0, green, blue)] with [green] in
    150..225 and [blue] in 150..255; at or above sea level it is rendered
    [(red, green, 50)] with [red] in 100..150 and [green] in 120..180: the
    ranges of the source's comments, all within [uint8]. *)
Theorem color_palette (v : float) (w : World float) :
  self_sea_level (self w) = lit 4 10 -> in_unit_interval v = true ->
  exists red green blue,
    color v w = Ok (red, green, blue) w /\
    if (v <? self_sea_level (self w))%num
    then red = 0 /\ 150 <= green <= 225 /\ 150 <= blue <= 255
    else 100 <= red <= 150 /\ 120 <= green <= 180 /\ blue = 50.
Proof.
  intros Hsea Hv. unfold in_unit_interval in Hv. apply andb_true_iff in Hv as [H0 H1].
  destruct (val_between _ v _ 0 1 val_0 val_1 H0 H1) as (q & Hq & Hb).
  destruct (color_val v w Hsea) as ([[red green] blue] & E & Hpx); [by exists q|].
  exists red, green, blue. split; [done|].
  by destruct (v <? self_sea_level (self w))%num.
Qed.

Lemma color_palette_witness :
  let w := start (blank (F:=float) 3) sample_rng in
  exists red green blue,
    color (lit 1 4) w = Ok (red, green, blue) w /\
    if (lit 1 4 <? self_sea_level (self w))%num
    then red = 0 /\ 150 <= green <= 225 /\ 150 <= blue <= 255
    else 100 <= red <= 150 /\ 120 <= green <= 180 /\ blue = 50.
Proof.
  apply (color_palette (lit 1 4) (start (blank 3) sample_rng)); reflexivity.
Defined.

(** X8.  In binary64, for an engine that the constructor returned for a
    size [2^n + 1] and draws in [[0, 1)], whenever the raw minimum is below
    the raw maximum the normalised heightmap uses the whole of [[0, 1]]:
    some cell holds a zero (a cell where the raw minimum was) and some cell
    holds exactly 1 (a cell where the raw maximum was). *)
Theorem normalized_extremes (mem : Z) (n : nat) (g : CoastlineGenerator float)
    (r : rng float) :
  __init__ mem (2 ^ Z.of_nat n + 1) = inr g ->
  (forall i, unit_draw (tape r i)) ->
  exists w1 lo hi,
    diamond_square (start g r) = Ok tt w1 /\
    np_min (self_heightmap (self w1)) w1 = Ok lo w1 /\
    np_max (self_heightmap (self w1)) w1 = Ok hi w1 /\
    ((lo <? hi)%num = true ->
     exists img w2,
       generate_coastline (start g r) = Ok img w2 /\
       (exists y x z, cell (self_heightmap (self w1)) y x = Some lo /\
          cell (self_heightmap (self w2)) y x = Some z /\ val z 0) /\
       (exists y x z, cell (self_heightmap (self w1)) y x = Some hi /\
          cell (self_heightmap (self w2)) y x = Some z /\ val z 1)).
Proof.
  intros Einit Ht. apply init_pow2 in Einit as [-> Hn29].
  set (size := 2 ^ Z.of_nat n + 1). set (N := Z.to_nat size).
  destruct (float_generation n r ltac:(lia) Ht)
    as (w1 & lo & hi & E1 & Hok & Hb & Emin & Emax & Blo & Bhi & Clo & Chi & Hw & Egen).
  fold size N in E1, Hok, Egen.
  exists w1, lo, hi. split; [done|]. split; [done|]. split; [done|].
  intros Hlt. pose proof Hok as [Hsz Hsh _ Hr Hsea _].
  pose proof (rescale_unit lo hi _ _ 4 _ Blo Bhi rep_4 ltac:(lra) Hlt Hw) as Hunit.
  destruct (color_mapping_ok N
              (with_heightmap (rescale (self_heightmap (self w1)) lo hi) w1))
    as (img & Ec & Himg); simpl; auto using rescale_shaped.
  eexists img, _. rewrite Egen. split; [exact Ec|]. simpl.
  destruct Blo as (ql & Hlo & Bl). destruct Bhi as (qh & Hhi & Bh).
  apply (fltb_val lo hi ql qh Hlo Hhi) in Hlt.
  split.
  - destruct Clo as (y & x & Hc). exists y, x, ((lo - lo) / (hi - lo))%num.
    split; [done|]. split; [by apply cell_rescale|].
    destruct (rescale_val lo lo hi ql ql qh 4 Hlo Hlo Hhi ltac:(lra) Hlt rep_4 ltac:(lra))
      as (z & Hz & _ & Hpos & Ez).
    eapply val_proper; [|exact Hz]. rewrite Ez.
    assert (E0 : (ql - ql == 0)%Q) by ring. rewrite E0, (R_rep 0 rep_0).
    assert (E1' : (0 / R (qh - ql) == 0)%Q) by (field; lra). rewrite E1'. apply R_rep, rep_0.
  - destruct Chi as (y & x & Hc). exists y, x, ((hi - lo) / (hi - lo))%num.
    split; [done|]. split; [by apply cell_rescale|].
    destruct (rescale_val hi lo hi qh ql qh 4 Hhi Hlo Hhi ltac:(lra) Hlt rep_4 ltac:(lra))
      as (z & Hz & _ & Hpos & Ez).
    eapply val_proper; [|exact Hz]. rewrite Ez.
    assert (E1' : (R (qh - ql) / R (qh - ql) == 1)%Q) by (field; lra).
    rewrite E1'. apply R_rep, rep_1.
Qed.

Lemma normalized_extremes_witness :
  exists w1 lo hi,
    diamond_square (start (blank 3) sample_rng) = Ok tt w1 /\
    np_min (self_heightmap (self w1)) w1 = Ok lo w1 /\
    np_max (self_heightmap (self w1)) w1 = Ok hi w1 /\
    ((lo <? hi)%num = true ->
     exists img w2,
       generate_coastline (start (blank 3) sample_rng) = Ok img w2 /\
       (exists y x z, cell (self_heightmap (self w1)) y x = Some lo /\
          cell (self_heightmap (self w2)) y x = Some z /\ val z 0) /\
       (exists y x z, cell (self_heightmap (self w1)) y x = Some hi /\
          cell (self_heightmap (self w2)) y x = Some z /\ val z 1)).
Proof.
  apply (normalized_extremes (2 ^ 30) 1 (blank 3) sample_rng);
    [reflexivity|apply sample_draws_unit].
Defined.

(** X9.  In binary64, for an engine that the constructor returned for a
    size [2^n + 1] and draws in [[0, 1)]: whenever the raw surface is flat
    (its minimum is not below its maximum), [generate_coastline] raises
    [ValueError] (the [int] of a nan in the colour of the first cell) and
    leaves a heightmap in which every cell is nan.  With
    [heightmap_normalized]: generation returns normally exactly when the raw
    minimum is below the raw maximum. *)
Theorem flat_surface_always_fails (mem : Z) (n : nat) (g : CoastlineGenerator float)
    (r : rng float) :
  __init__ mem (2 ^ Z.of_nat n + 1) = inr g ->
  (forall i, unit_draw (tape r i)) ->
  exists w1 lo hi,
    diamond_square (start g r) = Ok tt w1 /\
    np_min (self_heightmap (self w1)) w1 = Ok lo w1 /\
    np_max (self_heightmap (self w1)) w1 = Ok hi w1 /\
    ((lo <? hi)%num = false ->
     exists w2,
       generate_coastline (start g r) = Raise ValueError w2 /\
       Forall (Forall (fun v => isnan v = true)) (self_heightmap (self w2))).
Proof.
  intros Einit Ht. apply init_pow2 in Einit as [-> Hn29].
  set (size := 2 ^ Z.of_nat n + 1). set (N := Z.to_nat size).
  destruct (float_generation n r ltac:(lia) Ht)
    as (w1 & lo & hi & E1 & Hok & Hb & Emin & Emax & Blo & Bhi & Clo & Chi & Hw & Egen).
  fold size N in E1, Hok, Egen.
  exists w1, lo, hi. split; [done|]. split; [done|]. split; [done|].
  intros Hlt. pose proof Hok as [Hsz Hsh _ Hr Hsea _].
  pose proof (rescale_flat lo hi _ (between_finite _ _ _ Blo) (between_finite _ _ _ Bhi)
                Hlt Hw) as Hnan.
  destruct (pow2_facts n) as (Hpos & Hlin & HN).
  exists (with_heightmap (rescale (self_heightmap (self w1)) lo hi) w1).
  rewrite Egen. split; [|exact Hnan].
  apply (color_mapping_nan N); [unfold N, size; lia| |done].
  constructor; simpl; auto using rescale_shaped; [|by intros].
  eapply Forall_impl; [exact Hnan|]. intros row _. by apply Forall_forall.
Qed.

Lemma flat_surface_always_fails_witness :
  exists w1 lo hi,
    diamond_square (start (blank 3) flat_rng) = Ok tt w1 /\
    np_min (self_heightmap (self w1)) w1 = Ok lo w1 /\
    np_max (self_heightmap (self w1)) w1 = Ok hi w1 /\
    ((lo <? hi)%num = false ->
     exists w2,
       generate_coastline (start (blank 3) flat_rng) = Raise ValueError w2 /\
       Forall (Forall (fun v => isnan v = true)) (self_heightmap (self w2))).
Proof.
  apply (flat_surface_always_fails (2 ^ 30) 1 (blank 3) flat_rng); [reflexivity|].
  intros i. by vm_compute.
Defined.

(** X10.  The colour mapping is a pure rendering of the heightmap.
    Whenever [color_mapping] returns an image on an engine with an
    [N x N] heightmap, it has left the engine, the generator and the trace
    untouched, the image is [N x N], and its pixel at [(y, x)] is the
    colour that lines 84-95 give to the height of the cell [(y, x)]. *)
Theorem image_renders_heightmap {F} `{Num F} (N : nat) (w w' : World F) (img : grid rgb) :
  self_size (self w) = Z.of_nat N ->
  shaped N (self_heightmap (self w)) ->
  color_mapping w = Ok img w' ->
  w' = w /\ shaped N img /\
  forall y x, (y < N)%nat -> (x < N)%nat ->
    exists v px,
      cell (self_heightmap (self w)) y x = Some v /\
      color v w = Ok px w /\
      cell img y x = Some px.
Proof.
  intros Hsz Hsh E. unfold color_mapping, bind at 1, get_self in E.
  rewrite Hsz, Nat2Z.id in E.
  apply (fold_for_prefix w _ _ (fun pre img => rendered N w (fun y _ => In y pre) img) )
    with (pre := []) in E.
  - destruct E as [-> [Himg Hall]]. split; [done|]. split; [done|].
    intros y x Hy Hx.
    destruct (Hall (Z.of_nat y) (Z.of_nat x)) as (v & px & Hv & Ec & Hc); try lia.
    { apply range_spec; [lia|]. split; [lia|]. exists (Z.of_nat y). lia. }
    rewrite !Nat2Z.id in *. eauto.
  - intros y img0. apply readonly_fold_for. intros x img1.
    apply readonly_bind; [apply readonly_getitem|]. intros v.
    apply readonly_bind; [apply readonly_color|]. intros px.
    apply readonly_image_set.
  - intros pre y img0 img1 Hy Hpre Erow.
    apply range_spec in Hy as [Hy _]; [|lia].
    apply (fold_for_prefix w _ _
             (fun pre' img => rendered N w (fun y' x' => In y' pre \/ (y' = y /\ In x' pre')) img))
      with (pre := []) in Erow.
    + destruct Erow as [_ [Himg Hall]]. split; [done|].
      intros y' x' Hy' Hx' Hin. apply Hall; [done..|].
      apply in_app_or in Hin as [Hin|[<-|[]]]; [by left|right].
      split; [done|]. apply range_spec; [lia|]. split; [lia|]. exists x'. lia.
    + intros x img2.
      apply readonly_bind; [apply readonly_getitem|]. intros v.
      apply readonly_bind; [apply readonly_color|]. intros px.
      apply readonly_image_set.
    + intros pre' x img2 img3 Hx Hpre' Ecell.
      apply range_spec in Hx as [Hx _]; [|lia].
      destruct (render_cell N w _ img2 img3 y x Hsh ltac:(lia) ltac:(lia) Hpre' Ecell)
        as [Himg Hall].
      split; [done|]. intros y' x' Hy' Hx' Hin. apply Hall; [done..|].
      destruct Hin as [Hin|[-> Hin]]; [by left; left|].
      apply in_app_or in Hin as [Hin|[<-|[]]]; [left; right|right]; done.
    + destruct Hpre as [Himg Hall]. split; [done|].
      intros y' x' Hy' Hx' [Hin|[_ []]]. by apply Hall.
  - split; [apply replicate_shaped|]. by intros y x _ _ [].
Qed.

Lemma image_renders_heightmap_witness :
  let w := final (generate_coastline (start (blank (F:=float) 3) sample_rng)) in
  exists img w',
    w' = w /\ shaped 3 img /\
    forall y x, (y < 3)%nat -> (x < 3)%nat ->
      exists v px,
        cell (self_heightmap (self w)) y x = Some v /\
        color v w = Ok px w /\
        cell img y x = Some px.
Proof.
  eexists _, _.
  apply (image_renders_heightmap (F:=float) 3
           (final (generate_coastline (start (blank 3) sample_rng)))).
  - reflexivity.
  - vm_compute. repeat constructor.
  - vm_compute. reflexivity.
Defined.

(** X11.  In binary64, for an engine that the constructor returned for a
    size [2^n + 1] and draws in [[0, 1)], every raw elevation that
    [diamond_square] produces is a finite float within [[-1.25, 2.25]],
    whatever the size of the grid: the corners are in [[0, 1)], each of the
    two steps of a pass with range [r] moves the elevations by at most
    [0.3125 r] beyond the extremes of the cells it averages (roundings
    included), and the range halves exactly from pass to pass. *)
Theorem raw_elevations_bounded (mem : Z) (n : nat) (g : CoastlineGenerator float)
    (r : rng float) :
  __init__ mem (2 ^ Z.of_nat n + 1) = inr g ->
  (forall i, unit_draw (tape r i)) ->
  exists w',
    diamond_square (start g r) = Ok tt w' /\
    Forall (Forall (between (- (5 # 4)) (9 # 4))) (self_heightmap (self w')).
Proof.
  intros Einit Ht. apply init_pow2 in Einit as [-> Hn29].
  destruct (raw_elevations n r ltac:(lia) Ht) as (w' & E & _ & _ & Hb).
  by exists w'.
Qed.

Lemma raw_elevations_bounded_witness :
  exists w',
    diamond_square (start (blank 5) sample_rng) = Ok tt w' /\
    Forall (Forall (between (- (5 # 4)) (9 # 4))) (self_heightmap (self w')).
Proof.
  apply (raw_elevations_bounded (2 ^ 30) 2 (blank 5) sample_rng);
    [reflexivity|apply sample_draws_unit].
Defined.

(** X12.  [diamond_square] regenerates the heightmap from the draws alone.
    On two engines of side [2^n + 1] whose heightmaps hold anything (a
    fresh array of zeros, the result of an earlier call) and with the
    global generator in the same state, it returns normally on both and
    leaves the same heightmap and the same generator state; and
    [generate_coastline] then ends alike on both. *)
Theorem diamond_square_overwrites {F} `{Num F} (n : nat) (w1 w2 : World F) :
  let N := Z.to_nat (2 ^ Z.of_nat n + 1) in
  engine_ok N w1 -> engine_ok N w2 -> random w1 = random w2 ->
  exists w1' w2',
    diamond_square w1 = Ok tt w1' /\ diamond_square w2 = Ok tt w2' /\
    self w1' = self w2' /\ random w1' = random w2' /\
    same_outcome (generate_coastline w1) (generate_coastline w2).
Proof.
  intros N I1 I2 R. destruct (pow2_facts n) as (Hpos & Hlin & HN). fold N in HN.
  destruct (together_init_corners N (fun _ => False) ltac:(lia) [] w1 w2)
    as (u1 & u2 & E1 & E2 & Hag);
    [done|split; [done|split; [done|split; [done|by intros r c []]]]|].
  simpl in Hag.
  destruct (together_main_loop N n HN n N (of_int 1) ltac:(lia) ltac:(lia)
              (corner_writes N) u1 u2) as (v1 & v2 & E3 & E4 & Hag'); [|done|].
  { intros e (y & x & Hy & Hx & Hdy & Hdx & ->).
    assert (Hc : forall v, 0 <= v < Z.of_nat N -> (2 ^ Z.of_nat n | v) ->
              Z.to_nat v = 0%nat \/ Z.to_nat v = (N - 1)%nat).
    { intros v Hv [k Hk]. assert (k = 0 \/ k = 1) as [->| ->] by nia; lia. }
    destruct (Hc y Hy Hdy) as [->| ->], (Hc x Hx Hdx) as [->| ->];
      unfold corner_writes; simpl; auto. }
  assert (Hds : forall w u v : World F, engine_ok N u -> init_corners w = Ok tt u ->
            main_loop N (2 ^ Z.of_nat n) (of_int 1) u = Ok tt v ->
            diamond_square w = Ok tt v).
  { intros w u v Hu Ei El.
    rewrite diamond_square_unfold, Ei, (inv_size _ _ _ Hu), Nat2Z.id.
    by replace (Z.of_nat N - 1) with (2 ^ Z.of_nat n) by lia. }
  destruct Hag as (Iu1 & Iu2 & _). destruct Hag' as (Iv1 & Iv2 & Rv & Hcells).
  pose proof (Hds w1 u1 v1 Iu1 E1 E3) as D1.
  pose proof (Hds w2 u2 v2 Iu2 E2 E4) as D2.
  assert (Hself : self v1 = self v2).
  { assert (Hhm : self_heightmap (self v1) = self_heightmap (self v2)).
    { apply (grid_ext N); [apply Iv1|apply Iv2|]. intros r c Hr Hc.
      apply Hcells, written_In.
      rewrite HN. by apply (all_cells_once n). }
    destruct Iv1 as [S1 _ _ R1 L1 _], Iv2 as [S2 _ _ R2 L2 _].
    destruct (self v1), (self v2). simpl in *. congruence. }
  exists v1, v2. split; [done|]. split; [done|]. split; [done|]. split; [done|].
  assert (Eg : forall w v : World F, diamond_square w = Ok tt v ->
            generate_coastline w = bind normalize (fun _ => color_mapping) v).
  { intros w v Ed. unfold generate_coastline. unfold bind at 1. by rewrite Ed. }
  rewrite (Eg w1 v1 D1), (Eg w2 v2 D2).
  apply (obl_bind normalize (fun _ => color_mapping));
    [apply obl_normalize|intros _; apply obl_color_mapping|by split].
Qed.

Lemma diamond_square_overwrites_witness :
  let w1 := start (blank (F:=float) 3) sample_rng in
  let w2 := with_heightmap (replicate 3 (replicate 3 (of_int 1))) w1 in
  exists w1' w2',
    diamond_square w1 = Ok tt w1' /\ diamond_square w2 = Ok tt w2' /\
    self w1' = self w2' /\ random w1' = random w2' /\
    same_outcome (generate_coastline w1) (generate_coastline w2).
Proof.
  apply (diamond_square_overwrites (F:=float) 1).
  - apply (blank_ok 3). lia.
  - constructor; simpl; auto.
    + apply (replicate_shaped 3).
    + by repeat constructor.
    + by intros.
  - reflexivity.
Defined.
